(** * Elliptic integrals and Jacobi elliptic functions of Principia:
      a shallow embedding of [numerics/elliptic_integrals.cpp] and
      [numerics/elliptic_functions.cpp] over binary64 arithmetic.

    The C++ type [double] is Rocq's primitive [float] (IEEE 754 binary64,
    round to nearest even, one NaN).  Every [+ - * / sqrt abs] of the source
    is the corresponding primitive operation, every comparison the IEEE
    comparison ([<?], [<=?], [=?]: false on NaN, [+0 = -0]).  The elementary
    functions of the C library and the polynomial evaluators of
    [numerics/polynomial_evaluators.hpp] are not part of the sources at hand;
    they are gathered in the record [Externals] and every definition that
    needs one takes the record as an argument.  The second file is for the
    most part still the Fortran listing it is being translated from: [Gscd]
    is C++, the routines it calls ([Scd2], [elk]) are read from the listing,
    every real variable and literal a binary64 number. *)

From Stdlib Require Import ZArith List Bool Lia Reals Lra Psatz Floats.
From Stdlib Require String Ascii.
Import ListNotations.

Set Warnings "-inexact-float".

#[local] Open Scope float_scope.

(** ** Collaborators that are not under the sources at hand *)

(** Modelled from the specification: the constant [π] of
    [quantities/numbers.hpp], a header that is not among the sources at
    hand; the binary64 number nearest to pi. *)
Definition π : float := 3.14159265358979323846264338327950288419716939937511.

(** [log], [atan], [atanh], [Sin], [Cos]: the elementary functions the
    sources call.  [HornerEvaluate] and [EstrinEvaluate]: the two evaluators
    of [PolynomialInMonomialBasis], applied to the coefficient list (lowest
    degree first) and the argument. *)
Record Externals : Type := {
  ext_log : float -> float;
  ext_atan : float -> float;
  ext_atanh : float -> float;
  ext_Sin : float -> float;
  ext_Cos : float -> float;
  ext_HornerEvaluate : list float -> float -> float;
  ext_EstrinEvaluate : list float -> float -> float
}.

(** The value a C++ function returns for [std::numeric_limits<double>::quiet_NaN()]. *)
Definition quiet_NaN : float := nan.

(** [static_cast<double>(k)] for a small non-negative integer [k]. *)
Definition of_nat (k : nat) : float := of_uint63 (Uint63.of_Z (Z.of_nat k)).

(** ** Bulirsch's general complete elliptic integral [cel] *)

Module Cel.
(* These values should give us 14 digits of accuracy, see [Buli69]. *)
Definition ca : float := 1.0e-7.
Definition kc_nearly_0 : float := 1.0e-14.
End Cel.

(** What a call of [BulirschCel] leaves behind: the value returned and
    whether the [DLOG(ERROR)] line was written. *)
Record cel_result : Type := { cel_value : float; cel_logged : bool }.

(** The loop [for (;;)] of Bartky's algorithm.  The source has no bound on
    the number of iterations; [fuel] is the number of iterations the model
    is allowed, [None] meaning that the loop has not left after [fuel]
    iterations. *)
Fixpoint Bartky (fuel : nat) (kc e m p a b : float) : option float :=
  match fuel with
  | O => None
  | S fuel' =>
      let f := a in
      let a := b / p + a in
      let g := e / p in
      let b := f * g + b in
      let b := b + b in
      let p := g + p in
      let g := m in
      let m := kc + m in
      if abs (g - kc) <=? g * Cel.ca then
        Some ((π / 2) * (a * m + b) / (m * (m + p)))
      else
        let kc := sqrt e in
        let kc := kc + kc in
        let e := kc * m in
        Bartky fuel' kc e m p a b
  end.

(** The code after the test [kc == 0.0]: [kc = Abs(kc)], the initial values
    of [p], [a], [b], then the loop. *)
Definition BulirschCel_proceed (fuel : nat) (kc nc a b : float) : option float :=
  let p := nc in
  let kc := abs kc in
  let e := kc in
  let m := 1.0 in
  (* Initial values for p, a, b. *)
  if 0.0 <? p then
    let p := sqrt p in
    let b := b / p in
    Bartky fuel kc e m p a b
  else
    let f := kc * kc in
    let q := 1.0 - f in
    let g := 1.0 - p in
    let f := f - p in
    let q := (b - a * p) * q in
    let p := sqrt (f / g) in
    let a := (a - b) / g in
    let b := a * p - q / (g * g * p) in
    Bartky fuel kc e m p a b.

Definition BulirschCel (fuel : nat) (kc nc a b : float) : option cel_result :=
  if kc =? 0.0 then
    if b =? 0.0 then
      option_map (fun v => {| cel_value := v; cel_logged := false |})
                 (BulirschCel_proceed fuel Cel.kc_nearly_0 nc a b)
    else
      (* "If in this case b ≠ 0 then cel is undefined." *)
      Some {| cel_value := quiet_NaN; cel_logged := true |}
  else
    option_map (fun v => {| cel_value := v; cel_logged := false |})
               (BulirschCel_proceed fuel kc nc a b).

(** ** The nome and Fukushima's T *)

(** The coefficients of the Maclaurin series of [q(m) / m], where [q] is
    Jacobi's nome ([EllipticNomeQMaclaurin::full_series]). *)
Definition EllipticNomeQMaclaurin_full_series : list float :=
  [ 1.0 / 16.0;
    1.0 / 32.0;
    21.0 / 1024.0;
    31.0 / 2048.0;
    6257.0 / 524288.0;
    10293.0 / 1048576.0;
    279025.0 / 33554432.0;
    483127.0 / 67108864.0;
    435506703.0 / 68719476736.0;
    776957575.0 / 137438953472.0;
    22417045555.0 / 4398046511104.0;
    40784671953.0 / 8796093022208.0;
    9569130097211.0 / 2251799813685248.0;
    17652604545791.0 / 4503599627370496.0;
    523910972020563.0 / 144115188075855872.0;
    976501268709949.0 / 288230376151711744.0 ].

(** [EllipticNomeQMaclaurin<n, Evaluator>::polynomial]: the first [n + 1]
    coefficients. *)
Definition EllipticNomeQMaclaurin (n : nat) : list float :=
  firstn (n + 1) EllipticNomeQMaclaurin_full_series.

(** [FukushimaTMaclaurin<n, Evaluator>::polynomial]: the coefficients
    [1.0 / (2.0 * k + 1.0)] for [k = 0 .. n]. *)
Definition FukushimaTMaclaurin (n : nat) : list float :=
  map (fun k => 1.0 / (2.0 * of_nat k + 1.0)) (seq 0 (n + 1)).

(** The branches of [FukushimaT]: return [t], return [t] times the
    polynomial of the given degree, or one of the two closed forms. *)
Inductive T_branch : Type :=
  | T_argument
  | T_Maclaurin (degree : nat)
  | T_atan
  | T_atanh.

(** The cascade of tests of [FukushimaT] on its own, as a function of [z]:
    the same tests in the same order, each answering with the name of the
    branch instead of its value. *)
Definition FukushimaT_branch (z : float) : T_branch :=
  let abs_z := abs z in
  if abs_z <? 3.3306691e-16 then T_argument
  else if abs_z <? 2.3560805e-08 then T_Maclaurin 1
  else if abs_z <? 9.1939631e-06 then T_Maclaurin 2
  else if abs_z <? 1.7779240e-04 then T_Maclaurin 3
  else if abs_z <? 1.0407839e-03 then T_Maclaurin 4
  else if abs_z <? 3.3616998e-03 then T_Maclaurin 5
  else if abs_z <? 7.7408014e-03 then T_Maclaurin 6
  else if abs_z <? 1.4437181e-02 then T_Maclaurin 7
  else if abs_z <? 2.3407312e-02 then T_Maclaurin 8
  else if abs_z <? 3.4416203e-02 then T_Maclaurin 9
  else if z <? 0.0 then T_atan
  else if abs_z <? 4.7138547e-02 then T_Maclaurin 10
  else if abs_z <? 6.1227405e-02 then T_Maclaurin 11
  else if abs_z <? 7.6353468e-02 then T_Maclaurin 12
  else T_atanh.

(** ** Maclaurin series of Bs, Ds and Js *)

Module BsDsMaclaurin.
Definition F10 : float := 1.0 / 6.0.
Definition F20 : float := 3.0 / 40.0.
Definition F21 : float := 2.0 / 40.0.
Definition F30 : float := 5.0 / 112.0.
Definition F31 : float := 3.0 / 112.0.
Definition F40 : float := 35.0 / 1152.0.
Definition F41 : float := 20.0 / 1152.0.
Definition F42 : float := 18.0 / 1152.0.
Definition F50 : float := 63.0 / 2816.0.
Definition F51 : float := 35.0 / 2816.0.
Definition F52 : float := 30.0 / 2816.0.
Definition F60 : float := 231.0 / 13312.0.
Definition F61 : float := 126.0 / 13312.0.
Definition F62 : float := 105.0 / 13312.0.
Definition F63 : float := 100.0 / 13312.0.
Definition F70 : float := 429.0 / 30720.0.
Definition F71 : float := 231.0 / 30720.0.
Definition F72 : float := 189.0 / 30720.0.
Definition F73 : float := 175.0 / 30720.0.
Definition F80 : float := 6435.0 / 557056.0.
Definition F81 : float := 3432.0 / 557056.0.
Definition F82 : float := 2722.0 / 557056.0.
Definition F83 : float := 2520.0 / 557056.0.
Definition F84 : float := 2450.0 / 557056.0.
Definition F90 : float := 12155.0 / 1245184.0.
Definition F91 : float := 6435.0 / 1245184.0.
Definition F92 : float := 5148.0 / 1245184.0.
Definition F93 : float := 4620.0 / 1245184.0.
Definition F94 : float := 4410.0 / 1245184.0.
Definition FA0 : float := 46189.0 / 5505024.0.
Definition FA1 : float := 24310.0 / 5505024.0.
Definition FA2 : float := 19305.0 / 5505024.0.
Definition FA3 : float := 17160.0 / 5505024.0.
Definition FA4 : float := 16170.0 / 5505024.0.
Definition FA5 : float := 15876.0 / 5505024.0.
Definition FB0 : float := 88179.0 / 12058624.0.
Definition FB1 : float := 46189.0 / 12058624.0.
Definition FB2 : float := 36465.0 / 12058624.0.
Definition FB3 : float := 32175.0 / 12058624.0.
Definition FB4 : float := 30030.0 / 12058624.0.
Definition FB5 : float := 29106.0 / 12058624.0.
Definition A1 : float := 3.0 / 5.0.
Definition A2 : float := 5.0 / 7.0.
Definition A3 : float := 7.0 / 9.0.
Definition A4 : float := 9.0 / 11.0.
Definition A5 : float := 11.0 / 13.0.
Definition A6 : float := 13.0 / 15.0.
Definition A7 : float := 15.0 / 17.0.
Definition A8 : float := 17.0 / 19.0.
Definition A9 : float := 19.0 / 21.0.
Definition AA : float := 21.0 / 23.0.
Definition AB : float := 23.0 / 25.0.
Definition D0 : float := 1.0 / 3.0.

Definition FukushimaEllipticBsDsMaclaurinSeries (y m : float) : float * float :=
  let F1 := F10 + m * F10 in
  let F2 := F20 + m * (F21 + m * F20) in
  let F3 := F30 + m * (F31 + m * (F31 + m * F30)) in
  let F4 := F40 + m * (F41 + m * (F42 + m * (F41 + m * F40))) in
  let F5 := F50 + m * (F51 + m * (F52 + m * (F52 + m * (F51 + m * F50)))) in
  let F6 := F60 + m * (F61 + m * (F62 + m * (F63 + m * (F62 + m * (F61 +
      m * F60))))) in
  let F7 := F70 + m * (F71 + m * (F72 + m * (F73 + m * (F73 + m * (F72 + m * (F71 +
      m * F70)))))) in
  let F8 := F80 + m * (F81 + m * (F82 + m * (F83 + m * (F84 + m * (F83 + m * (F82 +
      m * (F81 + m * F80))))))) in
  let F9 := F90 + m * (F91 + m * (F92 + m * (F93 + m * (F94 + m * (F94 + m * (F93 +
      m * (F92 + m * (F91 + m * F90)))))))) in
  let FA := FA0 + m * (FA1 + m * (FA2 + m * (FA3 + m * (FA4 + m * (FA5 + m * (FA4 +
      m * (FA3 + m * (FA2 + m * (FA1 + m * FA0))))))))) in
  let FB := FB0 + m * (FB1 + m * (FB2 + m * (FB3 + m * (FB4 + m * (FB5 + m * (FB5 +
      m * (FB4 + m * (FB3 + m * (FB2 + m * (FB1 + m * FB0)))))))))) in
  let D1 := F1 * A1 in
  let D2 := F2 * A2 in
  let D3 := F3 * A3 in
  let D4 := F4 * A4 in
  let D5 := F5 * A5 in
  let D6 := F6 * A6 in
  let D7 := F7 * A7 in
  let D8 := F8 * A8 in
  let D9 := F9 * A9 in
  let DA := FA * AA in
  let DB := FB * AB in
  let d := D0 +
      y * (D1 +
      y * (D2 +
      y * (D3 +
      y * (D4 +
      y * (D5 +
      y * (D6 +
      y * (D7 +
      y * (D8 +
      y * (D9 +
      y * (DA + y * DB)))))))))) in
  let B1 := F1 - D0 in
  let B2 := F2 - D1 in
  let B3 := F3 - D2 in
  let B4 := F4 - D3 in
  let B5 := F5 - D4 in
  let B6 := F6 - D5 in
  let B7 := F7 - D6 in
  let B8 := F8 - D7 in
  let B9 := F9 - D8 in
  let BA := FA - D9 in
  let BB := FB - DA in
  let b := 1.0 +
      y * (B1 +
      y * (B2 +
      y * (B3 +
      y * (B4 +
      y * (B5 +
      y * (B6 +
      y * (B7 +
      y * (B8 +
      y * (B9 +
      y * (BA + y * BB)))))))))) in
  (b, d).
End BsDsMaclaurin.

Abbreviation FukushimaEllipticBsDsMaclaurinSeries :=
  BsDsMaclaurin.FukushimaEllipticBsDsMaclaurinSeries.

Module JsMaclaurin.
Definition J100 : float := 1.0 / 3.0.
Definition J200 : float := 1.0 / 10.0.
Definition J201 : float := 2.0 / 10.0.
Definition J210 : float := 1.0 / 10.0.
Definition J300 : float := 3.0 / 56.0.
Definition J301 : float := 4.0 / 56.0.
Definition J302 : float := 8.0 / 56.0.
Definition J310 : float := 2.0 / 56.0.
Definition J311 : float := 4.0 / 56.0.
Definition J320 : float := 3.0 / 56.0.
Definition J400 : float := 5.0 / 144.0.
Definition J401 : float := 6.0 / 144.0.
Definition J402 : float := 8.0 / 144.0.
Definition J403 : float := 16.0 / 144.0.
Definition J410 : float := 3.0 / 144.0.
Definition J411 : float := 4.0 / 144.0.
Definition J412 : float := 8.0 / 144.0.
Definition J420 : float := 3.0 / 144.0.
Definition J421 : float := 6.0 / 144.0.
Definition J430 : float := 5.0 / 144.0.
Definition J500 : float := 35.0 / 1408.0.
Definition J501 : float := 40.0 / 1408.0.
Definition J502 : float := 48.0 / 1408.0.
Definition J503 : float := 64.0 / 1408.0.
Definition J504 : float := 128.0 / 1408.0.
Definition J510 : float := 20.0 / 1408.0.
Definition J511 : float := 24.0 / 1408.0.
Definition J512 : float := 32.0 / 1408.0.
Definition J513 : float := 64.0 / 1408.0.
Definition J520 : float := 18.0 / 1408.0.
Definition J521 : float := 24.0 / 1408.0.
Definition J522 : float := 48.0 / 1408.0.
Definition J530 : float := 20.0 / 1408.0.
Definition J531 : float := 40.0 / 1408.0.
Definition J540 : float := 35.0 / 1408.0.
Definition J600 : float := 63.0 / 3328.0.
Definition J601 : float := 70.0 / 3328.0.
Definition J602 : float := 80.0 / 3328.0.
Definition J603 : float := 96.0 / 3328.0.
Definition J604 : float := 128.0 / 3328.0.
Definition J605 : float := 256.0 / 3328.0.
Definition J610 : float := 35.0 / 3328.0.
Definition J611 : float := 40.0 / 3328.0.
Definition J612 : float := 48.0 / 3328.0.
Definition J613 : float := 64.0 / 3328.0.
Definition J614 : float := 128.0 / 3328.0.
Definition J620 : float := 30.0 / 3328.0.
Definition J621 : float := 36.0 / 3328.0.
Definition J622 : float := 48.0 / 3328.0.
Definition J623 : float := 96.0 / 3328.0.
Definition J630 : float := 30.0 / 3328.0.
Definition J631 : float := 40.0 / 3328.0.
Definition J632 : float := 80.0 / 3328.0.
Definition J640 : float := 35.0 / 3328.0.
Definition J641 : float := 70.0 / 3328.0.
Definition J650 : float := 63.0 / 3328.0.
Definition J700 : float := 231.0 / 15360.0.
Definition J701 : float := 252.0 / 15360.0.
Definition J702 : float := 280.0 / 15360.0.
Definition J703 : float := 320.0 / 15360.0.
Definition J704 : float := 384.0 / 15360.0.
Definition J705 : float := 512.0 / 15360.0.
Definition J706 : float := 1024.0 / 15360.0.
Definition J710 : float := 126.0 / 15360.0.
Definition J711 : float := 140.0 / 15360.0.
Definition J712 : float := 160.0 / 15360.0.
Definition J713 : float := 192.0 / 15360.0.
Definition J714 : float := 256.0 / 15360.0.
Definition J715 : float := 512.0 / 15360.0.
Definition J720 : float := 105.0 / 15360.0.
Definition J721 : float := 120.0 / 15360.0.
Definition J722 : float := 144.0 / 15360.0.
Definition J723 : float := 192.0 / 15360.0.
Definition J724 : float := 384.0 / 15360.0.
Definition J730 : float := 100.0 / 15360.0.
Definition J731 : float := 120.0 / 15360.0.
Definition J732 : float := 160.0 / 15360.0.
Definition J733 : float := 320.0 / 15360.0.
Definition J740 : float := 105.0 / 15360.0.
Definition J741 : float := 140.0 / 15360.0.
Definition J742 : float := 280.0 / 15360.0.
Definition J750 : float := 126.0 / 15360.0.
Definition J751 : float := 252.0 / 15360.0.
Definition J760 : float := 231.0 / 15360.0.
Definition J800 : float := 429.0 / 34816.0.
Definition J801 : float := 462.0 / 34816.0.
Definition J802 : float := 504.0 / 34816.0.
Definition J803 : float := 560.0 / 34816.0.
Definition J804 : float := 640.0 / 34816.0.
Definition J805 : float := 768.0 / 34816.0.
Definition J806 : float := 1024.0 / 34816.0.
Definition J807 : float := 2048.0 / 34816.0.
Definition J810 : float := 231.0 / 34816.0.
Definition J811 : float := 252.0 / 34816.0.
Definition J812 : float := 280.0 / 34816.0.
Definition J813 : float := 320.0 / 34816.0.
Definition J814 : float := 384.0 / 34816.0.
Definition J815 : float := 512.0 / 34816.0.
Definition J816 : float := 1024.0 / 34816.0.
Definition J820 : float := 189.0 / 34816.0.
Definition J821 : float := 210.0 / 34816.0.
Definition J822 : float := 240.0 / 34816.0.
Definition J823 : float := 288.0 / 34816.0.
Definition J824 : float := 284.0 / 34816.0.
Definition J825 : float := 768.0 / 34816.0.
Definition J830 : float := 175.0 / 34816.0.
Definition J831 : float := 200.0 / 34816.0.
Definition J832 : float := 240.0 / 34816.0.
Definition J833 : float := 320.0 / 34816.0.
Definition J834 : float := 640.0 / 34816.0.
Definition J840 : float := 175.0 / 34816.0.
Definition J841 : float := 210.0 / 34816.0.
Definition J842 : float := 280.0 / 34816.0.
Definition J843 : float := 560.0 / 34816.0.
Definition J850 : float := 189.0 / 34816.0.
Definition J851 : float := 252.0 / 34816.0.
Definition J852 : float := 504.0 / 34816.0.
Definition J860 : float := 231.0 / 34816.0.
Definition J861 : float := 462.0 / 34816.0.
Definition J870 : float := 429.0 / 34816.0.
Definition J900 : float := 6435.0 / 622592.0.
Definition J901 : float := 6864.0 / 622592.0.
Definition J902 : float := 7392.0 / 622592.0.
Definition J903 : float := 8064.0 / 622592.0.
Definition J904 : float := 8960.0 / 622592.0.
Definition J905 : float := 10240.0 / 622592.0.
Definition J906 : float := 12288.0 / 622592.0.
Definition J907 : float := 16384.0 / 622592.0.
Definition J908 : float := 32768.0 / 622592.0.
Definition J910 : float := 3432.0 / 622592.0.
Definition J911 : float := 3696.0 / 622592.0.
Definition J912 : float := 4032.0 / 622592.0.
Definition J913 : float := 4480.0 / 622592.0.
Definition J914 : float := 5120.0 / 622592.0.
Definition J915 : float := 6144.0 / 622592.0.
Definition J916 : float := 8192.0 / 622592.0.
Definition J917 : float := 16384.0 / 622592.0.
Definition J920 : float := 2772.0 / 622592.0.
Definition J921 : float := 3024.0 / 622592.0.
Definition J922 : float := 3360.0 / 622592.0.
Definition J923 : float := 3840.0 / 622592.0.
Definition J924 : float := 4608.0 / 622592.0.
Definition J925 : float := 6144.0 / 622592.0.
Definition J926 : float := 12288.0 / 622592.0.
Definition J930 : float := 2520.0 / 622592.0.
Definition J931 : float := 2800.0 / 622592.0.
Definition J932 : float := 3200.0 / 622592.0.
Definition J933 : float := 3840.0 / 622592.0.
Definition J934 : float := 5120.0 / 622592.0.
Definition J935 : float := 10240.0 / 622592.0.
Definition J940 : float := 2450.0 / 622592.0.
Definition J941 : float := 2800.0 / 622592.0.
Definition J942 : float := 3360.0 / 622592.0.
Definition J943 : float := 4480.0 / 622592.0.
Definition J944 : float := 8960.0 / 622592.0.
Definition J950 : float := 2520.0 / 622592.0.
Definition J951 : float := 3024.0 / 622592.0.
Definition J952 : float := 4032.0 / 622592.0.
Definition J953 : float := 8064.0 / 622592.0.
Definition J960 : float := 2772.0 / 622592.0.
Definition J961 : float := 3696.0 / 622592.0.
Definition J962 : float := 7392.0 / 622592.0.
Definition J970 : float := 3432.0 / 622592.0.
Definition J971 : float := 6864.0 / 622592.0.
Definition J980 : float := 6435.0 / 622592.0.
Definition JA00 : float := 12155.0 / 1376256.0.
Definition JA01 : float := 12870.0 / 1376256.0.
Definition JA02 : float := 13728.0 / 1376256.0.
Definition JA03 : float := 14784.0 / 1376256.0.
Definition JA04 : float := 16128.0 / 1376256.0.
Definition JA05 : float := 17920.0 / 1376256.0.
Definition JA06 : float := 20480.0 / 1376256.0.
Definition JA07 : float := 24576.0 / 1376256.0.
Definition JA08 : float := 32768.0 / 1376256.0.
Definition JA09 : float := 65536.0 / 1376256.0.
Definition JA10 : float := 6435.0 / 1376256.0.
Definition JA11 : float := 6864.0 / 1376256.0.
Definition JA12 : float := 7392.0 / 1376256.0.
Definition JA13 : float := 8064.0 / 1376256.0.
Definition JA14 : float := 8960.0 / 1376256.0.
Definition JA15 : float := 10240.0 / 1376256.0.
Definition JA16 : float := 12288.0 / 1376256.0.
Definition JA17 : float := 16384.0 / 1376256.0.
Definition JA18 : float := 32768.0 / 1376256.0.
Definition JA20 : float := 5148.0 / 1376256.0.
Definition JA21 : float := 5544.0 / 1376256.0.
Definition JA22 : float := 6048.0 / 1376256.0.
Definition JA23 : float := 6720.0 / 1376256.0.
Definition JA24 : float := 7680.0 / 1376256.0.
Definition JA25 : float := 9216.0 / 1376256.0.
Definition JA26 : float := 12288.0 / 1376256.0.
Definition JA27 : float := 24576.0 / 1376256.0.
Definition JA30 : float := 4620.0 / 1376256.0.
Definition JA31 : float := 5040.0 / 1376256.0.
Definition JA32 : float := 5600.0 / 1376256.0.
Definition JA33 : float := 6400.0 / 1376256.0.
Definition JA34 : float := 7680.0 / 1376256.0.
Definition JA35 : float := 10240.0 / 1376256.0.
Definition JA36 : float := 20480.0 / 1376256.0.
Definition JA40 : float := 4410.0 / 1376256.0.
Definition JA41 : float := 4900.0 / 1376256.0.
Definition JA42 : float := 5600.0 / 1376256.0.
Definition JA43 : float := 6720.0 / 1376256.0.
Definition JA44 : float := 8960.0 / 1376256.0.
Definition JA45 : float := 17920.0 / 1376256.0.
Definition JA50 : float := 4410.0 / 1376256.0.
Definition JA51 : float := 5040.0 / 1376256.0.
Definition JA52 : float := 6048.0 / 1376256.0.
Definition JA53 : float := 8064.0 / 1376256.0.
Definition JA54 : float := 16128.0 / 1376256.0.
Definition JA60 : float := 4620.0 / 1376256.0.
Definition JA61 : float := 5544.0 / 1376256.0.
Definition JA62 : float := 7392.0 / 1376256.0.
Definition JA63 : float := 14784.0 / 1376256.0.
Definition JA70 : float := 5148.0 / 1376256.0.
Definition JA71 : float := 6864.0 / 1376256.0.
Definition JA72 : float := 13728.0 / 1376256.0.
Definition JA80 : float := 6435.0 / 1376256.0.
Definition JA81 : float := 12870.0 / 1376256.0.
Definition JA90 : float := 12155.0 / 1376256.0.

Definition FukushimaEllipticJsMaclaurinSeries (y n m : float) : float :=
  let J1 := J100 in
  let J2 := J200 + n * J201 + m * J210 in
  let J3 := J300 + n * (J301 + n * J302) + m * (J310 + n * J311 + m * J320) in
  let J4 := J400 + n * (J401 + n * (J402 + n * J403)) +
      m * (J410 + n * (J411 + n * J412) + m * (J420 + n * J421 + m * J430)) in
  let J5 := J500 + n * (J501 + n * (J502 + n * (J503 + n * J504))) +
      m * (J510 + n * (J511 + n * (J512 + n * J513)) +
      m * (J520 + n * (J521 + n * J522) +
      m * (J530 + n * J531 + m * J540))) in
  if y <=? 6.0369310e-04 then
    y * (J1 + y * (J2 + y * (J3 + y * (J4 + y * J5))))
  else
  let J6 := J600 + n * (J601 + n * (J602 + n * (J603 + n * (J604 + n * J605)))) +
      m * (J610 + n * (J611 + n * (J612 + n * (J613 + n * J614))) +
      m * (J620 + n * (J621 + n * (J622 + n * J623)) +
      m * (J630 + n * (J631 + n * J632) +
      m * (J640 + n * J641 + m * J650)))) in
  if y <=? 2.0727505e-03 then
    y * (J1 + y * (J2 + y * (J3 + y * (J4 + y * (J5 + y * J6)))))
  else
  let J7 := J700 +
      n * (J701 +
      n * (J702 + n * (J703 + n * (J704 + n * (J705 + n * J706))))) +
      m * (J710 + n * (J711 + n * (J712 + n * (J713 + n * (J714 + n * J715)))) +
      m * (J720 + n * (J721 + n * (J722 + n * (J723 + n * J724))) +
      m * (J730 + n * (J731 + n * (J732 + n * J733)) +
      m * (J740 + n * (J741 + n * J742) +
      m * (J750 + n * J751 + m * J760))))) in
  if y <=? 5.0047026e-03 then
    y *
      (J1 + y * (J2 + y * (J3 + y * (J4 + y * (J5 + y * (J6 + y * J7))))))
  else
  let J8 := J800 +
      n * (J801 +
      n * (J802 +
      n * (J803 + n * (J804 + n * (J805 + n * (J806 + n * J807)))))) +
      m * (J810 +
      n * (J811 +
      n * (J812 + n * (J813 + n * (J814 + n * (J815 + n * J816))))) +
      m * (J820 +
      n * (J821 + n * (J822 + n * (J823 + n * (J824 + n * J825)))) +
      m * (J830 + n * (J831 + n * (J832 + n * (J833 + n * J834))) +
      m * (J840 + n * (J841 + n * (J842 + n * J843)) +
      m * (J850 + n * (J851 + n * J852) +
      m * (J860 + n * J861 + m * J870)))))) in
  if y <=? 9.6961652e-03 then
    y * (J1 +
      y * (J2 +
      y * (J3 +
      y * (J4 + y * (J5 + y * (J6 + y * (J7 + y * J8)))))))
  else
  let J9 := J900 +
      n * (J901 +
      n * (J902 +
      n * (J903 +
      n * (J904 +
      n * (J905 + n * (J906 + n * (J907 + n * J908))))))) +
      m * (J910 +
      n * (J911 +
      n * (J912 +
      n * (J913 +
      n * (J914 + n * (J915 + n * (J916 + n * J917)))))) +
      m * (J920 +
      n * (J921 +
      n * (J922 +
      n * (J923 + n * (J924 + n * (J925 + n * J926))))) +
      m * (J930 +
      n * (J931 +
      n * (J932 + n * (J933 + n * (J934 + n * J935)))) +
      m * (J940 +
      n * (J941 + n * (J942 + n * (J943 + n * J944))) +
      m * (J950 + n * (J951 + n * (J952 + n * J953)) +
      m * (J960 + n * (J961 + n * J962) +
      m * (J970 + n * J971 + m * J980))))))) in
  if y <=? 1.6220210e-02 then
    y *
      (J1 +
      y * (J2 +
      y * (J3 +
      y * (J4 +
      y * (J5 +
      y * (J6 + y * (J7 + y * (J8 + y * J9))))))))
  else
  let JA := JA00 +
      n * (JA01 +
      n * (JA02 +
      n * (JA03 +
      n * (JA04 +
      n * (JA05 +
      n * (JA06 +
      n * (JA07 + n * (JA08 + n * JA09)))))))) +
      m * (JA10 +
      n * (JA11 +
      n * (JA12 +
      n * (JA13 +
      n * (JA14 +
      n * (JA15 +
      n * (JA16 + n * (JA17 + n * JA18))))))) +
      m * (JA20 +
      n * (JA21 +
      n * (JA22 +
      n * (JA23 +
      n * (JA24 +
      n * (JA25 + n * (JA26 + n * JA27)))))) +
      m * (JA30 +
      n * (JA31 +
      n * (JA32 +
      n * (JA33 +
      n * (JA34 + n * (JA35 + n * JA36))))) +
      m * (JA40 +
      n * (JA41 +
      n * (JA42 +
      n * (JA43 + n * (JA44 + n * JA45)))) +
      m * (JA50 +
      n * (JA51 + n * (JA52 + n * (JA53 + n * JA54))) +
      m * (JA60 + n * (JA61 + n * (JA62 + n * JA63)) +
      m * (JA70 + n * (JA71 + n * JA72) +
      m * (JA80 + n * JA81 +
      m * JA90)))))))) in
    y * (J1 +
      y * (J2 +
      y * (J3 +
      y * (J4 +
      y * (J5 +
      y * (J6 +
      y * (J7 +
      y * (J8 + y * (J9 + y * JA))))))))).
End JsMaclaurin.

Abbreviation FukushimaEllipticJsMaclaurinSeries :=
  JsMaclaurin.FukushimaEllipticJsMaclaurinSeries.

Module FukushimaEllipticBD_constants.
Definition K1 : float := 1.0 / 4.0.
Definition K2 : float := 9.0 / 64.0.
Definition K3 : float := 25.0 / 256.0.
Definition K4 : float := 1225.0 / 16384.0.
Definition K5 : float := 3969.0 / 65536.0.
Definition K6 : float := 53361.0 / 1048576.0.
Definition K7 : float := 184041.0 / 4194304.0.
Definition B1 : float := 1.0 / 2.0.
Definition B2 : float := 1.0 / 16.0.
Definition B3 : float := 3.0 / 128.0.
Definition B4 : float := 25.0 / 2048.0.
Definition B5 : float := 245.0 / 32768.0.
Definition B6 : float := 1323.0 / 262144.0.
Definition B7 : float := 7623.0 / 2097152.0.
Definition B8 : float := 184041.0 / 67108864.0.
Definition D1 : float := 1.0 / 2.0.
Definition D2 : float := 3.0 / 16.0.
Definition D3 : float := 15.0 / 128.0.
Definition D4 : float := 175.0 / 2048.0.
Definition D5 : float := 2205.0 / 32768.0.
Definition D6 : float := 14553.0 / 262144.0.
Definition D7 : float := 99099.0 / 2097152.0.
Definition D8 : float := 2760615.0 / 67108864.0.
End FukushimaEllipticBD_constants.

(** ** The integrals *)

Section Integrals.

Variable X : Externals.

#[local] Abbreviation log := (ext_log X).
#[local] Abbreviation atan := (ext_atan X).
#[local] Abbreviation atanh := (ext_atanh X).
#[local] Abbreviation Sin := (ext_Sin X).
#[local] Abbreviation Cos := (ext_Cos X).
#[local] Abbreviation HornerEvaluate := (ext_HornerEvaluate X).
#[local] Abbreviation EstrinEvaluate := (ext_EstrinEvaluate X).

(** [EllipticNomeQ<degree>(mc)]. *)
Definition EllipticNomeQ (degree : nat) (mc : float) : float :=
  mc * EstrinEvaluate (EllipticNomeQMaclaurin (degree - 1)) mc.

(** [FukushimaTMaclaurin1 .. 3] are evaluated by Horner's scheme,
    [FukushimaTMaclaurin4 .. 12] by Estrin's. *)
Definition FukushimaTMaclaurin_Evaluate (n : nat) (z : float) : float :=
  if (n <=? 3)%nat then HornerEvaluate (FukushimaTMaclaurin n) z
  else EstrinEvaluate (FukushimaTMaclaurin n) z.

Definition FukushimaT (t h : float) : float :=
  let z := - h * t * t in
  let abs_z := abs z in
  if abs_z <? 3.3306691e-16 then
    t
  else if abs_z <? 2.3560805e-08 then
    t * FukushimaTMaclaurin_Evaluate 1 z
  else if abs_z <? 9.1939631e-06 then
    t * FukushimaTMaclaurin_Evaluate 2 z
  else if abs_z <? 1.7779240e-04 then
    t * FukushimaTMaclaurin_Evaluate 3 z
  else if abs_z <? 1.0407839e-03 then
    t * FukushimaTMaclaurin_Evaluate 4 z
  else if abs_z <? 3.3616998e-03 then
    t * FukushimaTMaclaurin_Evaluate 5 z
  else if abs_z <? 7.7408014e-03 then
    t * FukushimaTMaclaurin_Evaluate 6 z
  else if abs_z <? 1.4437181e-02 then
    t * FukushimaTMaclaurin_Evaluate 7 z
  else if abs_z <? 2.3407312e-02 then
    t * FukushimaTMaclaurin_Evaluate 8 z
  else if abs_z <? 3.4416203e-02 then
    t * FukushimaTMaclaurin_Evaluate 9 z
  else if z <? 0.0 then
    let r := sqrt h in
    atan (r * t) / r
  else if abs_z <? 4.7138547e-02 then
    t * FukushimaTMaclaurin_Evaluate 10 z
  else if abs_z <? 6.1227405e-02 then
    t * FukushimaTMaclaurin_Evaluate 11 z
  else if abs_z <? 7.6353468e-02 then
    t * FukushimaTMaclaurin_Evaluate 12 z
  else
    let r := sqrt (- h) in
    atanh (r * t) / r.

(** The value each branch of [FukushimaT] returns. *)
Definition T_branch_value (br : T_branch) (t h z : float) : float :=
  match br with
  | T_argument => t
  | T_Maclaurin n => t * FukushimaTMaclaurin_Evaluate n z
  | T_atan => let r := sqrt h in atan (r * t) / r
  | T_atanh => let r := sqrt (- h) in atanh (r * t) / r
  end.

(** *** Complete integrals of the second and third kind *)

Section BD.
Import FukushimaEllipticBD_constants.

Definition FukushimaEllipticBD (mc : float) : float * float :=
  let m := 1.0 - mc in
  if m <? 1.11e-16 then
    let elb := π / 4 in
    let eld := π / 4 in
    (elb, eld)
  else if mc <? 1.11e-16 then
    let elb := 1.0 in
    let eld := 0.3862943611198906188344642429164 - 0.5 * log mc in
    (elb, eld)
  else if mc <? 0.1 then
    let nome := EllipticNomeQ 16 mc in
    let '(dkkc, dddc) :=
      if mc <? 0.01 then
        let dkkc := mc * (K1 +
            mc * (K2 + mc * (K3 + mc * (K4 + mc * (K5 + mc * (K6 + mc * K7)))))) in
        let dddc := mc * (D1 +
            mc * (D2 + mc * (D3 + mc * (D4 + mc * (D5 + mc * (D6 + mc * D7)))))) in
        (dkkc, dddc)
      else
        let mx := mc - 0.05 in
        let dkkc := 0.01286425658832983978282698630501405107893
            + mx * (0.26483429894479586582278131697637750604652
            + mx * (0.15647573786069663900214275050014481397750
            + mx * (0.11426146079748350067910196981167739749361
            + mx * (0.09202724415743445309239690377424239940545
            + mx * (0.07843218831801764082998285878311322932444
            + mx * (0.06935260142642158347117402021639363379689
            + mx * (0.06293203529021269706312943517695310879457
            + mx * (0.05821227592779397036582491084172892108196
            + mx * (0.05464909112091564816652510649708377642504
            + mx * (0.05191068843704411873477650167894906357568
            + mx * (0.04978344771840508342564702588639140680363
            + mx * (0.04812375496807025605361215168677991360500)))))))))))) in
        let dddc := 0.02548395442966088473597712420249483947953
            + mx * (0.51967384324140471318255255900132590084179
            + mx * (0.20644951110163173131719312525729037023377
            + mx * (0.13610952125712137420240739057403788152260
            + mx * (0.10458014040566978574883406877392984277718
            + mx * (0.08674612915759188982465635633597382093113
            + mx * (0.07536380269617058326770965489534014190391
            + mx * (0.06754544594618781950496091910264174396541
            + mx * (0.06190939688096410201497509102047998554900
            + mx * (0.05771071515451786553160533778648705873199
            + mx * (0.05451217098672207169493767625617704078257
            + mx * (0.05204028407582600387265992107877094920787
            + mx * (0.05011532514520838441892567405879742720039)))))))))))) in
        (dkkc, dddc) in
    let kkc := 1.0 + dkkc in
    let logq2 := - 0.5 * log nome in
    let elk := kkc * logq2 in
    let dele := - dkkc / kkc + logq2 * dddc in
    let elk1 := elk - 1.0 in
    let delb := (dele - mc * elk1) / m in
    let elb := 1.0 + delb in
    let eld := elk1 - delb in
    (elb, eld)
  else if m <=? 0.01 then
    let elb := (π / 2) * (B1 + m * (B2 + m * (B3 + m * (B4 + m * (B5 + m * (B6 + m *
        (B7 + m * B8))))))) in
    let eld := (π / 2) * (D1 + m * (D2 + m * (D3 + m * (D4 + m * (D5 + m * (D6 + m *
        (D7 + m * D8))))))) in
    (elb, eld)
  else if m <=? 0.1 then
    let mx := 0.95 - mc in
    let elb := 0.790401413584395132310045630540381158921005
        + mx * (0.102006266220019154892513446364386528537788
        + mx * (0.039878395558551460860377468871167215878458
        + mx * (0.021737136375982167333478696987134316809322
        + mx * (0.013960979767622057852185340153691548520857
        + mx * (0.009892518822669142478846083436285145400444
        + mx * (0.007484612400663335676130416571517444936951
        + mx * (0.005934625664295473695080715589652011420808
        + mx * (0.004874249053581664096949448689997843978535
        + mx * (0.004114606930310886136960940893002069423559
        + mx * (0.003550452989196176932747744728766021440856
        + mx * (0.003119229959988474753291950759202798352266))))))))))) in
    let eld := 0.800602040206397047799296975176819811774784
        + mx * (0.313994477771767756849615832867393028789057
        + mx * (0.205913118705551954501930953451976374435088
        + mx * (0.157744346538923994475225014971416837073598
        + mx * (0.130595077319933091909091103101366509387938
        + mx * (0.113308474489758568672985167742047066367053
        + mx * (0.101454199173630195376251916342483192174927
        + mx * (0.0929187842072974367037702927967784464949434
        + mx * (0.0865653801481680871714054745336652101162894
        + mx * (0.0817279846651030135350056216958053404884715
        + mx * (0.0779906657291070378163237851392095284454654
        + mx * (0.075080426851268007156477347905308063808848))))))))))) in
    (elb, eld)
  else if m <=? 0.2 then
    let mx := 0.85 - mc in
    let elb := 0.80102406445284489393880821604009991524037
        + mx * (0.11069534452963401497502459778015097487115
        + mx * (0.047348746716993717753569559936346358937777
        + mx * (0.028484367255041422845322166419447281776162
        + mx * (0.020277811444003597057721308432225505126013
        + mx * (0.015965005853099119442287313909177068173564
        + mx * (0.013441320273553634762716845175446390822633
        + mx * (0.011871565736951439501853534319081030547931
        + mx * (0.010868363672485520630005005782151743785248
        + mx * (0.010231587232710564565903812652581252337697
        + mx * (0.009849585546666211201566987057592610884309
        + mx * (0.009656606347153765129943681090056980586986))))))))))) in
    let eld := 0.834232667811735098431315595374145207701720
        + mx * (0.360495281619098275577215529302260739976126
        + mx * (0.262379664114505869328637749459234348287432
        + mx * (0.223723944518094276386520735054801578584350
        + mx * (0.206447811775681052682922746753795148394463
        + mx * (0.199809440876486856438050774316751253389944
        + mx * (0.199667451603795274869211409350873244844882
        + mx * (0.204157558868236842039815028663379643303565
        + mx * (0.212387467960572375038025392458549025660994
        + mx * (0.223948914061499360356873401571821627069173
        + mx * (0.238708097425597860161720875806632864507536
        + mx * (0.256707203545463755643710021815937785120030))))))))))) in
    (elb, eld)
  else if m <=? 0.3 then
    let mx := 0.75 - mc in
    let elb := 0.81259777291992049322557009456643357559904
        + mx * (0.12110961794551011284012693733241967660542
        + mx * (0.057293376831239877456538980381277010644332
        + mx * (0.038509451602167328057004166642521093142114
        + mx * (0.030783430301775232744816612250699163538318
        + mx * (0.027290564934732526869467118496664914274956
        + mx * (0.025916369289445198731886546557337255438083
        + mx * (0.025847203343361799141092472018796130324244
        + mx * (0.026740923539348854616932735567182946385269
        + mx * (0.028464314554825704963640157657034405579849
        + mx * (0.030995446237278954096189768338119395563447
        + mx * (0.034384369179940975864103666824736551261799
        + mx * (0.038738002072493935952384233588242422046537)))))))))))) in
    let eld := 0.873152581892675549645633563232643413901757
        + mx * (0.420622230667770215976919792378536040460605
        + mx * (0.344231061559450379368201151870166692934830
        + mx * (0.331133021818721761888662390999045979071436
        + mx * (0.345277285052808411877017306497954757532251
        + mx * (0.377945322150393391759797943135325823338761
        + mx * (0.427378012464553880508348757311170776829930
        + mx * (0.494671744307822405584118022550673740404732
        + mx * (0.582685115665646200824237214098764913658889
        + mx * (0.695799207728083164790111837174250683834359
        + mx * (0.840018401472533403272555302636558338772258
        + mx * (1.023268503573606060588689738498395211300483
        + mx * (1.255859085136282496149035687741403985044122)))))))))))) in
    (elb, eld)
  else if m <=? 0.4 then
    let mx := 0.65 - mc in
    let elb := 0.8253235579835158949845697805395190063745
        + mx * (0.1338621160836877898575391383950840569989
        + mx * (0.0710112935979886745743770664203746758134
        + mx * (0.0541784774173873762208472152701393154906
        + mx * (0.0494517449481029932714386586401273353617
        + mx * (0.0502221962241074764652127892365024315554
        + mx * (0.0547429131718303528104722303305931350375
        + mx * (0.0627462579270016992000788492778894700075
        + mx * (0.0746698810434768864678760362745179321956
        + mx * (0.0914808451777334717996463421986810092918
        + mx * (0.1147050921109978235104185800057554574708
        + mx * (0.1465711325814398757043492181099197917984
        + mx * (0.1902571373338462844225085057953823854177)))))))))))) in
    let eld := 0.9190270392420973478848471774160778462738
        + mx * (0.5010021592882475139767453081737767171354
        + mx * (0.4688312705664568629356644841691659415972
        + mx * (0.5177142277764000147059587510833317474467
        + mx * (0.6208433913173031070711926900889045286988
        + mx * (0.7823643937868697229213240489900179142670
        + mx * (1.0191145350761029126165253557593691585239
        + mx * (1.3593452027484960522212885423056424704073
        + mx * (1.8457173023588279422916645725184952058635
        + mx * (2.5410717031539207287662105618152273788399
        + mx * (3.5374046552080413366422791595672470037341
        + mx * (4.9692960029774259303491034652093672488707
        + mx * (7.0338228700300311264031522795337352226926
        + mx * (10.020043225034471401553194050933390974016))))))))))))) in
    (elb, eld)
  else if m <=? 0.5 then
    let mx := 0.55 - mc in
    let elb := 0.8394795702706129706783934654948360410325
        + mx * (0.1499164403063963359478614453083470750543
        + mx * (0.0908319358194288345999005586556105610069
        + mx * (0.0803470334833417864262134081954987019902
        + mx * (0.0856384405004704542717663971835424473169
        + mx * (0.1019547259329903716766105911448528069506
        + mx * (0.1305748115336160150072309911623351523284
        + mx * (0.1761050763588499277679704537732929242811
        + mx * (0.2468351644029554468698889593583314853486
        + mx * (0.3564244768677188553323196975301769697977
        + mx * (0.5270025622301027434418321205779314762241
        + mx * (0.7943896342593047502260866957039427731776
        + mx * (1.2167625324297180206378753787253096783993)))))))))))) in
    let eld := 0.9744043665463696730314687662723484085813
        + mx * (0.6132468053941609101234053415051402349752
        + mx * (0.6710966695021669963502789954058993004082
        + mx * (0.8707276201850861403618528872292437242726
        + mx * (1.2295422312026907609906452348037196571302
        + mx * (1.8266059675444205694817638548699906990301
        + mx * (2.8069345309977627400322167438821024032409
        + mx * (4.4187893290840281339827573139793805587268
        + mx * (7.0832360574787653249799018590860687062869
        + mx * (11.515088120557582942290563338274745712174
        + mx * (18.931511185999274639516732819605594455165
        + mx * (31.411996938204963878089048091424028309798
        + mx * (52.520729454575828537934780076768577185134
        + mx * (88.384854735065298062125622417251073520996
        + mx * (149.56637449398047835236703116483092644714
        + mx * (254.31790843104117434615624121937495622372))))))))))))))) in
    (elb, eld)
  else if m <=? 0.6 then
    let mx := 0.45 - mc in
    let elb := 0.8554696151564199914087224774321783838373
        + mx * (0.1708960726897395844132234165994754905373
        + mx * (0.1213352290269482260207667564010437464156
        + mx * (0.1282018835749474096272901529341076494573
        + mx * (0.1646872814515275597348427294090563472179
        + mx * (0.2374189087493817423375114793658754489958
        + mx * (0.3692081047164954516884561039890508294508
        + mx * (0.6056587338479277173311618664015401963868
        + mx * (1.0337055615578127436826717513776452476106
        + mx * (1.8189884893632678849599091011718520567105
        + mx * (3.2793776512738509375806561547016925831128
        + mx * (6.0298883807175363312261449542978750456611
        + mx * (11.269796855577941715109155203721740735793
        + mx * (21.354577850382834496786315532111529462693))))))))))))) in
    let eld := 1.04345529511513353426326823569160142342838
        + mx * (0.77962572192850485048535711388072271372632
        + mx * (1.02974236093206758187389128668777397528702
        + mx * (1.62203722341135313022433907993860147395972
        + mx * (2.78798953118534762046989770119382209443756
        + mx * (5.04838148737206914685643655935236541332892
        + mx * (9.46327761194348429539987572314952029503864
        + mx * (18.1814899494276679043749394081463811247757
        + mx * (35.5809805911791687037085198750213045708148
        + mx * (70.6339354619144501276254906239838074917358
        + mx * (141.828580083433059297030133195739832297859
        + mx * (287.448751250132166257642182637978103762677
        + mx * (587.115384649923076181773192202238389711345
        + mx * (1207.06543522548061603657141890778290399603
        + mx * (2495.58872724866422273012188618178997342537
        + mx * (5184.69242939480644062471334944523925163600
        + mx * (10817.2133369041327524988910635205356016939)))))))))))))))) in
    (elb, eld)
  else if m <=? 0.7 then
    let mx := 0.35 - mc in
    let elb := 0.8739200618486431359820482173294324246058
        + mx * (0.1998140574823769459497418213885348159654
        + mx * (0.1727696158780152128147094051876565603862
        + mx * (0.2281069132842021671319791750725846795701
        + mx * (0.3704681411180712197627619157146806221767
        + mx * (0.6792712528848205545443855883980014994450
        + mx * (1.3480084966817573020596179874311042267679
        + mx * (2.8276709768538207038046918250872679902352
        + mx * (6.1794682501239140840906583219887062092430
        + mx * (13.935686010342811497608625663457407447757
        + mx * (32.218929281059722026322932181420383764028
        + mx * (76.006962959226101026399085304912635262362
        + mx * (182.32144908775406957609058046006949657416
        + mx * (443.51507644112648158679360783118806161062
        + mx * (1091.8547229028388292980623647414961662223
        + mx * (2715.7658664038195881056269799613407111521))))))))))))))) in
    let eld := 1.13367833657573316571671258513452768536080
        + mx * (1.04864317372997039116746991765351150490010
        + mx * (1.75346504119846451588826580872136305225406
        + mx * (3.52318272680338551269021618722443199230946
        + mx * (7.74947641381397458240336356601913534598302
        + mx * (17.9864500558507330560532617743406294626849
        + mx * (43.2559163462326133313977294448984936591235
        + mx * (106.681534454096017031613223924991564429656
        + mx * (268.098486573117433951562111736259672695883
        + mx * (683.624114850289804796762005964155730439745
        + mx * (1763.49708521918740723028849567007874329637
        + mx * (4592.37475383116380899419201719007475759114
        + mx * (12053.4410190488892782190764838488156555734
        + mx * (31846.6630207420816960681624497373078887317
        + mx * (84621.2213590568080177035346867495326879117
        + mx * (225956.423182907889987641304430180593010940
        + mx * (605941.517281758859958050194535269219533685
        + mx * (1.63108259953926832083633544697688841456604e6))))))))))))))))) in
    (elb, eld)
  else if m <=? 0.8 then
    let mx := 0.25 - mc in
    let elb := 0.895902820924731621258525533131864225704
        + mx * (0.243140003766786661947749288357729051637
        + mx * (0.273081875594105531575351304277604081620
        + mx * (0.486280007533573323895498576715458103274
        + mx * (1.082747437228230914750752674136983406683
        + mx * (2.743445290986452500459431536349945437824
        + mx * (7.555817828670234627048618342026400847824
        + mx * (22.05194082493752427472777448620986154515
        + mx * (67.15640644740229407624192175802742979626
        + mx * (211.2722537881770961691291434845898538537
        + mx * (681.9037843053270682273212958093073895805
        + mx * (2246.956231592536516768812462150619631201
        + mx * (7531.483865999711792004783423815426725079
        + mx * (25608.51260130241579018675054866136922157
        + mx * (88140.74740089604971425934283371277143256
        + mx * (306564.4242098446591430938434419151070722
        + mx * (1.076036077811072193752770590363885180738e6
        + mx * (3.807218502573632648224286313875985190526e6
        + mx * (1.356638224422139551020110323739879481042e7)))))))))))))))))) in
    let eld := 1.26061282657491161418014946566845780315983
        + mx * (1.54866563808267658056930177790599939977154
        + mx * (3.55366941187160761540650011660758187283401
        + mx * (9.90044467610439875577300608183010716301714
        + mx * (30.3205666174524719862025105898574414438275
        + mx * (98.1802586588830891484913119780870074464833
        + mx * (329.771010434557055036273670551546757245808
        + mx * (1136.65598974289039303581967838947708073239
        + mx * (3993.83433574622979757935610692842933356144
        + mx * (14242.7295865552708506232731633468180669284
        + mx * (51394.7572916887209594591528374806790960057
        + mx * (187246.702914623152141768788258141932569037
        + mx * (687653.092375389902708761221294282367947659
        + mx * (2.54238553565398227033448846432182516906624e6
        + mx * (9.45378121934749027243313241962076028066811e6
        + mx * (3.53283630179709170835024033154326126569613e7
        + mx * (1.32593262383393014923560730485845833322771e8
        + mx * (4.99544968184054821463279808395426941549833e8
        + mx * (1.88840934729443872364972817525484292678543e9
        + mx * (7.16026753447893719179055010636502508063102e9
        + mx *
        (2.72233079469633962247554894093591262281929e10)))))))))))))))))))) in
    (elb, eld)
  else if m <=? 0.85 then
    let mx := 0.175 - mc in
    let elb := 0.915922052601931494319853880201442948834592
        + mx * (0.294714252429483394379515488141632749820347
        + mx * (0.435776709264636140422971598963772380161131
        + mx * (1.067328246493644238508159085364429570207744
        + mx * (3.327844118563268085074646976514979307993733
        + mx * (11.90406004445092906188837729711173326621810
        + mx * (46.47838820224626393512400481776284680677096
        + mx * (192.7556002578809476962739389101964074608802
        + mx * (835.3356299261900063712302517586717381557137
        + mx * (3743.124548343029102644419963712353854902019
        + mx * (17219.07731004063094108708549153310467326395
        + mx * (80904.60401669850158353080543152212152282878
        + mx * (386808.3292751742460123683674607895217760313
        + mx * (1.876487670110449342170327796786290400635732e6
        + mx * (9.216559908641567755240142886998737950775910e6)))))))))))))) in
    let eld := 1.402200569110579095046054435635136986038164
        + mx * (2.322205897861749446534352741005347103992773
        + mx * (7.462158366466719682730245467372788273333992
        + mx * (29.43506890797307903104978364254987042421285
        + mx * (128.1590924337895775262509354898066132182429
        + mx * (591.0807036911982326384997979640812493154316
        + mx * (2830.546229607726377048576057043685514661188
        + mx * (13917.76431889392229954434840686741305556862
        + mx * (69786.10525163921228258055074102587429394212
        + mx * (355234.1420341879634781808899208309503519936
        + mx * (1.830019186413931053503912913904321703777885e6
        + mx * (9.519610812032515607466102200648641326190483e6
        + mx * (4.992086875574849453986274042758566713803723e7
        + mx * (2.635677009826023473846461512029006874800883e8
        + mx * (1.399645765120061118824228996253541612110338e9
        + mx * (7.469935792837635004663183580452618726280406e9
        + mx * (4.004155595835610574316003488168804738481448e10
        + mx *
        (2.154630668144966654449602981243932210695662e11))))))))))))))))) in
    (elb, eld)
  else
    let mx := 0.125 - mc in
    let elb := 0.931906061029524827613331428871579482766771
        + mx * (0.348448029538453860999386797137074571589376
        + mx * (0.666809178846938247558793864839434184202736
        + mx * (2.210769135708128662563678717558631573758222
        + mx * (9.491765048913406881414290930355300611703187
        + mx * (47.09304791027740853381457907791343619298913
        + mx * (255.9200460211233087050940506395442544885608
        + mx * (1480.029532675805407554800779436693505109703
        + mx * (8954.040904734313578374783155553041065984547
        + mx * (56052.48220982686949967604699243627330816542
        + mx * (360395.7241626000916973524840479780937869149
        + mx * (2.367539415273216077520928806581689330885103e6
        + mx * (1.582994957277684102454906900025484391190264e7
        + mx * (1.074158093278511100137056972128875270067228e8
        + mx * (7.380585460239595691878086073095523043390649e8
        + mx * (5.126022002555101496684687154904781856830296e9
        + mx * (3.593534065502416588712409180013118409428367e10
        + mx * (2.539881257612812212004146637239987308133582e11
        + mx *
        (1.808180007145359569674767150594344316702507e12)))))))))))))))))) in
    let eld := 1.541690112721819084362258323861459983048179
        + mx * (3.379176214579645449453938918349243359477706
        + mx * (14.94058385670236671625328259137998668324435
        + mx * (81.91773929235074880784578753539752529822986
        + mx * (497.4900546551479866036061853049402721939835
        + mx * (3205.184010234846235275447901572262470252768
        + mx * (21457.32237355321925571253220641357074594515
        + mx * (147557.0156564174712105689758692929775004292
        + mx * (1.035045290185256525452269053775273002725343e6
        + mx * (7.371922334832212125197513363695905834126154e6
        + mx * (5.314344395142401141792228169170505958906345e7
        + mx * (3.868823475795976312985118115567305767603128e8
        + mx * (2.839458401528033778425531336599562337200510e9
        + mx * (2.098266122943898941547136470383199468548861e10
        + mx * (1.559617754017662417944194874282275405676282e11
        + mx * (1.165096220419884791236699872205721392201682e12
        + mx * (8.742012983013913804987431275193291316808766e12
        + mx * (6.584725462672366918676967847406180155459650e13
        + mx * (4.976798737062434393396993620379481464465749e14
        + mx * (3.773018634056605404718444239040628892506293e15
        + mx *
        (2.868263194837819660109735981973458220407767e16)))))))))))))))))))) in
    (elb, eld).
End BD.

(** [FukushimaEllipticBDJ(nc, mc, bc, dc, jc)]; [None] when the loop of
    [BulirschCel] has not left within [fuel] iterations. *)
Definition FukushimaEllipticBDJ_complete (fuel : nat) (nc mc : float)
  : option (float * float * float) :=
  let '(bc, dc) := FukushimaEllipticBD mc in
  (* See [Buli69], special examples after equation (1.2.2). *)
  let kc := sqrt mc in
  match BulirschCel fuel kc nc (*a=*)0.0 (*b=*)1.0 with
  | Some r => Some (bc, dc, cel_value r)
  | None => None
  end.

(** *** Incomplete integrals: sine and cosine entry *)

(* The maximum number of argument transformations. *)
Definition max_transformations : nat := 10.

(** The double argument transformation of B, D, J: the loop
    [for (int k = i; k > 0; --k)], over the arrays [y], [s], [cd]. *)
Fixpoint double_argument_transformation
    (k : nat) (n h : float) (y s cd : list float) (b d j : float)
  : float * float * float :=
  match k with
  | O => (b, d, j)
  | S k' =>
      let sy := nth k' s nan * nth k y nan in
      let t := sy / (1.0 - n * (nth k' y nan - nth k y nan * nth k' cd nan)) in
      let b := 2.0 * b - sy in
      let d := d + (d + sy) in
      let j := j + (j + FukushimaT t h) in
      double_argument_transformation k' n h y s cd b d j
  end.

(* See [Fuku11c] section 3.5 for the determination of yB. *)
Definition yB : float := 0.01622.

(** The half argument transformation of [s]: the loop
    [for (; yᵢ >= yB; ++i)].  The arrays have [max_transformations + 1]
    cells; [budget] is [max_transformations - i], so that [budget = 0] on
    entering the body is the failure of [DCHECK_LT(i, max_transformations)]
    (and, were the check compiled out, a write past the end of the arrays):
    the answer is then [None].  Otherwise the loop leaves with the last
    [yᵢ] and the arrays; [i] is the length of [cd]. *)
Fixpoint half_argument_transformation_of_s
    (budget : nat) (m yi : float) (y s cd : list float)
  : option (float * list float * list float * list float) :=
  if yB <=? yi then
    match budget with
    | O => None
    | S budget' =>
        let ci := sqrt (1.0 - yi) in
        let di := sqrt (1.0 - m * yi) in
        let yi' := yi / ((1.0 + ci) * (1.0 + di)) in
        half_argument_transformation_of_s budget' m yi'
          (y ++ [yi']) (s ++ [sqrt yi']) (cd ++ [ci * di])
    end
  else Some (yi, y, s, cd).

Definition FukushimaEllipticBsDsJs (s0 n mc : float)
  : option (float * float * float) :=
  (* Half and double argument transformations, [Fuku11c] section 3.3. *)
  let m := 1.0 - mc in
  let h := n * (1.0 - n) * (n - m) in
  let y0 := s0 * s0 in
  (* Half argument transformation of s. *)
  match half_argument_transformation_of_s
          max_transformations m y0 [y0] [s0] [] with
  | None => None
  | Some (yi, y, s, cd) =>
      let i := length cd in
      (* Maclaurin series. *)
      let '(b, d) := FukushimaEllipticBsDsMaclaurinSeries yi m in
      let b := nth i s nan * b in
      let d := nth i s nan * yi * d in
      let j := nth i s nan * FukushimaEllipticJsMaclaurinSeries yi n m in
      (* Double argument transformation of B, D, J. *)
      Some (double_argument_transformation i n h y s cd b d j)
  end.

(* See [Fuku11b] section 2.2 for the determination of xS. *)
Definition xS : float := 0.1.

(** The half argument transformation of [c]: the loop
    [for (; xᵢ <= xS; ++i)], with the same convention for [budget]. *)
Fixpoint half_argument_transformation_of_c
    (budget : nat) (mc m ci xi : float) (y s cd : list float)
  : option (list float * list float * list float) :=
  if xi <=? xS then
    match budget with
    | O => None
    | S budget' =>
        let di := sqrt (mc + m * xi) in
        let xi' := (ci + di) / (1.0 + di) in
        let yi := 1.0 - xi' in
        half_argument_transformation_of_c budget' mc m (sqrt xi') xi'
          (y ++ [yi]) (s ++ [sqrt yi]) (cd ++ [ci * di])
    end
  else Some (y, s, cd).

Definition FukushimaEllipticBcDcJc (c0 n mc : float)
  : option (float * float * float) :=
  let m := 1.0 - mc in
  let h := n * (1.0 - n) * (n - m) in
  let x0 := c0 * c0 in
  let y0 := 1.0 - x0 in
  (* Half argument transformation of c. *)
  match half_argument_transformation_of_c
          max_transformations mc m c0 x0 [y0] [sqrt y0] [] with
  | None => None
  | Some (y, s, cd) =>
      let i := length cd in
      (* Switch to the normal algorithm. *)
      match FukushimaEllipticBsDsJs (nth i s nan) n mc with
      | None => None
      | Some (b, d, j) =>
          (* Double argument transformation of B, D, J. *)
          Some (double_argument_transformation i n h y s cd b d j)
      end
  end.

(** *** Incomplete integrals: the entry point *)

(* Sin(φs)^2 must be approximately ys. *)
Definition φs : float := 1.249.
Definition ys : float := 0.9.

(** [FukushimaEllipticBDJ(φ, n, mc, b, d, j)], the angle in radians. *)
Definition FukushimaEllipticBDJ (fuel : nat) (φ n mc : float)
  : option (float * float * float) :=
  if φ <? φs then
    FukushimaEllipticBsDsJs (Sin φ) n mc
  else
    let m := 1.0 - mc in
    let nc := 1.0 - n in
    let h := n * nc * (n - m) in
    let c := Cos φ in
    let c2 := c * c in
    let z2_denominator := mc + m * c2 in
    if c2 <? ys * z2_denominator then
      let z := c / sqrt z2_denominator in
      match FukushimaEllipticBsDsJs z n mc,
            FukushimaEllipticBDJ_complete fuel nc mc with
      | Some (b, d, j), Some (bc, dc, jc) =>
          let sz := z * sqrt (1.0 - c2) in
          let t := sz / nc in
          let b := bc - (b - sz) in
          let d := dc - (d + sz) in
          let j := jc - (j + FukushimaT t h) in
          Some (b, d, j)
      | _, _ => None
      end
    else
      let w2_numerator := mc * (1.0 - c2) in
      if w2_numerator <? c2 * z2_denominator then
        FukushimaEllipticBcDcJc c n mc
      else
        let w2_denominator := z2_denominator in
        let w2_over_mc := (1.0 - c2) / w2_denominator in
        match FukushimaEllipticBcDcJc (sqrt (mc * w2_over_mc)) n mc,
              FukushimaEllipticBDJ_complete fuel nc mc with
        | Some (b, d, j), Some (bc, dc, jc) =>
            let sz := c * sqrt w2_over_mc in
            let t := sz / nc in
            let b := bc - (b - sz) in
            let d := dc - (d + sz) in
            let j := jc - (j + FukushimaT t h) in
            Some (b, d, j)
        | _, _ => None
        end.

(** *** Complete integral of the first kind *)

Definition TINY : float := 1.0e-99.

Definition EllipticK (mc : float) : float :=
  let m := 1.0 - mc in
  if abs m <? 1.0e-16 then
    π / 2
  else if mc <? TINY then
    1.3862943611198906 - 0.5 * log TINY
  else if mc <? 1.11e-16 then
    1.3862943611198906 - 0.5 * log mc
  else if mc <? 0.1 then
    let nome := EllipticNomeQ 14 mc in
    let mx := mc - 0.05 in
    let kkc := 1.591003453790792180 + mx * (
        0.416000743991786912 + mx * (
        0.245791514264103415 + mx * (
        0.179481482914906162 + mx * (
        0.144556057087555150 + mx * (
        0.123200993312427711 + mx * (
        0.108938811574293531 + mx * (
        0.098853409871592910 + mx * (
        0.091439629201749751 + mx * (
        0.085842591595413900 + mx * (
        0.081541118718303215)))))))))) in
    - kkc * (1 / π) * log nome
  else if m <=? 0.1 then
    let mx := m - 0.05 in
    1.591003453790792180 + mx * (
      0.416000743991786912 + mx * (
      0.245791514264103415 + mx * (
      0.179481482914906162 + mx * (
      0.144556057087555150 + mx * (
      0.123200993312427711 + mx * (
      0.108938811574293531 + mx * (
      0.098853409871592910 + mx * (
      0.091439629201749751 + mx * (
      0.085842591595413900 + mx * (
      0.081541118718303215))))))))))
  else if m <=? 0.2 then
    let mx := m - 0.15 in
    1.635256732264579992 + mx * (
      0.471190626148732291 + mx * (
      0.309728410831499587 + mx * (
      0.252208311773135699 + mx * (
      0.226725623219684650 + mx * (
      0.215774446729585976 + mx * (
      0.213108771877348910 + mx * (
      0.216029124605188282 + mx * (
      0.223255831633057896 + mx * (
      0.234180501294209925 + mx * (
      0.248557682972264071 + mx * (
      0.266363809892617521 + mx * (
      0.287728452156114668))))))))))))
  else if m <=? 0.3 then
    let mx := m - 0.25 in
    1.685750354812596043 + mx * (
      0.541731848613280329 + mx * (
      0.401524438390690257 + mx * (
      0.369642473420889090 + mx * (
      0.376060715354583645 + mx * (
      0.405235887085125919 + mx * (
      0.453294381753999079 + mx * (
      0.520518947651184205 + mx * (
      0.609426039204995055 + mx * (
      0.724263522282908870 + mx * (
      0.871013847709812357 + mx * (
      1.057652872753547036)))))))))))
  else if m <=? 0.4 then
    let mx := m - 0.35 in
    1.744350597225613243 + mx * (
      0.634864275371935304 + mx * (
      0.539842564164445538 + mx * (
      0.571892705193787391 + mx * (
      0.670295136265406100 + mx * (
      0.832586590010977199 + mx * (
      1.073857448247933265 + mx * (
      1.422091460675497751 + mx * (
      1.920387183402304829 + mx * (
      2.632552548331654201 + mx * (
      3.652109747319039160 + mx * (
      5.115867135558865806 + mx * (
      7.224080007363877411))))))))))))
  else if m <=? 0.5 then
    let mx := m - 0.45 in
    1.813883936816982644 + mx * (
      0.763163245700557246 + mx * (
      0.761928605321595831 + mx * (
      0.951074653668427927 + mx * (
      1.315180671703161215 + mx * (
      1.928560693477410941 + mx * (
      2.937509342531378755 + mx * (
      4.594894405442878062 + mx * (
      7.330071221881720772 + mx * (
      11.87151259742530180 + mx * (
      19.45851374822937738 + mx * (
      32.20638657246426863 + mx * (
      53.73749198700554656 + mx * (
      90.27388602940998849)))))))))))))
  else if m <=? 0.6 then
    let mx := m - 0.55 in
    1.898924910271553526 + mx * (
      0.950521794618244435 + mx * (
      1.151077589959015808 + mx * (
      1.750239106986300540 + mx * (
      2.952676812636875180 + mx * (
      5.285800396121450889 + mx * (
      9.832485716659979747 + mx * (
      18.78714868327559562 + mx * (
      36.61468615273698145 + mx * (
      72.45292395127771801 + mx * (
      145.1079577347069102 + mx * (
      293.4786396308497026 + mx * (
      598.3851815055010179 + mx * (
      1228.420013075863451 + mx * (
      2536.529755382764488))))))))))))))
  else if m <=? 0.7 then
    let mx := m - 0.65 in
    2.007598398424376302 + mx * (
      1.248457231212347337 + mx * (
      1.926234657076479729 + mx * (
      3.751289640087587680 + mx * (
      8.119944554932045802 + mx * (
      18.66572130873555361 + mx * (
      44.60392484291437063 + mx * (
      109.5092054309498377 + mx * (
      274.2779548232413480 + mx * (
      697.5598008606326163 + mx * (
      1795.716014500247129 + mx * (
      4668.381716790389910 + mx * (
      12235.76246813664335 + mx * (
      32290.17809718320818 + mx * (
      85713.07608195964685 + mx * (
      228672.1890493117096 + mx * (
      612757.2711915852774))))))))))))))))
  else if m <=? 0.8 then
    let mx := m - 0.75 in
    2.156515647499643235 + mx * (
      1.791805641849463243 + mx * (
      3.826751287465713147 + mx * (
      10.38672468363797208 + mx * (
      31.40331405468070290 + mx * (
      100.9237039498695416 + mx * (
      337.3268282632272897 + mx * (
      1158.707930567827917 + mx * (
      4060.990742193632092 + mx * (
      14454.00184034344795 + mx * (
      52076.66107599404803 + mx * (
      189493.6591462156887 + mx * (
      695184.5762413896145 + mx * (
      2.567994048255284686e6 + mx * (
      9.541921966748386322e6 + mx * (
      3.563492744218076174e7 + mx * (
      1.336692984612040871e8 + mx * (
      5.033521866866284541e8 + mx * (
      1.901975729538660119e9 + mx * (
      7.208915015330103756e9)))))))))))))))))))
  else if m <=? 0.85 then
    let mx := m - 0.825 in
    2.318122621712510589 + mx * (
      2.616920150291232841 + mx * (
      7.897935075731355823 + mx * (
      30.50239715446672327 + mx * (
      131.4869365523528456 + mx * (
      602.9847637356491617 + mx * (
      2877.024617809972641 + mx * (
      14110.51991915180325 + mx * (
      70621.44088156540229 + mx * (
      358977.2665825309926 + mx * (
      1.847238263723971684e6 + mx * (
      9.600515416049214109e6 + mx * (
      5.030767708502366879e7 + mx * (
      2.654441886527127967e8 + mx * (
      1.408862325028702687e9 + mx * (
      7.515687935373774627e9)))))))))))))))
  else
    let mx := m - 0.875 in
    2.473596173751343912 + mx * (
      3.727624244118099310 + mx * (
      15.60739303554930496 + mx * (
      84.12850842805887747 + mx * (
      506.9818197040613935 + mx * (
      3252.277058145123644 + mx * (
      21713.24241957434256 + mx * (
      149037.0451890932766 + mx * (
      1.043999331089990839e6 + mx * (
      7.427974817042038995e6 + mx * (
      5.350383967558661151e7 + mx * (
      3.892498869948708474e8 + mx * (
      2.855288351100810619e9 + mx * (
      2.109007703876684053e10 + mx * (
      1.566998339477902014e11 + mx * (
      1.170222242422439893e12 + mx * (
      8.777948323668937971e12 + mx * (
      6.610124275248495041e13 + mx * (
      4.994880537133887989e14 + mx * (
      3.785974339724029920e15))))))))))))))))))).

End Integrals.

(** ** Jacobi elliptic functions ([numerics/elliptic_functions.cpp]) *)

(** *** [elk]: the complete integral of the first kind, with its saved
    variables

    The listing declares [logical first/.TRUE./] and
    [save first,mcold,PIHALF,PIINV,elkold,TINY]: six variables that live
    from one call to the next.  They are the state of the model; a call
    takes the state it finds and returns the state it leaves.  The literals
    of the listing are read as binary64 numbers, as everywhere else in the
    sources. *)
Record elk_saved : Type := {
  elk_first : bool;
  elk_mcold : float;
  elk_PIHALF : float;
  elk_PIINV : float;
  elk_elkold : float;
  elk_TINY : float
}.

(** The saved variables before the first call: [first] is [.TRUE.], the
    five others hold whatever the loader left there. *)
Definition elk_saved_at_start (mcold PIHALF PIINV elkold TINY : float) : elk_saved :=
  {| elk_first := true; elk_mcold := mcold; elk_PIHALF := PIHALF;
     elk_PIINV := PIINV; elk_elkold := elkold; elk_TINY := TINY |}.

Module elk_constants.
Definition D1 : float := 1.0 / 16.0.
Definition D2 : float := 1.0 / 32.0.
Definition D3 : float := 21.0 / 1024.0.
Definition D4 : float := 31.0 / 2048.0.
Definition D5 : float := 6257.0 / 524288.0.
Definition D6 : float := 10293.0 / 1048576.0.
Definition D7 : float := 279025.0 / 33554432.0.
Definition D8 : float := 483127.0 / 67108864.0.
Definition D9 : float := 435506703.0 / 68719476736.0.
Definition D10 : float := 776957575.0 / 137438953472.0.
Definition D11 : float := 22417045555.0 / 4398046511104.0.
Definition D12 : float := 40784671953.0 / 8796093022208.0.
Definition D13 : float := 9569130097211.0 / 2251799813685248.0.
Definition D14 : float := 17652604545791.0 / 4503599627370496.0.
End elk_constants.

(** [static_cast<int>(x)] for a double [x]: the integer part, when it fits
    in 32 bits; nothing ([None]) for NaN, the infinities and the numbers out
    of range, where C++ leaves the behaviour undefined. *)
Definition static_cast_int (x : float) : option Z :=
  match Prim2SF x with
  | S754_zero _ => Some 0%Z
  | S754_finite s m e =>
      let q := if (0 <=? e)%Z then Z.shiftl (Zpos m) e
               else Z.shiftr (Zpos m) (- e) in
      let k := if s then (- q)%Z else q in
      if ((- 2147483648 <=? k) && (k <=? 2147483647))%Z then Some k else None
  | _ => None
  end.

(** [static_cast<double>(k)] for an [int] [k]. *)
Definition static_cast_double (k : Z) : float :=
  if (k <? 0)%Z then - of_uint63 (Uint63.of_Z (- k))
  else of_uint63 (Uint63.of_Z k).

(** *** [scd2]: the three functions for an argument in [0, K/2) *)

Module scd2_constants.
Definition B10 : float := 1.0 / 24.0.
Definition B11 : float := 1.0 / 6.0.
Definition B20 : float := 1.0 / 720.0.
Definition B21 : float := 11.0 / 180.0.
Definition B22 : float := 1.0 / 45.0.
End scd2_constants.

(** The loop [do n=0,20]: halve [u0] until it is below [uT].  [trips] is
    the number of trips left (21 at first); the answer is the value of [n]
    and of [u0] at the label [1].  When the loop runs out, [n] is 21 and the
    listing writes a message before it carries on. *)
Fixpoint Scd2_halve (trips n : nat) (uT u0 : float) : nat * float :=
  match trips with
  | O => (n, u0)
  | S trips' =>
      if u0 <? uT then (n, u0)
      else Scd2_halve trips' (S n) uT (u0 * 0.5)
  end.

(** The statements after the two loops [do j=1,n]. *)
Definition Scd2_finish (m a b : float) : float * float * float :=
  let b := b / a in
  let y := b * (2.0 - b) in
  let c := 1.0 - b in
  let s := sqrt y in
  let d := sqrt (1.0 - m * y) in
  (s, c, d).

(** The loop [do j=1,n] of the branch [u < uA]. *)
Fixpoint Scd2_duplicate (trips : nat) (m a b : float) : float * float * float :=
  match trips with
  | O => Scd2_finish m a b
  | S trips' =>
      let y := b * (a * 2.0 - b) in
      let z := a * a in
      let my := m * y in
      let b := (y * 2.0) * (z - my) in
      let a := z * z - my * y in
      Scd2_duplicate trips' m a b
  end.

(** The loop [do i=j,n] after the label [2], and the statements after it. *)
Fixpoint Scd2_duplicate_c (trips : nat) (mc m mc2 m2 c a : float)
  : float * float * float :=
  match trips with
  | O =>
      let c := c / a in
      let x := c * c in
      let s := sqrt (1.0 - x) in
      let d := sqrt (mc + m * x) in
      (s, c, d)
  | S trips' =>
      let x := c * c in
      let z := a * a in
      let w := m * x * x - mc * z * z in
      let xz := x * z in
      let c := mc2 * xz + w in
      let a := m2 * xz - w in
      Scd2_duplicate_c trips' mc m mc2 m2 c a
  end.

(** The loop [do j=1,n] of the other branch, which leaves for the label [2]
    when [z < my*2.0]; the loop after the label then makes the trips that
    are left, the present one included. *)
Fixpoint Scd2_duplicate_or_switch (trips : nat) (mc m a b : float)
  : float * float * float :=
  match trips with
  | O => Scd2_finish m a b
  | S trips' =>
      let y := b * (a * 2.0 - b) in
      let z := a * a in
      let my := m * y in
      if z <? my * 2.0 then
        let c := a - b in
        let mc2 := mc * 2.0 in
        let m2 := m * 2.0 in
        Scd2_duplicate_c trips mc m mc2 m2 c a
      else
        let b := (y * 2.0) * (z - my) in
        let a := z * z - my * y in
        Scd2_duplicate_or_switch trips' mc m a b
  end.

Definition Scd2 (u mc : float) : float * float * float :=
  let B10 := scd2_constants.B10 in
  let B11 := scd2_constants.B11 in
  let B20 := scd2_constants.B20 in
  let B21 := scd2_constants.B21 in
  let B22 := scd2_constants.B22 in
  let m := 1.0 - mc in
  let uA := 1.76269 + mc * 1.16357 in
  let uT := 5.217e-3 - m * 2.143e-3 in
  let '(n, u0) := Scd2_halve 21 0 uT u in
  let v := u0 * u0 in
  let a := 1.0 in
  let b := v * (0.5 - v * (B10 + m * B11 - v * (B20 + m * (B21 + m * B22)))) in
  if u <? uA then Scd2_duplicate n m a b
  else Scd2_duplicate_or_switch n mc m a b.

Section Jacobi.

Variable X : Externals.

#[local] Abbreviation log := (ext_log X).
#[local] Abbreviation atan := (ext_atan X).

Section elk.
Import elk_constants.

(** The block [if(first) { ... }]. *)
Definition elk_initialise (st : elk_saved) : elk_saved :=
  if elk_first st then
    let PIHALF := atan 1.0 * 2.0 in
    {| elk_first := false;
       elk_mcold := 1.0;
       elk_PIHALF := PIHALF;
       elk_PIINV := 0.5 / PIHALF;
       elk_elkold := PIHALF;
       elk_TINY := 1.0e-99 |}
  else st.

(** The cascade of [elk], on saved variables already initialised. *)
Definition elk_value (st : elk_saved) (mc : float) : float :=
  let mcold := elk_mcold st in
  let PIHALF := elk_PIHALF st in
  let PIINV := elk_PIINV st in
  let elkold := elk_elkold st in
  let TINY := elk_TINY st in
  let m := 1.0 - mc in
  if abs m <? 1.0e-16 then
    PIHALF
  else if abs (mc - mcold) <? 1.11e-16 * mc then
    elkold
  else if mc <? TINY then
    1.3862943611198906 - 0.5 * log TINY
  else if mc <? 1.11e-16 then
    1.3862943611198906 - 0.5 * log mc
  else if mc <? 0.1 then
    let nome := mc * (D1 + mc * (D2 + mc * (D3 + mc * (D4 + mc * (D5 + mc * (D6
        + mc * (D7 + mc * (D8 + mc * (D9 + mc * (D10 + mc * (D11 + mc * (D12
        + mc * (D13 + mc * D14))))))))))))) in
    let mx := mc - 0.05 in
    let kkc := 1.591003453790792180 + mx * (
        0.416000743991786912 + mx * (
        0.245791514264103415 + mx * (
        0.179481482914906162 + mx * (
        0.144556057087555150 + mx * (
        0.123200993312427711 + mx * (
        0.108938811574293531 + mx * (
        0.098853409871592910 + mx * (
        0.091439629201749751 + mx * (
        0.085842591595413900 + mx * (
        0.081541118718303215)))))))))) in
    - kkc * PIINV * log nome
  else if m <=? 0.1 then
    let mx := m - 0.05 in
    1.591003453790792180 + mx * (
      0.416000743991786912 + mx * (
      0.245791514264103415 + mx * (
      0.179481482914906162 + mx * (
      0.144556057087555150 + mx * (
      0.123200993312427711 + mx * (
      0.108938811574293531 + mx * (
      0.098853409871592910 + mx * (
      0.091439629201749751 + mx * (
      0.085842591595413900 + mx * (
      0.081541118718303215))))))))))
  else if m <=? 0.2 then
    let mx := m - 0.15 in
    1.635256732264579992 + mx * (
      0.471190626148732291 + mx * (
      0.309728410831499587 + mx * (
      0.252208311773135699 + mx * (
      0.226725623219684650 + mx * (
      0.215774446729585976 + mx * (
      0.213108771877348910 + mx * (
      0.216029124605188282 + mx * (
      0.223255831633057896 + mx * (
      0.234180501294209925 + mx * (
      0.248557682972264071 + mx * (
      0.266363809892617521 + mx * (
      0.287728452156114668))))))))))))
  else if m <=? 0.3 then
    let mx := m - 0.25 in
    1.685750354812596043 + mx * (
      0.541731848613280329 + mx * (
      0.401524438390690257 + mx * (
      0.369642473420889090 + mx * (
      0.376060715354583645 + mx * (
      0.405235887085125919 + mx * (
      0.453294381753999079 + mx * (
      0.520518947651184205 + mx * (
      0.609426039204995055 + mx * (
      0.724263522282908870 + mx * (
      0.871013847709812357 + mx * (
      1.057652872753547036)))))))))))
  else if m <=? 0.4 then
    let mx := m - 0.35 in
    1.744350597225613243 + mx * (
      0.634864275371935304 + mx * (
      0.539842564164445538 + mx * (
      0.571892705193787391 + mx * (
      0.670295136265406100 + mx * (
      0.832586590010977199 + mx * (
      1.073857448247933265 + mx * (
      1.422091460675497751 + mx * (
      1.920387183402304829 + mx * (
      2.632552548331654201 + mx * (
      3.652109747319039160 + mx * (
      5.115867135558865806 + mx * (
      7.224080007363877411))))))))))))
  else if m <=? 0.5 then
    let mx := m - 0.45 in
    1.813883936816982644 + mx * (
      0.763163245700557246 + mx * (
      0.761928605321595831 + mx * (
      0.951074653668427927 + mx * (
      1.315180671703161215 + mx * (
      1.928560693477410941 + mx * (
      2.937509342531378755 + mx * (
      4.594894405442878062 + mx * (
      7.330071221881720772 + mx * (
      11.87151259742530180 + mx * (
      19.45851374822937738 + mx * (
      32.20638657246426863 + mx * (
      53.73749198700554656 + mx * (
      90.27388602940998849)))))))))))))
  else if m <=? 0.6 then
    let mx := m - 0.55 in
    1.898924910271553526 + mx * (
      0.950521794618244435 + mx * (
      1.151077589959015808 + mx * (
      1.750239106986300540 + mx * (
      2.952676812636875180 + mx * (
      5.285800396121450889 + mx * (
      9.832485716659979747 + mx * (
      18.78714868327559562 + mx * (
      36.61468615273698145 + mx * (
      72.45292395127771801 + mx * (
      145.1079577347069102 + mx * (
      293.4786396308497026 + mx * (
      598.3851815055010179 + mx * (
      1228.420013075863451 + mx * (
      2536.529755382764488))))))))))))))
  else if m <=? 0.7 then
    let mx := m - 0.65 in
    2.007598398424376302 + mx * (
      1.248457231212347337 + mx * (
      1.926234657076479729 + mx * (
      3.751289640087587680 + mx * (
      8.119944554932045802 + mx * (
      18.66572130873555361 + mx * (
      44.60392484291437063 + mx * (
      109.5092054309498377 + mx * (
      274.2779548232413480 + mx * (
      697.5598008606326163 + mx * (
      1795.716014500247129 + mx * (
      4668.381716790389910 + mx * (
      12235.76246813664335 + mx * (
      32290.17809718320818 + mx * (
      85713.07608195964685 + mx * (
      228672.1890493117096 + mx * (
      612757.2711915852774))))))))))))))))
  else if m <=? 0.8 then
    let mx := m - 0.75 in
    2.156515647499643235 + mx * (
      1.791805641849463243 + mx * (
      3.826751287465713147 + mx * (
      10.38672468363797208 + mx * (
      31.40331405468070290 + mx * (
      100.9237039498695416 + mx * (
      337.3268282632272897 + mx * (
      1158.707930567827917 + mx * (
      4060.990742193632092 + mx * (
      14454.00184034344795 + mx * (
      52076.66107599404803 + mx * (
      189493.6591462156887 + mx * (
      695184.5762413896145 + mx * (
      2.567994048255284686e6 + mx * (
      9.541921966748386322e6 + mx * (
      3.563492744218076174e7 + mx * (
      1.336692984612040871e8 + mx * (
      5.033521866866284541e8 + mx * (
      1.901975729538660119e9 + mx * (
      7.208915015330103756e9)))))))))))))))))))
  else if m <=? 0.85 then
    let mx := m - 0.825 in
    2.318122621712510589 + mx * (
      2.616920150291232841 + mx * (
      7.897935075731355823 + mx * (
      30.50239715446672327 + mx * (
      131.4869365523528456 + mx * (
      602.9847637356491617 + mx * (
      2877.024617809972641 + mx * (
      14110.51991915180325 + mx * (
      70621.44088156540229 + mx * (
      358977.2665825309926 + mx * (
      1.847238263723971684e6 + mx * (
      9.600515416049214109e6 + mx * (
      5.030767708502366879e7 + mx * (
      2.654441886527127967e8 + mx * (
      1.408862325028702687e9 + mx * (
      7.515687935373774627e9)))))))))))))))
  else
    let mx := m - 0.875 in
    2.473596173751343912 + mx * (
      3.727624244118099310 + mx * (
      15.60739303554930496 + mx * (
      84.12850842805887747 + mx * (
      506.9818197040613935 + mx * (
      3252.277058145123644 + mx * (
      21713.24241957434256 + mx * (
      149037.0451890932766 + mx * (
      1.043999331089990839e6 + mx * (
      7.427974817042038995e6 + mx * (
      5.350383967558661151e7 + mx * (
      3.892498869948708474e8 + mx * (
      2.855288351100810619e9 + mx * (
      2.109007703876684053e10 + mx * (
      1.566998339477902014e11 + mx * (
      1.170222242422439893e12 + mx * (
      8.777948323668937971e12 + mx * (
      6.610124275248495041e13 + mx * (
      4.994880537133887989e14 + mx * (
      3.785974339724029920e15))))))))))))))))))).

(** A call [elk(mc)]: the value and the saved variables it leaves
    ([mcold=mc], [elkold=elk]). *)
Definition elk (st : elk_saved) (mc : float) : float * elk_saved :=
  let st1 := elk_initialise st in
  let v := elk_value st1 mc in
  (v, {| elk_first := elk_first st1;
         elk_mcold := mc;
         elk_PIHALF := elk_PIHALF st1;
         elk_PIINV := elk_PIINV st1;
         elk_elkold := v;
         elk_TINY := elk_TINY st1 |}).
End elk.

(** *** [Gscd] *)

(** The reduction of [ux] to one of the eight octants and the
    reconstruction of [(s, c, d)], for [ux >= 0.785]; [k] is [elk(mc)]. *)
Definition Gscd_octants (k kc ux mc : float) : option (float * float * float) :=
  let kh := k * 0.5 in
  let kh3 := k * 1.5 in
  let kh5 := k * 2.5 in
  let kh7 := k * 3.5 in
  let k2 := k * 2.0 in
  let k3 := k * 3.0 in
  let k4 := k * 4.0 in
  match static_cast_int (ux / k4) with
  | None => None
  | Some periods =>
      let ux := ux - k4 * static_cast_double periods in
      if ux <? kh then
        Some (Scd2 ux mc)
      else if ux <? k then
        let ux := k - ux in
        let '(s, c, d) := Scd2 ux mc in
        let sx := c / d in
        let c := kc * s / d in
        let s := sx in
        let d := kc / d in
        Some (s, c, d)
      else if ux <? kh3 then
        let ux := ux - k in
        let '(s, c, d) := Scd2 ux mc in
        let sx := c / d in
        let c := - kc * s / d in
        let s := sx in
        let d := kc / d in
        Some (s, c, d)
      else if ux <? k2 then
        let ux := k2 - ux in
        let '(s, c, d) := Scd2 ux mc in
        let c := - c in
        Some (s, c, d)
      else if ux <? kh5 then
        let ux := ux - k2 in
        let '(s, c, d) := Scd2 ux mc in
        let s := - s in
        let c := - c in
        Some (s, c, d)
      else if ux <? k3 then
        let ux := k3 - ux in
        let '(s, c, d) := Scd2 ux mc in
        let sx := - c / d in
        let c := - kc * s / d in
        let s := sx in
        let d := kc / d in
        Some (s, c, d)
      else if ux <? kh7 then
        let ux := ux - k3 in
        let '(s, c, d) := Scd2 ux mc in
        let sx := - c / d in
        let c := kc * s / d in
        let s := sx in
        let d := kc / d in
        Some (s, c, d)
      else
        let ux := k4 - ux in
        let '(s, c, d) := Scd2 ux mc in
        let s := - s in
        Some (s, c, d)
  end.

(** [Gscd(u, mc, s, c, d)], with the saved variables of [elk] it finds and
    leaves; [None] where [static_cast<int>] is undefined. *)
Definition Gscd (st : elk_saved) (u mc : float)
  : option (float * float * float * elk_saved) :=
  let m := 1.0 - mc in
  let kc := sqrt mc in
  let ux := abs u in
  let reduced :=
    if ux <? 0.785 then
      Some (Scd2 ux mc, st)
    else
      let '(k, st') := elk st mc in
      match Gscd_octants k kc ux mc with
      | Some scd => Some (scd, st')
      | None => None
      end in
  match reduced with
  | None => None
  | Some ((s, c, d), st') =>
      let s := if u <? 0.0 then - s else s in
      Some (s, c, d, st')
  end.

End Jacobi.

Close Scope float_scope.

(** ** Approximate quantities
       ([testing_utilities/approximate_quantity_body.hpp])

    [ApproximateQuantity<double>::Parse] reads a literal such as [1.5] or
    [0x1.8p3] together with a number of units in the last place, and
    returns the interval the literal stands for.  A [std::string] is a
    [string], a [char] an [ascii], the [int] [ulp] an integer; [std::strtod]
    is not part of the sources at hand and is an argument of [Parse].  A
    failed [CHECK] and the read of an empty [std::optional] both end the
    computation: the answer is then [None]. *)

Section ApproximateQuantity.

Import Ascii String.
#[local] Open Scope string_scope.

(** [a <= c && c <= b] on characters. *)
Definition char_between (a b c : ascii) : bool :=
(N_of_ascii a <=? N_of_ascii c)%N && (N_of_ascii c <=? N_of_ascii b)%N.

(** The character an [int] is converted to. *)
Definition char_of_int (z : Z) : ascii := ascii_of_N (Z.to_N (z mod 256)).

(** [error_representation[k] = c]. *)
Fixpoint string_set (k : nat) (c : ascii) (s : string) : string :=
match s, k with
| EmptyString, _ => EmptyString
| String _ s', O => String c s'
| String a s', S k' => String a (string_set k' c s')
end.

Definition is_hexadecimal (representation : string) : bool :=
match representation with
| String c0 (String c1 _) =>
    (c0 =? "0")%char && ((c1 =? "x")%char || (c1 =? "X")%char)
| _ => false
end.

(** The loop [for (int i = 0; i < error_representation.size(); ++i)], from
  index [i] on: [rest] is what is left of the string and
  [last_digit_index] the index recorded so far.  The answer is what the
  loop makes of [rest] and the index recorded at the end; [None] is the
  failure of [CHECK(last_digit_index.has_value())]. *)
Fixpoint Parse_loop (is_hexadecimal : bool) (i : nat) (rest : string)
  (last_digit_index : option nat) : option (string * option nat) :=
match rest with
| EmptyString => Some (EmptyString, last_digit_index)
| String c rest' =>
    if char_between "1" "9" c then
      match Parse_loop is_hexadecimal (S i) rest' (Some i) with
      | Some (r, l) => Some (String "0" r, l)
      | None => None
      end
    else if is_hexadecimal
            && (char_between "a" "f" c || char_between "A" "F" c) then
      match Parse_loop is_hexadecimal (S i) rest' (Some i) with
      | Some (r, l) => Some (String "0" r, l)
      | None => None
      end
    else if (negb is_hexadecimal && ((c =? "e")%char || (c =? "E")%char))
            || (is_hexadecimal && ((c =? "p")%char || (c =? "P")%char)) then
      match last_digit_index with
      | Some _ => Some (rest, last_digit_index)
      | None => None
      end
    else
      match Parse_loop is_hexadecimal (S i) rest' last_digit_index with
      | Some (r, l) => Some (String c r, l)
      | None => None
      end
end.

(** The string [error_representation] that [Parse] hands to [strtod]: the
  digits before the exponent replaced by zeroes, except for the last one
  which gets the number of ulps.  [None] after a failed [CHECK], after
  the read of [*last_digit_index] when no index was recorded, and when
  ['A' + ulp] overflows. *)
Definition Parse_error_representation (representation : string) (ulp : Z)
: option string :=
let is_hexadecimal := is_hexadecimal representation in
match Parse_loop is_hexadecimal 0 representation None with
| None => None
| Some (error_representation, last_digit_index) =>
    if (ulp <=? 9)%Z then
      match last_digit_index with
      | Some k => Some (string_set k (char_of_int (48 + ulp)) error_representation)
      | None => None
      end
    else if is_hexadecimal then
      if (2147483647 <? 65 + ulp)%Z then None
      else
        match last_digit_index with
        | Some k =>
            Some (string_set k (char_of_int (65 + ulp - 10)) error_representation)
        | None => None
        end
    else None
end.

Record ApproximateQuantity : Type := {
representation_ : string;
ulp_ : Z;
min_multiplier_ : float;
max_multiplier_ : float
}.

Definition Parse (strtod : string -> float) (representation : string) (ulp : Z)
: option ApproximateQuantity :=
match Parse_error_representation representation ulp with
| None => None
| Some error_representation =>
    let value := strtod representation in
    let error := strtod error_representation in
    Some {| representation_ := representation;
            ulp_ := ulp;
            min_multiplier_ := (value - error)%float;
            max_multiplier_ := (value + error)%float |}
end.

Definition ApproximateQuantity_min (q : ApproximateQuantity) : float :=
min_multiplier_ q.

Definition ApproximateQuantity_max (q : ApproximateQuantity) : float :=
max_multiplier_ q.

End ApproximateQuantity.

#[local] Open Scope float_scope.

(** ** Definitions used to state the properties *)

(** The thresholds [FukushimaT] compares [abs_z] with, in the order of the
    source: thirteen of them. *)
Definition FukushimaT_thresholds : list float :=
  [ 3.3306691e-16; 2.3560805e-08; 9.1939631e-06; 1.7779240e-04;
    1.0407839e-03; 3.3616998e-03; 7.7408014e-03; 1.4437181e-02;
    2.3407312e-02; 3.4416203e-02; 4.7138547e-02; 6.1227405e-02;
    7.6353468e-02 ].

(** The place of the first threshold that exceeds [a], counted from 0. *)
Fixpoint first_exceeding (ts : list float) (a : float) : option nat :=
  match ts with
  | [] => None
  | t :: ts' => if a <? t then Some O else option_map S (first_exceeding ts' a)
  end.

(** The branch that evaluates the polynomial of degree [k]; for [k = 0] the
    polynomial is the constant 1 and the branch returns [t]. *)
Definition Maclaurin_branch (k : nat) : T_branch :=
  match k with
  | O => T_argument
  | S _ => T_Maclaurin k
  end.

(** A stand-in for the collaborators, for examples that need the functions
    to run: the first terms of the Maclaurin series of each elementary
    function and Horner's scheme for both evaluators. *)
Definition Horner (coefficients : list float) (x : float) : float :=
  fold_right (fun a acc => a + x * acc) 0 coefficients.

Definition sample_externals : Externals :=
  {| ext_log := fun x => x - 1;
     ext_atan := fun x => x;
     ext_atanh := fun x => x;
     ext_Sin := fun x => x;
     ext_Cos := fun x => 1 - x * x / 2;
     ext_HornerEvaluate := Horner;
     ext_EstrinEvaluate := Horner |}.


(** A stand-in whose sine is [s] and whose cosine is [c] at every angle. *)
Definition externals_with_Sin_Cos (s c : float) : Externals :=
  {| ext_log := fun x => x - 1;
     ext_atan := fun x => x;
     ext_atanh := fun x => x;
     ext_Sin := fun _ => s;
     ext_Cos := fun _ => c;
     ext_HornerEvaluate := Horner;
     ext_EstrinEvaluate := Horner |}.

(** The least positive binary64 number and the greatest one below 1. *)
Definition min_double : float := 4.9406564584124654e-324.

Definition max_double : float := 1.7976931348623157e308.

Definition half_ulp_1 : float := 1.1102230246251565e-16.



Definition elk_saved_sample : elk_saved :=
  elk_saved_at_start 0 0 0 0 0.

(** The saved variables after a sequence of calls [elk(mc)], one for each
    element of [mcs]. *)
Definition elk_calls (X : Externals) (st : elk_saved) (mcs : list float) : elk_saved :=
  fold_left (fun st mc => snd (elk X st mc)) mcs st.

(** The saved variables as the block [if(first)] leaves them. *)
Definition elk_saved_initialised (X : Externals) : elk_saved :=
  elk_initialise X (elk_saved_at_start 0 0 0 0 0).

(** [elk_settled X st]: [st] has been initialised, and [elkold] is the value
    of [elk] at [mcold]. *)
Definition elk_settled (X : Externals) (st : elk_saved) : Prop :=
  elk_first st = false
  /\ elk_PIHALF st = elk_PIHALF (elk_saved_initialised X)
  /\ elk_PIINV st = elk_PIINV (elk_saved_initialised X)
  /\ elk_TINY st = elk_TINY (elk_saved_initialised X)
  /\ elk_elkold st = elk_value X (elk_saved_initialised X) (elk_mcold st).

(** Two powers of two: [2^600], far above every number the loop of Bartky's
    algorithm meets, and [2^-24], below [ca]. *)
Definition two_600 : float := 0x1p+600.
Definition two_m24 : float := 0x1p-24.

(** The cosine of the binary64 number nearest to [π/2]: no angle of the
    format in [0, π/2] has a smaller one. *)
Definition cos_min : float := 6.123233995736766e-17.

(** The sine of [φs = 1.249], rounded up to four digits. *)
Definition sin_φs : float := 0.9487.

(** [2^-54], below [cos_min]. *)
Definition two_m54 : float := 0x1p-54.

Close Scope float_scope.

(** * Binary floating-point numbers: the notions the proofs are stated with *)

Module Format.

(** The real number [m * 2^e]. *)
Definition bpow (e : Z) : R := powerRZ 2 e.
Definition F2R (m e : Z) : R := (IZR m * bpow e)%R.

(** The place of a real number [x] in the cell [[m * 2^e, (m + 1) * 2^e)],
    as the round and sticky bits of a shift record tell it. *)
Definition inb_bits (m e : Z) (r s : bool) (x : R) : Prop :=
  match r, s with
  | false, false => x = F2R m e
  | false, true => (F2R m e < x < F2R m e + bpow e / 2)%R
  | true, false => x = (F2R m e + bpow e / 2)%R
  | true, true => (F2R m e + bpow e / 2 < x < F2R m e + bpow e)%R
  end.

Definition inb_rec (mrs : shr_record) (e : Z) (x : R) : Prop :=
  inb_bits (shr_m mrs) e (shr_r mrs) (shr_s mrs) x.

Definition inb (m e : Z) (l : location) (x : R) : Prop :=
  inb_rec (shr_record_of_loc m l) e x.

(** [cell prec emax m e]: [m] and [e] are the mantissa and the exponent of
    a number of the format, in canonical form. *)
Definition cell (prec emax : Z) (m e : Z) : Prop :=
  (0 <= m < 2 ^ prec)%Z /\ (SpecFloat.emin prec emax <= e)%Z
  /\ ((m < 2 ^ (prec - 1))%Z -> e = SpecFloat.emin prec emax).

(** The number of sign [s], mantissa [M] and exponent [e], where [M] may
    be [2^prec]. *)
Definition pack (prec emax : Z) (s : bool) (M e : Z) : spec_float :=
  let '(M', e') := if (M <? 2 ^ prec)%Z then (M, e) else ((M / 2)%Z, (e + 1)%Z) in
  match M' with
  | Z0 => S754_zero s
  | Zpos p => if (e' <=? emax - prec)%Z then S754_finite s p e' else S754_infinity s
  | Zneg _ => S754_nan
  end.

(** The rank of a number among the numbers of the format: an integer that
    grows with the number. *)
Definition rank (prec emax : Z) (M e : Z) : Z :=
  ((e - SpecFloat.emin prec emax) * 2 ^ (prec - 1) + M)%Z.

Definition ord_inf (prec emax : Z) : Z :=
  rank prec emax (2 ^ (prec - 1)) (emax - prec + 1).

Definition SFord (prec emax : Z) (f : spec_float) : Z :=
  match f with
  | S754_zero _ | S754_nan => 0%Z
  | S754_infinity s => cond_Zopp s (ord_inf prec emax)
  | S754_finite s m e => cond_Zopp s (rank prec emax (Zpos m) e)
  end.

Definition SFis_nan (f : spec_float) : bool :=
  match f with S754_nan => true | _ => false end.

Definition SFis_finite (f : spec_float) : bool :=
  match f with S754_zero _ | S754_finite _ _ _ => true | _ => false end.

(** The real number a finite number of the format stands for. *)
Definition SF2R (f : spec_float) : R :=
  match f with
  | S754_finite s m e => F2R (cond_Zopp s (Zpos m)) e
  | _ => 0%R
  end.

(** [Rnd_pos x s f]: [f] is the number of sign [s] whose magnitude is the
    rounding to nearest, ties to even, of the non-negative real [x]. *)
Definition Rnd_pos (prec emax : Z) (x : R) (s : bool) (f : spec_float) : Prop :=
  exists m e l, cell prec emax m e /\ inb m e l x
                /\ f = pack prec emax s (round_nearest_even m l) e.

(** [Rnd x f]: [f] is the rounding of the real [x]. *)
Definition Rnd (prec emax : Z) (x : R) (f : spec_float) : Prop :=
  exists s : bool, Rnd_pos prec emax (if s then (- x)%R else x) s f.

End Format.

Export Format.

(** ** binary64 *)

Definition Ford (x : float) : Z := SFord prec emax (Prim2SF x).
Definition B2R (x : float) : R := SF2R (Prim2SF x).
Definition Ffinite (x : float) : bool := SFis_finite (Prim2SF x).
Definition Fnan (x : float) : bool := SFis_nan (Prim2SF x).
Definition Rnd64 (r : R) (x : float) : Prop := Rnd prec emax r (Prim2SF x).

#[local] Open Scope float_scope.

(** ** Intervals of binary64 numbers *)

Definition fin (x : float) : bool := abs x <? infinity.

Record itv : Type := mk_itv { lo : float; hi : float }.

Definition In (x : float) (i : itv) : Prop := (lo i <=? x) && (x <=? hi i) = true.

Definition ok (i : itv) : bool := fin (lo i) && fin (hi i).

Definition fmin (a b : float) : float := if a <=? b then a else b.
Definition fmax (a b : float) : float := if a <=? b then b else a.

Definition iadd (i j : itv) : itv := mk_itv (lo i + lo j) (hi i + hi j).
Definition isub (i j : itv) : itv := mk_itv (lo i - hi j) (hi i - lo j).
Definition iopp (i : itv) : itv := mk_itv (- hi i) (- lo i).
Definition imul (i j : itv) : itv :=
  let a := lo i * lo j in let b := lo i * hi j in
  let c := hi i * lo j in let d := hi i * hi j in
  mk_itv (fmin (fmin a b) (fmin c d)) (fmax (fmax a b) (fmax c d)).
Definition idiv (i j : itv) : itv :=
  let a := lo i / lo j in let b := lo i / hi j in
  let c := hi i / lo j in let d := hi i / hi j in
  mk_itv (fmin (fmin a b) (fmin c d)) (fmax (fmax a b) (fmax c d)).
Definition isqrt (i : itv) : itv := mk_itv (sqrt (lo i)) (sqrt (hi i)).

(** ** Expressions and their evaluation over intervals *)

Inductive expr : Type :=
  | EVar (n : nat)
  | ECst (c : float)
  | EAdd (a b : expr)
  | ESub (a b : expr)
  | EMul (a b : expr)
  | EDiv (a b : expr)
  | ESqrt (a : expr)
  | EOpp (a : expr).

Fixpoint eval (env : list float) (e : expr) : float :=
  match e with
  | EVar n => nth n env 0
  | ECst c => c
  | EAdd a b => eval env a + eval env b
  | ESub a b => eval env a - eval env b
  | EMul a b => eval env a * eval env b
  | EDiv a b => eval env a / eval env b
  | ESqrt a => sqrt (eval env a)
  | EOpp a => - eval env a
  end.

Definition check (i : itv) : option itv := if ok i then Some i else None.

Fixpoint ieval (ienv : list itv) (e : expr) : option itv :=
  match e with
  | EVar n => match nth_error ienv n with Some i => check i | None => None end
  | ECst c => check (mk_itv c c)
  | EAdd a b =>
      match ieval ienv a, ieval ienv b with
      | Some i, Some j => check (iadd i j)
      | _, _ => None
      end
  | ESub a b =>
      match ieval ienv a, ieval ienv b with
      | Some i, Some j => check (isub i j)
      | _, _ => None
      end
  | EMul a b =>
      match ieval ienv a, ieval ienv b with
      | Some i, Some j => check (imul i j)
      | _, _ => None
      end
  | EDiv a b =>
      match ieval ienv a, ieval ienv b with
      | Some i, Some j =>
          if (0 <? lo j) || (hi j <? 0) then check (idiv i j) else None
      | _, _ => None
      end
  | ESqrt a =>
      match ieval ienv a with
      | Some i => if 0 <=? lo i then check (isqrt i) else None
      | None => None
      end
  | EOpp a =>
      match ieval ienv a with
      | Some i => check (iopp i)
      | None => None
      end
  end.

(** Reading a term as an expression over the variables [vars]. *)
Ltac index_of x l n :=
  lazymatch l with
  | x :: _ => constr:(n)
  | _ :: ?tl => index_of x tl (S n)
  end.

Ltac reify vars t :=
  lazymatch t with
  | (?a + ?b) => let ra := reify vars a in let rb := reify vars b in constr:(EAdd ra rb)
  | (?a - ?b) => let ra := reify vars a in let rb := reify vars b in constr:(ESub ra rb)
  | (?a * ?b) => let ra := reify vars a in let rb := reify vars b in constr:(EMul ra rb)
  | (?a / ?b) => let ra := reify vars a in let rb := reify vars b in constr:(EDiv ra rb)
  | sqrt ?a => let ra := reify vars a in constr:(ESqrt ra)
  | (- ?a) => let ra := reify vars a in constr:(EOpp ra)
  | _ =>
      match vars with
      | _ => let n := index_of t vars O in constr:(EVar n)
      | _ => constr:(ECst t)
      end
  end.

Close Scope float_scope.

(** * Invariants *)

(** The invariant of the loop of Bartky's algorithm, on the three variables
    the test of the loop depends on: [m] is at least 1 and at most [B], the
    ratio [kc / m] is at least [t] and at most [1 + 2^-49], and [e] is the
    product [kc * m] up to a rounding. *)
Definition Bartky_state (t B : R) (kc e m : float) : Prop :=
  Ffinite kc = true /\ Ffinite e = true /\ Ffinite m = true
  /\ (1 <= B2R m <= B)%R
  /\ (t * B2R m <= B2R kc <= (1 + bpow (-49)) * B2R m)%R
  /\ ((1 - bpow (-52)) * (B2R kc * B2R m) <= B2R e
      <= (1 + bpow (-52)) * (B2R kc * B2R m))%R.

(** [Bartky_leaves k t B]: from a state with ratio at least [t], the loop
    leaves within [k] iterations. *)
Definition Bartky_leaves (k : nat) (t B : R) : Prop :=
  forall (fuel : nat) (kc e m p a b : float),
    (k <= fuel)%nat -> Bartky_state t B kc e m ->
    exists v, Bartky fuel kc e m p a b = Some v.

#[local] Open Scope float_scope.

(** The next [yᵢ] of the half argument transformation of [s], as an
    expression of [m] and [yᵢ] (the variables 0 and 1). *)
Definition s_next_expr : expr :=
  EDiv (EVar 1)
       (EMul (EAdd (ECst 1.0) (ESqrt (ESub (ECst 1.0) (EVar 1))))
             (EAdd (ECst 1.0) (ESqrt (ESub (ECst 1.0) (EMul (EVar 0) (EVar 1)))))).

(** [s_leaves k h]: from [yᵢ] in [0, h], the half argument transformation of
    [s] leaves its loop within [k] iterations. *)
Definition s_leaves (k : nat) (h : float) : Prop :=
  forall (budget : nat) (m yi : float) (y s cd : list float),
    (k <= budget)%nat -> In m (mk_itv 0 1) -> In yi (mk_itv 0 h) ->
    exists r, half_argument_transformation_of_s budget m yi y s cd = Some r.

(** The next [xᵢ] of the half argument transformation of [c], as an
    expression of [mc], [m], [cᵢ] and [xᵢ] (the variables 0 to 3), and the
    same with [cᵢ = Sqrt(xᵢ)], as every iteration but the first has it. *)
Definition c_next_expr : expr :=
  EDiv (EAdd (EVar 2) (ESqrt (EAdd (EVar 0) (EMul (EVar 1) (EVar 3)))))
       (EAdd (ECst 1.0) (ESqrt (EAdd (EVar 0) (EMul (EVar 1) (EVar 3))))).

Definition c_next_sqrt_expr : expr :=
  EDiv (EAdd (ESqrt (EVar 2)) (ESqrt (EAdd (EVar 0) (EMul (EVar 1) (EVar 2)))))
       (EAdd (ECst 1.0) (ESqrt (EAdd (EVar 0) (EMul (EVar 1) (EVar 2))))).

(** What the loop of the half argument transformation of [c] leaves: the
    arrays, with [s[i]] the square root of [1 - xᵢ] for an [xᵢ] that is not
    below [xS]. *)
Definition c_left (r : option (list float * list float * list float)) : Prop :=
  exists (y s cd : list float) (x : float),
    r = Some (y, s, cd)
    /\ nth (length cd) s nan = sqrt (1.0 - x)
    /\ (x <=? xS) = false.

(** [c_leaves k Imc Im l]: with [mc] in [Imc] and [m] in [Im], from
    [cᵢ = Sqrt(xᵢ)] and an [xᵢ] that is at least [l] when it is below [xS],
    the half argument transformation of [c] leaves its loop within [k]
    iterations. *)
Definition c_leaves (k : nat) (Imc Im : itv) (l : float) : Prop :=
  forall (budget : nat) (mc m xi : float) (y s cd : list float),
    (k <= budget)%nat -> In mc Imc -> In m Im ->
    ((xi <=? xS) = true -> (l <=? xi) = true) ->
    length s = Datatypes.S (length cd) ->
    nth (length cd) s nan = sqrt (1.0 - xi) ->
    c_left (half_argument_transformation_of_c budget mc m (sqrt xi) xi y s cd).


(** ** Further definitions used to state properties *)

(** A value of [kc] from which the loop of Bartky's algorithm does not
    leave: a NaN or the positive infinity. *)
Definition Bartky_stuck (kc : float) : Prop := kc = nan \/ kc = infinity.

(** A stand-in for the collaborators whose arc tangent is [a] at every
    argument. *)
Definition externals_with_atan (a : float) : Externals :=
  {| ext_log := fun x => x - 1;
     ext_atan := fun _ => a;
     ext_atanh := fun x => x;
     ext_Sin := fun x => x;
     ext_Cos := fun x => 1 - x * x / 2;
     ext_HornerEvaluate := Horner;
     ext_EstrinEvaluate := Horner |}.

(** [halve_check k I l]: an enclosure [I] of [u0], halved [k] times, is
    below [l]. *)
Fixpoint halve_check (k : nat) (I : itv) (l : float) : bool :=
  match k with
  | O => hi I <? l
  | S k' =>
      match ieval [I] (EMul (EVar 0) (ECst 0.5)) with
      | Some J => halve_check k' J l
      | None => false
      end
  end.

(** ** Cascades of tests over expressions

    A cascade is what the functions of the sources are, once the variables
    are replaced by their definitions: tests [a <= b] and [a < b] between
    expressions, and an expression at the end of each way through. *)
Inductive cascade : Type :=
  | CRet (e : expr)
  | CLeb (a b : expr) (t f : cascade)
  | CLtb (a b : expr) (t f : cascade).

Fixpoint ceval (env : list float) (c : cascade) : float :=
  match c with
  | CRet e => eval env e
  | CLeb a b t f => if eval env a <=? eval env b then ceval env t else ceval env f
  | CLtb a b t f => if eval env a <? eval env b then ceval env t else ceval env f
  end.

(** [cieval ienv c T]: on the intervals [ienv], every way through [c] that
    the enclosures of the tests do not exclude ends in [T]. *)
Fixpoint cieval (ienv : list itv) (c : cascade) (T : itv) : bool :=
  match c with
  | CRet e =>
      match ieval ienv e with
      | Some V => (lo T <=? lo V) && (hi V <=? hi T)
      | None => false
      end
  | CLeb a b t f =>
      match ieval ienv a, ieval ienv b with
      | Some A, Some B =>
          if hi A <=? lo B then cieval ienv t T
          else if hi B <? lo A then cieval ienv f T
          else cieval ienv t T && cieval ienv f T
      | _, _ => false
      end
  | CLtb a b t f =>
      match ieval ienv a, ieval ienv b with
      | Some A, Some B =>
          if hi A <? lo B then cieval ienv t T
          else if hi B <=? lo A then cieval ienv f T
          else cieval ienv t T && cieval ienv f T
      | _, _ => false
      end
  end.

(** [bisect d c T J]: the same for a cascade of one variable, on [J] or on
    the pieces of [J], cut in halves at most [d] times. *)
Fixpoint bisect (d : nat) (c : cascade) (T J : itv) : bool :=
  cieval [J] c T
  || match d with
     | O => false
     | S d' =>
         let mid := (lo J + hi J) * 0.5 in
         (lo J <=? mid) && (mid <=? hi J)
         && bisect d' c T (mk_itv (lo J) mid) && bisect d' c T (mk_itv mid (hi J))
     end.

(** The cascade that follows [c] by [k], applied to the expression [c] ends
    in. *)
Fixpoint cbind (c : cascade) (k : expr -> cascade) : cascade :=
  match c with
  | CRet e => k e
  | CLeb a b t f => CLeb a b (cbind t k) (cbind f k)
  | CLtb a b t f => CLtb a b (cbind t k) (cbind f k)
  end.

(** Reading a term as a cascade over the variables [vars]. *)
Ltac reify_cascade vars t :=
  lazymatch t with
  | (if ?a <=? ?b then ?x else ?y) =>
      let ra := reify vars a in let rb := reify vars b in
      let rx := reify_cascade vars x in let ry := reify_cascade vars y in
      constr:(CLeb ra rb rx ry)
  | (if ?a <? ?b then ?x else ?y) =>
      let ra := reify vars a in let rb := reify vars b in
      let rx := reify_cascade vars x in let ry := reify_cascade vars y in
      constr:(CLtb ra rb rx ry)
  | _ => let r := reify vars t in constr:(CRet r)
  end.

(** The same for a cascade that ends in pairs, of which [reify_cascade_fst]
    reads the first component and [reify_cascade_snd] the second. *)
Ltac reify_cascade_fst vars t :=
  lazymatch t with
  | (if ?a <=? ?b then ?x else ?y) =>
      let ra := reify vars a in let rb := reify vars b in
      let rx := reify_cascade_fst vars x in let ry := reify_cascade_fst vars y in
      constr:(CLeb ra rb rx ry)
  | (if ?a <? ?b then ?x else ?y) =>
      let ra := reify vars a in let rb := reify vars b in
      let rx := reify_cascade_fst vars x in let ry := reify_cascade_fst vars y in
      constr:(CLtb ra rb rx ry)
  | (?u, _) => let r := reify vars u in constr:(CRet r)
  end.

Ltac reify_cascade_snd vars t :=
  lazymatch t with
  | (if ?a <=? ?b then ?x else ?y) =>
      let ra := reify vars a in let rb := reify vars b in
      let rx := reify_cascade_snd vars x in let ry := reify_cascade_snd vars y in
      constr:(CLeb ra rb rx ry)
  | (if ?a <? ?b then ?x else ?y) =>
      let ra := reify vars a in let rb := reify vars b in
      let rx := reify_cascade_snd vars x in let ry := reify_cascade_snd vars y in
      constr:(CLtb ra rb rx ry)
  | (_, ?u) => let r := reify vars u in constr:(CRet r)
  end.

(** The cascade of [b + d - k], for [b], [d] and [k] the ends of three
    cascades. *)
Definition csum_diff (cb cd ck : cascade) : cascade :=
  cbind cb (fun b => cbind cd (fun d => cbind ck (fun k => CRet (ESub (EAdd b d) k)))).

(** ** The tables of the Maclaurin series *)

(** The binary64 number of an integer literal such as [2722.0]. *)
Definition integer_literal (z : Z) : float := of_uint63 (Uint63.of_Z z).

(** The central binomial coefficient [C(2j, j)]: the coefficient of [x^j]
    in the expansion of [1 / sqrt(1 - x)] is [C(2j, j) / 4^j]. *)
Fixpoint central_binomial (j : nat) : Z :=
  match j with
  | O => 1
  | S j' => (central_binomial j' * (2 * (2 * Z.of_nat j' + 1)) / (Z.of_nat j' + 1))%Z
  end.

(** [F_expansion k j P Q]: [P / Q] is the coefficient of [m^j y^k] in the
    expansion of [1 / sqrt((1 - y) (1 - m y))], divided by [2 k + 1]. *)
Definition F_expansion (k j : nat) (P Q : Z) : Prop :=
  (P * (4 ^ Z.of_nat k * (2 * Z.of_nat k + 1))
   = central_binomial j * central_binomial (k - j) * Q)%Z.

(** [J_expansion k c a P Q]: [P / Q] is the coefficient of
    [m^c n^a y^(k - 1)] in the expansion of
    [1 / ((1 - n y) sqrt((1 - y) (1 - m y)))], divided by [2 k + 1]. *)
Definition J_expansion (k c a : nat) (P Q : Z) : Prop :=
  (P * (4 ^ Z.of_nat (k - 1 - a) * (2 * Z.of_nat k + 1))
   = central_binomial (k - 1 - a - c) * central_binomial c * Q)%Z.

(** An entry of the table of the [Fkj]: [k], [j], the two integer literals
    of the source and the coefficient. *)
Definition F_entry (k j : nat) (P Q : Z) (f : float)
  : nat * nat * Z * Z * float := (k, j, P, Q, f).

(** An entry of the table of the [Jkca]: [k], the power [c] of [m], the
    power [a] of [n], the two integer literals of the source and the
    coefficient. *)
Definition J_entry (k c a : nat) (P Q : Z) (f : float)
  : nat * nat * nat * Z * Z * float := (k, c, a, P, Q, f).

(** The coefficients of [FukushimaEllipticBsDsMaclaurinSeries]. *)
Definition F_table : list (nat * nat * Z * Z * float) :=
  [
    F_entry 1 0 1 6 BsDsMaclaurin.F10; F_entry 2 0 3 40 BsDsMaclaurin.F20;
    F_entry 2 1 2 40 BsDsMaclaurin.F21; F_entry 3 0 5 112 BsDsMaclaurin.F30;
    F_entry 3 1 3 112 BsDsMaclaurin.F31; F_entry 4 0 35 1152 BsDsMaclaurin.F40;
    F_entry 4 1 20 1152 BsDsMaclaurin.F41; F_entry 4 2 18 1152 BsDsMaclaurin.F42;
    F_entry 5 0 63 2816 BsDsMaclaurin.F50; F_entry 5 1 35 2816 BsDsMaclaurin.F51;
    F_entry 5 2 30 2816 BsDsMaclaurin.F52; F_entry 6 0 231 13312 BsDsMaclaurin.F60;
    F_entry 6 1 126 13312 BsDsMaclaurin.F61; F_entry 6 2 105 13312 BsDsMaclaurin.F62;
    F_entry 6 3 100 13312 BsDsMaclaurin.F63; F_entry 7 0 429 30720 BsDsMaclaurin.F70;
    F_entry 7 1 231 30720 BsDsMaclaurin.F71; F_entry 7 2 189 30720 BsDsMaclaurin.F72;
    F_entry 7 3 175 30720 BsDsMaclaurin.F73; F_entry 8 0 6435 557056 BsDsMaclaurin.F80;
    F_entry 8 1 3432 557056 BsDsMaclaurin.F81; F_entry 8 2 2722 557056 BsDsMaclaurin.F82;
    F_entry 8 3 2520 557056 BsDsMaclaurin.F83; F_entry 8 4 2450 557056 BsDsMaclaurin.F84;
    F_entry 9 0 12155 1245184 BsDsMaclaurin.F90; F_entry 9 1 6435 1245184 BsDsMaclaurin.F91;
    F_entry 9 2 5148 1245184 BsDsMaclaurin.F92; F_entry 9 3 4620 1245184 BsDsMaclaurin.F93;
    F_entry 9 4 4410 1245184 BsDsMaclaurin.F94; F_entry 10 0 46189 5505024 BsDsMaclaurin.FA0;
    F_entry 10 1 24310 5505024 BsDsMaclaurin.FA1; F_entry 10 2 19305 5505024 BsDsMaclaurin.FA2;
    F_entry 10 3 17160 5505024 BsDsMaclaurin.FA3; F_entry 10 4 16170 5505024 BsDsMaclaurin.FA4;
    F_entry 10 5 15876 5505024 BsDsMaclaurin.FA5; F_entry 11 0 88179 12058624 BsDsMaclaurin.FB0;
    F_entry 11 1 46189 12058624 BsDsMaclaurin.FB1; F_entry 11 2 36465 12058624 BsDsMaclaurin.FB2;
    F_entry 11 3 32175 12058624 BsDsMaclaurin.FB3; F_entry 11 4 30030 12058624 BsDsMaclaurin.FB4;
    F_entry 11 5 29106 12058624 BsDsMaclaurin.FB5 ].

(** The coefficients of [FukushimaEllipticJsMaclaurinSeries]. *)
Definition J_table : list (nat * nat * nat * Z * Z * float) :=
  [
    J_entry 1 0 0 1 3 JsMaclaurin.J100; J_entry 2 0 0 1 10 JsMaclaurin.J200;
    J_entry 2 0 1 2 10 JsMaclaurin.J201; J_entry 2 1 0 1 10 JsMaclaurin.J210;
    J_entry 3 0 0 3 56 JsMaclaurin.J300; J_entry 3 0 1 4 56 JsMaclaurin.J301;
    J_entry 3 0 2 8 56 JsMaclaurin.J302; J_entry 3 1 0 2 56 JsMaclaurin.J310;
    J_entry 3 1 1 4 56 JsMaclaurin.J311; J_entry 3 2 0 3 56 JsMaclaurin.J320;
    J_entry 4 0 0 5 144 JsMaclaurin.J400; J_entry 4 0 1 6 144 JsMaclaurin.J401;
    J_entry 4 0 2 8 144 JsMaclaurin.J402; J_entry 4 0 3 16 144 JsMaclaurin.J403;
    J_entry 4 1 0 3 144 JsMaclaurin.J410; J_entry 4 1 1 4 144 JsMaclaurin.J411;
    J_entry 4 1 2 8 144 JsMaclaurin.J412; J_entry 4 2 0 3 144 JsMaclaurin.J420;
    J_entry 4 2 1 6 144 JsMaclaurin.J421; J_entry 4 3 0 5 144 JsMaclaurin.J430;
    J_entry 5 0 0 35 1408 JsMaclaurin.J500; J_entry 5 0 1 40 1408 JsMaclaurin.J501;
    J_entry 5 0 2 48 1408 JsMaclaurin.J502; J_entry 5 0 3 64 1408 JsMaclaurin.J503;
    J_entry 5 0 4 128 1408 JsMaclaurin.J504; J_entry 5 1 0 20 1408 JsMaclaurin.J510;
    J_entry 5 1 1 24 1408 JsMaclaurin.J511; J_entry 5 1 2 32 1408 JsMaclaurin.J512;
    J_entry 5 1 3 64 1408 JsMaclaurin.J513; J_entry 5 2 0 18 1408 JsMaclaurin.J520;
    J_entry 5 2 1 24 1408 JsMaclaurin.J521; J_entry 5 2 2 48 1408 JsMaclaurin.J522;
    J_entry 5 3 0 20 1408 JsMaclaurin.J530; J_entry 5 3 1 40 1408 JsMaclaurin.J531;
    J_entry 5 4 0 35 1408 JsMaclaurin.J540; J_entry 6 0 0 63 3328 JsMaclaurin.J600;
    J_entry 6 0 1 70 3328 JsMaclaurin.J601; J_entry 6 0 2 80 3328 JsMaclaurin.J602;
    J_entry 6 0 3 96 3328 JsMaclaurin.J603; J_entry 6 0 4 128 3328 JsMaclaurin.J604;
    J_entry 6 0 5 256 3328 JsMaclaurin.J605; J_entry 6 1 0 35 3328 JsMaclaurin.J610;
    J_entry 6 1 1 40 3328 JsMaclaurin.J611; J_entry 6 1 2 48 3328 JsMaclaurin.J612;
    J_entry 6 1 3 64 3328 JsMaclaurin.J613; J_entry 6 1 4 128 3328 JsMaclaurin.J614;
    J_entry 6 2 0 30 3328 JsMaclaurin.J620; J_entry 6 2 1 36 3328 JsMaclaurin.J621;
    J_entry 6 2 2 48 3328 JsMaclaurin.J622; J_entry 6 2 3 96 3328 JsMaclaurin.J623;
    J_entry 6 3 0 30 3328 JsMaclaurin.J630; J_entry 6 3 1 40 3328 JsMaclaurin.J631;
    J_entry 6 3 2 80 3328 JsMaclaurin.J632; J_entry 6 4 0 35 3328 JsMaclaurin.J640;
    J_entry 6 4 1 70 3328 JsMaclaurin.J641; J_entry 6 5 0 63 3328 JsMaclaurin.J650;
    J_entry 7 0 0 231 15360 JsMaclaurin.J700; J_entry 7 0 1 252 15360 JsMaclaurin.J701;
    J_entry 7 0 2 280 15360 JsMaclaurin.J702; J_entry 7 0 3 320 15360 JsMaclaurin.J703;
    J_entry 7 0 4 384 15360 JsMaclaurin.J704; J_entry 7 0 5 512 15360 JsMaclaurin.J705;
    J_entry 7 0 6 1024 15360 JsMaclaurin.J706; J_entry 7 1 0 126 15360 JsMaclaurin.J710;
    J_entry 7 1 1 140 15360 JsMaclaurin.J711; J_entry 7 1 2 160 15360 JsMaclaurin.J712;
    J_entry 7 1 3 192 15360 JsMaclaurin.J713; J_entry 7 1 4 256 15360 JsMaclaurin.J714;
    J_entry 7 1 5 512 15360 JsMaclaurin.J715; J_entry 7 2 0 105 15360 JsMaclaurin.J720;
    J_entry 7 2 1 120 15360 JsMaclaurin.J721; J_entry 7 2 2 144 15360 JsMaclaurin.J722;
    J_entry 7 2 3 192 15360 JsMaclaurin.J723; J_entry 7 2 4 384 15360 JsMaclaurin.J724;
    J_entry 7 3 0 100 15360 JsMaclaurin.J730; J_entry 7 3 1 120 15360 JsMaclaurin.J731;
    J_entry 7 3 2 160 15360 JsMaclaurin.J732; J_entry 7 3 3 320 15360 JsMaclaurin.J733;
    J_entry 7 4 0 105 15360 JsMaclaurin.J740; J_entry 7 4 1 140 15360 JsMaclaurin.J741;
    J_entry 7 4 2 280 15360 JsMaclaurin.J742; J_entry 7 5 0 126 15360 JsMaclaurin.J750;
    J_entry 7 5 1 252 15360 JsMaclaurin.J751; J_entry 7 6 0 231 15360 JsMaclaurin.J760;
    J_entry 8 0 0 429 34816 JsMaclaurin.J800; J_entry 8 0 1 462 34816 JsMaclaurin.J801;
    J_entry 8 0 2 504 34816 JsMaclaurin.J802; J_entry 8 0 3 560 34816 JsMaclaurin.J803;
    J_entry 8 0 4 640 34816 JsMaclaurin.J804; J_entry 8 0 5 768 34816 JsMaclaurin.J805;
    J_entry 8 0 6 1024 34816 JsMaclaurin.J806; J_entry 8 0 7 2048 34816 JsMaclaurin.J807;
    J_entry 8 1 0 231 34816 JsMaclaurin.J810; J_entry 8 1 1 252 34816 JsMaclaurin.J811;
    J_entry 8 1 2 280 34816 JsMaclaurin.J812; J_entry 8 1 3 320 34816 JsMaclaurin.J813;
    J_entry 8 1 4 384 34816 JsMaclaurin.J814; J_entry 8 1 5 512 34816 JsMaclaurin.J815;
    J_entry 8 1 6 1024 34816 JsMaclaurin.J816; J_entry 8 2 0 189 34816 JsMaclaurin.J820;
    J_entry 8 2 1 210 34816 JsMaclaurin.J821; J_entry 8 2 2 240 34816 JsMaclaurin.J822;
    J_entry 8 2 3 288 34816 JsMaclaurin.J823; J_entry 8 2 4 284 34816 JsMaclaurin.J824;
    J_entry 8 2 5 768 34816 JsMaclaurin.J825; J_entry 8 3 0 175 34816 JsMaclaurin.J830;
    J_entry 8 3 1 200 34816 JsMaclaurin.J831; J_entry 8 3 2 240 34816 JsMaclaurin.J832;
    J_entry 8 3 3 320 34816 JsMaclaurin.J833; J_entry 8 3 4 640 34816 JsMaclaurin.J834;
    J_entry 8 4 0 175 34816 JsMaclaurin.J840; J_entry 8 4 1 210 34816 JsMaclaurin.J841;
    J_entry 8 4 2 280 34816 JsMaclaurin.J842; J_entry 8 4 3 560 34816 JsMaclaurin.J843;
    J_entry 8 5 0 189 34816 JsMaclaurin.J850; J_entry 8 5 1 252 34816 JsMaclaurin.J851;
    J_entry 8 5 2 504 34816 JsMaclaurin.J852; J_entry 8 6 0 231 34816 JsMaclaurin.J860;
    J_entry 8 6 1 462 34816 JsMaclaurin.J861; J_entry 8 7 0 429 34816 JsMaclaurin.J870;
    J_entry 9 0 0 6435 622592 JsMaclaurin.J900; J_entry 9 0 1 6864 622592 JsMaclaurin.J901;
    J_entry 9 0 2 7392 622592 JsMaclaurin.J902; J_entry 9 0 3 8064 622592 JsMaclaurin.J903;
    J_entry 9 0 4 8960 622592 JsMaclaurin.J904; J_entry 9 0 5 10240 622592 JsMaclaurin.J905;
    J_entry 9 0 6 12288 622592 JsMaclaurin.J906; J_entry 9 0 7 16384 622592 JsMaclaurin.J907;
    J_entry 9 0 8 32768 622592 JsMaclaurin.J908; J_entry 9 1 0 3432 622592 JsMaclaurin.J910;
    J_entry 9 1 1 3696 622592 JsMaclaurin.J911; J_entry 9 1 2 4032 622592 JsMaclaurin.J912;
    J_entry 9 1 3 4480 622592 JsMaclaurin.J913; J_entry 9 1 4 5120 622592 JsMaclaurin.J914;
    J_entry 9 1 5 6144 622592 JsMaclaurin.J915; J_entry 9 1 6 8192 622592 JsMaclaurin.J916;
    J_entry 9 1 7 16384 622592 JsMaclaurin.J917; J_entry 9 2 0 2772 622592 JsMaclaurin.J920;
    J_entry 9 2 1 3024 622592 JsMaclaurin.J921; J_entry 9 2 2 3360 622592 JsMaclaurin.J922;
    J_entry 9 2 3 3840 622592 JsMaclaurin.J923; J_entry 9 2 4 4608 622592 JsMaclaurin.J924;
    J_entry 9 2 5 6144 622592 JsMaclaurin.J925; J_entry 9 2 6 12288 622592 JsMaclaurin.J926;
    J_entry 9 3 0 2520 622592 JsMaclaurin.J930; J_entry 9 3 1 2800 622592 JsMaclaurin.J931;
    J_entry 9 3 2 3200 622592 JsMaclaurin.J932; J_entry 9 3 3 3840 622592 JsMaclaurin.J933;
    J_entry 9 3 4 5120 622592 JsMaclaurin.J934; J_entry 9 3 5 10240 622592 JsMaclaurin.J935;
    J_entry 9 4 0 2450 622592 JsMaclaurin.J940; J_entry 9 4 1 2800 622592 JsMaclaurin.J941;
    J_entry 9 4 2 3360 622592 JsMaclaurin.J942; J_entry 9 4 3 4480 622592 JsMaclaurin.J943;
    J_entry 9 4 4 8960 622592 JsMaclaurin.J944; J_entry 9 5 0 2520 622592 JsMaclaurin.J950;
    J_entry 9 5 1 3024 622592 JsMaclaurin.J951; J_entry 9 5 2 4032 622592 JsMaclaurin.J952;
    J_entry 9 5 3 8064 622592 JsMaclaurin.J953; J_entry 9 6 0 2772 622592 JsMaclaurin.J960;
    J_entry 9 6 1 3696 622592 JsMaclaurin.J961; J_entry 9 6 2 7392 622592 JsMaclaurin.J962;
    J_entry 9 7 0 3432 622592 JsMaclaurin.J970; J_entry 9 7 1 6864 622592 JsMaclaurin.J971;
    J_entry 9 8 0 6435 622592 JsMaclaurin.J980; J_entry 10 0 0 12155 1376256 JsMaclaurin.JA00;
    J_entry 10 0 1 12870 1376256 JsMaclaurin.JA01; J_entry 10 0 2 13728 1376256 JsMaclaurin.JA02;
    J_entry 10 0 3 14784 1376256 JsMaclaurin.JA03; J_entry 10 0 4 16128 1376256 JsMaclaurin.JA04;
    J_entry 10 0 5 17920 1376256 JsMaclaurin.JA05; J_entry 10 0 6 20480 1376256 JsMaclaurin.JA06;
    J_entry 10 0 7 24576 1376256 JsMaclaurin.JA07; J_entry 10 0 8 32768 1376256 JsMaclaurin.JA08;
    J_entry 10 0 9 65536 1376256 JsMaclaurin.JA09; J_entry 10 1 0 6435 1376256 JsMaclaurin.JA10;
    J_entry 10 1 1 6864 1376256 JsMaclaurin.JA11; J_entry 10 1 2 7392 1376256 JsMaclaurin.JA12;
    J_entry 10 1 3 8064 1376256 JsMaclaurin.JA13; J_entry 10 1 4 8960 1376256 JsMaclaurin.JA14;
    J_entry 10 1 5 10240 1376256 JsMaclaurin.JA15; J_entry 10 1 6 12288 1376256 JsMaclaurin.JA16;
    J_entry 10 1 7 16384 1376256 JsMaclaurin.JA17; J_entry 10 1 8 32768 1376256 JsMaclaurin.JA18;
    J_entry 10 2 0 5148 1376256 JsMaclaurin.JA20; J_entry 10 2 1 5544 1376256 JsMaclaurin.JA21;
    J_entry 10 2 2 6048 1376256 JsMaclaurin.JA22; J_entry 10 2 3 6720 1376256 JsMaclaurin.JA23;
    J_entry 10 2 4 7680 1376256 JsMaclaurin.JA24; J_entry 10 2 5 9216 1376256 JsMaclaurin.JA25;
    J_entry 10 2 6 12288 1376256 JsMaclaurin.JA26; J_entry 10 2 7 24576 1376256 JsMaclaurin.JA27;
    J_entry 10 3 0 4620 1376256 JsMaclaurin.JA30; J_entry 10 3 1 5040 1376256 JsMaclaurin.JA31;
    J_entry 10 3 2 5600 1376256 JsMaclaurin.JA32; J_entry 10 3 3 6400 1376256 JsMaclaurin.JA33;
    J_entry 10 3 4 7680 1376256 JsMaclaurin.JA34; J_entry 10 3 5 10240 1376256 JsMaclaurin.JA35;
    J_entry 10 3 6 20480 1376256 JsMaclaurin.JA36; J_entry 10 4 0 4410 1376256 JsMaclaurin.JA40;
    J_entry 10 4 1 4900 1376256 JsMaclaurin.JA41; J_entry 10 4 2 5600 1376256 JsMaclaurin.JA42;
    J_entry 10 4 3 6720 1376256 JsMaclaurin.JA43; J_entry 10 4 4 8960 1376256 JsMaclaurin.JA44;
    J_entry 10 4 5 17920 1376256 JsMaclaurin.JA45; J_entry 10 5 0 4410 1376256 JsMaclaurin.JA50;
    J_entry 10 5 1 5040 1376256 JsMaclaurin.JA51; J_entry 10 5 2 6048 1376256 JsMaclaurin.JA52;
    J_entry 10 5 3 8064 1376256 JsMaclaurin.JA53; J_entry 10 5 4 16128 1376256 JsMaclaurin.JA54;
    J_entry 10 6 0 4620 1376256 JsMaclaurin.JA60; J_entry 10 6 1 5544 1376256 JsMaclaurin.JA61;
    J_entry 10 6 2 7392 1376256 JsMaclaurin.JA62; J_entry 10 6 3 14784 1376256 JsMaclaurin.JA63;
    J_entry 10 7 0 5148 1376256 JsMaclaurin.JA70; J_entry 10 7 1 6864 1376256 JsMaclaurin.JA71;
    J_entry 10 7 2 13728 1376256 JsMaclaurin.JA72; J_entry 10 8 0 6435 1376256 JsMaclaurin.JA80;
    J_entry 10 8 1 12870 1376256 JsMaclaurin.JA81; J_entry 10 9 0 12155 1376256 JsMaclaurin.JA90 ].

(** ** The parts of a literal *)

Section Literal.

Import Ascii String.
#[local] Close Scope float_scope.
#[local] Open Scope string_scope.

(** The characters [Parse] takes for digits to replace: [1] to [9] and, in
  a hexadecimal literal, [a] to [f] and [A] to [F]; [0] is not one. *)
Definition is_digit (hex : bool) (c : ascii) : bool :=
char_between "1" "9" c
|| (hex && (char_between "a" "f" c || char_between "A" "F" c)).

(** The characters that start the exponent: [e] and [E], or [p] and [P] in
  a hexadecimal literal. *)
Definition is_exponent (hex : bool) (c : ascii) : bool :=
(negb hex && ((c =? "e")%char || (c =? "E")%char))
|| (hex && ((c =? "p")%char || (c =? "P")%char)).

(** The length of the mantissa: the index of the first character that
  starts the exponent, or the length of the literal when there is none. *)
Fixpoint mantissa_length (hex : bool) (s : string) : nat :=
match s with
| EmptyString => O
| String c s' =>
    if is_digit hex c then S (mantissa_length hex s')
    else if is_exponent hex c then O
    else S (mantissa_length hex s')
end.

(** The index of the last digit of the mantissa. *)
Fixpoint last_digit_position (hex : bool) (s : string) : option nat :=
match s with
| EmptyString => None
| String c s' =>
    if is_digit hex c then
      match last_digit_position hex s' with
      | Some p => Some (S p)
      | None => Some O
      end
    else if is_exponent hex c then None
    else option_map S (last_digit_position hex s')
end.

(** The character that stands for the number of ulps. *)
Definition ulp_char (ulp : Z) : ascii :=
if (ulp <=? 9)%Z then char_of_int (48 + ulp) else char_of_int (65 + ulp - 10).

End Literal.


(** ** Enclosures for [scd2]

    The statements of [scd2], as expressions of [m], [a] and [b] (the
    variables 0 to 2), or of [m] and [u0] for the series at the label [1]. *)
Definition Scd2_y_expr : expr :=
  EMul (EVar 2) (ESub (EMul (EVar 1) (ECst 2.0)) (EVar 2)).

Definition Scd2_b_expr : expr :=
  EMul (EMul Scd2_y_expr (ECst 2.0))
       (ESub (EMul (EVar 1) (EVar 1)) (EMul (EVar 0) Scd2_y_expr)).

Definition Scd2_a_expr : expr :=
  ESub (EMul (EMul (EVar 1) (EVar 1)) (EMul (EVar 1) (EVar 1)))
       (EMul (EMul (EVar 0) Scd2_y_expr) Scd2_y_expr).

Definition Scd2_series_expr : expr :=
  let v := EMul (EVar 1) (EVar 1) in
  EMul v
    (ESub (ECst 0.5)
       (EMul v
          (ESub (EAdd (ECst scd2_constants.B10)
                      (EMul (EVar 0) (ECst scd2_constants.B11)))
                (EMul v
                   (EAdd (ECst scd2_constants.B20)
                         (EMul (EVar 0)
                            (EAdd (ECst scd2_constants.B21)
                                  (EMul (EVar 0) (ECst scd2_constants.B22))))))))).

(** [halved k I]: an enclosure of [u0], halved [k] times. *)
Fixpoint halved (k : nat) (I : itv) : option itv :=
  match k with
  | O => Some I
  | S k' =>
      match ieval [I] (EMul (EVar 0) (ECst 0.5)) with
      | Some J => halved k' J
      | None => None
      end
  end.

(** [duplicate_enclosure n Im Ia Ib]: an enclosure of the [b/a] that the
    loop [do j=1,n] of the branch [u < uA] leaves, from enclosures of [m],
    [a] and [b]. *)
Fixpoint duplicate_enclosure (n : nat) (Im Ia Ib : itv) : option itv :=
  match n with
  | O => ieval [Ia; Ib] (EDiv (EVar 1) (EVar 0))
  | S n' =>
      match ieval [Im; Ia; Ib] Scd2_b_expr, ieval [Im; Ia; Ib] Scd2_a_expr with
      | Some Ib', Some Ia' => duplicate_enclosure n' Im Ia' Ib'
      | _, _ => None
      end
  end.

(** [Scd2_check k Im Iu T]: for every [n] up to [k], with [u] in [Iu]
    halved [n] times and [m] in [Im], the [b/a] of [scd2] is in [T]. *)
Definition Scd2_check (k : nat) (Im Iu T : itv) : bool :=
  forallb
    (fun n =>
       match halved n Iu with
       | Some J =>
           match ieval [Im; J] Scd2_series_expr with
           | Some Ib =>
               match duplicate_enclosure n Im (mk_itv 1.0 1.0) Ib with
               | Some Q => (lo T <=? lo Q) && (hi Q <=? hi T)
               | None => false
               end
           | None => false
           end
       | None => false
       end)
    (seq 0 (S k)).

Close Scope float_scope.

(** * Binary floating-point numbers: lemmas *)

(** ** Powers of two and cells *)

Section Basics.
Local Open Scope R_scope.

Lemma bpow_gt_0 e : 0 < bpow e.
Proof. apply powerRZ_lt; lra. Qed.

Lemma bpow_plus a b : bpow (a + b) = bpow a * bpow b.
Proof. apply powerRZ_add; lra. Qed.

Lemma bpow_1 : bpow 1 = 2.
Proof. unfold bpow; simpl; lra. Qed.

Lemma bpow_0 : bpow 0 = 1.
Proof. reflexivity. Qed.

Lemma bpow_succ e : bpow (e + 1) = 2 * bpow e.
Proof. rewrite bpow_plus, bpow_1; lra. Qed.

Lemma bpow_IZR n : (0 <= n)%Z -> bpow n = IZR (2 ^ n).
Proof.
intros Hn. unfold bpow.
rewrite <- (Z2Nat.id n Hn) at 1 2.
rewrite <- pow_powerRZ, pow_IZR. reflexivity.
Qed.

Lemma bpow_ge_1 n : (0 <= n)%Z -> 1 <= bpow n.
Proof.
intros Hn. rewrite bpow_IZR by assumption.
apply IZR_le. assert (0 < 2 ^ n)%Z by (apply Z.pow_pos_nonneg; lia). lia.
Qed.

Lemma bpow_le a b : (a <= b)%Z -> bpow a <= bpow b.
Proof.
intros H. replace b with (a + (b - a))%Z by lia.
rewrite bpow_plus.
pose proof (bpow_gt_0 a). pose proof (bpow_ge_1 (b - a) ltac:(lia)). nra.
Qed.

Lemma bpow_lt a b : (a < b)%Z -> bpow a < bpow b.
Proof.
intros H. replace b with (a + 1 + (b - a - 1))%Z by lia.
rewrite bpow_plus, bpow_succ.
pose proof (bpow_gt_0 a). pose proof (bpow_ge_1 (b - a - 1) ltac:(lia)). nra.
Qed.

Lemma bpow_lt_inv a b : bpow a < bpow b -> (a < b)%Z.
Proof.
intros H. destruct (Z_lt_le_dec a b) as [|Hle]; [assumption|].
apply bpow_le in Hle. lra.
Qed.

Lemma F2R_0 e : F2R 0 e = 0.
Proof. unfold F2R. lra. Qed.

Lemma F2R_plus m1 m2 e : F2R (m1 + m2) e = F2R m1 e + F2R m2 e.
Proof. unfold F2R. rewrite plus_IZR. lra. Qed.

Lemma F2R_opp m e : F2R (- m) e = - F2R m e.
Proof. unfold F2R. rewrite opp_IZR. lra. Qed.

Lemma F2R_succ m e : F2R (m + 1) e = F2R m e + bpow e.
Proof. rewrite F2R_plus. unfold F2R. lra. Qed.

Lemma F2R_le m1 m2 e : (m1 <= m2)%Z -> F2R m1 e <= F2R m2 e.
Proof.
intros H. unfold F2R. apply IZR_le in H. pose proof (bpow_gt_0 e). nra.
Qed.

Lemma F2R_lt m1 m2 e : (m1 < m2)%Z -> F2R m1 e < F2R m2 e.
Proof.
intros H. unfold F2R. apply IZR_lt in H. pose proof (bpow_gt_0 e). nra.
Qed.

Lemma F2R_lt_inv m1 m2 e : F2R m1 e < F2R m2 e -> (m1 < m2)%Z.
Proof.
intros H. destruct (Z_lt_le_dec m1 m2) as [|Hle]; [assumption|].
apply (F2R_le _ _ e) in Hle. lra.
Qed.

Lemma F2R_le_inv m1 m2 e : F2R m1 e <= F2R m2 e -> (m1 <= m2)%Z.
Proof.
intros H. destruct (Z_le_gt_dec m1 m2) as [|Hgt]; [assumption|].
apply Z.gt_lt, (F2R_lt _ _ e) in Hgt. lra.
Qed.

Lemma F2R_shift m e k : (0 <= k)%Z -> F2R (m * 2 ^ k) e = F2R m (e + k).
Proof.
intros Hk. unfold F2R. rewrite mult_IZR, bpow_plus, (bpow_IZR k Hk). lra.
Qed.

Lemma F2R_bpow e k : (0 <= k)%Z -> F2R (2 ^ k) e = bpow (e + k).
Proof.
intros Hk. unfold F2R. rewrite bpow_plus, (bpow_IZR k Hk). lra.
Qed.

Lemma F2R_ge_0 m e : (0 <= m)%Z -> 0 <= F2R m e.
Proof. intros H. rewrite <- (F2R_0 e). now apply F2R_le. Qed.

Lemma F2R_double m e : F2R (2 * m) e = F2R m (e + 1).
Proof. unfold F2R. rewrite mult_IZR, bpow_succ. lra. Qed.

End Basics.

(** digits *)
Lemma digits2_pos_size p : digits2_pos p = Pos.size p.
Proof. induction p; simpl; congruence. Qed.

Lemma digits2_pos_bounds p :
  (2 ^ (Zpos (digits2_pos p) - 1) <= Zpos p < 2 ^ Zpos (digits2_pos p))%Z.
Proof.
  induction p as [p IH|p IH|]; simpl digits2_pos.
  - rewrite Pos2Z.inj_succ.
    replace (Z.succ (Z.pos (digits2_pos p)) - 1)%Z with (Zpos (digits2_pos p) - 1 + 1)%Z by lia.
    rewrite Z.pow_succ_r by lia.
    rewrite Z.pow_add_r by lia. change (2 ^ 1)%Z with 2%Z. lia.
  - rewrite Pos2Z.inj_succ.
    replace (Z.succ (Z.pos (digits2_pos p)) - 1)%Z with (Zpos (digits2_pos p) - 1 + 1)%Z by lia.
    rewrite Z.pow_succ_r by lia.
    rewrite Z.pow_add_r by lia. change (2 ^ 1)%Z with 2%Z. lia.
  - simpl. lia.
Qed.

Lemma Zdigits2_bounds m : (0 < m)%Z ->
  (2 ^ (Zdigits2 m - 1) <= m < 2 ^ Zdigits2 m)%Z.
Proof. destruct m; try lia. intros _. apply digits2_pos_bounds. Qed.

Lemma Zdigits2_nonneg m : (0 <= Zdigits2 m)%Z.
Proof. destruct m; simpl; lia. Qed.

Lemma Zdigits2_pos m : (0 < m)%Z -> (0 < Zdigits2 m)%Z.
Proof. destruct m; simpl; lia. Qed.

(* digits is determined by the bounds *)
Lemma Zdigits2_unique m d : (0 < m)%Z -> (2 ^ (d - 1) <= m < 2 ^ d)%Z -> Zdigits2 m = d.
Proof.
  intros Hm [H1 H2].
  pose proof (Zdigits2_bounds m Hm) as [H3 H4].
  pose proof (Zdigits2_pos m Hm).
  assert (0 < d)%Z.
  { destruct (Z_lt_le_dec 0 d) as [|Hd]; [assumption|]. exfalso.
    destruct (Z.eq_dec d 0) as [->|Hne]; [simpl in H2; lia|].
    rewrite (Z.pow_neg_r 2 d) in H2 by lia. lia. }
  destruct (Z.lt_trichotomy (Zdigits2 m) d) as [Hlt|[Heq|Hgt]]; [|assumption|].
  - assert (2 ^ Zdigits2 m <= 2 ^ (d - 1))%Z by (apply Z.pow_le_mono_r; lia). lia.
  - assert (2 ^ d <= 2 ^ (Zdigits2 m - 1))%Z by (apply Z.pow_le_mono_r; lia). lia.
Qed.

(** ** Shifts with round and sticky bits *)

Lemma IZR_xI p : IZR (Zpos p~1) = (2 * IZR (Zpos p) + 1)%R.
Proof. rewrite Pos2Z.inj_xI, plus_IZR, mult_IZR. reflexivity. Qed.

Lemma IZR_xO p : IZR (Zpos p~0) = (2 * IZR (Zpos p))%R.
Proof. rewrite Pos2Z.inj_xO, mult_IZR. reflexivity. Qed.

Lemma shr_1_spec mrs e x :
  (0 <= shr_m mrs)%Z -> inb_rec mrs e x ->
  inb_rec (shr_1 mrs) (e + 1) x /\ shr_m (shr_1 mrs) = (shr_m mrs / 2)%Z.
Proof.
  destruct mrs as [m r s]. simpl. intros Hm H.
  pose proof (bpow_gt_0 e) as Hb.
  destruct m as [|p|p]; [| |lia].
  - split; [|reflexivity].
    unfold inb_rec, inb_bits, F2R in *; simpl in *. rewrite bpow_succ.
    destruct r, s; simpl; lra.
  - destruct p as [p|p|].
    + split; [|simpl; rewrite Pos2Z.inj_xI; apply Z.div_unique with 1%Z; lia].
      unfold inb_rec, inb_bits, F2R in *; simpl shr_m in *; simpl shr_r in *; simpl shr_s in *.
      rewrite bpow_succ. rewrite IZR_xI in H.
      destruct r, s; simpl; lra.
    + split; [|simpl; rewrite Pos2Z.inj_xO; apply Z.div_unique with 0%Z; lia].
      unfold inb_rec, inb_bits, F2R in *; simpl shr_m in *; simpl shr_r in *; simpl shr_s in *.
      rewrite bpow_succ. rewrite IZR_xO in H.
      destruct r, s; simpl; lra.
    + split; [|reflexivity].
      unfold inb_rec, inb_bits, F2R in *; simpl shr_m in *; simpl shr_r in *; simpl shr_s in *.
      rewrite bpow_succ.
      destruct r, s; simpl; lra.
Qed.

Lemma iter_pos_nat {A : Type} (f : A -> A) p x :
  iter_pos f p x = Nat.iter (Pos.to_nat p) f x.
Proof.
  revert x. induction p as [p IH|p IH|]; intros x; simpl iter_pos.
  - rewrite !IH, Pos2Nat.inj_xI.
    replace (S (2 * Pos.to_nat p)) with (Pos.to_nat p + S (Pos.to_nat p))%nat by lia.
    rewrite Nat.iter_add. f_equal.
    change (f x) with (Nat.iter 1 f x). rewrite <- Nat.iter_add.
    f_equal. lia.
  - rewrite !IH, Pos2Nat.inj_xO.
    replace (2 * Pos.to_nat p)%nat with (Pos.to_nat p + Pos.to_nat p)%nat by lia.
    now rewrite Nat.iter_add.
  - reflexivity.
Qed.

Lemma shr_iter_spec k mrs e x :
  (0 <= shr_m mrs)%Z -> inb_rec mrs e x ->
  inb_rec (Nat.iter k shr_1 mrs) (e + Z.of_nat k) x /\
  shr_m (Nat.iter k shr_1 mrs) = (shr_m mrs / 2 ^ Z.of_nat k)%Z.
Proof.
  intros Hm H. induction k as [|k [IH1 IH2]].
  - simpl. rewrite Z.add_0_r, Z.div_1_r. now split.
  - simpl Nat.iter.
    assert (0 <= shr_m (Nat.iter k shr_1 mrs))%Z as Hk.
    { rewrite IH2. apply Z.div_pos; [assumption|]. apply Z.pow_pos_nonneg; lia. }
    destruct (shr_1_spec _ _ _ Hk IH1) as [H1 H2].
    split.
    + replace (e + Z.of_nat (S k))%Z with (e + Z.of_nat k + 1)%Z by lia. exact H1.
    + rewrite H2, IH2, Nat2Z.inj_succ, Z.pow_succ_r by lia.
      assert (0 < 2 ^ Z.of_nat k)%Z by (apply Z.pow_pos_nonneg; lia).
      rewrite Z.div_div by lia.
      f_equal. lia.
Qed.

Lemma shr_spec mrs e n x :
  (0 <= shr_m mrs)%Z -> inb_rec mrs e x ->
  inb_rec (fst (shr mrs e n)) (snd (shr mrs e n)) x /\
  snd (shr mrs e n) = (e + Z.max n 0)%Z /\
  shr_m (fst (shr mrs e n)) = (shr_m mrs / 2 ^ Z.max n 0)%Z.
Proof.
  intros Hm H. destruct n as [|p|p]; simpl.
  - rewrite Z.add_0_r, Z.div_1_r. auto.
  - rewrite iter_pos_nat.
    destruct (shr_iter_spec (Pos.to_nat p) mrs e x Hm H) as [H1 H2].
    rewrite positive_nat_Z in H1, H2. auto.
  - rewrite Z.add_0_r, Z.div_1_r. auto.
Qed.

Lemma loc_of_shr_record_of_loc m l :
  loc_of_shr_record (shr_record_of_loc m l) = l.
Proof. destruct l as [|[]]; reflexivity. Qed.

Lemma shr_m_shr_record_of_loc m l : shr_m (shr_record_of_loc m l) = m.
Proof. destruct l as [|[]]; reflexivity. Qed.

Lemma inb_rec_loc mrs e x :
  inb_rec mrs e x <-> inb (shr_m mrs) e (loc_of_shr_record mrs) x.
Proof. destruct mrs as [m [] []]; unfold inb; simpl; tauto. Qed.

(** ** Rounding to the format *)

Lemma pow2_pos k : (0 <= k)%Z -> (0 < 2 ^ k)%Z.
Proof. intros. apply Z.pow_pos_nonneg; lia. Qed.

Lemma rne_bounds m l :
  (m <= round_nearest_even m l <= m + 1)%Z.
Proof. destruct l as [|[]]; simpl; try lia. destruct (Z.even m); lia. Qed.

Section Round.
Variables prec emax : Z.
Hypothesis Hprec : (1 < prec)%Z.
Hypothesis Hemax : (prec < emax)%Z.
Set Default Proof Using "Hprec Hemax".

#[local] Abbreviation emin := (SpecFloat.emin prec emax).
#[local] Abbreviation fexp := (SpecFloat.fexp prec emax).
#[local] Abbreviation cell := (cell prec emax).
#[local] Abbreviation pack := (pack prec emax).

Lemma pow2_prec : (2 ^ prec = 2 * 2 ^ (prec - 1))%Z.
Proof. rewrite <- Z.pow_succ_r by lia. f_equal. lia. Qed.

Lemma shr_fexp_spec mx ex lx x :
(0 <= mx)%Z -> inb mx ex lx x -> (ex <= fexp (Zdigits2 mx + ex))%Z ->
cell (shr_m (fst (shr_fexp prec emax mx ex lx))) (snd (shr_fexp prec emax mx ex lx)) /\
inb_rec (fst (shr_fexp prec emax mx ex lx)) (snd (shr_fexp prec emax mx ex lx)) x.
Proof.
intros Hm Hx Hfe. unfold shr_fexp.
set (n := (fexp (Zdigits2 mx + ex) - ex)%Z).
assert (0 <= n)%Z as Hn by (unfold n; lia).
destruct (shr_spec (shr_record_of_loc mx lx) ex n x) as (H1 & H2 & H3).
{ now rewrite shr_m_shr_record_of_loc. }
{ exact Hx. }
split; [|exact H1].
rewrite H2, H3, shr_m_shr_record_of_loc, Z.max_l by lia.
pose proof (pow2_pos n Hn) as Hpn.
pose proof (pow2_pos prec ltac:(lia)) as Hpp.
pose proof (pow2_pos (prec - 1) ltac:(lia)) as Hpp1.
unfold cell.
assert (ex + n = fexp (Zdigits2 mx + ex))%Z as He by (unfold n; lia).
rewrite He.
destruct (Z.eq_dec mx 0) as [->|Hnz].
- rewrite Z.div_0_l by lia. simpl Zdigits2 in *.
  unfold SpecFloat.fexp in *. repeat split; try lia.
- assert (0 < mx)%Z as Hpos by lia.
  pose proof (Zdigits2_bounds mx Hpos) as [Hd1 Hd2].
  pose proof (Zdigits2_pos mx Hpos) as Hd.
  set (d := Zdigits2 mx) in *.
  repeat split.
  + apply Z.div_pos; lia.
  + apply Z.div_lt_upper_bound; [lia|].
    rewrite <- Z.pow_add_r by lia.
    apply Z.lt_le_trans with (1 := Hd2).
    apply Z.pow_le_mono_r; [lia|]. unfold n, SpecFloat.fexp. lia.
  + unfold SpecFloat.fexp. lia.
  + intros Hlt.
    destruct (Z.eq_dec (fexp (d + ex)) emin) as [|Hne]; [assumption|exfalso].
    assert (n = d - prec)%Z as Hnd by (unfold n, SpecFloat.fexp in *; lia).
    assert (2 ^ (prec - 1) <= mx / 2 ^ n)%Z; [|lia].
    apply Z.div_le_lower_bound; [lia|].
    rewrite <- Z.pow_add_r by lia.
    replace (n + (prec - 1))%Z with (d - 1)%Z by lia. exact Hd1.
Qed.

Lemma Zdigits2_le_prec M : (0 <= M < 2 ^ prec)%Z -> (Zdigits2 M <= prec)%Z.
Proof.
intros [H0 H1]. destruct (Z.eq_dec M 0) as [->|Hnz]; [simpl; lia|].
pose proof (Zdigits2_bounds M ltac:(lia)) as [Hd1 Hd2].
destruct (Z_le_gt_dec (Zdigits2 M) prec); [assumption|exfalso].
assert (2 ^ prec <= 2 ^ (Zdigits2 M - 1))%Z by (apply Z.pow_le_mono_r; lia). lia.
Qed.

Lemma shr_fexp_exact_small M e :
(0 <= M < 2 ^ prec)%Z -> (emin <= e)%Z ->
shr_fexp prec emax M e loc_Exact = (shr_record_of_loc M loc_Exact, e).
Proof.
intros HM He. unfold shr_fexp.
pose proof (Zdigits2_le_prec M HM).
assert (fexp (Zdigits2 M + e) - e <= 0)%Z as Hn by (unfold SpecFloat.fexp; lia).
destruct (fexp (Zdigits2 M + e) - e)%Z; try reflexivity. lia.
Qed.

Lemma shr_fexp_exact_carry e :
(emin <= e)%Z ->
shr_m (fst (shr_fexp prec emax (2 ^ prec) e loc_Exact)) = (2 ^ (prec - 1))%Z /\
snd (shr_fexp prec emax (2 ^ prec) e loc_Exact) = (e + 1)%Z.
Proof.
intros He. unfold shr_fexp.
pose proof (pow2_pos prec ltac:(lia)) as Hpp.
assert (Zdigits2 (2 ^ prec) = prec + 1)%Z as Hd.
{ apply Zdigits2_unique; [lia|].
  replace (prec + 1 - 1)%Z with prec by lia. split; [lia|].
  rewrite Z.pow_add_r by lia. change (2 ^ 1)%Z with 2%Z. lia. }
rewrite Hd.
assert (fexp (prec + 1 + e) - e = 1)%Z as -> by (unfold SpecFloat.fexp; lia).
destruct (shr_spec (shr_record_of_loc (2 ^ prec) loc_Exact) e 1 (F2R (2 ^ prec) e))
  as (_ & H2 & H3).
{ simpl. lia. }
{ unfold inb_rec, inb_bits. reflexivity. }
split; [|exact H2].
rewrite H3. simpl shr_m. change (Z.max 1 0) with 1%Z. change (2 ^ 1)%Z with 2%Z.
rewrite pow2_prec. rewrite Z.mul_comm, Z.div_mul by lia. reflexivity.
Qed.

Theorem binary_round_aux_pack s mx ex lx x :
(0 <= mx)%Z -> inb mx ex lx x -> (ex <= fexp (Zdigits2 mx + ex))%Z ->
exists m e l, cell m e /\ inb m e l x /\
  binary_round_aux prec emax s mx ex lx = pack s (round_nearest_even m l) e.
Proof.
intros Hm Hx Hfe.
destruct (shr_fexp_spec mx ex lx x Hm Hx Hfe) as [Hc Hi].
unfold binary_round_aux.
destruct (shr_fexp prec emax mx ex lx) as [mrs' e'] eqn:E1.
simpl fst in *; simpl snd in *.
exists (shr_m mrs'), e', (loc_of_shr_record mrs').
split; [exact Hc|]. split; [apply (proj1 (inb_rec_loc mrs' e' x)); exact Hi|].
set (M := round_nearest_even (shr_m mrs') (loc_of_shr_record mrs')).
pose proof (rne_bounds (shr_m mrs') (loc_of_shr_record mrs')) as HM. fold M in HM.
destruct Hc as (Hc1 & Hc2 & Hc3).
unfold pack.
destruct (Z.ltb_spec M (2 ^ prec)) as [Hlt|Hge].
- rewrite shr_fexp_exact_small by lia. simpl shr_m. reflexivity.
- assert (M = 2 ^ prec)%Z as HMeq by lia.
  rewrite HMeq.
  destruct (shr_fexp_exact_carry e' Hc2) as [H1 H2].
  destruct (shr_fexp prec emax (2 ^ prec) e' loc_Exact) as [mrs'' e''].
  simpl fst in *; simpl snd in *. rewrite H1, H2.
  replace (2 ^ prec / 2)%Z with (2 ^ (prec - 1))%Z; [reflexivity|].
  rewrite pow2_prec, Z.mul_comm, Z.div_mul by lia. reflexivity.
Qed.

End Round.
Unset Default Proof Using.

(** ** The rank of a number *)

Section InCellGeneric.
Local Open Scope R_scope.

Lemma inb_bounds m e l x : inb m e l x -> F2R m e <= x < F2R (m + 1) e.
Proof.
unfold inb, inb_rec. rewrite F2R_succ. pose proof (bpow_gt_0 e).
destruct l as [|[]]; simpl; lra.
Qed.

Lemma rne_mono m1 m2 e l1 l2 x1 x2 :
inb m1 e l1 x1 -> inb m2 e l2 x2 -> x1 <= x2 ->
(round_nearest_even m1 l1 <= round_nearest_even m2 l2)%Z.
Proof.
intros H1 H2 Hx.
pose proof (inb_bounds _ _ _ _ H1) as B1.
pose proof (inb_bounds _ _ _ _ H2) as B2.
pose proof (rne_bounds m1 l1). pose proof (rne_bounds m2 l2).
destruct (Z.lt_trichotomy m1 m2) as [Hlt|[Heq|Hgt]].
- lia.
- subst m2. unfold inb, inb_rec in H1, H2. pose proof (bpow_gt_0 e).
  destruct l1 as [|[]], l2 as [|[]]; simpl in *;
    try lia; try lra; destruct (Z.even m1); lia.
- exfalso. assert (F2R (m2 + 1) e <= F2R m1 e) by (apply F2R_le; lia). lra.
Qed.

End InCellGeneric.

Section Order.
Variables prec emax : Z.
Hypothesis Hprec : (1 < prec)%Z.
Hypothesis Hemax : (prec < emax)%Z.
Set Default Proof Using "Hprec Hemax".

#[local] Abbreviation emin := (SpecFloat.emin prec emax).
#[local] Abbreviation fexp := (SpecFloat.fexp prec emax).
#[local] Abbreviation cell := (cell prec emax).
#[local] Abbreviation pack := (pack prec emax).
#[local] Abbreviation rank := (rank prec emax).
#[local] Abbreviation ord_inf := (ord_inf prec emax).
#[local] Abbreviation SFord := (SFord prec emax).

#[local] Abbreviation P := (2 ^ (prec - 1))%Z.

Lemma P_pos : (0 < P)%Z.
Proof. apply pow2_pos. lia. Qed.

Lemma P2 : (2 ^ prec = 2 * P)%Z.
Proof. apply (pow2_prec prec emax); assumption. Qed.

Lemma rank_lt_exp m1 e1 m2 e2 :
cell m1 e1 -> cell m2 e2 -> (e1 < e2)%Z ->
(rank m1 e1 + 1 <= rank m2 e2)%Z /\ (rank (m1 + 1) e1 <= rank m2 e2)%Z.
Proof.
intros (H1 & H2 & H3) (H4 & H5 & H6) He. unfold rank.
pose proof P_pos. rewrite P2 in *.
assert (P <= m2)%Z by lia.
assert ((e1 - emin + 1) * P <= (e2 - emin) * P)%Z by (apply Z.mul_le_mono_nonneg_r; lia).
lia.
Qed.

Lemma rank_pos m e : cell m e -> (0 < m)%Z -> (0 < rank m e)%Z.
Proof.
intros (H1 & H2 & H3) Hm. unfold rank. pose proof P_pos.
assert (0 <= (e - emin) * P)%Z by (apply Z.mul_nonneg_nonneg; lia). lia.
Qed.

Lemma rank_nonneg m e : cell m e -> (0 <= rank m e)%Z.
Proof.
intros (H1 & H2 & H3). unfold rank. pose proof P_pos.
assert (0 <= (e - emin) * P)%Z by (apply Z.mul_nonneg_nonneg; lia). lia.
Qed.

Lemma rank_lt_inf m e : cell m e -> (e <= emax - prec)%Z -> (rank m e < ord_inf)%Z.
Proof.
intros (H1 & H2 & H3) He. unfold ord_inf, rank. pose proof P_pos. rewrite P2 in *.
assert ((e - emin) * P <= (emax - prec - emin) * P)%Z by (apply Z.mul_le_mono_nonneg_r; lia).
lia.
Qed.

Lemma rank_ge_inf m e : cell m e -> (emax - prec < e)%Z -> (ord_inf <= rank m e)%Z.
Proof.
intros (H1 & H2 & H3) He. unfold ord_inf, rank. pose proof P_pos. rewrite P2 in *.
assert (e <> emin) by (unfold SpecFloat.emin; lia).
assert ((emax - prec + 1 - emin) * P <= (e - emin) * P)%Z by (apply Z.mul_le_mono_nonneg_r; lia).
lia.
Qed.

Lemma ord_inf_pos : (0 < ord_inf)%Z.
Proof.
unfold ord_inf, rank. pose proof P_pos.
assert (0 <= (emax - prec + 1 - emin) * P)%Z by (apply Z.mul_nonneg_nonneg; unfold SpecFloat.emin; lia). lia.
Qed.

(** The rank of a packed rounding. *)
Lemma pack_ord s m M e :
cell m e -> (m <= M <= m + 1)%Z ->
SFord (pack s M e) = cond_Zopp s (Z.min (rank M e) ord_inf).
Proof.
intros Hc HM. pose proof Hc as (H1 & H2 & H3).
pose proof P_pos as HP. pose proof P2 as HP2.
unfold pack, Format.pack.
destruct (Z.ltb_spec M (2 ^ prec)) as [Hlt|Hge].
- assert (cell M e) as HcM.
  { unfold cell, Format.cell. lia. }
  destruct M as [|p|p]; [| |lia].
  + simpl. assert (e = emin) as -> by (apply H3; lia).
    unfold rank. rewrite Z.sub_diag, Z.mul_0_l, Z.add_0_l.
    pose proof ord_inf_pos. rewrite Z.min_l by lia. now destruct s.
  + destruct (Z.leb_spec e (emax - prec)) as [Hle|Hgt]; simpl.
    * pose proof (rank_lt_inf _ _ HcM Hle). rewrite Z.min_l by lia. reflexivity.
    * pose proof (rank_ge_inf _ _ HcM Hgt). rewrite Z.min_r by lia. reflexivity.
- assert (M = 2 * P)%Z as -> by lia.
  rewrite Z.mul_comm, Z.div_mul by lia.
  assert (rank (P * 2) e = rank P (e + 1)) as ->.
  { unfold rank. lia. }
  assert (cell P (e + 1)) as HcP.
  { unfold cell, Format.cell. unfold SpecFloat.emin in *. lia. }
  assert (exists p, P = Zpos p) as [p EP].
  { destruct P as [|p|p]; [lia| |lia]. now exists p. }
  rewrite EP at 1.
  destruct (Z.leb_spec (e + 1) (emax - prec)) as [Hle|Hgt]; simpl.
  + pose proof (rank_lt_inf _ _ HcP Hle). rewrite Z.min_l by lia. now rewrite EP.
  + pose proof (rank_ge_inf _ _ HcP Hgt). rewrite Z.min_r by lia. reflexivity.
Qed.

Lemma pack_not_nan s m M e :
cell m e -> (m <= M <= m + 1)%Z -> SFis_nan (pack s M e) = false.
Proof.
intros (H1 & H2 & H3) HM. pose proof P_pos as HP. pose proof P2 as HP2.
unfold pack, Format.pack.
destruct (Z.ltb_spec M (2 ^ prec)) as [Hlt|Hge].
- destruct M as [|p|p]; [reflexivity| |lia].
  now destruct (e <=? emax - prec)%Z.
- assert (M = 2 * P)%Z as -> by lia.
  rewrite Z.mul_comm, Z.div_mul by lia.
  assert (exists p, P = Zpos p) as [p EP].
  { destruct P as [|p|p]; [lia| |lia]. now exists p. }
  rewrite EP.
  now destruct (e + 1 <=? emax - prec)%Z.
Qed.

Section InCell.
Local Open Scope R_scope.

Lemma cell_exp_mono m1 e1 l1 x1 m2 e2 l2 x2 :
cell m1 e1 -> cell m2 e2 -> inb m1 e1 l1 x1 -> inb m2 e2 l2 x2 -> x1 <= x2 ->
(e1 <= e2)%Z.
Proof.
intros (H1 & H2 & H3) (H4 & H5 & H6) I1 I2 Hx.
destruct (Z_le_gt_dec e1 e2) as [|Hgt]; [assumption|exfalso].
apply inb_bounds in I1, I2.
pose proof P_pos.
assert (P <= m1)%Z as Hm1 by lia.
assert (F2R P e1 <= F2R m1 e1) by (apply F2R_le; lia).
assert (F2R (m2 + 1) e2 <= F2R (2 ^ prec) e2) by (apply F2R_le; lia).
rewrite F2R_bpow in H0 by lia. rewrite F2R_bpow in H7 by lia.
assert (bpow (e2 + prec) <= bpow (e1 + (prec - 1))) by (apply bpow_le; lia).
lra.
Qed.

Lemma rank_mono m1 e1 l1 x1 m2 e2 l2 x2 :
cell m1 e1 -> cell m2 e2 -> inb m1 e1 l1 x1 -> inb m2 e2 l2 x2 -> x1 <= x2 ->
(rank (round_nearest_even m1 l1) e1 <= rank (round_nearest_even m2 l2) e2)%Z.
Proof.
intros C1 C2 I1 I2 Hx.
pose proof (cell_exp_mono _ _ _ _ _ _ _ _ C1 C2 I1 I2 Hx) as He.
pose proof (rne_bounds m1 l1). pose proof (rne_bounds m2 l2).
destruct (Z.eq_dec e1 e2) as [->|Hne].
- pose proof (rne_mono _ _ _ _ _ _ _ I1 I2 Hx). unfold rank. lia.
- destruct (rank_lt_exp m1 e1 m2 e2 C1 C2 ltac:(lia)) as [_ Hr].
unfold rank in *. lia.
Qed.

End InCell.

(** Valid floats sit in cells. *)
Lemma bounded_cell m e :
bounded prec emax m e = true -> cell (Zpos m) e /\ (e <= emax - prec)%Z.
Proof.
unfold bounded, canonical_mantissa. intros H.
apply andb_true_iff in H. destruct H as [H1 H2].
apply Z.eqb_eq in H1. apply Z.leb_le in H2.
pose proof (digits2_pos_bounds m) as [Hd1 Hd2].
set (d := Zpos (digits2_pos m)) in *.
assert (0 < d)%Z by (unfold d; lia).
unfold SpecFloat.fexp in H1.
assert (d <= prec)%Z by lia.
assert (2 ^ d <= 2 ^ prec)%Z by (apply Z.pow_le_mono_r; lia).
split; [|assumption]. repeat split; try lia.
intros Hlt.
destruct (Z.eq_dec e emin) as [|Hne]; [assumption|exfalso].
assert (2 ^ (d - 1) = P)%Z by (f_equal; lia). lia.
Qed.

Lemma SFcompare_ord f1 f2 :
SpecFloat.valid_binary prec emax f1 = true -> SpecFloat.valid_binary prec emax f2 = true ->
SFis_nan f1 = false -> SFis_nan f2 = false ->
SFcompare f1 f2 = Some (SFord f1 ?= SFord f2)%Z.
Proof.
intros V1 V2 N1 N2.
pose proof ord_inf_pos as Hinf.
assert (forall a b, Pos.compare_cont Eq a b = (Zpos a ?= Zpos b)%Z) as Hpc by reflexivity.
assert (forall c a b, (match c with Eq => a = b | Lt => a < b | Gt => b < a end)%Z ->
                      c = (a ?= b)%Z) as Hc.
{ intros c a b Hcab. symmetry. destruct c;
    [apply Z.compare_eq_iff|apply Z.compare_lt_iff|apply Z.compare_gt_iff]; assumption. }
destruct f1 as [s1|s1| |s1 m1 e1], f2 as [s2|s2| |s2 m2 e2];
  try discriminate; cbv beta iota delta [SFcompare SFord SpecFloat.valid_binary] in V1, V2 |- *.
- reflexivity.
- destruct s2; f_equal; apply Hc; simpl; lia.
- apply bounded_cell in V2. destruct V2 as [C2 L2].
  pose proof (rank_pos _ _ C2 ltac:(lia)).
  destruct s2; f_equal; apply Hc; simpl; lia.
- destruct s1; f_equal; apply Hc; simpl; lia.
- destruct s1, s2; f_equal; apply Hc; simpl; lia.
- apply bounded_cell in V2. destruct V2 as [C2 L2].
  pose proof (rank_lt_inf _ _ C2 L2). pose proof (rank_pos _ _ C2 ltac:(lia)).
  destruct s1, s2; f_equal; apply Hc; simpl; lia.
- apply bounded_cell in V1. destruct V1 as [C1 L1].
  pose proof (rank_pos _ _ C1 ltac:(lia)).
  destruct s1; f_equal; apply Hc; simpl; lia.
- apply bounded_cell in V1. destruct V1 as [C1 L1].
  pose proof (rank_lt_inf _ _ C1 L1). pose proof (rank_pos _ _ C1 ltac:(lia)).
  destruct s1, s2; f_equal; apply Hc; simpl; lia.
- apply bounded_cell in V1, V2. destruct V1 as [C1 L1], V2 as [C2 L2].
  pose proof (rank_pos _ _ C1 ltac:(lia)). pose proof (rank_pos _ _ C2 ltac:(lia)).
  destruct s1, s2; f_equal; apply Hc; cbv beta iota delta [cond_Zopp].
  + destruct (Z.compare_spec e1 e2) as [->|Hlt|Hgt].
    * rewrite Hpc. unfold rank.
      destruct (Z.compare_spec (Zpos m1) (Zpos m2)); simpl CompOpp; cbv beta iota; lia.
    * destruct (rank_lt_exp _ _ _ _ C1 C2 Hlt). lia.
    * destruct (rank_lt_exp _ _ _ _ C2 C1 Hgt). lia.
  + lia.
  + lia.
  + destruct (Z.compare_spec e1 e2) as [->|Hlt|Hgt].
    * rewrite Hpc. unfold rank.
      destruct (Z.compare_spec (Zpos m1) (Zpos m2)); cbv beta iota; lia.
    * destruct (rank_lt_exp _ _ _ _ C1 C2 Hlt). lia.
    * destruct (rank_lt_exp _ _ _ _ C2 C1 Hgt). lia.
Qed.

End Order.
Unset Default Proof Using.

(** ** Roundings are monotone; addition and subtraction *)

Section Rounded.
Variables prec emax : Z.
Hypothesis Hprec : (1 < prec)%Z.
Hypothesis Hemax : (prec < emax)%Z.
Set Default Proof Using "Hprec Hemax".

#[local] Abbreviation emin := (SpecFloat.emin prec emax).
#[local] Abbreviation fexp := (SpecFloat.fexp prec emax).
#[local] Abbreviation cell := (cell prec emax).
#[local] Abbreviation pack := (pack prec emax).
#[local] Abbreviation rank := (rank prec emax).
#[local] Abbreviation ord_inf := (ord_inf prec emax).
#[local] Abbreviation SFord := (SFord prec emax).
#[local] Abbreviation P := (2 ^ (prec - 1))%Z.

#[local] Abbreviation Rnd_pos := (Rnd_pos prec emax).
#[local] Abbreviation Rnd := (Rnd prec emax).

Lemma cell_0 : cell 0 emin.
Proof. unfold Format.cell. pose proof (pow2_pos prec ltac:(lia)). lia. Qed.

Lemma Rnd_pos_nonneg x s f : Rnd_pos x s f -> (0 <= x)%R.
Proof.
intros (m & e & l & (Hc & _) & Hi & _).
apply inb_bounds in Hi. pose proof (F2R_ge_0 m e ltac:(lia)). lra.
Qed.

Lemma Rnd_pos_ord x s f :
Rnd_pos x s f -> exists k, (0 <= k)%Z /\ SFord f = cond_Zopp s k /\
   forall x' s' f', Rnd_pos x' s' f' -> (x <= x')%R ->
      exists k', (k <= k')%Z /\ SFord f' = cond_Zopp s' k'.
Proof.
intros (m & e & l & Hc & Hi & ->).
pose proof (rne_bounds m l) as HM.
exists (Z.min (rank (round_nearest_even m l) e) ord_inf).
pose proof (ord_inf_pos prec emax Hprec Hemax).
assert (0 <= rank (round_nearest_even m l) e)%Z.
{ pose proof (rank_nonneg prec emax Hprec Hemax m e Hc). unfold Format.rank in *. lia. }
split; [lia|]. split; [now apply pack_ord with m|].
intros x' s' f' (m' & e' & l' & Hc' & Hi' & ->) Hx.
exists (Z.min (rank (round_nearest_even m' l') e') ord_inf).
split; [|apply pack_ord with m'; auto using rne_bounds].
pose proof (rank_mono prec emax Hprec Hemax _ _ _ _ _ _ _ _ Hc Hc' Hi Hi' Hx). lia.
Qed.

Lemma Rnd_pos_0 s f : Rnd_pos 0 s f -> SFord f = 0%Z.
Proof.
intros (m & e & l & Hc & Hi & ->).
pose proof (inb_bounds _ _ _ _ Hi) as [B1 B2].
destruct Hc as ((Hm0 & Hm1) & He & Hsub).
assert (m = 0)%Z as ->.
{ destruct (Z.eq_dec m 0); [assumption|exfalso].
  assert (F2R 1 e <= F2R m e)%R by (apply F2R_le; lia).
  unfold F2R in H at 1. pose proof (bpow_gt_0 e). lra. }
assert (l = loc_Exact) as ->.
{ unfold inb, inb_rec in Hi. pose proof (bpow_gt_0 e).
  destruct l as [|[]]; simpl in Hi; rewrite ?F2R_0 in Hi; [reflexivity|lra..]. }
simpl round_nearest_even.
pose proof (pow2_pos prec ltac:(lia)). pose proof (pow2_pos (prec - 1) ltac:(lia)).
unfold Format.pack. destruct (Z.ltb_spec 0 (2 ^ prec)); [reflexivity|lia].
Qed.

Lemma Rnd_not_nan x f : Rnd x f -> SFis_nan f = false.
Proof.
intros (s & m & e & l & Hc & Hi & ->).
apply pack_not_nan with m; auto using rne_bounds.
Qed.

Theorem Rnd_mono x1 f1 x2 f2 :
Rnd x1 f1 -> Rnd x2 f2 -> (x1 <= x2)%R -> (SFord f1 <= SFord f2)%Z.
Proof.
intros [s1 H1] [s2 H2] Hx.
pose proof (Rnd_pos_nonneg _ _ _ H1) as N1.
pose proof (Rnd_pos_nonneg _ _ _ H2) as N2.
destruct s1, s2.
- destruct (Rnd_pos_ord _ _ _ H2) as (k2 & Hk2 & E2 & M2).
  destruct (M2 _ _ _ H1 ltac:(lra)) as (k1 & Hk & E1).
  rewrite E1, E2. simpl. lia.
- destruct (Rnd_pos_ord _ _ _ H1) as (k1 & Hk1 & E1 & _).
  destruct (Rnd_pos_ord _ _ _ H2) as (k2 & Hk2 & E2 & _).
  rewrite E1, E2. simpl. lia.
- assert (x1 = 0)%R by lra. assert (x2 = 0)%R by lra. subst.
  replace (- 0)%R with 0%R in H2 by lra.
  rewrite (Rnd_pos_0 _ _ H1), (Rnd_pos_0 _ _ H2). lia.
- destruct (Rnd_pos_ord _ _ _ H1) as (k1 & Hk1 & E1 & M1).
  destruct (M1 _ _ _ H2 Hx) as (k2 & Hk & E2).
  rewrite E1, E2. simpl. lia.
Qed.

(** Floats are their own rounding. *)
Lemma pack_exact s m e :
cell (Zpos m) e -> (e <= emax - prec)%Z -> pack s (Zpos m) e = S754_finite s m e.
Proof.
intros ((H0 & H1) & H2 & H3) He. unfold Format.pack.
destruct (Z.ltb_spec (Zpos m) (2 ^ prec)); [|lia].
destruct (Z.leb_spec e (emax - prec)); [reflexivity|lia].
Qed.

Lemma Rnd_zero s : Rnd 0 (S754_zero s).
Proof.
exists s. exists 0%Z, emin, loc_Exact.
split; [apply cell_0|]. split.
- unfold inb, inb_rec; simpl. rewrite F2R_0. destruct s; lra.
- simpl. pose proof (pow2_pos prec ltac:(lia)).
  unfold Format.pack. destruct (Z.ltb_spec 0 (2 ^ prec)); [reflexivity|lia].
Qed.

Lemma Rnd_id f :
SpecFloat.valid_binary prec emax f = true -> SFis_finite f = true -> Rnd (SF2R f) f.
Proof.
intros V F. destruct f as [s|s| |s m e]; try discriminate.
- apply Rnd_zero.
- simpl in V. apply (bounded_cell prec emax Hprec Hemax) in V. destruct V as [C L].
  exists s. exists (Zpos m), e, loc_Exact. split; [exact C|]. split.
  + unfold inb, inb_rec; simpl. destruct s; simpl; [|reflexivity].
    change (Z.neg m) with (- Zpos m)%Z. rewrite F2R_opp. lra.
  + simpl. symmetry. now apply pack_exact.
Qed.

(** [shl_align] *)
Lemma Pos_iter_xO m d : Zpos (Pos.iter xO m d) = (Zpos m * 2 ^ Zpos d)%Z.
Proof.
induction d as [|d IH] using Pos.peano_ind.
- simpl. lia.
- rewrite Pos.iter_succ, Pos2Z.inj_xO, IH, Pos2Z.inj_succ.
  rewrite Z.pow_succ_r by (apply Pos2Z.is_nonneg). ring.
Qed.

Lemma shl_align_spec mx ex ex' :
snd (shl_align mx ex ex') = Z.min ex ex' /\
Zpos (fst (shl_align mx ex ex')) = (Zpos mx * 2 ^ (ex - Z.min ex ex'))%Z.
Proof.
unfold shl_align. destruct (ex' - ex)%Z as [|d|d] eqn:E; simpl.
- rewrite Z.min_l by lia. rewrite Z.sub_diag. simpl. lia.
- rewrite Z.min_l by lia. rewrite Z.sub_diag. simpl. lia.
- assert (ex - ex' = Zpos d)%Z as Hd by (rewrite <- Pos2Z.opp_neg, <- E; ring).
  rewrite Z.min_r by lia. rewrite Pos_iter_xO, Hd. split; reflexivity.
Qed.

Lemma Zdigits2_shift m k : (0 < m)%Z -> (0 <= k)%Z -> Zdigits2 (m * 2 ^ k) = (Zdigits2 m + k)%Z.
Proof.
intros Hm Hk. pose proof (Zdigits2_bounds m Hm) as [H1 H2].
pose proof (Zdigits2_pos m Hm). pose proof (pow2_pos k Hk).
apply Zdigits2_unique; [nia|].
replace (Zdigits2 m + k - 1)%Z with (Zdigits2 m - 1 + k)%Z by lia.
rewrite !Z.pow_add_r by lia. nia.
Qed.

Lemma binary_round_Rnd_pos s m e :
Rnd_pos (F2R (Zpos m) e) s (binary_round prec emax s m e).
Proof.
unfold binary_round.
pose proof (shl_align_spec m e (fexp (Zpos (digits2_pos m) + e))) as [H1 H2].
destruct (shl_align m e (fexp (Z.pos (digits2_pos m) + e))) as [mz ez].
simpl fst in *; simpl snd in *.
set (d := Zpos (digits2_pos m)) in *.
rewrite <- H1 in H2.
assert (0 <= e - ez)%Z as Hk by lia.
destruct (binary_round_aux_pack prec emax Hprec Hemax s (Zpos mz) ez loc_Exact (F2R (Zpos m) e))
  as (m' & e' & l' & Hc & Hi & Heq).
- lia.
- unfold inb, inb_rec; simpl. rewrite H2, F2R_shift by lia. f_equal. lia.
- rewrite H2, Zdigits2_shift by lia. change (Zdigits2 (Zpos m)) with d.
  replace (d + (e - ez) + ez)%Z with (d + e)%Z by lia.
  rewrite H1. lia.
- exists m', e', l'. auto.
Qed.

Lemma binary_normalize_Rnd M e sz :
Rnd (F2R M e) (binary_normalize prec emax M e sz).
Proof.
destruct M as [|m|m]; simpl.
- rewrite F2R_0. apply Rnd_zero.
- exists false. apply binary_round_Rnd_pos.
- exists true. change (Z.neg m) with (- Zpos m)%Z. rewrite F2R_opp, Ropp_involutive.
  apply binary_round_Rnd_pos.
Qed.

Lemma SF2R_align s m e ez :
(ez <= e)%Z ->
F2R (cond_Zopp s (Zpos (fst (shl_align m e ez)))) ez = SF2R (S754_finite s m e).
Proof.
intros H. pose proof (shl_align_spec m e ez) as [_ H2]. rewrite Z.min_r in H2 by lia.
unfold SF2R. rewrite H2.
assert (F2R (Zpos m * 2 ^ (e - ez)) ez = F2R (Zpos m) e) as E.
{ rewrite F2R_shift by lia. f_equal. lia. }
destruct s; unfold cond_Zopp.
- rewrite !F2R_opp, E. reflexivity.
- exact E.
Qed.

Theorem SFadd_Rnd x y :
SpecFloat.valid_binary prec emax x = true -> SpecFloat.valid_binary prec emax y = true ->
SFis_finite x = true -> SFis_finite y = true ->
Rnd (SF2R x + SF2R y) (SFadd prec emax x y).
Proof.
intros Vx Vy Fx Fy.
destruct x as [sx|sx| |sx mx ex], y as [sy|sy| |sy my ey]; try discriminate.
- simpl SF2R. rewrite Rplus_0_l. simpl. destruct sx, sy; apply Rnd_zero.
- simpl SF2R at 1. rewrite Rplus_0_l. simpl SFadd. now apply Rnd_id.
- simpl SF2R at 2. rewrite Rplus_0_r. simpl SFadd. now apply Rnd_id.
- unfold SFadd.
  rewrite <- (SF2R_align sx mx ex (Z.min ex ey)) by lia.
  rewrite <- (SF2R_align sy my ey (Z.min ex ey)) by lia.
  rewrite <- F2R_plus. apply binary_normalize_Rnd.
Qed.

Theorem SFsub_Rnd x y :
SpecFloat.valid_binary prec emax x = true -> SpecFloat.valid_binary prec emax y = true ->
SFis_finite x = true -> SFis_finite y = true ->
Rnd (SF2R x - SF2R y) (SFsub prec emax x y).
Proof.
intros Vx Vy Fx Fy.
destruct x as [sx|sx| |sx mx ex], y as [sy|sy| |sy my ey]; try discriminate.
- simpl SF2R. rewrite Rminus_0_r. simpl. destruct sx, sy; apply Rnd_zero.
- simpl SF2R at 1. simpl SFsub.
  replace (0 - SF2R (S754_finite sy my ey))%R with (SF2R (S754_finite (negb sy) my ey)).
  + apply Rnd_id; auto.
  + simpl. destruct sy; simpl; change (Z.neg my) with (- Zpos my)%Z; rewrite ?F2R_opp; lra.
- simpl SF2R at 2. rewrite Rminus_0_r. simpl SFsub. now apply Rnd_id.
- unfold SFsub.
  rewrite <- (SF2R_align sx mx ex (Z.min ex ey)) by lia.
  rewrite <- (SF2R_align sy my ey (Z.min ex ey)) by lia.
  unfold Rminus. rewrite <- F2R_opp, <- F2R_plus. apply binary_normalize_Rnd.
Qed.

End Rounded.
Unset Default Proof Using.

(** ** Multiplication and division *)

Lemma Zdigits2_ge m k : (0 < m)%Z -> (2 ^ (k - 1) <= m)%Z -> (k <= Zdigits2 m)%Z.
Proof.
  intros Hm Hk. pose proof (Zdigits2_bounds m Hm) as [_ H2].
  pose proof (Zdigits2_pos m Hm).
  destruct (Z_le_gt_dec k (Zdigits2 m)); [assumption|exfalso].
  assert (2 ^ Zdigits2 m <= 2 ^ (k - 1))%Z by (apply Z.pow_le_mono_r; lia). lia.
Qed.

Lemma SF2R_abs (s : bool) m e :
  (if s then (- SF2R (S754_finite s m e))%R else SF2R (S754_finite s m e)) = F2R (Zpos m) e.
Proof.
  destruct s; simpl; [|reflexivity].
  change (Z.neg m) with (- Zpos m)%Z. rewrite F2R_opp. lra.
Qed.

Lemma SF2R_sign (s : bool) m e :
  SF2R (S754_finite s m e) = ((if s then -1 else 1) * F2R (Zpos m) e)%R.
Proof.
  destruct s; simpl; [|lra].
  change (Z.neg m) with (- Zpos m)%Z. rewrite F2R_opp. lra.
Qed.

Section Ops.
Variables prec emax : Z.
Hypothesis Hprec : (1 < prec)%Z.
Hypothesis Hemax : (prec < emax)%Z.
Set Default Proof Using "Hprec Hemax".

#[local] Abbreviation emin := (SpecFloat.emin prec emax).
#[local] Abbreviation fexp := (SpecFloat.fexp prec emax).
#[local] Abbreviation Rnd := (Rnd prec emax).
#[local] Abbreviation Rnd_pos := (Rnd_pos prec emax).

Lemma canonical_fexp m e :
bounded prec emax m e = true -> fexp (Zpos (digits2_pos m) + e) = e.
Proof.
unfold bounded, canonical_mantissa. intros H.
apply andb_true_iff in H. destruct H as [H _]. now apply Z.eqb_eq in H.
Qed.

Theorem SFmul_Rnd x y :
SpecFloat.valid_binary prec emax x = true -> SpecFloat.valid_binary prec emax y = true ->
SFis_finite x = true -> SFis_finite y = true ->
Rnd (SF2R x * SF2R y) (SFmul prec emax x y).
Proof.
intros Vx Vy Fx Fy.
destruct x as [sx|sx| |sx mx ex], y as [sy|sy| |sy my ey]; try discriminate.
- simpl SF2R. rewrite Rmult_0_l. apply Rnd_zero; assumption.
- simpl SF2R at 1. rewrite Rmult_0_l. apply Rnd_zero; assumption.
- simpl SF2R at 2. rewrite Rmult_0_r. apply Rnd_zero; assumption.
- unfold SFmul. exists (xorb sx sy).
  assert ((if xorb sx sy then (- (SF2R (S754_finite sx mx ex) * SF2R (S754_finite sy my ey)))%R
           else (SF2R (S754_finite sx mx ex) * SF2R (S754_finite sy my ey))%R)
          = F2R (Zpos (mx * my)) (ex + ey)) as ->.
  { rewrite !SF2R_sign. unfold F2R. rewrite Pos2Z.inj_mul, mult_IZR, bpow_plus.
    destruct sx, sy; simpl; ring. }
  simpl in Vx, Vy.
  pose proof (canonical_fexp _ _ Vx) as Cx. pose proof (canonical_fexp _ _ Vy) as Cy.
  destruct (binary_round_aux_pack prec emax Hprec Hemax (xorb sx sy) (Zpos (mx * my)) (ex + ey)
              loc_Exact (F2R (Zpos (mx * my)) (ex + ey))) as (m' & e' & l' & Hc & Hi & Heq).
  + lia.
  + unfold inb, inb_rec; reflexivity.
  + pose proof (digits2_pos_bounds mx) as [Hx1 Hx2].
    pose proof (digits2_pos_bounds my) as [Hy1 Hy2].
    set (dx := Zpos (digits2_pos mx)) in *. set (dy := Zpos (digits2_pos my)) in *.
    assert (0 < dx)%Z by (unfold dx; lia). assert (0 < dy)%Z by (unfold dy; lia).
    assert (dx + dy - 1 <= Zdigits2 (Zpos (mx * my)))%Z.
    { apply Zdigits2_ge; [lia|].
      replace (dx + dy - 1 - 1)%Z with ((dx - 1) + (dy - 1))%Z by lia.
      rewrite Z.pow_add_r, Pos2Z.inj_mul by lia.
      apply Z.mul_le_mono_nonneg; try assumption; apply Z.lt_le_incl, pow2_pos; lia. }
    unfold SpecFloat.fexp, SpecFloat.emin in *. lia.
  + exists m', e', l'. auto.
Qed.

(** Division *)

Lemma new_location_inb m2 q r e :
(0 < m2)%Z -> (0 <= r < m2)%Z ->
inb q e (new_location m2 r) (F2R q e + IZR r / IZR m2 * bpow e).
Proof.
intros Hm2 Hr.
pose proof (bpow_gt_0 e) as Hb.
assert (0 < IZR m2)%R as Hm2r by (apply IZR_lt; assumption).
assert (IZR r / IZR m2 * IZR m2 = IZR r)%R as Hrm by (field; lra).
assert (0 <= IZR r < IZR m2)%R as Hrr by (split; [apply IZR_le|apply IZR_lt]; lia).
assert (0 <= IZR r / IZR m2 < 1)%R as Hfrac by (split; [|apply Rmult_lt_reg_r with (IZR m2)]; nra).
assert (forall c, (2 * r ?= m2)%Z = c ->
          match c with
          | Eq => (IZR r / IZR m2 = 1 / 2)%R
          | Lt => (IZR r / IZR m2 < 1 / 2)%R
          | Gt => (1 / 2 < IZR r / IZR m2)%R
          end) as Hcmp.
{ intros c Hc. destruct c.
  - apply Z.compare_eq_iff in Hc. apply (f_equal IZR) in Hc. rewrite mult_IZR in Hc.
    apply Rmult_eq_reg_r with (IZR m2); lra.
  - apply Z.compare_lt_iff, IZR_lt in Hc. rewrite mult_IZR in Hc.
    apply Rmult_lt_reg_r with (IZR m2); lra.
  - apply Z.compare_gt_iff, IZR_lt in Hc. rewrite mult_IZR in Hc.
    apply Rmult_lt_reg_r with (IZR m2); lra. }
unfold new_location, new_location_even, new_location_odd.
destruct (Z.eqb_spec r 0) as [->|Hr0].
- replace (F2R q e + 0 / IZR m2 * bpow e)%R with (F2R q e).
  + destruct (Z.even m2); unfold inb, inb_rec; reflexivity.
  + unfold Rdiv. lra.
- assert (0 < IZR r / IZR m2)%R as Hpos.
  { assert (0 < IZR r)%R by (apply IZR_lt; lia).
    apply Rmult_lt_reg_r with (IZR m2); lra. }
  destruct (Z.even m2) eqn:Ev.
  + specialize (Hcmp _ eq_refl).
    unfold inb, inb_rec.
    rewrite (proj2 (Z.eqb_neq r 0) Hr0).
    destruct (2 * r ?= m2)%Z; simpl; nra.
  + assert ((2 * r ?= m2)%Z <> Eq) as Hne.
    { intros E. apply Z.compare_eq_iff in E. rewrite <- E, Z.even_mul in Ev. discriminate. }
    assert (forall c, (2 * r + 1 ?= m2)%Z = c ->
              (match c with Lt | Eq => Lt | Gt => Gt end) = (2 * r ?= m2)%Z) as Hodd.
    { intros c Hc. subst c.
      destruct (Z.compare_spec (2 * r + 1) m2); destruct (Z.compare_spec (2 * r) m2);
        try reflexivity; try lia; congruence. }
    rewrite (Hodd _ eq_refl).
    specialize (Hcmp _ eq_refl).
    unfold inb, inb_rec.
    rewrite (proj2 (Z.eqb_neq r 0) Hr0).
    destruct (2 * r ?= m2)%Z; simpl; try nra; congruence.
Qed.

Lemma SFdiv_core_binary_spec m1 e1 m2 e2 :
(0 < m1)%Z -> (0 < m2)%Z ->
let '(q, e', l) := SFdiv_core_binary prec emax m1 e1 m2 e2 in
(0 <= q)%Z /\ inb q e' l (F2R m1 e1 / F2R m2 e2) /\ (e' <= fexp (Zdigits2 q + e'))%Z.
Proof.
intros Hm1 Hm2. unfold SFdiv_core_binary.
set (d1 := Zdigits2 m1). set (d2 := Zdigits2 m2).
set (e' := Z.min (fexp (d1 + e1 - (d2 + e2))) (e1 - e2)).
set (s := (e1 - e2 - e')%Z).
assert (0 <= s)%Z as Hs by (unfold s, e'; lia).
set (m' := match s with Zpos _ => Z.shiftl m1 s | Z0 => m1 | Zneg _ => 0%Z end).
assert (m' = m1 * 2 ^ s)%Z as Hm'.
{ unfold m'. destruct s as [|p|p] eqn:E; [simpl; lia| |lia].
  rewrite Z.shiftl_mul_pow2 by lia. reflexivity. }
pose proof (pow2_pos s Hs) as Hps.
assert (0 < m')%Z as Hm'pos by nia.
pose proof (Z_div_mod m' m2 ltac:(lia)) as Hdm.
destruct (Z.div_eucl m' m2) as [q r]. destruct Hdm as [Hq Hr].
assert (0 <= q)%Z as Hq0 by nia.
split; [assumption|].
assert (F2R m1 e1 / F2R m2 e2 = F2R q e' + IZR r / IZR m2 * bpow e')%R as Hval.
{ assert (F2R m1 e1 = F2R m' e' * bpow e2)%R as E1.
  { rewrite Hm', F2R_shift by lia. unfold F2R. rewrite Rmult_assoc, <- bpow_plus.
    f_equal. f_equal. unfold s. lia. }
  rewrite E1. unfold F2R. rewrite Hq, plus_IZR, mult_IZR.
  pose proof (bpow_gt_0 e2). pose proof (bpow_gt_0 e').
  assert (0 < IZR m2)%R by (apply IZR_lt; assumption).
  field. split; lra. }
rewrite Hval. split; [apply new_location_inb; lia|].
(* digits of the quotient *)
pose proof (Zdigits2_bounds m1 Hm1) as [H11 H12].
pose proof (Zdigits2_bounds m2 Hm2) as [H21 H22].
pose proof (Zdigits2_pos m1 Hm1). pose proof (Zdigits2_pos m2 Hm2).
fold d1 in H11, H12, H. fold d2 in H21, H22, H0.
pose proof (Zdigits2_nonneg q) as Hdq.
assert (d1 + s - d2 <= Zdigits2 q)%Z as Hdig.
{ destruct (Z_le_gt_dec (d1 + s - d2) 0) as [|Hk]; [lia|].
  assert (2 ^ (d1 + s - d2 - 1) <= q)%Z as Hql.
  { assert (q = m' / m2)%Z as -> by (apply Z.div_unique with r; lia).
    apply Z.div_le_lower_bound; [lia|].
    apply Z.le_trans with (2 ^ d2 * 2 ^ (d1 + s - d2 - 1))%Z.
    - apply Z.mul_le_mono_nonneg_r; [apply Z.lt_le_incl, pow2_pos|]; lia.
    - rewrite <- Z.pow_add_r by lia.
      replace (d2 + (d1 + s - d2 - 1))%Z with ((d1 - 1) + s)%Z by lia.
      rewrite Z.pow_add_r, Hm' by lia.
      apply Z.mul_le_mono_nonneg_r; lia. }
  apply Zdigits2_ge; [|assumption].
  pose proof (pow2_pos (d1 + s - d2 - 1) ltac:(lia)). lia. }
unfold e', s, SpecFloat.fexp in *. lia.
Qed.

Theorem SFdiv_Rnd x y :
SpecFloat.valid_binary prec emax x = true -> SpecFloat.valid_binary prec emax y = true ->
SFis_finite x = true -> SFis_finite y = true -> SF2R y <> 0%R ->
Rnd (SF2R x / SF2R y) (SFdiv prec emax x y).
Proof.
intros Vx Vy Fx Fy Hy.
destruct y as [sy|sy| |sy my ey]; try discriminate; [simpl in Hy; lra|].
destruct x as [sx|sx| |sx mx ex]; try discriminate.
- simpl SF2R at 1. unfold Rdiv. rewrite Rmult_0_l. apply Rnd_zero; assumption.
- unfold SFdiv. exists (xorb sx sy).
  pose proof (SFdiv_core_binary_spec (Zpos mx) ex (Zpos my) ey ltac:(lia) ltac:(lia)) as Hcore.
  destruct (SFdiv_core_binary prec emax (Zpos mx) ex (Zpos my) ey) as [[q e'] l].
  destruct Hcore as (Hq & Hi & Hfe).
  assert ((if xorb sx sy then (- (SF2R (S754_finite sx mx ex) / SF2R (S754_finite sy my ey)))%R
           else (SF2R (S754_finite sx mx ex) / SF2R (S754_finite sy my ey))%R)
          = (F2R (Zpos mx) ex / F2R (Zpos my) ey)%R) as ->.
  { rewrite !SF2R_sign.
    assert (F2R (Zpos my) ey <> 0)%R.
    { unfold F2R. pose proof (bpow_gt_0 ey). assert (0 < IZR (Zpos my))%R by (apply IZR_lt; lia). nra. }
    destruct sx, sy; simpl; field; assumption. }
  destruct (binary_round_aux_pack prec emax Hprec Hemax (xorb sx sy) q e' l _ Hq Hi Hfe)
    as (m' & e'' & l' & Hc & Hi' & Heq).
  exists m', e'', l'. auto.
Qed.

End Ops.
Unset Default Proof Using.

(** ** Square root *)

Section Sqrt.
Variables prec emax : Z.
Hypothesis Hprec : (1 < prec)%Z.
Hypothesis Hemax : (prec < emax)%Z.
Set Default Proof Using "Hprec Hemax".

#[local] Abbreviation emin := (SpecFloat.emin prec emax).
#[local] Abbreviation fexp := (SpecFloat.fexp prec emax).
#[local] Abbreviation Rnd := (Rnd prec emax).

Lemma SFsqrt_core_binary_spec m e :
(0 < m)%Z ->
let '(q, e', l) := SFsqrt_core_binary prec emax m e in
(0 <= q)%Z /\ inb q e' l (R_sqrt.sqrt (F2R m e)) /\ (e' <= fexp (Zdigits2 q + e'))%Z.
Proof.
intros Hm. unfold SFsqrt_core_binary.
set (d := Zdigits2 m).
set (e' := Z.min (fexp (Z.div2 (d + e + 1))) (Z.div2 e)).
set (s := (e - 2 * e')%Z).
assert (0 <= s)%Z as Hs.
{ unfold s, e'. rewrite (Z.div2_div e). assert (2 * (e / 2) <= e)%Z by (apply Z.mul_div_le; lia). generalize dependent (e / 2)%Z. intros. lia. }
set (m' := match s with Zpos _ => Z.shiftl m s | Z0 => m | Zneg _ => 0%Z end).
assert (m' = m * 2 ^ s)%Z as Hm'.
{ unfold m'. destruct s as [|p|p] eqn:E; [simpl; lia| |lia].
  rewrite Z.shiftl_mul_pow2 by lia. reflexivity. }
pose proof (pow2_pos s Hs) as Hps.
assert (0 < m')%Z as Hm'pos by nia.
pose proof (Z.sqrtrem_spec m' ltac:(lia)) as Hsq.
destruct (Z.sqrtrem m') as [q r]. destruct Hsq as [Hq Hr].
assert (0 <= q)%Z as Hq0 by lia.
split; [assumption|].
pose proof (bpow_gt_0 e') as Hb.
assert (R_sqrt.sqrt (F2R m e) = R_sqrt.sqrt (IZR m') * bpow e')%R as Hval.
{ assert (F2R m e = IZR m' * (bpow e' * bpow e'))%R as ->.
  { rewrite <- bpow_plus, Hm'. fold (F2R (m * 2 ^ s) (e' + e')). rewrite F2R_shift by lia.
    f_equal. unfold s. lia. }
  rewrite sqrt_mult_alt by (apply IZR_le; lia).
  rewrite sqrt_square by lra. reflexivity. }
rewrite Hval.
set (S := R_sqrt.sqrt (IZR m')).
assert (0 <= S)%R as HS0 by apply sqrt_pos.
assert (S * S = IZR q * IZR q + IZR r)%R as HSS.
{ unfold S. rewrite sqrt_sqrt by (apply IZR_le; lia).
  rewrite Hq, plus_IZR, mult_IZR. reflexivity. }
assert (0 <= IZR q)%R as Hqr by (apply IZR_le; lia).
assert (0 <= IZR r <= 2 * IZR q)%R as Hrr.
{ split; [apply IZR_le; lia|]. rewrite <- mult_IZR. apply IZR_le. lia. }
split.
- unfold inb, inb_rec, F2R.
  destruct (Z.eq_dec r 0) as [->|Hr0].
  + simpl. assert (S = IZR q) as -> by nra. reflexivity.
  + rewrite (proj2 (Z.eqb_neq r 0) Hr0).
    assert (1 <= IZR r)%R by (apply IZR_le; lia).
    destruct (Z_le_gt_dec r q) as [Hle|Hgt].
    * rewrite (proj2 (Z.leb_le r q) Hle). simpl.
      apply IZR_le in Hle.
      assert (IZR q < S)%R by nra.
      assert (S < IZR q + 1 / 2)%R by nra.
      unfold F2R. nra.
    * rewrite (proj2 (Z.leb_gt r q) ltac:(lia)). simpl.
      assert (IZR q + 1 <= IZR r)%R by (rewrite <- plus_IZR; apply IZR_le; lia).
      assert (IZR q + 1 / 2 < S)%R by nra.
      assert (S < IZR q + 1)%R by nra.
      unfold F2R. nra.
- pose proof (Zdigits2_bounds m Hm) as [H11 H12].
  pose proof (Zdigits2_pos m Hm). fold d in H11, H12, H.
  pose proof (Zdigits2_nonneg q) as Hdq.
  set (h := Z.div2 (d + e + 1)) in *.
  assert (2 * h <= d + e + 1)%Z as Hh.
  { unfold h. rewrite Z.div2_div. apply Z.mul_div_le. lia. }
  assert (h - e' <= Zdigits2 q)%Z as Hdig.
  { destruct (Z_le_gt_dec (h - e') 0) as [|Hk]; [lia|].
    assert (2 ^ (h - e' - 1) <= q)%Z as Hql.
    { pose proof (pow2_pos (h - e' - 1) ltac:(lia)).
      destruct (Z_le_gt_dec (2 ^ (h - e' - 1)) q) as [|Hgt]; [assumption|exfalso].
      assert (q + 1 <= 2 ^ (h - e' - 1))%Z as Hq1 by lia.
      assert (m' < (q + 1) * (q + 1))%Z by nia.
      assert ((q + 1) * (q + 1) <= 2 ^ (h - e' - 1) * 2 ^ (h - e' - 1))%Z by nia.
      rewrite <- Z.pow_add_r in H2 by lia.
      assert (2 ^ (h - e' - 1 + (h - e' - 1)) <= 2 ^ (d - 1 + s))%Z
        by (apply Z.pow_le_mono_r; unfold s; lia).
      assert (2 ^ (d - 1 + s) = 2 ^ (d - 1) * 2 ^ s)%Z as Hds by (apply Z.pow_add_r; lia).
      assert (2 ^ (d - 1) * 2 ^ s <= m')%Z by (rewrite Hm'; apply Z.mul_le_mono_nonneg_r; lia).
      lia. }
    apply Zdigits2_ge; [|assumption].
    pose proof (pow2_pos (h - e' - 1) ltac:(lia)). lia. }
  unfold e', SpecFloat.fexp in *. lia.
Qed.

Theorem SFsqrt_Rnd x :
SpecFloat.valid_binary prec emax x = true ->
SFis_finite x = true -> (0 <= SF2R x)%R ->
Rnd (R_sqrt.sqrt (SF2R x)) (SFsqrt prec emax x).
Proof.
intros Vx Fx Hx.
destruct x as [sx|sx| |sx mx ex]; try discriminate.
- simpl. rewrite sqrt_0. apply Rnd_zero; assumption.
- destruct sx.
  + exfalso. simpl in Hx. change (Z.neg mx) with (- Zpos mx)%Z in Hx. rewrite F2R_opp in Hx.
    assert (0 < F2R (Zpos mx) ex)%R; [|lra].
    unfold F2R. pose proof (bpow_gt_0 ex). assert (0 < IZR (Zpos mx))%R by (apply IZR_lt; lia). nra.
  + unfold SFsqrt. exists false.
    pose proof (SFsqrt_core_binary_spec (Zpos mx) ex ltac:(lia)) as Hcore.
    destruct (SFsqrt_core_binary prec emax (Zpos mx) ex) as [[q e'] l].
    destruct Hcore as (Hq & Hi & Hfe).
    destruct (binary_round_aux_pack prec emax Hprec Hemax false q e' l _ Hq Hi Hfe)
      as (m' & e'' & l' & Hc & Hi' & Heq).
    exists m', e'', l'. auto.
Qed.

End Sqrt.
Unset Default Proof Using.

(** * binary64 *)

Lemma prec_gt_1 : (1 < prec)%Z.
Proof. reflexivity. Qed.

Lemma prec_lt_emax : (prec < emax)%Z.
Proof. reflexivity. Qed.

Lemma Ffinite_not_nan x : Ffinite x = true -> Fnan x = false.
Proof. unfold Ffinite, Fnan. now destruct (Prim2SF x). Qed.

Lemma Fcompare_ord x y :
  Fnan x = false -> Fnan y = false ->
  SFcompare (Prim2SF x) (Prim2SF y) = Some (Ford x ?= Ford y)%Z.
Proof.
  intros Hx Hy. apply SFcompare_ord; auto using prec_gt_1, prec_lt_emax, Prim2SF_valid.
Qed.

Lemma SFcompare_nan_l f : SFcompare S754_nan f = None.
Proof. reflexivity. Qed.

Lemma SFcompare_nan_r f : SFcompare f S754_nan = None.
Proof. now destruct f. Qed.

Lemma Fcompare_nan x y :
  Fnan x = true \/ Fnan y = true -> SFcompare (Prim2SF x) (Prim2SF y) = None.
Proof.
  unfold Fnan. intros [H|H].
  - destruct (Prim2SF x); try discriminate. reflexivity.
  - destruct (Prim2SF y); try discriminate. apply SFcompare_nan_r.
Qed.

Lemma ltb_ord x y :
  (x <? y)%float = true <-> Fnan x = false /\ Fnan y = false /\ (Ford x < Ford y)%Z.
Proof.
  rewrite FloatAxioms.ltb_spec. unfold SFltb.
  destruct (Fnan x) eqn:Nx; [rewrite Fcompare_nan by auto; split; [discriminate|intros (?&?&?); discriminate]|].
  destruct (Fnan y) eqn:Ny; [rewrite Fcompare_nan by auto; split; [discriminate|intros (?&?&?); discriminate]|].
  rewrite Fcompare_ord by assumption.
  destruct (Z.compare_spec (Ford x) (Ford y)); split; try discriminate; try (intros (_ & _ & ?); lia); auto.
Qed.

Lemma leb_ord x y :
  (x <=? y)%float = true <-> Fnan x = false /\ Fnan y = false /\ (Ford x <= Ford y)%Z.
Proof.
  rewrite FloatAxioms.leb_spec. unfold SFleb.
  destruct (Fnan x) eqn:Nx; [rewrite Fcompare_nan by auto; split; [discriminate|intros (?&?&?); discriminate]|].
  destruct (Fnan y) eqn:Ny; [rewrite Fcompare_nan by auto; split; [discriminate|intros (?&?&?); discriminate]|].
  rewrite Fcompare_ord by assumption.
  destruct (Z.compare_spec (Ford x) (Ford y)); split; try discriminate; try (intros (_ & _ & ?); lia);
    intros _; repeat split; auto; lia.
Qed.

Lemma eqb_ord x y :
  (x =? y)%float = true <-> Fnan x = false /\ Fnan y = false /\ Ford x = Ford y.
Proof.
  rewrite FloatAxioms.eqb_spec. unfold SFeqb.
  destruct (Fnan x) eqn:Nx; [rewrite Fcompare_nan by auto; split; [discriminate|intros (?&?&?); discriminate]|].
  destruct (Fnan y) eqn:Ny; [rewrite Fcompare_nan by auto; split; [discriminate|intros (?&?&?); discriminate]|].
  rewrite Fcompare_ord by assumption.
  destruct (Z.compare_spec (Ford x) (Ford y)); split; try discriminate; try (intros (_ & _ & ?); lia); auto.
Qed.

(** finite floats are exactly those of rank below the rank of infinity *)
Lemma Ffinite_ord x :
  Ffinite x = true <-> Fnan x = false /\ (- ord_inf prec emax < Ford x < ord_inf prec emax)%Z.
Proof.
  unfold Ffinite, Fnan, Ford.
  pose proof (Prim2SF_valid x) as V.
  pose proof (ord_inf_pos prec emax prec_gt_1 prec_lt_emax) as Hinf.
  destruct (Prim2SF x) as [s|s| |s m e]; cbn [negb SFord cond_Zopp SFis_finite SFis_nan SF2R SpecFloat.valid_binary SFopp SFabs].
  - split; [intros _; split; [reflexivity|lia]|reflexivity].
  - split; [discriminate|]. intros [_ H]. destruct s; cbn [negb SFord cond_Zopp SFis_finite SFis_nan SF2R SpecFloat.valid_binary SFopp SFabs] in H; lia.
  - split; [discriminate|]. intros [H _]. discriminate.
  - split; [|reflexivity]. intros _. split; [reflexivity|].
    cbn [negb SFord cond_Zopp SFis_finite SFis_nan SF2R SpecFloat.valid_binary SFopp SFabs] in V. apply (bounded_cell prec emax prec_gt_1 prec_lt_emax) in V. destruct V as [C L].
    pose proof (rank_lt_inf prec emax prec_gt_1 prec_lt_emax _ _ C L).
    pose proof (rank_pos prec emax prec_gt_1 prec_lt_emax _ _ C ltac:(lia)).
    destruct s; cbn [negb SFord cond_Zopp SFis_finite SFis_nan SF2R SpecFloat.valid_binary SFopp SFabs]; lia.
Qed.

Lemma Rnd64_id x : Ffinite x = true -> Rnd64 (B2R x) x.
Proof.
  intros H. apply Rnd_id; auto using prec_gt_1, prec_lt_emax, Prim2SF_valid.
Qed.

Lemma Rnd64_mono r1 x1 r2 x2 :
  Rnd64 r1 x1 -> Rnd64 r2 x2 -> (r1 <= r2)%R -> (Ford x1 <= Ford x2)%Z.
Proof. apply Rnd_mono; auto using prec_gt_1, prec_lt_emax. Qed.

Lemma Rnd64_not_nan r x : Rnd64 r x -> Fnan x = false.
Proof. apply Rnd_not_nan; auto using prec_gt_1, prec_lt_emax. Qed.

Lemma B2R_le_ord x y :
  Ffinite x = true -> Ffinite y = true -> (B2R x <= B2R y)%R -> (Ford x <= Ford y)%Z.
Proof. intros Hx Hy. apply Rnd64_mono; now apply Rnd64_id. Qed.

Lemma ord_le_B2R x y :
  Ffinite x = true -> Ffinite y = true -> (Ford x <= Ford y)%Z -> (B2R x <= B2R y)%R.
Proof.
  intros Hx Hy H.
  destruct (Rle_lt_dec (B2R x) (B2R y)) as [|Hlt]; [assumption|].
  assert (Ford y <= Ford x)%Z as H' by (apply B2R_le_ord; auto; lra).
  assert (Ford x = Ford y) as E by lia.
  (* equal ranks: equal values *)
  unfold Ford, B2R, Ffinite in *.
  pose proof (Prim2SF_valid x) as Vx. pose proof (Prim2SF_valid y) as Vy.
  destruct (Prim2SF x) as [sx|sx| |sx mx ex], (Prim2SF y) as [sy|sy| |sy my ey];
    try discriminate; cbn [negb SFord cond_Zopp SFis_finite SFis_nan SF2R SpecFloat.valid_binary SFopp SFabs] in Vx, Vy.
  - cbn [negb SFord cond_Zopp SFis_finite SFis_nan SF2R SpecFloat.valid_binary SFopp SFabs]. lra.
  - apply (bounded_cell prec emax prec_gt_1 prec_lt_emax) in Vy. destruct Vy as [Cy _].
    pose proof (rank_pos prec emax prec_gt_1 prec_lt_emax _ _ Cy ltac:(lia)).
    cbn [negb SFord cond_Zopp SFis_finite SFis_nan SF2R SpecFloat.valid_binary SFopp SFabs] in E. destruct sy; cbn [negb SFord cond_Zopp SFis_finite SFis_nan SF2R SpecFloat.valid_binary SFopp SFabs] in E; lia.
  - apply (bounded_cell prec emax prec_gt_1 prec_lt_emax) in Vx. destruct Vx as [Cx _].
    pose proof (rank_pos prec emax prec_gt_1 prec_lt_emax _ _ Cx ltac:(lia)).
    cbn [negb SFord cond_Zopp SFis_finite SFis_nan SF2R SpecFloat.valid_binary SFopp SFabs] in E. destruct sx; cbn [negb SFord cond_Zopp SFis_finite SFis_nan SF2R SpecFloat.valid_binary SFopp SFabs] in E; lia.
  - apply (bounded_cell prec emax prec_gt_1 prec_lt_emax) in Vx, Vy.
    destruct Vx as [Cx _], Vy as [Cy _].
    pose proof (rank_pos prec emax prec_gt_1 prec_lt_emax _ _ Cx ltac:(lia)).
    pose proof (rank_pos prec emax prec_gt_1 prec_lt_emax _ _ Cy ltac:(lia)).
    assert (sx = sy) as -> by (cbn [negb SFord cond_Zopp SFis_finite SFis_nan SF2R SpecFloat.valid_binary SFopp SFabs] in E; destruct sx, sy; cbn [negb SFord cond_Zopp SFis_finite SFis_nan SF2R SpecFloat.valid_binary SFopp SFabs] in E; try reflexivity; lia).
    assert (rank prec emax (Zpos mx) ex = rank prec emax (Zpos my) ey) as Er
      by (cbn [negb SFord cond_Zopp SFis_finite SFis_nan SF2R SpecFloat.valid_binary SFopp SFabs] in E; destruct sy; cbn [negb SFord cond_Zopp SFis_finite SFis_nan SF2R SpecFloat.valid_binary SFopp SFabs] in E; lia).
    assert (ex = ey) as ->.
    { destruct (Z.lt_trichotomy ex ey) as [Hl|[He|Hg]]; [|assumption|].
      - destruct (rank_lt_exp prec emax prec_gt_1 prec_lt_emax _ _ _ _ Cx Cy Hl). lia.
      - destruct (rank_lt_exp prec emax prec_gt_1 prec_lt_emax _ _ _ _ Cy Cx Hg). lia. }
    unfold rank in Er. assert (mx = my) as -> by lia. lra.
Qed.

Lemma B2R_lt_ord x y :
  Ffinite x = true -> Ffinite y = true -> (B2R x < B2R y)%R -> (Ford x < Ford y)%Z.
Proof.
  intros Hx Hy H. destruct (Z_lt_le_dec (Ford x) (Ford y)) as [|Hle]; [assumption|].
  apply ord_le_B2R in Hle; auto. lra.
Qed.

Lemma ord_lt_B2R x y :
  Ffinite x = true -> Ffinite y = true -> (Ford x < Ford y)%Z -> (B2R x < B2R y)%R.
Proof.
  intros Hx Hy H. destruct (Rlt_le_dec (B2R x) (B2R y)) as [|Hle]; [assumption|].
  apply B2R_le_ord in Hle; auto. lia.
Qed.

(** the operations *)
Lemma add_Rnd64 x y :
  Ffinite x = true -> Ffinite y = true -> Rnd64 (B2R x + B2R y) (x + y)%float.
Proof.
  intros Hx Hy. unfold Rnd64. rewrite add_spec.
  apply SFadd_Rnd; auto using prec_gt_1, prec_lt_emax, Prim2SF_valid.
Qed.

Lemma sub_Rnd64 x y :
  Ffinite x = true -> Ffinite y = true -> Rnd64 (B2R x - B2R y) (x - y)%float.
Proof.
  intros Hx Hy. unfold Rnd64. rewrite sub_spec.
  apply SFsub_Rnd; auto using prec_gt_1, prec_lt_emax, Prim2SF_valid.
Qed.

Lemma mul_Rnd64 x y :
  Ffinite x = true -> Ffinite y = true -> Rnd64 (B2R x * B2R y) (x * y)%float.
Proof.
  intros Hx Hy. unfold Rnd64. rewrite mul_spec.
  apply SFmul_Rnd; auto using prec_gt_1, prec_lt_emax, Prim2SF_valid.
Qed.

Lemma div_Rnd64 x y :
  Ffinite x = true -> Ffinite y = true -> B2R y <> 0%R -> Rnd64 (B2R x / B2R y) (x / y)%float.
Proof.
  intros Hx Hy Hy0. unfold Rnd64. rewrite div_spec.
  apply SFdiv_Rnd; auto using prec_gt_1, prec_lt_emax, Prim2SF_valid.
Qed.

Lemma sqrt_Rnd64 x :
  Ffinite x = true -> (0 <= B2R x)%R -> Rnd64 (R_sqrt.sqrt (B2R x)) (PrimFloat.sqrt x).
Proof.
  intros Hx Hx0. unfold Rnd64. rewrite sqrt_spec.
  apply SFsqrt_Rnd; auto using prec_gt_1, prec_lt_emax, Prim2SF_valid.
Qed.

Lemma opp_Ford x : Ford (- x)%float = (- Ford x)%Z.
Proof.
  unfold Ford. rewrite opp_spec. destruct (Prim2SF x) as [s|s| |s m e]; cbn [negb SFord cond_Zopp SFis_finite SFis_nan SF2R SpecFloat.valid_binary SFopp SFabs]; try reflexivity;
    destruct s; cbn [negb SFord cond_Zopp SFis_finite SFis_nan SF2R SpecFloat.valid_binary SFopp SFabs]; lia.
Qed.

Lemma opp_B2R x : B2R (- x)%float = (- B2R x)%R.
Proof.
  unfold B2R. rewrite opp_spec. destruct (Prim2SF x) as [s|s| |s m e]; cbn [negb SFord cond_Zopp SFis_finite SFis_nan SF2R SpecFloat.valid_binary SFopp SFabs]; try lra.
  destruct s; cbn [negb SFord cond_Zopp SFis_finite SFis_nan SF2R SpecFloat.valid_binary SFopp SFabs]; change (Z.neg m) with (- Zpos m)%Z; rewrite F2R_opp; lra.
Qed.

Lemma opp_Ffinite x : Ffinite (- x)%float = Ffinite x.
Proof. unfold Ffinite. rewrite opp_spec. now destruct (Prim2SF x). Qed.

Lemma opp_Fnan x : Fnan (- x)%float = Fnan x.
Proof. unfold Fnan. rewrite opp_spec. now destruct (Prim2SF x). Qed.

Lemma abs_Ford x : Ford (abs x) = Z.abs (Ford x).
Proof.
  unfold Ford. rewrite abs_spec.
  pose proof (Prim2SF_valid x) as V.
  pose proof (ord_inf_pos prec emax prec_gt_1 prec_lt_emax) as Hinf.
  destruct (Prim2SF x) as [s|s| |s m e]; cbn [negb SFord cond_Zopp SFis_finite SFis_nan SF2R SpecFloat.valid_binary SFopp SFabs]; try reflexivity.
  - destruct s; cbn [negb SFord cond_Zopp SFis_finite SFis_nan SF2R SpecFloat.valid_binary SFopp SFabs]; lia.
  - cbn [negb SFord cond_Zopp SFis_finite SFis_nan SF2R SpecFloat.valid_binary SFopp SFabs] in V. apply (bounded_cell prec emax prec_gt_1 prec_lt_emax) in V. destruct V as [C _].
    pose proof (rank_pos prec emax prec_gt_1 prec_lt_emax _ _ C ltac:(lia)).
    destruct s; cbn [negb SFord cond_Zopp SFis_finite SFis_nan SF2R SpecFloat.valid_binary SFopp SFabs]; lia.
Qed.

Lemma abs_Fnan x : Fnan (abs x) = Fnan x.
Proof. unfold Fnan. rewrite abs_spec. now destruct (Prim2SF x). Qed.

Lemma abs_Ffinite x : Ffinite (abs x) = Ffinite x.
Proof. unfold Ffinite. rewrite abs_spec. now destruct (Prim2SF x). Qed.

Lemma abs_B2R x : B2R (abs x) = Rabs (B2R x).
Proof.
  unfold B2R. rewrite abs_spec. destruct (Prim2SF x) as [s|s| |s m e]; cbn [negb SFord cond_Zopp SFis_finite SFis_nan SF2R SpecFloat.valid_binary SFopp SFabs]; try (now rewrite Rabs_R0).
  assert (0 < F2R (Zpos m) e)%R.
  { unfold F2R. pose proof (bpow_gt_0 e). assert (0 < IZR (Zpos m))%R by (apply IZR_lt; lia). nra. }
  destruct s; cbn [negb SFord cond_Zopp SFis_finite SFis_nan SF2R SpecFloat.valid_binary SFopp SFabs].
  - change (Z.neg m) with (- Zpos m)%Z. rewrite F2R_opp, Rabs_Ropp, Rabs_pos_eq; lra.
  - rewrite Rabs_pos_eq; lra.
Qed.

#[local] Open Scope float_scope.

(** * Intervals of binary64 numbers *)

Lemma Prim2SF_infinity : Prim2SF infinity = S754_infinity false.
Proof. reflexivity. Qed.

Lemma Prim2SF_zero : Prim2SF 0 = S754_zero false.
Proof. reflexivity. Qed.

Lemma fin_Ffinite x : fin x = true <-> Ffinite x = true.
Proof.
  unfold fin. rewrite ltb_ord, abs_Fnan, abs_Ford, Ffinite_ord.
  unfold Fnan at 2, Ford at 2. rewrite Prim2SF_infinity.
  cbn [SFis_nan SFord cond_Zopp]. split.
  - intros (H1 & _ & H3). split; [assumption|lia].
  - intros (H1 & H2). repeat split; auto. lia.
Qed.

Lemma B2R_zero : B2R 0 = 0%R.
Proof. unfold B2R. rewrite Prim2SF_zero. reflexivity. Qed.

Lemma Ford_zero : Ford 0 = 0%Z.
Proof. unfold Ford. rewrite Prim2SF_zero. reflexivity. Qed.

Lemma In_spec x i :
  In x i <-> Fnan (lo i) = false /\ Fnan x = false /\ Fnan (hi i) = false /\
             (Ford (lo i) <= Ford x <= Ford (hi i))%Z.
Proof.
  unfold In. rewrite andb_true_iff, !leb_ord. tauto.
Qed.

Lemma ok_spec i : ok i = true <-> Ffinite (lo i) = true /\ Ffinite (hi i) = true.
Proof. unfold ok. rewrite andb_true_iff, !fin_Ffinite. tauto. Qed.

Lemma In_finite x i : ok i = true -> In x i -> Ffinite x = true.
Proof.
  rewrite ok_spec, In_spec, !Ffinite_ord. intros [[_ H1] [_ H2]] (_ & N & _ & H3).
  split; [assumption|lia].
Qed.

Lemma In_B2R x i :
  ok i = true -> In x i -> (B2R (lo i) <= B2R x <= B2R (hi i))%R.
Proof.
  intros Hok Hin. pose proof (In_finite _ _ Hok Hin) as Fx.
  apply ok_spec in Hok. destruct Hok as [Fl Fh].
  apply In_spec in Hin. destruct Hin as (_ & _ & _ & H1 & H2).
  split; apply ord_le_B2R; assumption.
Qed.

Lemma In_intro x i :
  Fnan (lo i) = false -> Fnan x = false -> Fnan (hi i) = false ->
  (Ford (lo i) <= Ford x)%Z -> (Ford x <= Ford (hi i))%Z -> In x i.
Proof. intros. apply In_spec. auto. Qed.

Lemma fmin_spec a b :
  Fnan a = false -> Fnan b = false ->
  Fnan (fmin a b) = false /\ Ford (fmin a b) = Z.min (Ford a) (Ford b).
Proof.
  intros Na Nb. unfold fmin. destruct (a <=? b) eqn:E.
  - apply leb_ord in E. destruct E as (_ & _ & E). split; [assumption|lia].
  - split; [assumption|].
    destruct (Z_le_gt_dec (Ford a) (Ford b)) as [H|H]; [|lia].
    assert ((a <=? b) = true) by (apply leb_ord; auto). congruence.
Qed.

Lemma fmax_spec a b :
  Fnan a = false -> Fnan b = false ->
  Fnan (fmax a b) = false /\ Ford (fmax a b) = Z.max (Ford a) (Ford b).
Proof.
  intros Na Nb. unfold fmax. destruct (a <=? b) eqn:E.
  - apply leb_ord in E. destruct E as (_ & _ & E). split; [assumption|lia].
  - split; [assumption|].
    destruct (Z_le_gt_dec (Ford a) (Ford b)) as [H|H]; [|lia].
    assert ((a <=? b) = true) by (apply leb_ord; auto). congruence.
Qed.

(** ** Soundness of the interval operations *)

Lemma iadd_sound i j x y :
  ok i = true -> ok j = true -> In x i -> In y j -> In (x + y) (iadd i j).
Proof.
  intros Oi Oj Hx Hy.
  pose proof (In_finite _ _ Oi Hx) as Fx. pose proof (In_finite _ _ Oj Hy) as Fy.
  pose proof (In_B2R _ _ Oi Hx) as Bx. pose proof (In_B2R _ _ Oj Hy) as By.
  apply ok_spec in Oi, Oj. destruct Oi as [Fil Fih], Oj as [Fjl Fjh].
  pose proof (add_Rnd64 _ _ Fx Fy) as R.
  pose proof (add_Rnd64 _ _ Fil Fjl) as Rl.
  pose proof (add_Rnd64 _ _ Fih Fjh) as Rh.
  apply In_intro; simpl; eauto using Rnd64_not_nan.
  - apply (Rnd64_mono _ _ _ _ Rl R). lra.
  - apply (Rnd64_mono _ _ _ _ R Rh). lra.
Qed.

Lemma isub_sound i j x y :
  ok i = true -> ok j = true -> In x i -> In y j -> In (x - y) (isub i j).
Proof.
  intros Oi Oj Hx Hy.
  pose proof (In_finite _ _ Oi Hx) as Fx. pose proof (In_finite _ _ Oj Hy) as Fy.
  pose proof (In_B2R _ _ Oi Hx) as Bx. pose proof (In_B2R _ _ Oj Hy) as By.
  apply ok_spec in Oi, Oj. destruct Oi as [Fil Fih], Oj as [Fjl Fjh].
  pose proof (sub_Rnd64 _ _ Fx Fy) as R.
  pose proof (sub_Rnd64 _ _ Fil Fjh) as Rl.
  pose proof (sub_Rnd64 _ _ Fih Fjl) as Rh.
  apply In_intro; simpl; eauto using Rnd64_not_nan.
  - apply (Rnd64_mono _ _ _ _ Rl R). lra.
  - apply (Rnd64_mono _ _ _ _ R Rh). lra.
Qed.

Lemma iopp_sound i x : In x i -> In (- x) (iopp i).
Proof.
  rewrite !In_spec. simpl. rewrite !opp_Fnan, !opp_Ford. intros (?&?&?&?&?).
  repeat split; auto; lia.
Qed.

Section RealBounds.
Local Open Scope R_scope.

Lemma Rmult_interval a b c d x y :
a <= x <= b -> c <= y <= d ->
(a * c <= x * y \/ a * d <= x * y \/ b * c <= x * y \/ b * d <= x * y) /\
(x * y <= a * c \/ x * y <= a * d \/ x * y <= b * c \/ x * y <= b * d).
Proof.
intros Hx Hy.
destruct (Rle_dec 0 y) as [Hy0|Hy0], (Rle_dec 0 a) as [Ha|Ha], (Rle_dec 0 b) as [Hb|Hb];
  split; nra.
Qed.

End RealBounds.

Lemma four_min a b c d z :
  Fnan a = false -> Fnan b = false -> Fnan c = false -> Fnan d = false ->
  (Ford a <= z \/ Ford b <= z \/ Ford c <= z \/ Ford d <= z)%Z ->
  Fnan (fmin (fmin a b) (fmin c d)) = false /\ (Ford (fmin (fmin a b) (fmin c d)) <= z)%Z.
Proof.
  intros Na Nb Nc Nd H.
  destruct (fmin_spec a b Na Nb) as [N1 E1]. destruct (fmin_spec c d Nc Nd) as [N2 E2].
  destruct (fmin_spec _ _ N1 N2) as [N3 E3]. split; [assumption|lia].
Qed.

Lemma four_max a b c d z :
  Fnan a = false -> Fnan b = false -> Fnan c = false -> Fnan d = false ->
  (z <= Ford a \/ z <= Ford b \/ z <= Ford c \/ z <= Ford d)%Z ->
  Fnan (fmax (fmax a b) (fmax c d)) = false /\ (z <= Ford (fmax (fmax a b) (fmax c d)))%Z.
Proof.
  intros Na Nb Nc Nd H.
  destruct (fmax_spec a b Na Nb) as [N1 E1]. destruct (fmax_spec c d Nc Nd) as [N2 E2].
  destruct (fmax_spec _ _ N1 N2) as [N3 E3]. split; [assumption|lia].
Qed.

Lemma imul_sound i j x y :
  ok i = true -> ok j = true -> In x i -> In y j -> In (x * y) (imul i j).
Proof.
  intros Oi Oj Hx Hy.
  pose proof (In_finite _ _ Oi Hx) as Fx. pose proof (In_finite _ _ Oj Hy) as Fy.
  pose proof (In_B2R _ _ Oi Hx) as Bx. pose proof (In_B2R _ _ Oj Hy) as By.
  apply ok_spec in Oi, Oj. destruct Oi as [Fil Fih], Oj as [Fjl Fjh].
  pose proof (mul_Rnd64 _ _ Fx Fy) as R.
  pose proof (mul_Rnd64 _ _ Fil Fjl) as R1.
  pose proof (mul_Rnd64 _ _ Fil Fjh) as R2.
  pose proof (mul_Rnd64 _ _ Fih Fjl) as R3.
  pose proof (mul_Rnd64 _ _ Fih Fjh) as R4.
  destruct (Rmult_interval _ _ _ _ _ _ Bx By) as [HL HU].
  unfold imul.
  destruct (four_min (lo i * lo j) (lo i * hi j) (hi i * lo j) (hi i * hi j) (Ford (x * y)))
    as [NL OL]; eauto using Rnd64_not_nan.
  { destruct HL as [H|[H|[H|H]]]; [left|right;left|right;right;left|right;right;right];
      eapply Rnd64_mono; eauto. }
  destruct (four_max (lo i * lo j) (lo i * hi j) (hi i * lo j) (hi i * hi j) (Ford (x * y)))
    as [NU OU]; eauto using Rnd64_not_nan.
  { destruct HU as [H|[H|[H|H]]]; [left|right;left|right;right;left|right;right;right];
      eapply Rnd64_mono; eauto. }
  apply In_intro; simpl; eauto using Rnd64_not_nan.
Qed.

Lemma ltb_0_B2R x : Ffinite x = true -> (0 <? x) = true -> (0 < B2R x)%R.
Proof.
  intros Fx H. apply ltb_ord in H. destruct H as (_ & _ & H).
  rewrite <- B2R_zero. apply ord_lt_B2R; auto.
Qed.

Lemma ltb_B2R_0 x : Ffinite x = true -> (x <? 0) = true -> (B2R x < 0)%R.
Proof.
  intros Fx H. apply ltb_ord in H. destruct H as (_ & _ & H).
  rewrite <- B2R_zero. apply ord_lt_B2R; auto.
Qed.

Lemma leb_0_B2R x : Ffinite x = true -> (0 <=? x) = true -> (0 <= B2R x)%R.
Proof.
  intros Fx H. apply leb_ord in H. destruct H as (_ & _ & H).
  rewrite <- B2R_zero. apply ord_le_B2R; auto.
Qed.

Lemma idiv_sound i j x y :
  ok i = true -> ok j = true -> (0 <? lo j) || (hi j <? 0) = true ->
  In x i -> In y j -> In (x / y) (idiv i j).
Proof.
  intros Oi Oj Hs Hx Hy.
  pose proof (In_finite _ _ Oi Hx) as Fx. pose proof (In_finite _ _ Oj Hy) as Fy.
  pose proof (In_B2R _ _ Oi Hx) as Bx. pose proof (In_B2R _ _ Oj Hy) as By.
  apply ok_spec in Oi, Oj. destruct Oi as [Fil Fih], Oj as [Fjl Fjh].
  assert ((0 < B2R (lo j) \/ B2R (hi j) < 0)%R) as Hsign.
  { apply orb_true_iff in Hs. destruct Hs as [H|H]; [left; now apply ltb_0_B2R|right; now apply ltb_B2R_0]. }
  assert (B2R (lo j) <> 0 /\ B2R (hi j) <> 0 /\ B2R y <> 0)%R as (Nl & Nh & Ny) by (repeat split; lra).
  pose proof (div_Rnd64 _ _ Fx Fy Ny) as R.
  pose proof (div_Rnd64 _ _ Fil Fjl Nl) as R1.
  pose proof (div_Rnd64 _ _ Fil Fjh Nh) as R2.
  pose proof (div_Rnd64 _ _ Fih Fjl Nl) as R3.
  pose proof (div_Rnd64 _ _ Fih Fjh Nh) as R4.
  assert ((/ B2R (hi j) <= / B2R y <= / B2R (lo j))%R) as Binv.
  { destruct Hsign as [Hp|Hn].
    - split; apply Rinv_le_contravar; lra.
    - split.
      + apply Ropp_le_cancel. rewrite <- !Rinv_opp. apply Rinv_le_contravar; lra.
      + apply Ropp_le_cancel. rewrite <- !Rinv_opp. apply Rinv_le_contravar; lra. }
  destruct (Rmult_interval _ _ _ _ _ _ Bx Binv) as [HL HU].
  unfold idiv.
  destruct (four_min (lo i / lo j) (lo i / hi j) (hi i / lo j) (hi i / hi j) (Ford (x / y)))
    as [NL OL]; eauto using Rnd64_not_nan.
  { unfold Rdiv in *.
    destruct HL as [H|[H|[H|H]]]; [right;left|left|right;right;right|right;right;left];
      eapply Rnd64_mono; eauto. }
  destruct (four_max (lo i / lo j) (lo i / hi j) (hi i / lo j) (hi i / hi j) (Ford (x / y)))
    as [NU OU]; eauto using Rnd64_not_nan.
  { unfold Rdiv in *.
    destruct HU as [H|[H|[H|H]]]; [right;left|left|right;right;right|right;right;left];
      eapply Rnd64_mono; eauto. }
  apply In_intro; simpl; eauto using Rnd64_not_nan.
Qed.

Lemma isqrt_sound i x :
  ok i = true -> (0 <=? lo i) = true -> In x i -> In (sqrt x) (isqrt i).
Proof.
  intros Oi H0 Hx.
  pose proof (In_finite _ _ Oi Hx) as Fx.
  pose proof (In_B2R _ _ Oi Hx) as Bx.
  apply ok_spec in Oi. destruct Oi as [Fil Fih].
  pose proof (leb_0_B2R _ Fil H0) as Hl.
  pose proof (sqrt_Rnd64 _ Fx ltac:(lra)) as R.
  pose proof (sqrt_Rnd64 _ Fil Hl) as Rl.
  pose proof (sqrt_Rnd64 _ Fih ltac:(lra)) as Rh.
  apply In_intro; simpl; eauto using Rnd64_not_nan.
  - apply (Rnd64_mono _ _ _ _ Rl R). apply sqrt_le_1_alt. lra.
  - apply (Rnd64_mono _ _ _ _ R Rh). apply sqrt_le_1_alt. lra.
Qed.


(** * Expressions and their evaluation over intervals *)


Lemma check_Some i j : check i = Some j -> j = i /\ ok i = true.
Proof. unfold check. destruct (ok i) eqn:E; [|discriminate]. intros [= <-]. auto. Qed.

Lemma Forall2_In_nth env ienv n i :
  Forall2 In env ienv -> nth_error ienv n = Some i -> In (nth n env 0) i.
Proof.
  intros H. revert n. induction H as [|x j env ienv Hx H IH]; intros [|n]; simpl; try discriminate.
  - intros [= <-]. assumption.
  - apply IH.
Qed.

Lemma In_point c : ok (mk_itv c c) = true -> In c (mk_itv c c).
Proof.
  intros H. apply ok_spec in H. destruct H as [H _]. simpl in H.
  apply In_spec. simpl. pose proof (Ffinite_not_nan _ H). repeat split; auto; lia.
Qed.

Theorem ieval_sound env ienv e i :
  Forall2 In env ienv -> ieval ienv e = Some i -> In (eval env e) i /\ ok i = true.
Proof.
  intros Henv. revert i.
  induction e as [n|c|a IHa b IHb|a IHa b IHb|a IHa b IHb|a IHa b IHb|a IHa|a IHa];
    intros i; simpl.
  - destruct (nth_error ienv n) as [j|] eqn:E; [|discriminate].
    intros H. apply check_Some in H. destruct H as [-> H]. split; [|assumption].
    eapply Forall2_In_nth; eauto.
  - intros H. apply check_Some in H. destruct H as [-> H]. split; [|assumption].
    now apply In_point.
  - destruct (ieval ienv a) as [ia|]; [|discriminate].
    destruct (ieval ienv b) as [ib|]; [|discriminate].
    destruct (IHa _ eq_refl) as [Ha Oa]. destruct (IHb _ eq_refl) as [Hb Ob].
    intros H. apply check_Some in H. destruct H as [-> H]. split; [|assumption].
    now apply iadd_sound.
  - destruct (ieval ienv a) as [ia|]; [|discriminate].
    destruct (ieval ienv b) as [ib|]; [|discriminate].
    destruct (IHa _ eq_refl) as [Ha Oa]. destruct (IHb _ eq_refl) as [Hb Ob].
    intros H. apply check_Some in H. destruct H as [-> H]. split; [|assumption].
    now apply isub_sound.
  - destruct (ieval ienv a) as [ia|]; [|discriminate].
    destruct (ieval ienv b) as [ib|]; [|discriminate].
    destruct (IHa _ eq_refl) as [Ha Oa]. destruct (IHb _ eq_refl) as [Hb Ob].
    intros H. apply check_Some in H. destruct H as [-> H]. split; [|assumption].
    now apply imul_sound.
  - destruct (ieval ienv a) as [ia|]; [|discriminate].
    destruct (ieval ienv b) as [ib|]; [|discriminate].
    destruct (IHa _ eq_refl) as [Ha Oa]. destruct (IHb _ eq_refl) as [Hb Ob].
    destruct ((0 <? lo ib) || (hi ib <? 0)) eqn:Hs; [|discriminate].
    intros H. apply check_Some in H. destruct H as [-> H]. split; [|assumption].
    now apply idiv_sound.
  - destruct (ieval ienv a) as [ia|]; [|discriminate].
    destruct (IHa _ eq_refl) as [Ha Oa].
    destruct (0 <=? lo ia) eqn:Hs; [|discriminate].
    intros H. apply check_Some in H. destruct H as [-> H]. split; [|assumption].
    now apply isqrt_sound.
  - destruct (ieval ienv a) as [ia|]; [|discriminate].
    destruct (IHa _ eq_refl) as [Ha Oa].
    intros H. apply check_Some in H. destruct H as [-> H]. split; [|assumption].
    now apply iopp_sound.
Qed.

(** Reification of a term of type [float] over the variables [vars]. *)
(** [interval_of vars ienv t H] proves [In t ?i /\ ok ?i = true] *)
Lemma ieval_sound' env ienv e i t :
  Forall2 In env ienv -> t = eval env e -> ieval ienv e = Some i -> In t i /\ ok i = true.
Proof. intros H -> H'. eapply ieval_sound; eauto. Qed.


(** * Sign symmetry of the operations *)

Lemma binary_round_aux_opp s m e l :
  binary_round_aux prec emax (negb s) m e l = SFopp (binary_round_aux prec emax s m e l).
Proof.
  unfold binary_round_aux.
  destruct (shr_fexp prec emax m e l) as [mrs' e'].
  destruct (shr_fexp prec emax _ e' loc_Exact) as [mrs'' e''].
  destruct (shr_m mrs''); try reflexivity.
  destruct (e'' <=? emax - prec)%Z; reflexivity.
Qed.

Lemma SFmul_opp_l x y : SF64mul (SFopp x) y = SFopp (SF64mul x y).
Proof.
  destruct x as [sx|sx| |sx mx ex], y as [sy|sy| |sy my ey]; try reflexivity;
    unfold SF64mul; cbn [SFmul SFopp]; rewrite <- ?negb_xorb_l; try reflexivity.
  apply binary_round_aux_opp.
Qed.

Lemma SFmul_opp_r x y : SF64mul x (SFopp y) = SFopp (SF64mul x y).
Proof.
  destruct x as [sx|sx| |sx mx ex], y as [sy|sy| |sy my ey]; try reflexivity;
    unfold SF64mul; cbn [SFmul SFopp]; rewrite <- ?negb_xorb_r; try reflexivity.
  apply binary_round_aux_opp.
Qed.

Lemma SFdiv_opp_l x y : SF64div (SFopp x) y = SFopp (SF64div x y).
Proof.
  destruct x as [sx|sx| |sx mx ex], y as [sy|sy| |sy my ey]; try reflexivity;
    unfold SF64div; cbn [SFdiv SFopp]; rewrite <- ?negb_xorb_l; try reflexivity.
  destruct (SFdiv_core_binary prec emax (Z.pos mx) ex (Z.pos my) ey) as [[q e'] l].
  apply binary_round_aux_opp.
Qed.

Lemma mul_opp_l x y : (- x) * y = - (x * y).
Proof. apply Prim2SF_inj. rewrite opp_spec, !mul_spec, opp_spec. apply SFmul_opp_l. Qed.

Lemma mul_opp_r x y : x * (- y) = - (x * y).
Proof. apply Prim2SF_inj. rewrite opp_spec, !mul_spec, opp_spec. apply SFmul_opp_r. Qed.

Lemma div_opp_l x y : (- x) / y = - (x / y).
Proof. apply Prim2SF_inj. rewrite opp_spec, !div_spec, opp_spec. apply SFdiv_opp_l. Qed.

Lemma opp_involutive x : - (- x) = x.
Proof.
  apply Prim2SF_inj. rewrite !opp_spec.
  destruct (Prim2SF x); simpl; rewrite ?negb_involutive; reflexivity.
Qed.

Lemma abs_opp x : abs (- x) = abs x.
Proof.
  apply Prim2SF_inj. rewrite !abs_spec, opp_spec. now destruct (Prim2SF x).
Qed.

Lemma abs_abs x : abs (abs x) = abs x.
Proof.
  apply Prim2SF_inj. rewrite !abs_spec. now destruct (Prim2SF x).
Qed.

Lemma ltb_0_opp x : Fnan x = false -> (x =? 0) = false -> (- x <? 0) = negb (x <? 0).
Proof.
  intros N E.
  assert (Ford x <> 0%Z) as H0.
  { intros H. assert ((x =? 0) = true); [|congruence].
    apply eqb_ord. rewrite Ford_zero. repeat split; auto. }
  destruct (x <? 0) eqn:L.
  - apply ltb_ord in L. destruct L as (_ & _ & L). rewrite Ford_zero in L.
    simpl. destruct (- x <? 0) eqn:L'; [|reflexivity].
    apply ltb_ord in L'. rewrite opp_Ford, Ford_zero in L'. lia.
  - simpl. apply ltb_ord. rewrite opp_Fnan, opp_Ford, Ford_zero. repeat split; auto.
    destruct (Z_lt_le_dec (Ford x) 0) as [Hl|Hl]; [|lia].
    assert ((x <? 0) = true); [|congruence].
    apply ltb_ord. rewrite Ford_zero. repeat split; auto.
Qed.

Lemma eqb_0_opp x : (- x =? 0) = (x =? 0).
Proof.
  rewrite !FloatAxioms.eqb_spec, opp_spec, Prim2SF_zero.
  destruct (Prim2SF x) as [s|s| |s m e]; try reflexivity; destruct s; reflexivity.
Qed.

Lemma ltb_0_zero x : (x =? 0) = true -> (x <? 0) = false.
Proof.
  intros E. apply eqb_ord in E. destruct E as (_ & _ & E).
  destruct (x <? 0) eqn:L; [|reflexivity].
  apply ltb_ord in L. destruct L as (_ & _ & L). lia.
Qed.

(** Floats of the same rank are the same, zero apart. *)
Lemma Ford_inj x y :
  Fnan x = false -> Fnan y = false -> Ford x = Ford y -> Ford x <> 0%Z -> x = y.
Proof.
  intros Nx Ny E H0. apply Prim2SF_inj.
  unfold Fnan, Ford in *.
  pose proof (Prim2SF_valid x) as Vx. pose proof (Prim2SF_valid y) as Vy.
  pose proof (ord_inf_pos prec emax prec_gt_1 prec_lt_emax) as Hinf.
  destruct (Prim2SF x) as [sx|sx| |sx mx ex], (Prim2SF y) as [sy|sy| |sy my ey];
    try discriminate; cbn [SFord cond_Zopp SpecFloat.valid_binary] in *; try lia.
  - destruct sx, sy; cbn [cond_Zopp] in E; try reflexivity; lia.
  - apply (bounded_cell prec emax prec_gt_1 prec_lt_emax) in Vy. destruct Vy as [Cy Ly].
    pose proof (rank_lt_inf prec emax prec_gt_1 prec_lt_emax _ _ Cy Ly).
    pose proof (rank_pos prec emax prec_gt_1 prec_lt_emax _ _ Cy ltac:(lia)).
    destruct sx, sy; cbn [cond_Zopp] in E; lia.
  - apply (bounded_cell prec emax prec_gt_1 prec_lt_emax) in Vx. destruct Vx as [Cx Lx].
    pose proof (rank_lt_inf prec emax prec_gt_1 prec_lt_emax _ _ Cx Lx).
    pose proof (rank_pos prec emax prec_gt_1 prec_lt_emax _ _ Cx ltac:(lia)).
    destruct sx, sy; cbn [cond_Zopp] in E; lia.
  - apply (bounded_cell prec emax prec_gt_1 prec_lt_emax) in Vx, Vy.
    destruct Vx as [Cx _], Vy as [Cy _].
    pose proof (rank_pos prec emax prec_gt_1 prec_lt_emax _ _ Cx ltac:(lia)).
    pose proof (rank_pos prec emax prec_gt_1 prec_lt_emax _ _ Cy ltac:(lia)).
    assert (sx = sy) as -> by (destruct sx, sy; cbn [cond_Zopp] in E; try reflexivity; lia).
    assert (rank prec emax (Zpos mx) ex = rank prec emax (Zpos my) ey) as Er
      by (destruct sy; cbn [cond_Zopp] in E; lia).
    assert (ex = ey) as ->.
    { destruct (Z.lt_trichotomy ex ey) as [Hl|[He|Hg]]; [|assumption|].
      - destruct (rank_lt_exp prec emax prec_gt_1 prec_lt_emax _ _ _ _ Cx Cy Hl). lia.
      - destruct (rank_lt_exp prec emax prec_gt_1 prec_lt_emax _ _ _ _ Cy Cx Hg). lia. }
    unfold rank in Er. assert (mx = my) as -> by lia. reflexivity.
Qed.

(** A float between [c] and [c] is [c], zero apart. *)
Lemma In_point_eq x c : In x (mk_itv c c) -> (c =? 0) = false -> x = c.
Proof.
  intros H Hc. apply In_spec in H. simpl in H. destruct H as (Nc & Nx & _ & H1 & H2).
  apply Ford_inj; auto; try lia.
  intros H0. assert ((c =? 0) = true); [|congruence].
  apply eqb_ord. rewrite Ford_zero. repeat split; auto. lia.
Qed.

(** A float that is not finite and not NaN is an infinity. *)
Lemma not_finite_infinity x :
  Fnan x = false -> Ffinite x = false -> x = infinity \/ x = neg_infinity.
Proof.
  unfold Fnan, Ffinite. intros N F.
  destruct (Prim2SF x) as [s|s| |s m e] eqn:E; try discriminate.
  destruct s; [right|left]; apply Prim2SF_inj; rewrite E; reflexivity.
Qed.


(** [interval_of env ienv t]: evaluate [t], a term over the variables [env],
    on the intervals [ienv], and add the enclosure to the context. *)
Ltac interval_of env ienv t :=
  let e := reify env t in
  let r := eval vm_compute in (ieval ienv e) in
  lazymatch r with
  | Some ?I =>
      let H := fresh "Hitv" in
      assert (In t I /\ ok I = true) as H
        by (apply (ieval_sound' env ienv e);
            [ repeat constructor; assumption
            | reflexivity
            | vm_compute; reflexivity ])
  | None => fail "interval_of: no enclosure"
  end.

Lemma In_ltb_lo x i c : In x i -> (c <? lo i) = true -> (c <? x) = true.
Proof.
  intros H Hc. apply In_spec in H. destruct H as (_ & N & _ & H1 & _).
  apply ltb_ord in Hc. destruct Hc as (Nc & _ & Hc).
  apply ltb_ord. repeat split; auto. lia.
Qed.

Lemma In_ltb_hi x i c : In x i -> (hi i <? c) = true -> (x <? c) = true.
Proof.
  intros H Hc. apply In_spec in H. destruct H as (_ & N & _ & _ & H2).
  apply ltb_ord in Hc. destruct Hc as (_ & Nc & Hc).
  apply ltb_ord. repeat split; auto. lia.
Qed.

Lemma In_leb_lo x i c : In x i -> (c <=? lo i) = true -> (c <=? x) = true.
Proof.
  intros H Hc. apply In_spec in H. destruct H as (_ & N & _ & H1 & _).
  apply leb_ord in Hc. destruct Hc as (Nc & _ & Hc).
  apply leb_ord. repeat split; auto. lia.
Qed.

Lemma In_leb_hi x i c : In x i -> (hi i <=? c) = true -> (x <=? c) = true.
Proof.
  intros H Hc. apply In_spec in H. destruct H as (_ & N & _ & _ & H2).
  apply leb_ord in Hc. destruct Hc as (_ & Nc & Hc).
  apply leb_ord. repeat split; auto. lia.
Qed.

(** negative answers *)
Lemma In_not_ltb_lo x i c : In x i -> (c <=? lo i) = true -> (x <? c) = false.
Proof.
  intros H Hc. apply In_spec in H. destruct H as (_ & N & _ & H1 & _).
  apply leb_ord in Hc. destruct Hc as (Nc & _ & Hc).
  destruct (x <? c) eqn:E; [|reflexivity].
  apply ltb_ord in E. destruct E as (_ & _ & E). lia.
Qed.

Lemma In_not_leb_lo x i c : In x i -> (c <? lo i) = true -> (x <=? c) = false.
Proof.
  intros H Hc. apply In_spec in H. destruct H as (_ & N & _ & H1 & _).
  apply ltb_ord in Hc. destruct Hc as (Nc & _ & Hc).
  destruct (x <=? c) eqn:E; [|reflexivity].
  apply leb_ord in E. destruct E as (_ & _ & E). lia.
Qed.

Lemma In_not_ltb_hi x i c : In x i -> (hi i <=? c) = true -> (c <? x) = false.
Proof.
  intros H Hc. apply In_spec in H. destruct H as (_ & N & _ & _ & H2).
  apply leb_ord in Hc. destruct Hc as (_ & Nc & Hc).
  destruct (c <? x) eqn:E; [|reflexivity].
  apply ltb_ord in E. destruct E as (_ & _ & E). lia.
Qed.

Lemma In_not_leb_hi x i c : In x i -> (hi i <? c) = true -> (c <=? x) = false.
Proof.
  intros H Hc. apply In_spec in H. destruct H as (_ & N & _ & _ & H2).
  apply ltb_ord in Hc. destruct Hc as (_ & Nc & Hc).
  destruct (c <=? x) eqn:E; [|reflexivity].
  apply leb_ord in E. destruct E as (_ & _ & E). lia.
Qed.

Lemma In_weaken x i j :
  In x i -> (lo j <=? lo i) = true -> (hi i <=? hi j) = true -> In x j.
Proof.
  intros H H1 H2. apply In_spec in H. destruct H as (_ & N & _ & H3 & H4).
  apply leb_ord in H1, H2. destruct H1 as (N1 & _ & H1), H2 as (_ & N2 & H2).
  apply In_spec. repeat split; auto; lia.
Qed.

Lemma In_of_leb x a b : (a <=? x) = true -> (x <=? b) = true -> In x (mk_itv a b).
Proof. intros H1 H2. unfold In. simpl. now rewrite H1, H2. Qed.

Lemma abs_zero x : (x =? 0) = true -> abs x = 0.
Proof.
  intros H. apply Prim2SF_inj. rewrite abs_spec, Prim2SF_zero.
  rewrite FloatAxioms.eqb_spec, Prim2SF_zero in H.
  destruct (Prim2SF x) as [s|s| |s m e]; try discriminate; try reflexivity.
  - destruct s; discriminate.
  - destruct s; discriminate.
Qed.

Close Scope float_scope.

#[local] Open Scope R_scope.

(** * The error of a rounding *)

Section RoundingError.
Variables prec emax : Z.
Hypothesis Hprec : (1 < prec)%Z.
Hypothesis Hemax : (prec < emax)%Z.
Set Default Proof Using "Hprec Hemax".

#[local] Abbreviation emin := (SpecFloat.emin prec emax).
#[local] Abbreviation cell := (cell prec emax).
#[local] Abbreviation pack := (pack prec emax).
#[local] Abbreviation Rnd := (Rnd prec emax).
#[local] Abbreviation Rnd_pos := (Rnd_pos prec emax).

Lemma SF2R_pack s m M e :
cell m e -> (m <= M <= m + 1)%Z -> SFis_finite (pack s M e) = true ->
SF2R (pack s M e) = F2R (cond_Zopp s M) e.
Proof.
intros ((H0 & H1) & H2 & H3) HM. unfold Format.pack.
pose proof (pow2_prec prec emax Hprec Hemax) as HP2.
pose proof (pow2_pos (prec - 1) ltac:(lia)) as HP.
destruct (Z.ltb_spec M (2 ^ prec)) as [Hlt|Hge].
- destruct M as [|p|p]; [| |lia].
  + intros _. simpl. destruct s; simpl; now rewrite F2R_0.
  + destruct (e <=? emax - prec)%Z; [|discriminate]. reflexivity.
- assert (M = 2 * 2 ^ (prec - 1))%Z as -> by lia.
  rewrite Z.mul_comm, Z.div_mul by lia.
  destruct (2 ^ (prec - 1))%Z as [|p|p] eqn:EP; [lia| |lia].
  destruct (e + 1 <=? emax - prec)%Z; [|discriminate]. intros _.
  cbn [SF2R]. destruct s; cbn [cond_Zopp].
  + change (Z.neg p) with (- Zpos p)%Z.
    replace (- (Z.pos p * 2))%Z with (2 * - Zpos p)%Z by lia.
    now rewrite F2R_double.
  + replace (Z.pos p * 2)%Z with (2 * Zpos p)%Z by lia.
    now rewrite F2R_double.
Qed.

(** A finite rounding of [x] is within one unit of the cell of [x]; the unit
  is at most [2^(1-prec) * x] unless [x] is below the least normal number. *)
Lemma Rnd_pos_error x s f :
Rnd_pos x s f -> SFis_finite f = true ->
exists u : R,
  Rabs (SF2R f - (if s then - x else x)) <= u
  /\ (u <= bpow (1 - prec) * x \/ (u = bpow emin /\ x < bpow (emin + prec - 1))).
Proof.
intros (m & e & l & Hc & Hi & ->) F.
pose proof (rne_bounds m l) as HM.
rewrite (SF2R_pack s m _ e Hc HM F).
pose proof (inb_bounds _ _ _ _ Hi) as [B1 B2].
rewrite F2R_succ in B2.
exists (bpow e). split.
- assert (F2R m e <= F2R (round_nearest_even m l) e <= F2R m e + bpow e) as [B3 B4].
  { split; [apply F2R_le; lia|]. rewrite <- F2R_succ. apply F2R_le; lia. }
  destruct s; cbn [cond_Zopp]; rewrite ?F2R_opp; apply Rabs_le; lra.
- destruct Hc as ((H0 & H1) & H2 & H3).
  destruct (Z_lt_le_dec m (2 ^ (prec - 1))) as [Hsub|Hnorm].
  + right. rewrite (H3 Hsub) in *. split; [reflexivity|].
    assert (F2R (m + 1) emin <= F2R (2 ^ (prec - 1)) emin) by (apply F2R_le; lia).
    rewrite F2R_succ, F2R_bpow in H by lia.
    replace (emin + (prec - 1))%Z with (emin + prec - 1)%Z in H by lia. lra.
  + left. assert (F2R (2 ^ (prec - 1)) e <= F2R m e) by (apply F2R_le; lia).
    rewrite F2R_bpow in H by lia.
    replace (bpow e) with (bpow (1 - prec) * bpow (e + (prec - 1))).
    * pose proof (bpow_gt_0 (1 - prec)). nra.
    * rewrite <- bpow_plus. f_equal. lia.
Qed.

Lemma Rnd_error x f :
Rnd x f -> SFis_finite f = true ->
Rabs (SF2R f - x) <= bpow (1 - prec) * Rabs x + bpow emin.
Proof.
intros [s H] F.
pose proof (Rnd_pos_nonneg prec emax Hprec Hemax _ _ _ H) as N.
destruct (Rnd_pos_error _ _ _ H F) as (u & E & B).
pose proof (bpow_gt_0 (1 - prec)). pose proof (bpow_gt_0 emin).
assert (Rabs x = if s then - x else x) as A.
{ destruct s; [rewrite Rabs_left1; lra|rewrite Rabs_pos_eq; lra]. }
assert (SF2R f - (if s then - (if s then - x else x) else (if s then - x else x))
        = SF2R f - x) as E'.
{ destruct s; lra. }
rewrite E' in E. rewrite A. destruct B as [B|[B _]]; nra.
Qed.

Lemma Rnd_error_rel x f :
Rnd x f -> SFis_finite f = true -> bpow (emin + prec - 1) <= Rabs x ->
Rabs (SF2R f - x) <= bpow (1 - prec) * Rabs x.
Proof.
intros [s H] F L.
pose proof (Rnd_pos_nonneg prec emax Hprec Hemax _ _ _ H) as N.
destruct (Rnd_pos_error _ _ _ H F) as (u & E & B).
assert (Rabs x = if s then - x else x) as A.
{ destruct s; [rewrite Rabs_left1; lra|rewrite Rabs_pos_eq; lra]. }
assert (SF2R f - (if s then - (if s then - x else x) else (if s then - x else x))
        = SF2R f - x) as E'.
{ destruct s; lra. }
rewrite E' in E. rewrite A in *. destruct B as [B|[_ B]]; lra.
Qed.

End RoundingError.
Unset Default Proof Using.


(** * The gap between two numbers of the format *)

Section Gap.
Variables prec emax : Z.
Hypothesis Hprec : (1 < prec)%Z.
Hypothesis Hemax : (prec < emax)%Z.
Set Default Proof Using "Hprec Hemax".

#[local] Abbreviation emin := (SpecFloat.emin prec emax).
#[local] Abbreviation cell := (cell prec emax).

Lemma cell_gap mx ex my ey :
cell mx ex -> cell my ey -> (0 < mx)%Z -> (0 <= my)%Z ->
F2R mx ex <> F2R my ey ->
bpow (- prec) * F2R mx ex <= Rabs (F2R mx ex - F2R my ey).
Proof.
intros ((X0 & X1) & X2 & X3) ((Y0 & Y1) & Y2 & Y3) Hmx Hmy Hne.
pose proof (pow2_prec prec emax Hprec Hemax) as HP2.
pose proof (pow2_pos (prec - 1) ltac:(lia)) as HP.
assert (Hscale : forall k e, bpow (- prec) * F2R (k * 2 ^ prec) e = F2R k e).
{ intros k e. rewrite F2R_shift by lia. unfold F2R.
  rewrite Rmult_comm, Rmult_assoc, <- bpow_plus. do 2 f_equal. lia. }
destruct (Z_le_gt_dec ex ey) as [Hle|Hgt].
- (* the other number is on a coarser or equal grid *)
  set (d := (ey - ex)%Z).
  assert (F2R my ey = F2R (my * 2 ^ d) ex) as E.
  { rewrite F2R_shift by (unfold d; lia). f_equal. unfold d. lia. }
  rewrite E in *.
  assert (F2R mx ex - F2R (my * 2 ^ d) ex = F2R (mx - my * 2 ^ d) ex) as ->.
  { replace (mx - my * 2 ^ d)%Z with (mx + - (my * 2 ^ d))%Z by lia.
    rewrite F2R_plus, F2R_opp. lra. }
  assert (mx - my * 2 ^ d <> 0)%Z as Hk.
  { intros H0. apply Hne. f_equal. lia. }
  assert (bpow (- prec) * F2R mx ex <= F2R 1 ex) as B.
  { rewrite <- (Hscale 1%Z ex). pose proof (bpow_gt_0 (- prec)).
    assert (F2R mx ex <= F2R (1 * 2 ^ prec) ex) by (apply F2R_le; lia). nra. }
  assert (0 <= F2R 1 ex) as B0 by (apply F2R_ge_0; lia).
  destruct (Z_lt_le_dec 0 (mx - my * 2 ^ d)) as [Hpos|Hneg].
  + assert (F2R 1 ex <= F2R (mx - my * 2 ^ d) ex) by (apply F2R_le; lia).
    rewrite Rabs_pos_eq; lra.
  + assert (F2R (mx - my * 2 ^ d) ex <= F2R (- 1) ex) by (apply F2R_le; lia).
    change (-1)%Z with (- (1))%Z in H. rewrite F2R_opp in H. rewrite Rabs_left1; lra.
- (* the other number is on a finer grid: it is smaller *)
  set (d := (ex - ey)%Z).
  assert (1 <= d)%Z as Hd by (unfold d; lia).
  assert (F2R mx ex = F2R (mx * 2 ^ d) ey) as E.
  { rewrite F2R_shift by lia. f_equal. unfold d. lia. }
  rewrite E in *.
  assert (2 ^ (prec - 1) <= mx)%Z as Hnorm.
  { destruct (Z_lt_le_dec mx (2 ^ (prec - 1))) as [Hs|]; [|assumption].
    specialize (X3 Hs). lia. }
  assert (2 <= 2 ^ d)%Z as H2d.
  { change 2%Z with (2 ^ 1)%Z at 1. apply Z.pow_le_mono_r; lia. }
  assert (2 ^ prec <= mx * 2 ^ d)%Z as HN by nia.
  set (N := (mx * 2 ^ d)%Z) in *.
  assert (F2R N ey - F2R my ey = F2R (N - my) ey) as ->.
  { replace (N - my)%Z with (N + - my)%Z by lia.
    rewrite F2R_plus, F2R_opp. lra. }
  assert (0 <= F2R (N - my) ey) by (apply F2R_ge_0; lia).
  rewrite Rabs_pos_eq by assumption.
  rewrite <- (Hscale (N - my)%Z ey).
  pose proof (bpow_gt_0 (- prec)).
  assert (F2R N ey <= F2R ((N - my) * 2 ^ prec) ey) by (apply F2R_le; nia).
  nra.
Qed.

Lemma SF_gap x y :
SpecFloat.valid_binary prec emax x = true ->
SpecFloat.valid_binary prec emax y = true ->
SFis_finite x = true -> SFis_finite y = true ->
0 < SF2R x -> SF2R x <> SF2R y ->
bpow (- prec) * SF2R x <= Rabs (SF2R x - SF2R y).
Proof.
intros Vx Vy Fx Fy Hx Hne.
destruct x as [sx|sx| |sx mx ex]; try discriminate; [simpl in Hx; lra|].
simpl in Vx. apply (bounded_cell prec emax Hprec Hemax) in Vx. destruct Vx as [Cx _].
assert (0 < F2R (Zpos mx) ex) as Px.
{ unfold F2R. pose proof (bpow_gt_0 ex).
  assert (0 < IZR (Zpos mx)) by (apply IZR_lt; lia). nra. }
destruct sx; cbn [SF2R cond_Zopp] in *.
{ change (Z.neg mx) with (- Zpos mx)%Z in Hx. rewrite F2R_opp in Hx. lra. }
pose proof (bpow_gt_0 (- prec)) as Hb.
assert (bpow (- prec) < 1) as Hb1.
{ rewrite <- bpow_0. apply bpow_lt. lia. }
destruct y as [sy|sy| |sy my ey]; try discriminate.
- cbn [SF2R] in *. rewrite Rminus_0_r, Rabs_pos_eq by lra. nra.
- simpl in Vy. apply (bounded_cell prec emax Hprec Hemax) in Vy. destruct Vy as [Cy _].
  assert (0 < F2R (Zpos my) ey) as Py.
  { unfold F2R. pose proof (bpow_gt_0 ey).
    assert (0 < IZR (Zpos my)) by (apply IZR_lt; lia). nra. }
  destruct sy; cbn [SF2R cond_Zopp] in *.
  + change (Z.neg my) with (- Zpos my)%Z. rewrite F2R_opp.
    rewrite Rabs_pos_eq by lra. nra.
  + apply cell_gap; auto; lia.
Qed.

End Gap.
Unset Default Proof Using.


(** * Binary64: errors and gaps *)

Lemma Rnd64_error r x :
  Rnd64 r x -> Ffinite x = true ->
  Rabs (B2R x - r) <= bpow (-52) * Rabs r + bpow (-1074).
Proof.
  intros H F. exact (Rnd_error prec emax prec_gt_1 prec_lt_emax r _ H F).
Qed.

Lemma Rnd64_error_rel r x :
  Rnd64 r x -> Ffinite x = true -> bpow (-1022) <= Rabs r ->
  Rabs (B2R x - r) <= bpow (-52) * Rabs r.
Proof.
  intros H F L. exact (Rnd_error_rel prec emax prec_gt_1 prec_lt_emax r _ H F L).
Qed.

Lemma Rnd64_between r x a b :
  Rnd64 r x -> Ffinite a = true -> Ffinite b = true ->
  B2R a <= r <= B2R b ->
  Ffinite x = true /\ B2R a <= B2R x <= B2R b.
Proof.
  intros H Fa Fb [Ha Hb].
  pose proof (Rnd64_mono _ _ _ _ (Rnd64_id a Fa) H Ha) as L.
  pose proof (Rnd64_mono _ _ _ _ H (Rnd64_id b Fb) Hb) as U.
  assert (Ffinite x = true) as F.
  { apply Ffinite_ord. split; [exact (Rnd64_not_nan _ _ H)|].
    apply Ffinite_ord in Fa, Fb. lia. }
  split; [exact F|]. split; apply ord_le_B2R; assumption.
Qed.

Lemma Rnd64_exact x y : Rnd64 (B2R y) x -> Ffinite y = true -> B2R x = B2R y.
Proof.
  intros H F. destruct (Rnd64_between _ _ y y H F F) as [_ B]; lra.
Qed.

Lemma float_gap x y :
  Ffinite x = true -> Ffinite y = true -> 0 < B2R x -> B2R x <> B2R y ->
  bpow (-53) * B2R x <= Rabs (B2R x - B2R y).
Proof.
  intros Fx Fy Hx Hne.
  exact (SF_gap prec emax prec_gt_1 prec_lt_emax _ _
           (Prim2SF_valid x) (Prim2SF_valid y) Fx Fy Hx Hne).
Qed.

Lemma B2R_eq_ord x y :
  Ffinite x = true -> Ffinite y = true -> B2R x = B2R y -> Ford x = Ford y.
Proof.
  intros Fx Fy E.
  pose proof (B2R_le_ord x y Fx Fy ltac:(lra)).
  pose proof (B2R_le_ord y x Fy Fx ltac:(lra)). lia.
Qed.

Lemma ord_eq_B2R x y :
  Ffinite x = true -> Ffinite y = true -> Ford x = Ford y -> B2R x = B2R y.
Proof.
  intros Fx Fy E.
  pose proof (ord_le_B2R x y Fx Fy ltac:(lia)).
  pose proof (ord_le_B2R y x Fy Fx ltac:(lia)). lra.
Qed.

Close Scope R_scope.

#[local] Open Scope float_scope.

(** * A relative distance below one half unit in the last place *)

Lemma ltb_abs_sub_finite x y r :
  (abs (x - y) <? r) = true -> Ffinite x = true /\ Ffinite y = true.
Proof.
  rewrite FloatAxioms.ltb_spec, abs_spec, sub_spec. unfold Ffinite.
  destruct (Prim2SF x) as [sx|sx| |sx mx ex], (Prim2SF y) as [sy|sy| |sy my ey];
    try (intros _; split; reflexivity);
    destruct (Prim2SF r) as [sr|sr| |sr mr er];
    try destruct sx; try destruct sy; try destruct sr; try discriminate.
Qed.

Lemma B2R_half_ulp_1 : B2R half_ulp_1 = bpow (-53).
Proof.
  unfold B2R. replace (Prim2SF half_ulp_1) with (S754_finite false 4503599627370496 (-105))
    by (vm_compute; reflexivity).
  cbn [SF2R cond_Zopp].
  change (Z.pos 4503599627370496) with (2 ^ 52)%Z.
  rewrite F2R_bpow by lia. reflexivity.
Qed.

Lemma cache_test_eq (mc mcold : float) :
  (abs (mc - mcold) <? 1.11e-16 * mc) = true -> mc = mcold.
Proof.
  intros H.
  destruct (ltb_abs_sub_finite _ _ _ H) as [Fx Fy].
  apply ltb_ord in H. destruct H as (N1 & N2 & H).
  rewrite abs_Ford in H.
  assert (Fc : Ffinite 1.11e-16 = true) by reflexivity.
  assert (Fc' : Ffinite (opp 1.11e-16) = true) by reflexivity.
  pose proof (mul_Rnd64 _ _ Fc Fx) as Rp.
  pose proof (mul_Rnd64 _ _ Fc' Fx) as Rn.
  rewrite mul_opp_l in Rn.
  pose proof (sub_Rnd64 _ _ Fx Fy) as Rd.
  assert (Hc : (0 < B2R 1.11e-16 < bpow (-53))%R).
  { split.
    - apply ltb_0_B2R; [exact Fc|reflexivity].
    - rewrite <- B2R_half_ulp_1. apply ord_lt_B2R; [exact Fc|reflexivity|].
      vm_compute. reflexivity. }
  rewrite opp_B2R in Rn.
  (* the product is positive, hence so is mc *)
  assert (Hx : (0 < B2R mc)%R).
  { destruct (Rlt_le_dec 0 (B2R mc)) as [|Hle]; [assumption|exfalso].
    assert (Rnd64 0 0) as R0 by (rewrite <- B2R_zero; apply Rnd64_id; reflexivity).
    pose proof (Rnd64_mono _ _ _ _ Rp R0 ltac:(nra)) as M.
    rewrite Ford_zero in M. lia. }
  assert (E : B2R mc = B2R mcold).
  { destruct (Req_dec (B2R mc) (B2R mcold)) as [|Hne]; [assumption|exfalso].
    pose proof (float_gap mc mcold Fx Fy Hx Hne) as G.
    destruct (Rle_lt_dec 0 (B2R mc - B2R mcold)) as [Hp|Hn].
    - rewrite Rabs_pos_eq in G by assumption.
      pose proof (Rnd64_mono _ _ _ _ Rp Rd ltac:(nra)) as M. lia.
    - rewrite Rabs_left in G by assumption.
      pose proof (Rnd64_mono _ _ _ _ Rd Rn ltac:(nra)) as M.
      rewrite opp_Ford in M. lia. }
  apply Ford_inj.
  - now apply Ffinite_not_nan.
  - now apply Ffinite_not_nan.
  - now apply B2R_eq_ord.
  - intros Z0. rewrite <- Ford_zero in Z0.
    apply ord_eq_B2R in Z0; [|assumption|reflexivity]. rewrite B2R_zero in Z0. lra.
Qed.

Close Scope float_scope.

#[local] Open Scope R_scope.

(** * Roundings in the range of the normal numbers *)

Lemma Rabs_le_inv x y : Rabs x <= y -> - y <= x <= y.
Proof. unfold Rabs. destruct (Rcase_abs x); lra. Qed.

Lemma bpow_opp n : bpow (- n) = / bpow n.
Proof.
  pose proof (bpow_gt_0 n) as H.
  apply Rmult_eq_reg_r with (bpow n); [|lra].
  rewrite <- bpow_plus. replace (- n + n)%Z with 0%Z by lia.
  rewrite bpow_0. field. lra.
Qed.

Lemma bpow_m52 : bpow (-52) = / 4503599627370496.
Proof. change (-52)%Z with (Z.opp 52). rewrite (bpow_opp 52), bpow_IZR by lia. reflexivity. Qed.

Lemma bpow_m49 : bpow (-49) = 8 * bpow (-52).
Proof.
  replace (-49)%Z with (3 + -52)%Z by lia. rewrite bpow_plus.
  rewrite (bpow_IZR 3) by lia. reflexivity.
Qed.

Lemma bpow_m24 : bpow (-24) = / 16777216.
Proof. change (-24)%Z with (Z.opp 24). rewrite (bpow_opp 24), bpow_IZR by lia. reflexivity. Qed.

Lemma B2R_finite_pow2 x (m : positive) (e k : Z) :
  Prim2SF x = S754_finite false m e -> Zpos m = (2 ^ k)%Z -> (0 <= k)%Z ->
  B2R x = bpow (e + k).
Proof.
  intros E Hm Hk. unfold B2R. rewrite E. cbn [SF2R cond_Zopp].
  rewrite Hm. now apply F2R_bpow.
Qed.

Lemma B2R_one : B2R 1%float = 1.
Proof.
  rewrite (B2R_finite_pow2 1%float 4503599627370496 (-52) 52); try reflexivity; try lia.
Qed.

Lemma B2R_two_600 : B2R two_600 = bpow 600.
Proof.
  now rewrite (B2R_finite_pow2 two_600 4503599627370496 548 52); try reflexivity; try lia.
Qed.

Lemma B2R_two_m24 : B2R two_m24 = bpow (-24).
Proof.
  now rewrite (B2R_finite_pow2 two_m24 4503599627370496 (-76) 52); try reflexivity; try lia.
Qed.

Lemma B2R_min_double : B2R min_double = bpow (-1074).
Proof.
  now rewrite (B2R_finite_pow2 min_double 1 (-1074) 0); try reflexivity; try lia.
Qed.

(** A positive number of the format is at least the least one. *)
Lemma B2R_pos_ge_min x : Ffinite x = true -> 0 < B2R x -> bpow (-1074) <= B2R x.
Proof.
  intros F H. rewrite <- B2R_min_double.
  apply ord_le_B2R; [reflexivity|exact F|].
  rewrite <- B2R_zero in H. apply B2R_lt_ord in H; [|reflexivity|exact F].
  rewrite Ford_zero in H.
  replace (Ford min_double) with 1%Z by (vm_compute; reflexivity). lia.
Qed.

(** The rounding of a real number between [2^-1022] and [2^600] is finite,
    with a relative error of at most [2^-52]. *)
Lemma Rnd64_normal r x :
  Rnd64 r x -> bpow (-1022) <= r <= bpow 600 ->
  Ffinite x = true
  /\ r * (1 - bpow (-52)) <= B2R x <= r * (1 + bpow (-52)).
Proof.
  intros H [L U].
  pose proof (bpow_gt_0 (-1022)) as P.
  destruct (Rnd64_between r x 0%float two_600 H) as [F _];
    [reflexivity|reflexivity|rewrite B2R_zero, B2R_two_600; lra|].
  split; [exact F|].
  pose proof (Rnd64_error_rel r x H F) as E.
  rewrite (Rabs_pos_eq r) in E by lra.
  specialize (E L). apply Rabs_le_inv in E. lra.
Qed.

(** With the error of the subnormal range, for a real number of either
    sign. *)
Lemma Rnd64_bounded r x :
  Rnd64 r x -> Rabs r <= bpow 600 ->
  Ffinite x = true
  /\ Rabs (B2R x) <= Rabs r * (1 + bpow (-52)) + bpow (-1074).
Proof.
  intros H U.
  apply Rabs_le_inv in U.
  destruct (Rnd64_between r x (- two_600)%float two_600 H) as [F _];
    [reflexivity|reflexivity|rewrite opp_B2R, B2R_two_600; lra|].
  split; [exact F|].
  pose proof (Rnd64_error r x H F) as E.
  pose proof (Rabs_triang (B2R x - r) r) as T.
  replace (B2R x - r + r) with (B2R x) in T by lra. lra.
Qed.

(** * The arithmetic-geometric mean: one step on the ratio *)

(** With [c0] below the value at [t] of [4 R / (1 + R)^2], which increases
    on [t, 1 + d]. *)
Lemma agm_ratio t c0 d K M :
  0 < M -> 0 <= d -> 0 < t <= 1 -> t * M <= K <= (1 + d) * M ->
  0 <= c0 -> c0 * (3 + d + t) <= 4 -> c0 * (1 + t) ^ 2 <= 4 * t ->
  c0 * (K + M) ^ 2 <= 4 * (K * M).
Proof.
  intros HM Hd Ht [HK1 HK2] Hc H1 H2.
  assert (4 * (K * M) - c0 * (K + M) ^ 2
          = c0 * ((K - t * M) * ((1 + d) * M - K))
            + (4 - c0 * (3 + d + t)) * ((K - t * M) * M)
            + (4 * t - c0 * (1 + t) ^ 2) * (M * M)) as E by ring.
  assert (0 <= c0 * ((K - t * M) * ((1 + d) * M - K))).
  { apply Rmult_le_pos; [lra|]. apply Rmult_le_pos; lra. }
  assert (0 <= (4 - c0 * (3 + d + t)) * ((K - t * M) * M)).
  { apply Rmult_le_pos; [lra|]. apply Rmult_le_pos; lra. }
  assert (0 <= (4 * t - c0 * (1 + t) ^ 2) * (M * M)).
  { apply Rmult_le_pos; [lra|]. apply Rmult_le_pos; lra. }
  lra.
Qed.

Lemma square_le_reg a b : 0 <= b -> a ^ 2 <= b ^ 2 -> a <= b.
Proof. intros Hb H. destruct (Rle_lt_dec a b) as [|Hlt]; [assumption|]. nra. Qed.

(** numeric facts on the unit roundoff *)
Lemma roundoff_1 u : 0 < u <= / 1000000 -> (1 + u) ^ 3 <= (1 + 8 * u) * (1 - u).
Proof. intros H. nra. Qed.

Lemma roundoff_2 u : 0 < u <= / 1000000 -> (1 + u) ^ 2 <= (1 - u) ^ 5 * (1 + 8 * u).
Proof.
  intros H.
  assert (1 - 5 * u <= (1 - u) ^ 5).
  { assert (0 <= u ^ 2) by apply pow2_ge_0.
    assert (0 <= u ^ 2 * (10 - 10 * u + 5 * u ^ 2 - u ^ 3)) by (apply Rmult_le_pos; nra).
    assert ((1 - u) ^ 5 = 1 - 5 * u + u ^ 2 * (10 - 10 * u + 5 * u ^ 2 - u ^ 3)) by ring.
    lra. }
  assert ((1 - 5 * u) * (1 + 8 * u) <= (1 - u) ^ 5 * (1 + 8 * u)).
  { apply Rmult_le_compat_r; lra. }
  nra.
Qed.

(** the geometric mean is below the arithmetic mean *)
Lemma sqrt_mean u K M E s :
  0 < u <= / 1000000 -> 0 < K -> 0 < M -> E <= (1 + u) * (K * M) ->
  0 <= s -> s ^ 2 = E -> s <= (K + M) / 2 * (1 + u).
Proof.
  intros Hu HK HM HE Hs Hs2.
  apply square_le_reg; [nra|]. rewrite Hs2.
  assert (4 * (K * M) <= (K + M) ^ 2).
  { assert ((K + M) ^ 2 - 4 * (K * M) = (K - M) ^ 2) by ring.
    pose proof (pow2_ge_0 (K - M)). lra. }
  assert (0 < K * M) by (apply Rmult_lt_0_compat; assumption).
  assert ((1 + u) * (K * M) <= (1 + u) ^ 2 * (K * M)).
  { apply Rmult_le_compat_r; [lra|]. nra. }
  replace (((K + M) / 2 * (1 + u)) ^ 2) with ((1 + u) ^ 2 * ((K + M) ^ 2 / 4)) by field.
  assert ((1 + u) ^ 2 * (K * M) <= (1 + u) ^ 2 * ((K + M) ^ 2 / 4)).
  { apply Rmult_le_compat_l; [apply pow2_ge_0|lra]. }
  lra.
Qed.

Lemma ratio_above u K M s S K' M' :
  0 < u <= / 1000000 -> 0 < K -> 0 < M ->
  0 <= s -> s <= (K + M) / 2 * (1 + u) ->
  S <= s * (1 + u) -> K' <= (S + S) * (1 + u) ->
  (K + M) * (1 - u) <= M' ->
  K' <= (K + M) * (1 + u) ^ 3 /\ K' <= (1 + 8 * u) * M'.
Proof.
  intros Hu HK HM Hs Hs1 HS HK' HM'.
  assert (A : K' <= (K + M) * (1 + u) ^ 3).
  { assert (S * (1 + u) <= s * (1 + u) * (1 + u)) by (apply Rmult_le_compat_r; lra).
    assert (s * ((1 + u) * (1 + u)) <= (K + M) / 2 * (1 + u) * ((1 + u) * (1 + u)))
      by (apply Rmult_le_compat_r; [nra|lra]).
    replace ((K + M) * (1 + u) ^ 3) with (2 * ((K + M) / 2 * (1 + u) * ((1 + u) * (1 + u)))) by field.
    lra. }
  split; [exact A|].
  pose proof (roundoff_1 u Hu) as R1.
  assert ((K + M) * (1 + u) ^ 3 <= (K + M) * ((1 + 8 * u) * (1 - u)))
    by (apply Rmult_le_compat_l; lra).
  assert ((1 + 8 * u) * ((K + M) * (1 - u)) <= (1 + 8 * u) * M')
    by (apply Rmult_le_compat_l; lra).
  lra.
Qed.

Lemma ratio_below u t t' K M E s S K' M' :
  0 < u <= / 1000000 -> 0 < t <= 1 -> 0 < t' <= 1 -> 0 < M ->
  t * M <= K <= (1 + 8 * u) * M ->
  (1 - u) * (K * M) <= E ->
  0 <= s -> s ^ 2 = E ->
  s * (1 - u) <= S -> (S + S) * (1 - u) <= K' ->
  M' <= (K + M) * (1 + u) ->
  t' ^ 2 * (1 + 8 * u) * (3 + 8 * u + t) <= 4 ->
  t' ^ 2 * (1 + 8 * u) * (1 + t) ^ 2 <= 4 * t ->
  t' * M' <= K' /\ s <= K'.
Proof.
  intros Hu Ht Ht' HM HK HE Hs Hs2 HS HK' HM' G1 G2.
  assert (HKpos : 0 < K) by nra.
  assert (Hc0 : t' ^ 2 * (1 + 8 * u) * (K + M) ^ 2 <= 4 * (K * M)).
  { apply (agm_ratio t _ (8 * u)); try lra.
    apply Rmult_le_pos; [apply pow2_ge_0|lra]. }
  pose proof (roundoff_2 u Hu) as Hnum.
  assert (Hlow : 2 * s * (1 - u) ^ 2 <= K').
  { assert (s * (1 - u) * (1 - u) <= S * (1 - u)) by (apply Rmult_le_compat_r; lra).
    replace (2 * s * (1 - u) ^ 2) with (2 * (s * (1 - u) * (1 - u))) by ring. lra. }
  assert (Hsq : (t' * ((K + M) * (1 + u))) ^ 2 <= (2 * s * (1 - u) ^ 2) ^ 2).
  { replace ((2 * s * (1 - u) ^ 2) ^ 2) with (4 * ((1 - u) ^ 4 * s ^ 2)) by ring.
    rewrite Hs2.
    replace ((t' * ((K + M) * (1 + u))) ^ 2)
      with (t' ^ 2 * (K + M) ^ 2 * (1 + u) ^ 2) by ring.
    assert (P1 : 0 <= t' ^ 2 * (K + M) ^ 2) by (apply Rmult_le_pos; apply pow2_ge_0).
    assert (P2 : t' ^ 2 * (K + M) ^ 2 * (1 + u) ^ 2
              <= t' ^ 2 * (K + M) ^ 2 * ((1 - u) ^ 5 * (1 + 8 * u)))
      by (apply Rmult_le_compat_l; assumption).
    assert (P3 : 0 <= (1 - u) ^ 5) by (apply pow_le; lra).
    assert (P4 : (1 - u) ^ 5 * (t' ^ 2 * (1 + 8 * u) * (K + M) ^ 2)
              <= (1 - u) ^ 5 * (4 * (K * M))) by (apply Rmult_le_compat_l; assumption).
    assert (P5 : 0 <= (1 - u) ^ 4) by (apply pow_le; lra).
    assert (P6 : (1 - u) ^ 4 * ((1 - u) * (K * M)) <= (1 - u) ^ 4 * E)
      by (apply Rmult_le_compat_l; lra).
    replace (t' ^ 2 * (K + M) ^ 2 * ((1 - u) ^ 5 * (1 + 8 * u)))
      with ((1 - u) ^ 5 * (t' ^ 2 * (1 + 8 * u) * (K + M) ^ 2)) in P2 by ring.
    replace ((1 - u) ^ 5 * (4 * (K * M))) with (4 * ((1 - u) ^ 4 * ((1 - u) * (K * M)))) in P4 by ring.
    lra. }
  assert (P7 : 0 <= (1 - u) ^ 2) by apply pow2_ge_0.
  assert (P8 : 0 <= 2 * s * (1 - u) ^ 2).
  { apply Rmult_le_pos; [lra|assumption]. }
  apply square_le_reg in Hsq; [|assumption].
  split.
  - assert (t' * M' <= t' * ((K + M) * (1 + u))) by (apply Rmult_le_compat_l; lra).
    lra.
  - assert (1 <= 2 * (1 - u) ^ 2) by nra.
    assert (s * 1 <= s * (2 * (1 - u) ^ 2)) by (apply Rmult_le_compat_l; lra).
    lra.
Qed.

(** A number within a relative error [u] of [x], in linear form. *)
Lemma scale_bounds x y u :
  0 <= x -> 0 < u <= / 1000000 -> x * (1 - u) <= y <= x * (1 + u) ->
  x - x / 1000000 <= y <= x + x / 1000000.
Proof.
  intros Hx Hu [H1 H2].
  assert (x * u <= x * / 1000000) by (apply Rmult_le_compat_l; lra).
  assert (0 <= x * u) by (apply Rmult_le_pos; lra).
  lra.
Qed.

Lemma bpow_600_ge : 4096 * (bpow 100 * bpow 100) <= bpow 600.
Proof.
  replace 4096 with (bpow 12) by (rewrite (bpow_IZR 12) by lia; reflexivity).
  rewrite <- !bpow_plus. apply bpow_le. lia.
Qed.

Lemma bpow_100_ge_1 : 1 <= bpow 100.
Proof. apply bpow_ge_1. lia. Qed.

(** Bounds in the form the roundings need them. *)
Lemma in_range_sum x c :
  1 <= x -> x <= c * bpow 100 -> 0 <= c <= 64 -> bpow (-1022) <= x <= bpow 600.
Proof.
  intros H1 H2 Hc.
  pose proof bpow_600_ge. pose proof bpow_100_ge_1.
  assert (bpow (-1022) <= 1) by (rewrite <- bpow_0; apply bpow_le; lia).
  assert (bpow 100 * 1 <= bpow 100 * bpow 100) by (apply Rmult_le_compat_l; lra).
  assert (c * bpow 100 <= 64 * bpow 100) by (apply Rmult_le_compat_r; lra).
  lra.
Qed.

Lemma in_range_small x c :
  bpow (-537) <= x -> x <= c * bpow 100 -> 0 <= c <= 64 ->
  bpow (-1022) <= x <= bpow 600.
Proof.
  intros H1 H2 Hc.
  pose proof bpow_600_ge. pose proof bpow_100_ge_1.
  assert (bpow (-1022) <= bpow (-537)) by (apply bpow_le; lia).
  assert (bpow 100 * 1 <= bpow 100 * bpow 100) by (apply Rmult_le_compat_l; lra).
  assert (c * bpow 100 <= 64 * bpow 100) by (apply Rmult_le_compat_r; lra).
  lra.
Qed.

Lemma in_range_product x y :
  bpow (-537) <= x -> x <= 64 * bpow 100 -> 1 <= y -> y <= 64 * bpow 100 ->
  bpow (-1022) <= x * y <= bpow 600.
Proof.
  intros H1 H2 H3 H4.
  pose proof bpow_600_ge. pose proof bpow_100_ge_1.
  pose proof (bpow_gt_0 (-537)).
  assert (bpow (-1022) <= bpow (-537)) by (apply bpow_le; lia).
  assert (x * 1 <= x * y) by (apply Rmult_le_compat_l; lra).
  assert (x * y <= (64 * bpow 100) * (64 * bpow 100))
    by (apply Rmult_le_compat; lra).
  lra.
Qed.

Close Scope R_scope.

(** * The properties *)

#[local] Open Scope float_scope.


(** * BulirschCel: the case kc = 0 *)

Lemma eqb_0_abs x : (abs x =? 0) = (x =? 0).
Proof.
  rewrite !FloatAxioms.eqb_spec, abs_spec, Prim2SF_zero.
  destruct (Prim2SF x) as [s|s| |s m e]; try reflexivity; destruct s; reflexivity.
Qed.

Lemma BulirschCel_proceed_abs fuel kc nc a b :
  BulirschCel_proceed fuel (abs kc) nc a b = BulirschCel_proceed fuel kc nc a b.
Proof. unfold BulirschCel_proceed. rewrite abs_abs. reflexivity. Qed.

(** C1: for [kc = 0] and [b <> 0], [BulirschCel] logs and returns a quiet NaN,
    whatever the fuel (it returns: there is no other way out of the
    function); for [kc = 0] and [b = 0] it is [BulirschCel] at
    [kc = 1e-14]; for any other [kc] it is the computation on [|kc|]. *)
Theorem BulirschCel_kc_cases (fuel : nat) (kc nc a b : float) :
  ((kc =? 0) = true -> (b =? 0) = false ->
     BulirschCel fuel kc nc a b
     = Some {| cel_value := quiet_NaN; cel_logged := true |}) /\
  ((kc =? 0) = true -> (b =? 0) = true ->
     BulirschCel fuel kc nc a b = BulirschCel fuel Cel.kc_nearly_0 nc a b) /\
  ((kc =? 0) = false ->
     BulirschCel fuel kc nc a b = BulirschCel fuel (abs kc) nc a b /\
     BulirschCel fuel kc nc a b
     = option_map (fun v => {| cel_value := v; cel_logged := false |})
                  (BulirschCel_proceed fuel (abs kc) nc a b)).
Proof.
  unfold BulirschCel. split; [|split].
  - intros -> ->. reflexivity.
  - intros -> ->. reflexivity.
  - intros H. rewrite eqb_0_abs, H, BulirschCel_proceed_abs. split; reflexivity.
Qed.

Lemma BulirschCel_kc_cases_witness :
  BulirschCel 100 0 0.5 1 1 = Some {| cel_value := quiet_NaN; cel_logged := true |} /\
  BulirschCel 100 0 0.5 1 0 = BulirschCel 100 Cel.kc_nearly_0 0.5 1 0 /\
  BulirschCel 100 (-0.25) 0.5 1 1 = BulirschCel 100 (abs (-0.25)) 0.5 1 1.
Proof.
  split; [|split].
  - exact (proj1 (BulirschCel_kc_cases 100 0 0.5 1 1) eq_refl eq_refl).
  - exact (proj1 (proj2 (BulirschCel_kc_cases 100 0 0.5 1 0)) eq_refl eq_refl).
  - exact (proj1 (proj2 (proj2 (BulirschCel_kc_cases 100 (-0.25) 0.5 1 1)) eq_refl)).
Defined.

(** * FukushimaT *)

Lemma FukushimaT_by_branch X t h :
  FukushimaT X t h
  = T_branch_value X (FukushimaT_branch (- h * t * t)) t h (- h * t * t).
Proof.
  unfold FukushimaT, FukushimaT_branch.
  repeat match goal with
         | |- context [if ?c then _ else _] => destruct c
         end; reflexivity.
Qed.

(** C5, as the code has it: the value of [FukushimaT] is the value of the branch the
    cascade selects; below the tenth threshold, 3.4416203e-02, the branch is
    the series selected by the first threshold that exceeds [|z|]; from
    there on a negative [z] takes the closed form with [atan]; any other
    [z] takes the series of degree 10, 11 or 12 by the first of the last
    three thresholds that exceeds [|z|], and the closed form with [atanh]
    when none does. *)
Theorem FukushimaT_dispatch (X : Externals) (t h : float) :
  let z := - h * t * t in
  FukushimaT X t h = T_branch_value X (FukushimaT_branch z) t h z /\
  FukushimaT_branch z =
    match first_exceeding (firstn 10 FukushimaT_thresholds) (abs z) with
    | Some k => Maclaurin_branch k
    | None =>
        if z <? 0 then T_atan
        else
          match first_exceeding (skipn 10 FukushimaT_thresholds) (abs z) with
          | Some k => T_Maclaurin (10 + k)
          | None => T_atanh
          end
    end.
Proof.
  intros z. split; [apply FukushimaT_by_branch|].
  unfold FukushimaT_branch, FukushimaT_thresholds.
  cbn [firstn skipn first_exceeding].
  repeat match goal with
         | |- context [if ?c then _ else _] => destruct c; cbn [option_map Maclaurin_branch Nat.add]
         end; reflexivity.
Qed.

(** C5, as stated, fails: at [t = 1], [h = 0.04] the first threshold that
    exceeds [|z|] is the eleventh, 4.7138547e-02, which selects the series
    of degree 10, and the cascade returns the closed form with [atan]. *)
Lemma FukushimaT_dispatch_counterexample :
  first_exceeding FukushimaT_thresholds (abs (- 0.04 * 1 * 1)) = Some 10%nat /\
  FukushimaT_branch (- 0.04 * 1 * 1) = T_atan /\
  FukushimaT_branch (- 0.04 * 1 * 1) <> Maclaurin_branch 10.
Proof. repeat split; try reflexivity. discriminate. Qed.

(** C10: [FukushimaT] is odd in its first argument, for an [atan] and an
    [atanh] that are odd themselves. *)
Theorem FukushimaT_odd (X : Externals)
    (atan_odd : forall x, ext_atan X (- x) = - ext_atan X x)
    (atanh_odd : forall x, ext_atanh X (- x) = - ext_atanh X x)
    (t h : float) :
  FukushimaT X (- t) h = - FukushimaT X t h.
Proof.
  rewrite !FukushimaT_by_branch.
  assert (- h * - t * - t = - h * t * t) as ->.
  { rewrite (mul_opp_r (- h) t), mul_opp_l, mul_opp_r. apply opp_involutive. }
  destruct (FukushimaT_branch (- h * t * t)); cbn [T_branch_value].
  - reflexivity.
  - apply mul_opp_l.
  - rewrite mul_opp_r, atan_odd. apply div_opp_l.
  - rewrite mul_opp_r, atanh_odd. apply div_opp_l.
Qed.

Lemma FukushimaT_odd_witness :
  FukushimaT sample_externals (opp 0.5) 0.25 = - FukushimaT sample_externals 0.5 0.25.
Proof.
  apply (FukushimaT_odd sample_externals); intros x; reflexivity.
Defined.


(** * Gscd: parity *)

Lemma Scd2_finish_at_0 m :
  In m (mk_itv 0 1) -> Scd2_finish m 1 0 = (0, 1, 1).
Proof.
  intros Hm. unfold Scd2_finish.
  replace (0 / 1) with 0 by reflexivity.
  replace (0 * (2.0 - 0)) with 0 by reflexivity.
  replace (1.0 - 0) with 1 by reflexivity.
  interval_of (m :: nil) (mk_itv 0 1 :: nil) (1.0 - m * 0).
  destruct Hitv as [Hitv _].
  apply In_point_eq in Hitv; [|reflexivity].
  rewrite Hitv. reflexivity.
Qed.

Lemma Scd2_at_0 mc : In mc (mk_itv 0 1) -> Scd2 0 mc = (0, 1, 1).
Proof.
  intros Hmc. unfold Scd2.
  cbv beta iota zeta delta [scd2_constants.B10 scd2_constants.B11
    scd2_constants.B20 scd2_constants.B21 scd2_constants.B22].
  set (m := 1.0 - mc).
  assert (Hm : In m (mk_itv 0 1)).
  { subst m. interval_of (mc :: nil) (mk_itv 0 1 :: nil) (1.0 - mc).
    exact (proj1 Hitv). }
  clearbody m.
  assert (HuT : (0 <? 5.217e-3 - m * 2.143e-3) = true).
  { interval_of (m :: nil) (mk_itv 0 1 :: nil) (5.217e-3 - m * 2.143e-3).
    eapply In_ltb_lo; [exact (proj1 Hitv)|reflexivity]. }
  cbn [Scd2_halve]. rewrite HuT.
  replace (0 * 0) with 0 by reflexivity.
  assert (Hb : 0.5 - 0 * (1.0 / 24.0 + m * (1.0 / 6.0)
                 - 0 * (1.0 / 720.0 + m * (11.0 / 180.0 + m * (1.0 / 45.0)))) = 0.5).
  { interval_of (m :: nil) (mk_itv 0 1 :: nil)
      (0.5 - 0 * (1.0 / 24.0 + m * (1.0 / 6.0)
                 - 0 * (1.0 / 720.0 + m * (11.0 / 180.0 + m * (1.0 / 45.0))))).
    destruct Hitv as [Hitv _].
    apply In_point_eq in Hitv; [exact Hitv|reflexivity]. }
  rewrite Hb.
  replace (0 * 0.5) with 0 by reflexivity.
  cbn [Scd2_duplicate Scd2_duplicate_or_switch].
  rewrite Scd2_finish_at_0 by exact Hm.
  destruct (0 <? 1.76269 + mc * 1.16357); reflexivity.
Qed.

Lemma Fnan_nan u : Fnan u = true -> u = nan.
Proof.
  unfold Fnan. intros H. apply Prim2SF_inj.
  destruct (Prim2SF u); try discriminate. reflexivity.
Qed.

Lemma div_nan_l y : nan / y = nan.
Proof.
  apply Prim2SF_inj. rewrite div_spec. reflexivity.
Qed.

Lemma Gscd_nan (X : Externals) st mc : Gscd X st nan mc = None.
Proof.
  unfold Gscd. replace (abs nan <? 0.785) with false by reflexivity.
  destruct (elk X st mc) as [k st1].
  unfold Gscd_octants. rewrite div_nan_l. reflexivity.
Qed.

(** C4: parity of [Gscd].  For [mc] in [0, 1], when [Gscd(u, mc)] yields
    [(s, c, d)], [Gscd(-u, mc)] yields [(s', c, d)] with the same [c], the
    same [d] and the same saved variables of [elk]; [s'] is the binary64
    opposite of [s] when [u] is not a zero, and for [u] a zero [s] and [s']
    are both the zero, which is its own opposite as a real number.  The
    computation depends on [u] only through [abs u] and the final test
    [u < 0]. *)
Theorem Gscd_parity (X : Externals) (st st' : elk_saved) (u mc s c d : float) :
  In mc (mk_itv 0 1) ->
  Gscd X st u mc = Some (s, c, d, st') ->
  exists s', Gscd X st (- u) mc = Some (s', c, d, st')
             /\ ((u =? 0) = false -> s' = - s)
             /\ ((u =? 0) = true -> s = 0 /\ s' = 0).
Proof.
  intros Hmc.
  destruct (Fnan u) eqn:Hu.
  { rewrite (Fnan_nan u Hu), Gscd_nan. discriminate. }
  unfold Gscd. rewrite abs_opp.
  destruct (u =? 0) eqn:E0.
  - (* u is a zero: both calls are Scd2 0 mc *)
    rewrite (abs_zero u E0).
    replace (0 <? 0.785) with true by reflexivity.
    rewrite (Scd2_at_0 mc Hmc).
    rewrite (ltb_0_zero u E0).
    assert (E0' : (- u =? 0) = true) by (rewrite eqb_0_opp; exact E0).
    rewrite (ltb_0_zero (- u) E0').
    intros H. injection H as <- <- <- <-.
    exists 0. repeat split; try reflexivity. discriminate.
  - rewrite (ltb_0_opp u Hu E0).
    destruct (if abs u <? 0.785 then _ else _) as [[[[s0 c0] d0] st0]|];
      [|discriminate].
    destruct (u <? 0); cbn [negb]; intros H; injection H as <- <- <- <-.
    + exists s0. rewrite opp_involutive. repeat split; discriminate.
    + exists (- s0). repeat split; discriminate.
Qed.

Lemma Gscd_parity_witness :
  exists s', Gscd sample_externals elk_saved_sample (opp 0.5) 1
             = Some (s', 0.87758256189037265, 1, elk_saved_sample)
             /\ ((0.5 =? 0) = false -> s' = opp 0.47942553860420306)
             /\ ((0.5 =? 0) = true -> 0.47942553860420306 = 0 /\ s' = 0).
Proof.
  apply (Gscd_parity sample_externals elk_saved_sample elk_saved_sample 0.5 1);
    reflexivity.
Defined.


(** * The sine entry at s₀ = 0 *)

Lemma one_minus_unit mc : In mc (mk_itv 0 1) -> In (1.0 - mc) (mk_itv 0 1).
Proof.
  intros Hmc. interval_of (mc :: nil) (mk_itv 0 1 :: nil) (1.0 - mc).
  exact (proj1 Hitv).
Qed.

Lemma BsDsMaclaurinSeries_at_0 m :
  In m (mk_itv 0 1) ->
  FukushimaEllipticBsDsMaclaurinSeries 0 m = (1, 1.0 / 3.0).
Proof.
  intros Hm.
  cbv beta iota zeta delta [BsDsMaclaurin.FukushimaEllipticBsDsMaclaurinSeries].
  f_equal.
  - lazymatch goal with |- ?t = _ =>
      interval_of (m :: nil) (mk_itv 0 1 :: nil) t end.
    destruct Hitv as [Hitv _].
    apply In_point_eq in Hitv; [exact Hitv|reflexivity].
  - lazymatch goal with |- ?t = _ =>
      interval_of (m :: nil) (mk_itv 0 1 :: nil) t end.
    destruct Hitv as [Hitv _].
    apply In_point_eq in Hitv; [exact Hitv|reflexivity].
Qed.

Lemma JsMaclaurinSeries_at_0 n m :
  In n (mk_itv 0 1) -> In m (mk_itv 0 1) ->
  FukushimaEllipticJsMaclaurinSeries 0 n m = 0.
Proof.
  intros Hn Hm.
  unfold JsMaclaurin.FukushimaEllipticJsMaclaurinSeries.
  replace (0 <=? 6.0369310e-04) with true by reflexivity.
  cbv beta iota zeta.
  lazymatch goal with |- 0 * ?t = _ =>
      interval_of (n :: m :: nil) (mk_itv 0 1 :: mk_itv 0 1 :: nil) t end.
  destruct Hitv as [Hitv _].
  apply In_point_eq in Hitv; [|reflexivity].
  rewrite Hitv. reflexivity.
Qed.

(** C9: for [n] and [mc] in [0, 1], [FukushimaEllipticBsDsJs(0, n, mc)]
    returns exactly [(0, 0, 0)]: the half argument transformation makes no
    trip, and each output is a product by [s[0] = 0]. *)
Theorem FukushimaEllipticBsDsJs_at_0 (X : Externals) (n mc : float) :
  In n (mk_itv 0 1) -> In mc (mk_itv 0 1) ->
  FukushimaEllipticBsDsJs X 0 n mc = Some (0, 0, 0).
Proof.
  intros Hn Hmc. unfold FukushimaEllipticBsDsJs.
  pose proof (one_minus_unit mc Hmc) as Hm.
  set (m := 1.0 - mc) in *. clearbody m.
  replace (0 * 0) with 0 by reflexivity.
  unfold max_transformations. cbn [half_argument_transformation_of_s].
  replace (yB <=? 0) with false by reflexivity.
  cbv beta iota zeta.
  rewrite (BsDsMaclaurinSeries_at_0 m Hm).
  rewrite (JsMaclaurinSeries_at_0 n m Hn Hm).
  reflexivity.
Qed.

Lemma FukushimaEllipticBsDsJs_at_0_witness :
  FukushimaEllipticBsDsJs sample_externals 0 0.25 0.5 = Some (0, 0, 0).
Proof.
  apply (FukushimaEllipticBsDsJs_at_0 sample_externals 0.25 0.5); reflexivity.
Defined.


(** * EllipticK: the two ends of the cascade *)

Lemma finite_ge_min x : Ffinite x = true -> (- max_double <=? x) = true.
Proof.
  intros F. apply Ffinite_ord in F. destruct F as [N F].
  apply leb_ord. repeat split; auto.
  replace (Ford (- max_double)) with (- ord_inf prec emax + 1)%Z by (vm_compute; reflexivity).
  lia.
Qed.

Lemma finite_le_max x : Ffinite x = true -> (x <=? max_double) = true.
Proof.
  intros F. apply Ffinite_ord in F. destruct F as [N F].
  apply leb_ord. repeat split; auto.
  replace (Ford max_double) with (ord_inf prec emax - 1)%Z by (vm_compute; reflexivity).
  lia.
Qed.

Lemma In_not_abs_ltb x i c : In x i -> (c <=? lo i) = true -> (abs x <? c) = false.
Proof.
  intros H Hc. apply In_spec in H. destruct H as (_ & N & _ & H1 & _).
  apply leb_ord in Hc. destruct Hc as (Nc & _ & Hc).
  destruct (abs x <? c) eqn:E; [|reflexivity].
  apply ltb_ord in E. destruct E as (_ & _ & E). rewrite abs_Ford in E. lia.
Qed.

Lemma EllipticK_not_near_1 mc :
  (mc <? 1.11e-16) = true -> (abs (1.0 - mc) <? 1.0e-16) = false.
Proof.
  intros H.
  destruct (Ffinite mc) eqn:F.
  - assert (Hmc : In mc (mk_itv (- max_double) 1.11e-16)).
    { apply In_of_leb; [apply finite_ge_min; exact F|].
      apply ltb_ord in H. apply leb_ord. destruct H as (A & B & C).
      repeat split; auto. lia. }
    interval_of (mc :: nil) (mk_itv (- max_double) 1.11e-16 :: nil) (1.0 - mc).
    eapply In_not_abs_ltb; [exact (proj1 Hitv)|reflexivity].
  - pose proof H as H'. apply ltb_ord in H'. destruct H' as (N & _).
    destruct (not_finite_infinity mc N F) as [-> | ->].
    + discriminate H.
    + reflexivity.
Qed.

(** C3: [EllipticK(mc)] is [π/2] whenever [|1 - mc| < 1e-16], in particular
    at [mc = 1]; for [mc] below [1.11e-16] it is the closed form
    [1.3862943611198906 - 0.5 * log(mc)], with [mc] replaced by [1e-99] when
    it is below [1e-99]. *)
Theorem EllipticK_ends (X : Externals) (mc : float) :
  ((abs (1.0 - mc) <? 1.0e-16) = true -> EllipticK X mc = π / 2)
  /\ EllipticK X 1.0 = π / 2
  /\ ((mc <? 1.11e-16) = true ->
      EllipticK X mc
      = 1.3862943611198906 - 0.5 * ext_log X (if mc <? 1.0e-99 then 1.0e-99 else mc)).
Proof.
  split; [|split].
  - intros H. unfold EllipticK. rewrite H. reflexivity.
  - reflexivity.
  - intros H. unfold EllipticK. rewrite (EllipticK_not_near_1 mc H), H.
    unfold TINY. destruct (mc <? 1.0e-99); reflexivity.
Qed.

Lemma EllipticK_ends_witness :
  EllipticK sample_externals 1.0 = π / 2
  /\ EllipticK sample_externals 1.0e-20
     = 1.3862943611198906 - 0.5 * ext_log sample_externals 1.0e-20
  /\ EllipticK sample_externals 1.0e-120
     = 1.3862943611198906 - 0.5 * ext_log sample_externals 1.0e-99.
Proof.
  split; [|split].
  - exact (proj1 (EllipticK_ends sample_externals 1.0) eq_refl).
  - exact (proj2 (proj2 (EllipticK_ends sample_externals 1.0e-20)) eq_refl).
  - exact (proj2 (proj2 (EllipticK_ends sample_externals 1.0e-120)) eq_refl).
Defined.


(** * The incomplete integrals at the quarter turn *)





Lemma pos_ge_min x : (0 <? x) = true -> (min_double <=? x) = true.
Proof.
  intros H. apply ltb_ord in H. destruct H as (_ & N & H).
  apply leb_ord. repeat split; auto.
  replace (Ford min_double) with 1%Z by (vm_compute; reflexivity).
  replace (Ford 0) with 0%Z in H by (vm_compute; reflexivity). lia.
Qed.







(** * elk: the saved variables *)

Section elk_state.
Variable X : Externals.

Lemma elk_initialise_first st :
  elk_first st = true -> elk_initialise X st = elk_saved_initialised X.
Proof. intros H. unfold elk_saved_initialised, elk_initialise. rewrite H. reflexivity. Qed.

Lemma elk_initialise_settled st :
  elk_first st = false -> elk_initialise X st = st.
Proof. intros H. unfold elk_initialise. rewrite H. reflexivity. Qed.

Lemma elk_value_settled st mc :
  elk_settled X st -> elk_value X st mc = elk_value X (elk_saved_initialised X) mc.
Proof.
  destruct st as [f mcold PH PI eo T]. unfold elk_settled.
  cbn [elk_first elk_mcold elk_PIHALF elk_PIINV elk_elkold elk_TINY].
  intros (-> & -> & -> & -> & ->).
  unfold elk_value at 1.
  cbn [elk_first elk_mcold elk_PIHALF elk_PIINV elk_elkold elk_TINY].
  cbv zeta.
  destruct (abs (1.0 - mc) <? 1.0e-16) eqn:B1.
  { unfold elk_value. cbv zeta. rewrite B1. reflexivity. }
  destruct (abs (mc - mcold) <? 1.11e-16 * mc) eqn:B2.
  { apply cache_test_eq in B2. subst mcold. reflexivity. }
  unfold elk_value. cbv zeta. rewrite B1.
  destruct (abs (mc - elk_mcold (elk_saved_initialised X)) <? 1.11e-16 * mc) eqn:B3.
  { apply cache_test_eq in B3. subst mc.
    cbv in B1. discriminate B1. }
  reflexivity.
Qed.

Lemma elk_saved_initialised_settled : elk_settled X (elk_saved_initialised X).
Proof.
  unfold elk_settled. split; [reflexivity|]. split; [reflexivity|].
  split; [reflexivity|]. split; [reflexivity|].
  unfold elk_value. cbv zeta.
  replace (elk_mcold (elk_saved_initialised X)) with 1.0 by reflexivity.
  replace (abs (1.0 - 1.0) <? 1.0e-16) with true by reflexivity.
  reflexivity.
Qed.

Lemma elk_settles st mc :
  elk_first st = true \/ elk_settled X st ->
  elk_settled X (snd (elk X st mc))
  /\ fst (elk X st mc) = elk_value X (elk_saved_initialised X) mc.
Proof.
  intros H.
  assert (S1 : elk_settled X (elk_initialise X st)).
  { destruct H as [H|H].
    - rewrite (elk_initialise_first st H). apply elk_saved_initialised_settled.
    - rewrite (elk_initialise_settled st (proj1 H)). exact H. }
  unfold elk. cbv zeta. cbn [fst snd].
  pose proof (elk_value_settled _ mc S1) as V.
  split; [|exact V].
  destruct S1 as (A & B & C & D & E).
  unfold elk_settled.
  cbn [elk_first elk_mcold elk_PIHALF elk_PIINV elk_elkold elk_TINY].
  repeat split; assumption.
Qed.

Lemma elk_calls_settled st mcs :
  elk_first st = true \/ elk_settled X st ->
  elk_first (elk_calls X st mcs) = true \/ elk_settled X (elk_calls X st mcs).
Proof.
  revert st. induction mcs as [|mc mcs IH]; intros st H; [exact H|].
  cbn [elk_calls fold_left]. apply IH. right. apply elk_settles. exact H.
Qed.

End elk_state.

(** C7, as amended: [elk] keeps saved variables from one call to the next,
    but they do not show in the value: whatever calls were made before, from
    the start of the program on ([first] is [.TRUE.]), [elk(mc)] returns the
    value it returns as the first call.  The variables [mcold] and [elkold]
    are read only when [mc] is [mcold], and [elkold] is then the value of
    [elk] at [mc]. *)
Theorem elk_value_independent_of_history
    (X : Externals) (st : elk_saved) (mcs : list float) (mc : float) :
  elk_first st = true ->
  fst (elk X (elk_calls X st mcs) mc) = fst (elk X st mc).
Proof.
  intros H.
  pose proof (elk_calls_settled X st mcs (or_introl H)) as H1.
  rewrite (proj2 (elk_settles X _ mc H1)).
  rewrite (proj2 (elk_settles X _ mc (or_introl H))).
  reflexivity.
Qed.

Lemma elk_value_independent_of_history_witness :
  fst (elk sample_externals
         (elk_calls sample_externals (elk_saved_at_start 0 0 0 0 0) [0.25; 0.5; 0.25]) 0.5)
  = fst (elk sample_externals (elk_saved_at_start 0 0 0 0 0) 0.5).
Proof.
  apply (elk_value_independent_of_history sample_externals); reflexivity.
Defined.

(** C7, as stated, fails: a call of [elk] changes the saved variables
    [mcold] and [elkold], and the next call reads them. *)
Lemma elk_keeps_state_counterexample :
  let st0 := elk_saved_at_start 0 0 0 0 0 in
  let st1 := snd (elk sample_externals st0 0.25) in
  let st2 := snd (elk sample_externals st1 0.5) in
  elk_first st0 = true /\ elk_first st1 = false
  /\ elk_mcold st1 = 0.25 /\ elk_mcold st2 = 0.5
  /\ (elk_elkold st1 =? elk_elkold st2) = false
  /\ (abs (0.5 - elk_mcold st2) <? 1.11e-16 * 0.5) = true
  /\ (abs (0.5 - elk_mcold st1) <? 1.11e-16 * 0.5) = false.
Proof. cbv zeta. repeat split; vm_compute; reflexivity. Qed.

Close Scope float_scope.

#[local] Open Scope R_scope.

(** * Bartky's algorithm leaves its loop *)

Lemma unit_roundoff_small : 0 < bpow (-52) <= / 1000000.
Proof. rewrite bpow_m52. lra. Qed.

Lemma bpow_m537_sqr : bpow (-537) ^ 2 = bpow (-1074).
Proof.
  replace (bpow (-537) ^ 2) with (bpow (-537) * bpow (-537)) by ring.
  rewrite <- bpow_plus. reflexivity.
Qed.

(** One iteration that does not leave keeps the invariant, with the
    ratio above [t']. *)
Lemma Bartky_state_step (t t' B : R) (kc e m : float) :
  0 < t <= 1 -> 0 < t' <= 1 -> B <= bpow 100 ->
  t' ^ 2 * (1 + bpow (-49)) * (3 + bpow (-49) + t) <= 4 ->
  t' ^ 2 * (1 + bpow (-49)) * (1 + t) ^ 2 <= 4 * t ->
  Bartky_state t B kc e m ->
  Bartky_state t' (4 * B)
    (PrimFloat.sqrt e + PrimFloat.sqrt e)%float
    ((PrimFloat.sqrt e + PrimFloat.sqrt e) * (kc + m))%float
    (kc + m)%float.
Proof.
  intros Ht Ht' HB G1 G2 (Fk & Fe & Fm & HM & HK & HE).
  pose proof unit_roundoff_small as Hu. rewrite bpow_m49 in *.
  pose proof bpow_100_ge_1 as H100.
  set (u := bpow (-52)) in *.
  set (K := B2R kc) in *. set (E := B2R e) in *. set (M := B2R m) in *.
  assert (HMpos : 0 < M) by lra.
  assert (HKpos : 0 < K).
  { assert (0 < t * M) by (apply Rmult_lt_0_compat; lra). lra. }
  assert (HKM : 0 < K * M) by (apply Rmult_lt_0_compat; assumption).
  assert (HEpos : 0 < E).
  { assert (0 < (1 - u) * (K * M)) by (apply Rmult_lt_0_compat; lra). lra. }
  assert (HK2 : K <= M + M / 100000).
  { assert (u * M <= / 1000000 * M) by (apply Rmult_le_compat_r; lra). lra. }
  (* m' *)
  pose proof (add_Rnd64 kc m Fk Fm) as Rm. fold K M in Rm.
  destruct (Rnd64_normal _ _ Rm) as [Fm' Em'].
  { apply (in_range_sum _ 3); lra. }
  fold u in Em'.
  destruct (Rnd64_between _ _ 1%float two_600 Rm) as [_ [Lm' _]];
    [reflexivity|reflexivity| |].
  { rewrite B2R_one, B2R_two_600. split; [lra|]. apply (in_range_sum _ 3); lra. }
  rewrite B2R_one in Lm'.
  set (M' := B2R (kc + m)%float) in *.
  assert (HKM0 : 0 <= K + M) by lra.
  destruct (scale_bounds _ _ _ HKM0 Hu Em') as [_ HM'2].
  (* the square root *)
  set (s := R_sqrt.sqrt E).
  assert (Hs2 : s ^ 2 = E).
  { unfold s. simpl. rewrite Rmult_1_r. apply sqrt_sqrt. lra. }
  assert (Hs0 : 0 <= s) by apply sqrt_pos.
  assert (HEmin : bpow (-1074) <= E) by (apply B2R_pos_ge_min; assumption).
  assert (Hslo : bpow (-537) <= s).
  { apply square_le_reg; [exact Hs0|]. rewrite bpow_m537_sqr, Hs2. exact HEmin. }
  assert (Hshi : s <= (K + M) / 2 * (1 + u)).
  { apply (sqrt_mean u K M E); try assumption; lra. }
  assert (Hsb : s <= K + M).
  { assert ((K + M) / 2 * (1 + u) <= (K + M) / 2 * 2) by (apply Rmult_le_compat_l; lra).
    lra. }
  pose proof (sqrt_Rnd64 e Fe ltac:(fold E; lra)) as Rs. fold E s in Rs.
  destruct (Rnd64_normal _ _ Rs) as [Fs Es].
  { apply (in_range_small _ 3); lra. }
  fold u in Es.
  set (S := B2R (PrimFloat.sqrt e)) in *.
  destruct (scale_bounds _ _ _ Hs0 Hu Es) as [HSlo HSb].
  (* kc' *)
  pose proof (add_Rnd64 _ _ Fs Fs) as Rk. fold S in Rk.
  destruct (Rnd64_normal _ _ Rk) as [Fk' Ek'].
  { apply (in_range_small _ 12); lra. }
  fold u in Ek'.
  set (K' := B2R (PrimFloat.sqrt e + PrimFloat.sqrt e)%float) in *.
  destruct (ratio_above u K M s S K' M' Hu HKpos HMpos Hs0 Hshi) as [Ha1 Ha2];
    try lra.
  destruct (ratio_below u t t' K M E s S K' M' Hu Ht Ht' HMpos HK) as [Hb1 Hb2];
    try lra.
  assert (HSS0 : 0 <= S + S) by lra.
  destruct (scale_bounds _ _ _ HSS0 Hu Ek') as [_ HK'b].
  (* e' *)
  pose proof (mul_Rnd64 _ _ Fk' Fm') as Re. fold K' M' in Re.
  destruct (Rnd64_normal _ _ Re) as [Fe' Ee'].
  { apply in_range_product; lra. }
  fold u in Ee'.
  unfold Bartky_state. fold K' M'. rewrite bpow_m49. fold u.
  split; [exact Fk'|]. split; [exact Fe'|]. split; [exact Fm'|].
  split; [split; [exact Lm'|lra]|].
  split; [split; assumption|].
  split.
  - replace ((1 - u) * (K' * M')) with (K' * M' * (1 - u)) by ring. lra.
  - replace ((1 + u) * (K' * M')) with (K' * M' * (1 + u)) by ring. lra.
Qed.

(** With the ratio within [4e-8] of 1, the test of the loop succeeds. *)
Lemma Bartky_state_exit (t B : R) (kc e m : float) :
  24999999 / 25000000 <= t -> B <= bpow 100 ->
  Bartky_state t B kc e m ->
  (abs (m - kc) <=? m * Cel.ca)%float = true.
Proof.
  intros Ht HB (Fk & Fe & Fm & HM & HK & HE).
  pose proof bpow_100_ge_1 as H100.
  rewrite bpow_m49, bpow_m52 in *.
  set (K := B2R kc) in *. set (M := B2R m) in *.
  assert (HtM : 24999999 / 25000000 * M <= t * M) by (apply Rmult_le_compat_r; lra).
  (* the difference *)
  pose proof (sub_Rnd64 m kc Fm Fk) as Rd. fold K M in Rd.
  assert (Hd : Rabs (M - K) <= M / 25000000).
  { apply Rabs_le. lra. }
  destruct (Rnd64_bounded _ _ Rd) as [Fd Ed].
  { pose proof (in_range_sum M 1 ltac:(lra) ltac:(lra) ltac:(lra)). lra. }
  rewrite bpow_m52 in Ed.
  assert (Hsub : bpow (-1074) <= / 4503599627370496).
  { rewrite <- bpow_m52. apply bpow_le. lia. }
  (* the bound *)
  assert (Fca : Ffinite Cel.ca = true) by reflexivity.
  pose proof (mul_Rnd64 m Cel.ca Fm Fca) as Rg. fold M in Rg.
  assert (Hca : / 16777216 <= B2R Cel.ca <= 1).
  { rewrite <- bpow_m24, <- B2R_two_m24, <- B2R_one.
    split; apply ord_le_B2R; try reflexivity; vm_compute; discriminate. }
  assert (Hg1 : M * / 16777216 <= M * B2R Cel.ca) by (apply Rmult_le_compat_l; lra).
  assert (Hg2 : M * B2R Cel.ca <= M * 1) by (apply Rmult_le_compat_l; lra).
  destruct (Rnd64_normal _ _ Rg) as [Fg Eg].
  { assert (bpow (-1022) <= bpow (-24)) by (apply bpow_le; lia).
    rewrite bpow_m24 in *.
    pose proof (in_range_sum M 1 ltac:(lra) ltac:(lra) ltac:(lra)). lra. }
  rewrite bpow_m52 in Eg.
  apply leb_ord.
  split; [rewrite abs_Fnan; now apply Ffinite_not_nan|].
  split; [now apply Ffinite_not_nan|].
  apply B2R_le_ord; [rewrite abs_Ffinite; exact Fd|exact Fg|].
  rewrite abs_B2R. lra.
Qed.

(** The loop leaves at once. *)
Lemma Bartky_leaves_exit (t B : R) :
  24999999 / 25000000 <= t -> B <= bpow 100 -> Bartky_leaves 1 t B.
Proof.
  intros Ht HB fuel kc e m p a b Hf HJ.
  destruct fuel as [|fuel]; [lia|].
  cbn [Bartky]. cbv zeta.
  rewrite (Bartky_state_exit t B kc e m Ht HB HJ).
  eexists. reflexivity.
Qed.

(** The loop leaves after one more iteration. *)
Lemma Bartky_leaves_step (k : nat) (t t' B : R) :
  0 < t <= 1 -> 0 < t' <= 1 -> B <= bpow 100 ->
  t' ^ 2 * (1 + bpow (-49)) * (3 + bpow (-49) + t) <= 4 ->
  t' ^ 2 * (1 + bpow (-49)) * (1 + t) ^ 2 <= 4 * t ->
  Bartky_leaves k t' (4 * B) -> Bartky_leaves (Datatypes.S k) t B.
Proof.
  intros Ht Ht' HB G1 G2 IH fuel kc e m p a b Hf HJ.
  destruct fuel as [|fuel]; [lia|].
  cbn [Bartky]. cbv zeta.
  destruct (abs (m - kc) <=? m * Cel.ca)%float; [eexists; reflexivity|].
  apply IH; [lia|].
  now apply (Bartky_state_step t t' B).
Qed.

Lemma Bartky_leaves_weaken (k : nat) (t1 t2 B : R) :
  t2 <= t1 -> Bartky_leaves k t2 B -> Bartky_leaves k t1 B.
Proof.
  intros Ht H fuel kc e m p a b Hf (Fk & Fe & Fm & HM & HK & HE).
  apply H; [exact Hf|].
  repeat (split; try assumption); try lra.
  assert (t2 * B2R m <= t1 * B2R m) by (apply Rmult_le_compat_r; lra). lra.
Qed.

(** From a ratio of at least [2^-2n] to a ratio of at least [2^-n]. *)
Lemma Bartky_leaves_sqrt (k : nat) (n' n : Z) (B : R) :
  (1 <= n)%Z -> (n' <= 2 * n)%Z -> B <= bpow 100 ->
  Bartky_leaves k (bpow (- n)) (4 * B) ->
  Bartky_leaves (Datatypes.S k) (bpow (- n')) B.
Proof.
  intros Hn Hn' HB IH.
  apply (Bartky_leaves_weaken _ _ (bpow (- (2 * n)))); [apply bpow_le; lia|].
  assert (Ht' : 0 < bpow (- n) <= / 2).
  { split; [apply bpow_gt_0|].
    replace (/ 2) with (bpow (-1)).
    - apply bpow_le. lia.
    - change (-1)%Z with (Z.opp 1). rewrite bpow_opp, bpow_1. reflexivity. }
  assert (Ht : bpow (- (2 * n)) = bpow (- n) ^ 2).
  { replace (- (2 * n))%Z with (- n + - n)%Z by lia. rewrite bpow_plus. ring. }
  rewrite Ht. set (x := bpow (- n)) in *.
  assert (0 < x ^ 2 <= / 4) by nra.
  apply (Bartky_leaves_step k _ x); try lra; try assumption.
  - rewrite bpow_m49, bpow_m52. nra.
  - rewrite bpow_m49, bpow_m52. nra.
Qed.

Lemma small_le_bpow_100 x : x <= 1073741824 -> x <= bpow 100.
Proof.
  intros H. assert (bpow 30 <= bpow 100) by (apply bpow_le; lia).
  rewrite (bpow_IZR 30) in H0 by lia. change (2 ^ 30)%Z with 1073741824%Z in H0. lra.
Qed.

(** From the least positive ratio, [2^-1074], the loop leaves within fifteen
    iterations: the ratio goes through [2^-537], [2^-269], [2^-135], [2^-68],
    [2^-34], [2^-17], [2^-9], [2^-5], [2^-3], [2^-2], [1/2], [47/50],
    [1999/2000] and [1 - 4e-8]. *)
Lemma Bartky_leaves_15 : Bartky_leaves 15 (bpow (-1074)) 1.
Proof.
  apply (Bartky_leaves_sqrt _ 1074 537); [lia|lia|apply small_le_bpow_100; lra|].
  apply (Bartky_leaves_sqrt _ 537 269); [lia|lia|apply small_le_bpow_100; lra|].
  apply (Bartky_leaves_sqrt _ 269 135); [lia|lia|apply small_le_bpow_100; lra|].
  apply (Bartky_leaves_sqrt _ 135 68); [lia|lia|apply small_le_bpow_100; lra|].
  apply (Bartky_leaves_sqrt _ 68 34); [lia|lia|apply small_le_bpow_100; lra|].
  apply (Bartky_leaves_sqrt _ 34 17); [lia|lia|apply small_le_bpow_100; lra|].
  apply (Bartky_leaves_sqrt _ 17 9); [lia|lia|apply small_le_bpow_100; lra|].
  apply (Bartky_leaves_sqrt _ 9 5); [lia|lia|apply small_le_bpow_100; lra|].
  apply (Bartky_leaves_sqrt _ 5 3); [lia|lia|apply small_le_bpow_100; lra|].
  apply (Bartky_leaves_sqrt _ 3 2); [lia|lia|apply small_le_bpow_100; lra|].
  apply (Bartky_leaves_sqrt _ 2 1); [lia|lia|apply small_le_bpow_100; lra|].
  assert (E : bpow (- (1)) = / 2) by (rewrite bpow_opp, bpow_1; reflexivity).
  rewrite E.
  apply (Bartky_leaves_step _ _ (47 / 50));
    [lra|lra|apply small_le_bpow_100; lra
    |rewrite bpow_m49, bpow_m52; lra|rewrite bpow_m49, bpow_m52; lra|].
  apply (Bartky_leaves_step _ _ (1999 / 2000));
    [lra|lra|apply small_le_bpow_100; lra
    |rewrite bpow_m49, bpow_m52; lra|rewrite bpow_m49, bpow_m52; lra|].
  apply (Bartky_leaves_step _ _ (24999999 / 25000000));
    [lra|lra|apply small_le_bpow_100; lra
    |rewrite bpow_m49, bpow_m52; lra|rewrite bpow_m49, bpow_m52; lra|].
  apply Bartky_leaves_exit; [lra|apply small_le_bpow_100; lra].
Qed.

#[local] Open Scope float_scope.

(** The state in which [BulirschCel] enters the loop. *)
Lemma Bartky_state_initial (kc : float) :
  In kc (mk_itv 0 1) -> (kc =? 0) = false ->
  Bartky_state (bpow (-1074)) 1 (abs kc) (abs kc) 1.0.
Proof.
  intros Hkc Hnz.
  assert (F : Ffinite kc = true) by (eapply In_finite; [|exact Hkc]; reflexivity).
  apply In_spec in Hkc. cbn [lo hi] in Hkc. destruct Hkc as (_ & N & _ & L & U).
  rewrite Ford_zero in L.
  assert (Hpos : (0 < Ford kc)%Z).
  { destruct (Z.eq_dec (Ford kc) 0) as [E|]; [|lia].
    assert ((kc =? 0) = true); [|congruence].
    apply eqb_ord. rewrite Ford_zero. auto. }
  assert (HK : (0 < B2R kc <= 1)%R).
  { split.
    - rewrite <- B2R_zero. apply ord_lt_B2R; [reflexivity|exact F|]. now rewrite Ford_zero.
    - rewrite <- B2R_one. apply ord_le_B2R; [exact F|reflexivity|exact U]. }
  pose proof (B2R_pos_ge_min kc F (proj1 HK)) as Hmin.
  pose proof unit_roundoff_small as Hu.
  unfold Bartky_state. rewrite abs_Ffinite, abs_B2R, B2R_one, bpow_m49.
  rewrite Rabs_pos_eq by lra.
  assert (0 <= bpow (-52) * B2R kc)%R by (apply Rmult_le_pos; lra).
  repeat split; try assumption; try reflexivity; try lra.
Qed.

Lemma BulirschCel_proceed_total (fuel : nat) (kc nc a b : float) :
  (15 <= fuel)%nat -> In kc (mk_itv 0 1) -> (kc =? 0) = false ->
  exists v, BulirschCel_proceed fuel kc nc a b = Some v.
Proof.
  intros Hf Hkc Hnz. unfold BulirschCel_proceed. cbv zeta.
  pose proof (Bartky_state_initial kc Hkc Hnz) as HJ.
  destruct (0.0 <? nc); apply (Bartky_leaves_15 fuel); assumption.
Qed.

(** The budget of the model does not show in the value: when the loop has
    left within [fuel] iterations, it has left, with the same value, within
    any larger number. *)
Lemma Bartky_more_fuel (fuel fuel' : nat) (kc e m p a b v : float) :
  (fuel <= fuel')%nat ->
  Bartky fuel kc e m p a b = Some v -> Bartky fuel' kc e m p a b = Some v.
Proof.
  revert fuel' kc e m p a b.
  induction fuel as [|fuel IH]; intros fuel' kc e m p a b Hle; [discriminate|].
  destruct fuel' as [|fuel']; [lia|].
  cbn [Bartky]. cbv zeta.
  destruct (abs (m - kc) <=? m * Cel.ca); [exact (fun H => H)|].
  apply IH. lia.
Qed.

Lemma BulirschCel_more_fuel (fuel fuel' : nat) (kc nc a b : float) (r : cel_result) :
  (fuel <= fuel')%nat ->
  BulirschCel fuel kc nc a b = Some r -> BulirschCel fuel' kc nc a b = Some r.
Proof.
  intros Hle. unfold BulirschCel, BulirschCel_proceed. cbv zeta.
  assert (Hmap : forall x y : option float,
             (forall v, x = Some v -> y = Some v) ->
             option_map (fun v => {| cel_value := v; cel_logged := false |}) x = Some r ->
             option_map (fun v => {| cel_value := v; cel_logged := false |}) y = Some r).
  { intros [v|] y H; [|discriminate]. rewrite (H v eq_refl). exact (fun E => E). }
  destruct (kc =? 0.0); [destruct (b =? 0.0)|];
    try exact (fun H => H);
    apply Hmap; intros v;
    destruct (0.0 <? nc); apply Bartky_more_fuel; exact Hle.
Qed.

Lemma BulirschCel_leaves (kc nc a b : float) :
  In kc (mk_itv 0 1) -> exists r, BulirschCel 15 kc nc a b = Some r.
Proof.
  intros Hkc. unfold BulirschCel.
  destruct (kc =? 0.0) eqn:E0.
  - destruct (b =? 0.0).
    + destruct (BulirschCel_proceed_total 15 Cel.kc_nearly_0 nc a b (le_n _)) as [v Hv];
        [reflexivity|reflexivity|].
      rewrite Hv. eexists. reflexivity.
    + eexists. reflexivity.
  - destruct (BulirschCel_proceed_total 15 kc nc a b (le_n _) Hkc E0) as [v Hv].
    rewrite Hv. eexists. reflexivity.
Qed.

(** C2: on its domain, and whatever [nc], [a] and [b] are, [BulirschCel]
    returns: the loop of Bartky's algorithm leaves within fifteen
    iterations, so that a budget of a hundred iterations, of which the
    source has none, is never reached, and the value is the same under every
    budget of fifteen iterations or more. *)
Theorem BulirschCel_total (fuel : nat) (kc nc a b : float) :
  (15 <= fuel)%nat -> In kc (mk_itv 0 1) ->
  exists r, BulirschCel fuel kc nc a b = Some r
            /\ BulirschCel 15 kc nc a b = Some r.
Proof.
  intros Hf Hkc.
  destruct (BulirschCel_leaves kc nc a b Hkc) as [r Hr].
  exists r. split; [|exact Hr].
  exact (BulirschCel_more_fuel 15 fuel kc nc a b r Hf Hr).
Qed.

Lemma BulirschCel_total_witness :
  exists r, BulirschCel 100 0.5 0.25 1 1 = Some r
            /\ BulirschCel 15 0.5 0.25 1 1 = Some r.
Proof.
  apply (BulirschCel_total 100 0.5 0.25 1 1); [lia|reflexivity].
Defined.

Close Scope R_scope.


(** * The half argument transformations leave their loops *)

(** ** The transformation of [s] *)

Lemma s_leaves_0 (h : float) : (h <? yB) = true -> s_leaves 0 h.
Proof.
  intros Hh budget m yi y s cd _ Hm Hy.
  assert (T : (yB <=? yi) = false).
  { eapply In_not_leb_hi; [exact Hy|exact Hh]. }
  destruct budget; cbn [half_argument_transformation_of_s]; rewrite T;
    eexists; reflexivity.
Qed.

Lemma s_leaves_step (k : nat) (h : float) (I : itv) :
  ieval [mk_itv 0 1; mk_itv 0 h] s_next_expr = Some I ->
  (0 <=? lo I) = true ->
  s_leaves k (hi I) -> s_leaves (Datatypes.S k) h.
Proof.
  intros HI Hlo IH budget m yi y s cd Hk Hm Hy.
  destruct budget as [|budget]; [lia|].
  cbn [half_argument_transformation_of_s].
  destruct (yB <=? yi); [|eexists; reflexivity].
  cbv zeta. apply IH; [lia|exact Hm|].
  assert (Henv : Forall2 In [m; yi] [mk_itv 0 1; mk_itv 0 h])
    by (repeat constructor; assumption).
  destruct (ieval_sound _ _ _ _ Henv HI) as [Hin Hok].
  eapply In_weaken; [exact Hin|exact Hlo|].
  apply leb_ord. apply In_spec in Hin. destruct Hin as (_ & _ & N & _).
  cbn [hi]. repeat split; auto. lia.
Qed.

Ltac s_chain :=
  lazymatch goal with
  | |- s_leaves O _ => apply s_leaves_0; reflexivity
  | |- s_leaves (Datatypes.S _) _ =>
      eapply s_leaves_step;
      [ vm_compute; reflexivity
      | reflexivity
      | cbn [hi]; s_chain ]
  end.

Lemma s_leaves_5 : s_leaves 5 0.94.
Proof. s_chain. Qed.

(** The sine entry returns, from a NaN or from [s₀] in [0, 31/32]. *)
Lemma BsDsJs_returns (X : Externals) (s0 n mc : float) :
  Fnan s0 = true \/ In s0 (mk_itv 0 0.96875) -> In mc (mk_itv 0 1) ->
  exists r, FukushimaEllipticBsDsJs X s0 n mc = Some r.
Proof.
  intros Hs Hmc. unfold FukushimaEllipticBsDsJs. cbv zeta.
  assert (exists r, half_argument_transformation_of_s max_transformations
                      (1.0 - mc) (s0 * s0) [s0 * s0] [s0] [] = Some r) as [r Hr].
  { destruct Hs as [Hs|Hs].
    - rewrite (Fnan_nan s0 Hs). eexists. reflexivity.
    - apply (s_leaves_5 max_transformations).
      + unfold max_transformations. lia.
      + now apply one_minus_unit.
      + interval_of (s0 :: nil) (mk_itv 0 0.96875 :: nil) (s0 * s0).
        eapply In_weaken; [exact (proj1 Hitv)| |]; reflexivity. }
  rewrite Hr. destruct r as [[[yi y] s] cd].
  destruct (FukushimaEllipticBsDsMaclaurinSeries yi (1.0 - mc)).
  eexists. reflexivity.
Qed.

(** ** The transformation of [c] *)

Lemma sqrt_negative (v : float) : (v <? 0) = true -> sqrt v = nan.
Proof.
  intros H. apply Prim2SF_inj. rewrite sqrt_spec.
  rewrite FloatAxioms.ltb_spec, Prim2SF_zero in H.
  destruct (Prim2SF v) as [s|s| |s m e]; try destruct s; try discriminate; reflexivity.
Qed.

Lemma not_leb_ltb (x y : float) :
  Fnan x = false -> Fnan y = false -> (x <=? y) = false -> (y <? x) = true.
Proof.
  intros Nx Ny H. apply ltb_ord. repeat split; auto.
  destruct (Z_lt_le_dec (Ford y) (Ford x)) as [|Hle]; [assumption|].
  assert ((x <=? y) = true) by (apply leb_ord; auto). congruence.
Qed.

(** What [s[i]] is when the loop has left: a NaN or a number in
    [0, 31/32]. *)
Lemma s_after (x : float) :
  (x <=? xS) = false ->
  Fnan (sqrt (1.0 - x)) = true \/ In (sqrt (1.0 - x)) (mk_itv 0 0.96875).
Proof.
  intros Hx.
  destruct (Fnan x) eqn:N.
  { rewrite (Fnan_nan x N). left. reflexivity. }
  destruct (Ffinite x) eqn:F.
  - assert (Hin : In x (mk_itv xS max_double)).
    { apply In_of_leb; [|now apply finite_le_max].
      pose proof (not_leb_ltb x xS N eq_refl Hx) as L.
      apply ltb_ord in L. apply leb_ord. destruct L as (A & B & C).
      repeat split; auto. lia. }
    interval_of (x :: nil) (mk_itv xS max_double :: nil) (1.0 - x).
    destruct Hitv as [Hv _].
    destruct (0 <=? 1.0 - x) eqn:P.
    + right.
      assert (Hv' : In (1.0 - x) (mk_itv 0 0.9)).
      { apply In_of_leb; [exact P|]. eapply In_leb_hi; [exact Hv|reflexivity]. }
      set (v := 1.0 - x) in *. clearbody v.
      interval_of (v :: nil) (mk_itv 0 0.9 :: nil) (sqrt v).
      eapply In_weaken; [exact (proj1 Hitv)| |]; reflexivity.
    + left. rewrite sqrt_negative; [reflexivity|].
      apply not_leb_ltb; [reflexivity| |exact P].
      apply In_spec in Hv. tauto.
  - destruct (not_finite_infinity x N F) as [-> | ->].
    + left. reflexivity.
    + discriminate Hx.
Qed.

Lemma c_exit (budget : nat) (mc m ci xi : float) (y s cd : list float) :
  (xi <=? xS) = false ->
  nth (length cd) s nan = sqrt (1.0 - xi) ->
  c_left (half_argument_transformation_of_c budget mc m ci xi y s cd).
Proof.
  intros T Hn. exists y, s, cd, xi.
  destruct budget; cbn [half_argument_transformation_of_c]; rewrite T; auto.
Qed.

Lemma c_leaves_0 (Imc Im : itv) (l : float) :
  (xS <? l) = true -> c_leaves 0 Imc Im l.
Proof.
  intros Hl budget mc m xi y s cd _ _ _ HP _ Hn.
  apply c_exit; [|exact Hn].
  destruct (xi <=? xS) eqn:T; [|reflexivity].
  specialize (HP eq_refl).
  apply leb_ord in T, HP. apply ltb_ord in Hl.
  destruct T as (_ & _ & T), HP as (_ & _ & HP), Hl as (_ & _ & Hl). lia.
Qed.

Lemma nth_last_app (s cd : list float) (v w : float) :
  length s = Datatypes.S (length cd) ->
  nth (length (cd ++ [w])) (s ++ [v]) nan = v
  /\ length (s ++ [v]) = Datatypes.S (length (cd ++ [w])).
Proof.
  intros H. rewrite !length_app. cbn [length].
  replace (length cd + 1)%nat with (length s) by lia.
  split; [apply nth_middle|lia].
Qed.

Lemma c_leaves_step (k : nat) (Imc Im I : itv) (l : float) :
  ieval [Imc; Im; mk_itv l xS] c_next_sqrt_expr = Some I ->
  c_leaves k Imc Im (lo I) -> c_leaves (Datatypes.S k) Imc Im l.
Proof.
  intros HI IH budget mc m xi y s cd Hk Hmc Hm HP Hlen Hn.
  destruct (xi <=? xS) eqn:T; [|now apply c_exit].
  destruct budget as [|budget]; [lia|].
  cbn [half_argument_transformation_of_c]. rewrite T. cbv zeta.
  assert (Hx : In xi (mk_itv l xS)) by (apply In_of_leb; auto).
  assert (Henv : Forall2 In [mc; m; xi] [Imc; Im; mk_itv l xS])
    by (repeat constructor; assumption).
  destruct (ieval_sound _ _ _ _ Henv HI) as [Hin _].
  cbn [eval c_next_sqrt_expr nth] in Hin.
  destruct (nth_last_app s cd
              (sqrt (1.0 - (sqrt xi + sqrt (mc + m * xi)) / (1.0 + sqrt (mc + m * xi))))
              (sqrt xi * sqrt (mc + m * xi)) Hlen) as [Hn' Hlen'].
  apply IH; try assumption; [lia|].
  intros _. apply In_spec in Hin. apply leb_ord. tauto.
Qed.

(** The first iteration, where [cᵢ] is the [c₀] of the caller. *)
Lemma c_leaves_first (k : nat) (Imc Im Ic I : itv) :
  ieval [Imc; Im; Ic; mk_itv 0 xS] c_next_expr = Some I ->
  c_leaves k Imc Im (lo I) ->
  forall (budget : nat) (mc m ci xi : float) (y s cd : list float),
    (Datatypes.S k <= budget)%nat -> In mc Imc -> In m Im -> In ci Ic ->
    ((xi <=? xS) = true -> (0 <=? xi) = true) ->
    length s = Datatypes.S (length cd) ->
    nth (length cd) s nan = sqrt (1.0 - xi) ->
    c_left (half_argument_transformation_of_c budget mc m ci xi y s cd).
Proof.
  intros HI IH budget mc m ci xi y s cd Hk Hmc Hm Hc HP Hlen Hn.
  destruct (xi <=? xS) eqn:T; [|now apply c_exit].
  destruct budget as [|budget]; [lia|].
  cbn [half_argument_transformation_of_c]. rewrite T. cbv zeta.
  assert (Hx : In xi (mk_itv 0 xS)) by (apply In_of_leb; auto).
  assert (Henv : Forall2 In [mc; m; ci; xi] [Imc; Im; Ic; mk_itv 0 xS])
    by (repeat constructor; assumption).
  destruct (ieval_sound _ _ _ _ Henv HI) as [Hin _].
  cbn [eval c_next_expr nth] in Hin.
  destruct (nth_last_app s cd
              (sqrt (1.0 - (ci + sqrt (mc + m * xi)) / (1.0 + sqrt (mc + m * xi))))
              (ci * sqrt (mc + m * xi)) Hlen) as [Hn' Hlen'].
  apply IH; try assumption; [lia|].
  intros _. apply In_spec in Hin. apply leb_ord. tauto.
Qed.

Ltac c_chain :=
  lazymatch goal with
  | |- c_leaves O _ _ _ => apply c_leaves_0; reflexivity
  | |- c_leaves (Datatypes.S _) _ _ _ =>
      eapply c_leaves_step; [ vm_compute; reflexivity | cbn [lo]; c_chain ]
  end.

(** With [mc] at least one half, the loop leaves after one iteration. *)
Lemma c_leaves_large_mc (budget : nat) (mc m ci xi : float) (y s cd : list float) :
  (1 <= budget)%nat -> In mc (mk_itv 0.5 1) -> In m (mk_itv 0 0.5) ->
  In ci (mk_itv 0 1e17) ->
  ((xi <=? xS) = true -> (0 <=? xi) = true) ->
  length s = Datatypes.S (length cd) ->
  nth (length cd) s nan = sqrt (1.0 - xi) ->
  c_left (half_argument_transformation_of_c budget mc m ci xi y s cd).
Proof.
  eapply (c_leaves_first 0); [vm_compute; reflexivity|cbn [lo]; c_chain].
Qed.

(** With a positive [mc] of at most one half, within nine. *)
Lemma c_leaves_small_mc (budget : nat) (mc m ci xi : float) (y s cd : list float) :
  (9 <= budget)%nat -> In mc (mk_itv min_double 0.5) -> In m (mk_itv 0.5 1) ->
  In ci (mk_itv 0 1e17) ->
  ((xi <=? xS) = true -> (0 <=? xi) = true) ->
  length s = Datatypes.S (length cd) ->
  nth (length cd) s nan = sqrt (1.0 - xi) ->
  c_left (half_argument_transformation_of_c budget mc m ci xi y s cd).
Proof.
  eapply (c_leaves_first 8); [vm_compute; reflexivity|cbn [lo]; c_chain].
Qed.

(** With any [mc] of at most one half and [c₀] a cosine, within seven. *)
Lemma c_leaves_cosine (budget : nat) (mc m ci xi : float) (y s cd : list float) :
  (7 <= budget)%nat -> In mc (mk_itv 0 0.5) -> In m (mk_itv 0.5 1) ->
  In ci (mk_itv cos_min 1) ->
  ((xi <=? xS) = true -> (0 <=? xi) = true) ->
  length s = Datatypes.S (length cd) ->
  nth (length cd) s nan = sqrt (1.0 - xi) ->
  c_left (half_argument_transformation_of_c budget mc m ci xi y s cd).
Proof.
  eapply (c_leaves_first 6); [vm_compute; reflexivity|cbn [lo]; c_chain].
Qed.

Lemma In_bounds (x : float) (i : itv) :
  In x i -> (lo i <=? x) = true /\ (x <=? hi i) = true.
Proof. unfold In. intros H. now apply andb_true_iff in H. Qed.

Lemma ltb_leb (x y : float) : (x <? y) = true -> (x <=? y) = true.
Proof.
  intros H. apply ltb_ord in H. apply leb_ord. destruct H as (A & B & C).
  repeat split; auto. lia.
Qed.

Lemma In_split_half (mc l : float) :
  In mc (mk_itv l 1) -> (0 <=? l) = true ->
  (In mc (mk_itv l 0.5) /\ In (1.0 - mc) (mk_itv 0.5 1))
  \/ (In mc (mk_itv 0.5 1) /\ In (1.0 - mc) (mk_itv 0 0.5)).
Proof.
  intros H Hl. destruct (In_bounds _ _ H) as [L U]. cbn [lo hi] in L, U.
  assert (N : Fnan mc = false) by (apply In_spec in H; tauto).
  destruct (mc <=? 0.5) eqn:T.
  - left. split; [now apply In_of_leb|].
    assert (Hs : In mc (mk_itv 0 0.5)).
    { eapply In_weaken; [apply In_of_leb; [exact L|exact T]|exact Hl|reflexivity]. }
    interval_of (mc :: nil) (mk_itv 0 0.5 :: nil) (1.0 - mc). exact (proj1 Hitv).
  - right.
    assert (Hs : In mc (mk_itv 0.5 1)).
    { apply In_of_leb; [|exact U]. apply ltb_leb. now apply not_leb_ltb. }
    split; [exact Hs|].
    interval_of (mc :: nil) (mk_itv 0.5 1 :: nil) (1.0 - mc). exact (proj1 Hitv).
Qed.

(** The cosine entry returns when its loop leaves. *)
Lemma BcDcJc_from_loop (X : Externals) (c0 n mc : float) :
  In mc (mk_itv 0 1) ->
  c_left (half_argument_transformation_of_c max_transformations mc (1.0 - mc)
            c0 (c0 * c0) [1.0 - c0 * c0] [sqrt (1.0 - c0 * c0)] []) ->
  exists r, FukushimaEllipticBcDcJc X c0 n mc = Some r.
Proof.
  intros Hmc (y & s & cd & x & Hr & Hn & Hx).
  unfold FukushimaEllipticBcDcJc. cbv zeta. rewrite Hr, Hn.
  destruct (BsDsJs_returns X (sqrt (1.0 - x)) n mc (s_after x Hx) Hmc) as [[[b d] j] Hb].
  rewrite Hb. eexists. reflexivity.
Qed.

(** The cosine entry from the cosine of the angle. *)
Lemma BcDcJc_returns_cosine (X : Externals) (c n mc : float) :
  In c (mk_itv cos_min 1) -> In mc (mk_itv 0 1) ->
  exists r, FukushimaEllipticBcDcJc X c n mc = Some r.
Proof.
  intros Hc Hmc. apply BcDcJc_from_loop; [exact Hmc|].
  assert (Hx : (c * c <=? xS) = true -> (0 <=? c * c) = true).
  { intros _. interval_of (c :: nil) (mk_itv cos_min 1 :: nil) (c * c).
    eapply In_leb_lo; [exact (proj1 Hitv)|reflexivity]. }
  destruct (In_split_half mc 0 Hmc eq_refl) as [[H1 H2]|[H1 H2]].
  - apply c_leaves_cosine; auto. unfold max_transformations. lia.
  - apply c_leaves_large_mc; auto; [unfold max_transformations; lia|].
    eapply In_weaken; [exact Hc| |]; reflexivity.
Qed.

(** The cosine entry from any [c₀] up to [1e17], for a positive [mc]. *)
Lemma BcDcJc_returns_positive_mc (X : Externals) (c0 n mc : float) :
  In c0 (mk_itv 0 1e17) -> In mc (mk_itv min_double 1) ->
  exists r, FukushimaEllipticBcDcJc X c0 n mc = Some r.
Proof.
  intros Hc Hmc.
  assert (Hmc' : In mc (mk_itv 0 1)) by (eapply In_weaken; [exact Hmc| |]; reflexivity).
  apply BcDcJc_from_loop; [exact Hmc'|].
  assert (Hx : (c0 * c0 <=? xS) = true -> (0 <=? c0 * c0) = true).
  { intros _. interval_of (c0 :: nil) (mk_itv 0 1e17 :: nil) (c0 * c0).
    eapply In_leb_lo; [exact (proj1 Hitv)|reflexivity]. }
  destruct (In_split_half mc min_double Hmc eq_refl) as [[H1 H2]|[H1 H2]].
  - apply c_leaves_small_mc; auto. unfold max_transformations. lia.
  - apply c_leaves_large_mc; auto. unfold max_transformations. lia.
Qed.

(** ** The argument of the sine entry in the second branch *)

Lemma B2R_eval (x : float) (m : positive) (e : Z) :
  Prim2SF x = S754_finite false m e -> B2R x = (IZR (Zpos m) * bpow e)%R.
Proof. intros E. unfold B2R. rewrite E. reflexivity. Qed.

Lemma bpow_m53 : bpow (-53) = (/ 9007199254740992)%R.
Proof. change (-53)%Z with (Z.opp 53). rewrite (bpow_opp 53), bpow_IZR by lia. reflexivity. Qed.

Lemma B2R_15_16 : B2R 0.9375 = (15 / 16)%R.
Proof.
  rewrite (B2R_eval 0.9375 8444249301319680 (-53)) by reflexivity.
  rewrite bpow_m53. lra.
Qed.

Lemma B2R_31_32 : B2R 0.96875 = (31 / 32)%R.
Proof.
  rewrite (B2R_eval 0.96875 8725724278030336 (-53)) by reflexivity.
  rewrite bpow_m53. lra.
Qed.

Lemma B2R_two : B2R 2 = 2%R.
Proof.
  rewrite (B2R_finite_pow2 2 4503599627370496 (-51) 52); try reflexivity; try lia.
  apply bpow_1.
Qed.

Lemma B2R_two_m54 : B2R two_m54 = bpow (-54).
Proof.
  now rewrite (B2R_finite_pow2 two_m54 4503599627370496 (-106) 52); try reflexivity; try lia.
Qed.

#[local] Open Scope R_scope.

(** On the reals: [C^2 (1 - u) < 15/16 s^2] and [S >= s (1 - u)] give
    [C <= 31/32 S]. *)
Lemma quotient_bound (u C s S : R) :
  0 < u <= / 1000000 -> 0 <= C -> 0 <= s ->
  C ^ 2 * (1 - u) <= 15 / 16 * s ^ 2 -> s * (1 - u) <= S ->
  C <= 31 / 32 * S.
Proof.
  intros Hu HC Hs H1 H2.
  assert (HS : 0 <= S).
  { assert (0 <= s * (1 - u)) by (apply Rmult_le_pos; lra). lra. }
  apply square_le_reg; [lra|].
  assert (A : (s * (1 - u)) ^ 2 <= S ^ 2).
  { apply pow_incr. split; [apply Rmult_le_pos; lra|exact H2]. }
  assert (B : 15 / 16 <= 961 / 1024 * (1 - u) ^ 3) by nra.
  assert (P : 0 <= s ^ 2) by apply pow2_ge_0.
  assert (B' : 15 / 16 * s ^ 2 <= 961 / 1024 * (1 - u) ^ 3 * s ^ 2)
    by (apply Rmult_le_compat_r; assumption).
  assert (E : C ^ 2 * (1 - u) <= (961 / 1024 * (s * (1 - u)) ^ 2) * (1 - u)).
  { replace ((961 / 1024 * (s * (1 - u)) ^ 2) * (1 - u))
      with (961 / 1024 * (1 - u) ^ 3 * s ^ 2) by ring. lra. }
  apply Rmult_le_reg_r in E; [|lra].
  replace ((31 / 32 * S) ^ 2) with (961 / 1024 * S ^ 2) by field.
  lra.
Qed.

#[local] Close Scope R_scope.

Lemma z_bound (c mc : float) :
  In c (mk_itv cos_min 1) -> In mc (mk_itv 0 1) ->
  (c * c <? ys * (mc + (1.0 - mc) * (c * c))) = true ->
  In (c / sqrt (mc + (1.0 - mc) * (c * c))) (mk_itv 0 0.96875).
Proof.
  intros Hc Hmc T.
  assert (Hden : In (mc + (1.0 - mc) * (c * c)) (mk_itv 0 2)).
  { interval_of (mc :: c :: nil) (mk_itv 0 1 :: mk_itv cos_min 1 :: nil)
                (mc + (1.0 - mc) * (c * c)).
    eapply In_weaken; [exact (proj1 Hitv)| |]; reflexivity. }
  set (den := mc + (1.0 - mc) * (c * c)) in *. clearbody den.
  assert (Fden : Ffinite den = true) by (eapply In_finite; [|exact Hden]; reflexivity).
  assert (Fc : Ffinite c = true) by (eapply In_finite; [|exact Hc]; reflexivity).
  pose proof (In_B2R c (mk_itv cos_min 1) eq_refl Hc) as [Cl Cu].
  pose proof (In_B2R den (mk_itv 0 2) eq_refl Hden) as [Dl Du].
  cbn [lo hi] in Cl, Cu, Dl, Du.
  rewrite B2R_one in Cu. rewrite B2R_zero in Dl. rewrite B2R_two in Du.
  assert (Cmin : (bpow (-54) <= B2R cos_min)%R).
  { rewrite <- B2R_two_m54. apply ord_le_B2R; try reflexivity. vm_compute. discriminate. }
  assert (Y : (0 <= B2R ys <= 15 / 16)%R).
  { rewrite <- B2R_15_16, <- B2R_zero.
    split; apply ord_le_B2R; try reflexivity; vm_compute; discriminate. }
  pose proof unit_roundoff_small as Hu.
  pose proof (bpow_gt_0 (-54)) as P54.
  set (u := bpow (-52)) in *.
  set (C := B2R c) in *. set (D := B2R den) in *.
  (* c * c *)
  pose proof (mul_Rnd64 c c Fc Fc) as R2. fold C in R2.
  assert (HCC : (bpow (-108) <= C * C <= 1)%R).
  { replace (bpow (-108)) with (bpow (-54) * bpow (-54))%R
      by (rewrite <- bpow_plus; reflexivity).
    split.
    - apply Rmult_le_compat; lra.
    - replace 1%R with (1 * 1)%R by ring. apply Rmult_le_compat; lra. }
  destruct (Rnd64_normal _ _ R2) as [F2 E2].
  { assert (bpow (-1022) <= bpow (-108))%R by (apply bpow_le; lia).
    assert (1 <= bpow 600)%R by (apply bpow_ge_1; lia). lra. }
  fold u in E2. set (C2 := B2R (c * c)) in *.
  (* the test *)
  pose proof (mul_Rnd64 ys den eq_refl Fden) as Ry. fold D in Ry.
  assert (HT : (C2 < B2R ys * D)%R).
  { destruct (Rlt_le_dec C2 (B2R ys * D)) as [|Hle]; [assumption|exfalso].
    pose proof (Rnd64_mono _ _ _ _ Ry (Rnd64_id _ F2) Hle) as M.
    apply ltb_ord in T. lia. }
  assert (HD1 : (B2R ys * D <= 15 / 16 * D)%R) by (apply Rmult_le_compat_r; lra).
  assert (HC2 : (bpow (-108) * (1 - u) <= C2)%R).
  { assert (bpow (-108) * (1 - u) <= C * C * (1 - u))%R
      by (apply Rmult_le_compat_r; lra). lra. }
  assert (HDlo : (bpow (-110) <= D)%R).
  { replace (bpow (-110)) with (bpow (-108) * / 4)%R.
    - pose proof (bpow_gt_0 (-108)).
      assert (bpow (-108) * / 4 <= bpow (-108) * (1 - u))%R
        by (apply Rmult_le_compat_l; lra). lra.
    - replace (-110)%Z with (-108 + -2)%Z by lia. rewrite bpow_plus.
      f_equal. change (-2)%Z with (Z.opp 2). rewrite bpow_opp, (bpow_IZR 2) by lia.
      reflexivity. }
  (* the square root *)
  set (s := R_sqrt.sqrt D).
  assert (Hs2 : (s ^ 2 = D)%R).
  { unfold s. simpl. rewrite Rmult_1_r. apply sqrt_sqrt. lra. }
  assert (Hs0 : (0 <= s)%R) by apply sqrt_pos.
  assert (Hslo : (bpow (-55) <= s)%R).
  { apply square_le_reg; [exact Hs0|]. rewrite Hs2.
    replace (bpow (-55) ^ 2)%R with (bpow (-110)).
    - exact HDlo.
    - replace (bpow (-55) ^ 2)%R with (bpow (-55) * bpow (-55))%R by ring.
      rewrite <- bpow_plus. reflexivity. }
  assert (Hshi : (s <= 2)%R).
  { apply square_le_reg; [lra|]. rewrite Hs2. lra. }
  pose proof (sqrt_Rnd64 den Fden ltac:(fold D; lra)) as Rs. fold D s in Rs.
  destruct (Rnd64_normal _ _ Rs) as [Fs Es].
  { assert (bpow (-1022) <= bpow (-55))%R by (apply bpow_le; lia).
    assert (2 <= bpow 600)%R.
    { rewrite <- bpow_1. apply bpow_le. lia. }
    lra. }
  fold u in Es. set (S := B2R (sqrt den)) in *.
  pose proof (bpow_gt_0 (-55)) as P55.
  assert (HSpos : (0 < S)%R).
  { assert (0 < s * (1 - u))%R by (apply Rmult_lt_0_compat; lra). lra. }
  (* the quotient *)
  pose proof (div_Rnd64 c (sqrt den) Fc Fs ltac:(fold S; lra)) as Rz. fold C S in Rz.
  assert (HCS : (C <= 31 / 32 * S)%R).
  { apply (quotient_bound u C s S); lra. }
  assert (Hq : (0 <= C / S <= 31 / 32)%R).
  { split.
    - apply Rmult_le_pos; [lra|]. left. now apply Rinv_0_lt_compat.
    - apply Rmult_le_reg_r with S; [exact HSpos|].
      unfold Rdiv. rewrite Rmult_assoc, Rinv_l by lra. lra. }
  destruct (Rnd64_between _ _ 0 0.96875 Rz eq_refl eq_refl) as [Fz [Zl Zu]].
  { rewrite B2R_zero, B2R_31_32. exact Hq. }
  apply In_intro; cbn [lo hi]; try reflexivity.
  - now apply Ffinite_not_nan.
  - apply B2R_le_ord; [reflexivity|exact Fz|exact Zl].
  - apply B2R_le_ord; [exact Fz|reflexivity|exact Zu].
Qed.

(** ** The fourth branch *)

Lemma In_In_ltb (x y : float) (i j : itv) :
  In x i -> In y j -> (hi i <? lo j) = true -> (x <? y) = true.
Proof.
  intros Hx Hy H. apply In_spec in Hx, Hy. apply ltb_ord in H. apply ltb_ord.
  destruct Hx as (_ & Nx & _ & _ & Hx), Hy as (_ & Ny & _ & Hy & _), H as (_ & _ & H).
  repeat split; auto. lia.
Qed.

(** The branch is not taken with [mc = 0]. *)
Lemma fourth_branch_mc (c mc : float) :
  In c (mk_itv cos_min 1) -> In mc (mk_itv 0 1) ->
  (mc * (1.0 - c * c) <? c * c * (mc + (1.0 - mc) * (c * c))) = false ->
  In mc (mk_itv min_double 1).
Proof.
  intros Hc Hmc T. destruct (In_bounds _ _ Hmc) as [L U]. cbn [lo hi] in L, U.
  destruct (0 <? mc) eqn:P.
  - apply In_of_leb; [now apply pos_ge_min|exact U].
  - exfalso.
    assert (Hz : In mc (mk_itv 0 0)).
    { apply In_of_leb; [exact L|]. apply leb_ord in L. apply leb_ord.
      destruct L as (A & B & L). repeat split; auto.
      destruct (Z_le_gt_dec (Ford mc) (Ford 0)) as [|G]; [assumption|].
      assert ((0 <? mc) = true) by (apply ltb_ord; repeat split; auto; lia).
      congruence. }
    interval_of (mc :: c :: nil) (mk_itv 0 0 :: mk_itv cos_min 1 :: nil)
                (mc * (1.0 - c * c)).
    destruct Hitv as [H1 _].
    interval_of (mc :: c :: nil) (mk_itv 0 0 :: mk_itv cos_min 1 :: nil)
                (c * c * (mc + (1.0 - mc) * (c * c))).
    destruct Hitv as [H2 _].
    rewrite (In_In_ltb _ _ _ _ H1 H2 eq_refl) in T. discriminate T.
Qed.

Lemma fourth_branch_c0 (c mc : float) :
  In c (mk_itv cos_min 1) -> In mc (mk_itv min_double 1) ->
  In (sqrt (mc * ((1.0 - c * c) / (mc + (1.0 - mc) * (c * c))))) (mk_itv 0 1e17).
Proof.
  intros Hc Hmc.
  destruct (In_split_half mc min_double Hmc eq_refl) as [[H1 _]|[H1 _]].
  - interval_of (mc :: c :: nil) (mk_itv min_double 0.5 :: mk_itv cos_min 1 :: nil)
                (sqrt (mc * ((1.0 - c * c) / (mc + (1.0 - mc) * (c * c))))).
    eapply In_weaken; [exact (proj1 Hitv)| |]; reflexivity.
  - interval_of (mc :: c :: nil) (mk_itv 0.5 1 :: mk_itv cos_min 1 :: nil)
                (sqrt (mc * ((1.0 - c * c) / (mc + (1.0 - mc) * (c * c))))).
    eapply In_weaken; [exact (proj1 Hitv)| |]; reflexivity.
Qed.

(** ** The complete integrals *)

Lemma BDJ_complete_returns (X : Externals) (fuel : nat) (nc mc : float) :
  (15 <= fuel)%nat -> In mc (mk_itv 0 1) ->
  exists r, FukushimaEllipticBDJ_complete X fuel nc mc = Some r.
Proof.
  intros Hf Hmc. unfold FukushimaEllipticBDJ_complete.
  destruct (FukushimaEllipticBD X mc) as [bc dc]. cbv zeta.
  assert (Hk : In (sqrt mc) (mk_itv 0 1)).
  { interval_of (mc :: nil) (mk_itv 0 1 :: nil) (sqrt mc). exact (proj1 Hitv). }
  assert (exists r, BulirschCel fuel (sqrt mc) nc 0.0 1.0 = Some r) as [r Hr].
  { unfold BulirschCel. replace (1.0 =? 0.0) with false by reflexivity.
    destruct (sqrt mc =? 0.0) eqn:E0; [eexists; reflexivity|].
    destruct (BulirschCel_proceed_total fuel (sqrt mc) nc 0.0 1.0 Hf Hk E0) as [v Hv].
    rewrite Hv. eexists. reflexivity. }
  rewrite Hr. eexists. reflexivity.
Qed.

(** C8: for [mc] in [0, 1], with a sine in [0, sin φs] below [φs] and a
    cosine in [cos(π/2), 1] from [φs] on, [FukushimaEllipticBDJ(φ, n, mc)]
    returns: the loops of the half argument transformations of
    [FukushimaEllipticBsDsJs] and [FukushimaEllipticBcDcJc] leave within
    [max_transformations = 10] iterations (five for the first, nine for the
    second), so that the check of the level and the end of the arrays are never
    reached; the loop of [BulirschCel] leaves within its fifteen. *)
Theorem FukushimaEllipticBDJ_levels
    (X : Externals) (fuel : nat) (φ n mc : float) :
  (15 <= fuel)%nat ->
  In mc (mk_itv 0 1) ->
  ((φ <? φs) = true -> In (ext_Sin X φ) (mk_itv 0 sin_φs)) ->
  ((φ <? φs) = false -> In (ext_Cos X φ) (mk_itv cos_min 1)) ->
  exists r, FukushimaEllipticBDJ X fuel φ n mc = Some r.
Proof.
  intros Hf Hmc Hsin Hcos. unfold FukushimaEllipticBDJ.
  destruct (φ <? φs).
  - apply BsDsJs_returns; [right|exact Hmc].
    eapply In_weaken; [exact (Hsin eq_refl)| |]; reflexivity.
  - specialize (Hcos eq_refl). cbv zeta.
    set (c := ext_Cos X φ) in *. clearbody c.
    destruct (BDJ_complete_returns X fuel (1.0 - n) mc Hf Hmc) as [[[bc dc] jc] Hcomp].
    destruct (c * c <? ys * (mc + (1.0 - mc) * (c * c))) eqn:T2.
    + pose proof (z_bound c mc Hcos Hmc T2) as Hz.
      destruct (BsDsJs_returns X _ n mc (or_intror Hz) Hmc) as [[[b d] j] Hb].
      rewrite Hb, Hcomp. eexists. reflexivity.
    + destruct (mc * (1.0 - c * c) <? c * c * (mc + (1.0 - mc) * (c * c))) eqn:T3.
      * now apply BcDcJc_returns_cosine.
      * pose proof (fourth_branch_mc c mc Hcos Hmc T3) as Hmc'.
        pose proof (fourth_branch_c0 c mc Hcos Hmc') as Hc0.
        destruct (BcDcJc_returns_positive_mc X _ n mc Hc0 Hmc') as [[[b d] j] Hb].
        rewrite Hb, Hcomp. eexists. reflexivity.
Qed.

Lemma FukushimaEllipticBDJ_levels_witness :
  exists r, FukushimaEllipticBDJ (externals_with_Sin_Cos 0.5 0.25) 100 1.5 0.5 0.5 = Some r.
Proof.
  apply (FukushimaEllipticBDJ_levels (externals_with_Sin_Cos 0.5 0.25) 100 1.5 0.5 0.5);
    [lia|reflexivity|intros _; reflexivity|intros _; reflexivity].
Defined.

Close Scope float_scope.

Close Scope R_scope.

(** * Further properties *)

#[local] Open Scope float_scope.

(** * BulirschCel outside of its domain *)

Lemma sub_nan_r x : x - nan = nan.
Proof.
  apply Prim2SF_inj. rewrite sub_spec.
  change (Prim2SF nan) with S754_nan. destruct (Prim2SF x); reflexivity.
Qed.

Lemma mul_nan_l x : nan * x = nan.
Proof. apply Prim2SF_inj. rewrite mul_spec. reflexivity. Qed.

Lemma mul_nan_r x : x * nan = nan.
Proof.
  apply Prim2SF_inj. rewrite mul_spec.
  change (Prim2SF nan) with S754_nan. destruct (Prim2SF x); reflexivity.
Qed.

Lemma leb_nan_l x : (nan <=? x) = false.
Proof. rewrite FloatAxioms.leb_spec. reflexivity. Qed.

Lemma sub_finite_infinity x : Ffinite x = true -> x - infinity = neg_infinity.
Proof.
  unfold Ffinite. intros H. apply Prim2SF_inj. rewrite sub_spec.
  change (Prim2SF infinity) with (S754_infinity false).
  destruct (Prim2SF x); try discriminate; reflexivity.
Qed.

Lemma mul_infinity_l x : Ffinite (infinity * x) = false.
Proof.
  unfold Ffinite. rewrite mul_spec.
  change (Prim2SF infinity) with (S754_infinity false).
  destruct (Prim2SF x); reflexivity.
Qed.

Lemma finite_In_max x : Ffinite x = true -> In x (mk_itv (- max_double) max_double).
Proof.
  intros H. apply In_of_leb; [apply finite_ge_min|apply finite_le_max]; exact H.
Qed.

Lemma not_finite_cases x : Ffinite x = false -> x = nan \/ x = infinity \/ x = neg_infinity.
Proof.
  intros F. destruct (Fnan x) eqn:N.
  - left. apply Fnan_nan. exact N.
  - right. apply not_finite_infinity; assumption.
Qed.

(** The test of the loop fails whatever [m] is. *)
Lemma Bartky_stuck_test (kc m : float) :
  Bartky_stuck kc -> (abs (m - kc) <=? m * Cel.ca) = false.
Proof.
  intros [->| ->].
  - rewrite sub_nan_r. apply leb_nan_l.
  - destruct (Ffinite m) eqn:F.
    + rewrite (sub_finite_infinity m F).
      change (abs neg_infinity) with infinity.
      pose proof (finite_In_max m F) as Hm.
      interval_of (m :: nil) (mk_itv (- max_double) max_double :: nil) (m * Cel.ca).
      eapply In_not_leb_hi; [exact (proj1 Hitv)|reflexivity].
    + destruct (not_finite_cases m F) as [->|[->| ->]]; reflexivity.
Qed.

Lemma Bartky_stuck_next (e m : float) :
  Ffinite e = false ->
  Bartky_stuck (sqrt e + sqrt e) /\ Ffinite ((sqrt e + sqrt e) * m) = false.
Proof.
  intros F.
  destruct (not_finite_cases e F) as [->|[->| ->]].
  - change (sqrt nan + sqrt nan) with nan. split; [left; reflexivity|].
    rewrite mul_nan_l. reflexivity.
  - change (sqrt infinity + sqrt infinity) with infinity. split; [right; reflexivity|].
    apply mul_infinity_l.
  - change (sqrt neg_infinity + sqrt neg_infinity) with nan. split; [left; reflexivity|].
    rewrite mul_nan_l. reflexivity.
Qed.

Lemma Bartky_stuck_forever (fuel : nat) (kc e m p a b : float) :
  Bartky_stuck kc -> Ffinite e = false -> Bartky fuel kc e m p a b = None.
Proof.
  revert kc e m p a b.
  induction fuel as [|fuel IH]; intros kc e m p a b Hkc He; [reflexivity|].
  cbn [Bartky]. cbv zeta.
  rewrite (Bartky_stuck_test kc m Hkc).
  destruct (Bartky_stuck_next e (kc + m) He) as [H1 H2].
  apply IH; assumption.
Qed.

Lemma abs_not_finite kc : Ffinite kc = false -> Bartky_stuck (abs kc).
Proof.
  intros F. destruct (not_finite_cases kc F) as [->|[->| ->]];
    [left|right|right]; reflexivity.
Qed.

Lemma Bartky_stuck_not_finite kc : Bartky_stuck kc -> Ffinite kc = false.
Proof. intros [->| ->]; reflexivity. Qed.

Lemma BulirschCel_proceed_stuck (fuel : nat) (kc nc a b : float) :
  Ffinite kc = false -> BulirschCel_proceed fuel kc nc a b = None.
Proof.
  intros F. unfold BulirschCel_proceed. cbv zeta.
  pose proof (abs_not_finite kc F) as Hs.
  pose proof (Bartky_stuck_not_finite _ Hs) as He.
  destruct (0.0 <? nc); apply Bartky_stuck_forever; assumption.
Qed.

Lemma not_finite_not_zero kc : Ffinite kc = false -> (kc =? 0.0) = false.
Proof.
  intros F. destruct (not_finite_cases kc F) as [->|[->| ->]]; reflexivity.
Qed.

(** X1: called with a [kc] that is a NaN or an infinity, [BulirschCel]
    does not return: the test that ends the loop of Bartky's algorithm
    fails at every iteration, whatever the number of iterations allowed. *)
Theorem BulirschCel_not_finite_kc (fuel : nat) (kc nc a b : float) :
  Ffinite kc = false -> BulirschCel fuel kc nc a b = None.
Proof.
  intros F. unfold BulirschCel.
  rewrite (not_finite_not_zero kc F), (BulirschCel_proceed_stuck fuel kc nc a b F).
  reflexivity.
Qed.

Lemma BulirschCel_not_finite_kc_witness :
  BulirschCel 1000 nan 0.5 0 1 = None.
Proof.
  apply (BulirschCel_not_finite_kc 1000 nan 0.5 0 1). reflexivity.
Defined.


(** * [elk] and [EllipticK] *)

(** The test [abs(m) < 1.0e-16] succeeds at [mc = 1] only. *)
Lemma near_1_is_1 (mc : float) : (abs (1.0 - mc) <? 1.0e-16) = true -> mc = 1.0.
Proof.
  intros H. symmetry. apply cache_test_eq.
  apply ltb_ord in H. destruct H as (N1 & N2 & H).
  apply ltb_ord. split; [exact N1|]. split; [reflexivity|].
  replace (Ford (1.11e-16 * 1.0)) with (Ford 1.11e-16) by (vm_compute; reflexivity).
  assert (Ford 1.0e-16 < Ford 1.11e-16)%Z by (vm_compute; reflexivity).
  lia.
Qed.

(** The cascade of [elk] on the saved variables of the first call, outside
    of the branch that evaluates the nome. *)
Lemma elk_value_EllipticK (X : Externals) (mc : float) :
  ext_atan X 1.0 * 2.0 = π / 2 \/ mc <> 1.0 ->
  (mc <? 0.1) = false \/ (mc <? 1.11e-16) = true ->
  elk_value X (elk_saved_initialised X) mc = EllipticK X mc.
Proof.
  intros Hpi Hmc.
  unfold elk_value, EllipticK, elk_saved_initialised, elk_initialise, elk_saved_at_start.
  cbn [elk_first elk_mcold elk_PIHALF elk_PIINV elk_elkold elk_TINY].
  cbv zeta.
  destruct (abs (1.0 - mc) <? 1.0e-16) eqn:B1.
  { destruct Hpi as [Hpi|Hne]; [exact Hpi|].
    elim Hne. apply near_1_is_1. exact B1. }
  destruct (abs (mc - 1.0) <? 1.11e-16 * mc) eqn:B2.
  { apply cache_test_eq in B2. subst mc. cbv in B1. discriminate B1. }
  unfold TINY.
  destruct (mc <? 1.0e-99); [reflexivity|].
  destruct (mc <? 1.11e-16) eqn:B4; [reflexivity|].
  destruct Hmc as [Hmc|Hmc]; [|discriminate Hmc].
  rewrite Hmc. reflexivity.
Qed.

(** X2: the Fortran function [elk] and the C++ function [EllipticK] return
    the same number: whatever calls of [elk] were made before, for every
    [mc] that is not below 0.1 (the ten polynomials in [m]) and every [mc]
    below 1.11e-16 (the logarithm), provided [atan(1.0)*2.0] is [π / 2] or
    [mc] is not 1. *)
Theorem elk_is_EllipticK
    (X : Externals) (st : elk_saved) (mcs : list float) (mc : float) :
  elk_first st = true ->
  ext_atan X 1.0 * 2.0 = π / 2 \/ mc <> 1.0 ->
  (mc <? 0.1) = false \/ (mc <? 1.11e-16) = true ->
  fst (elk X (elk_calls X st mcs) mc) = EllipticK X mc.
Proof.
  intros H Hpi Hmc.
  pose proof (elk_calls_settled X st mcs (or_introl H)) as H1.
  rewrite (proj2 (elk_settles X _ mc H1)).
  apply elk_value_EllipticK; assumption.
Qed.

Lemma elk_is_EllipticK_witness :
  fst (elk sample_externals
         (elk_calls sample_externals (elk_saved_at_start 0 0 0 0 0) [0.25; 0.5; 0.25]) 0.5)
  = EllipticK sample_externals 0.5.
Proof.
  apply (elk_is_EllipticK sample_externals);
    [reflexivity|right; intros H; discriminate (f_equal (fun x => x <? 0.75) H)|left; reflexivity].
Defined.


(** * The integrals outside of their domain, and at its ends *)

Lemma add_nan_l x : nan + x = nan.
Proof. apply Prim2SF_inj. rewrite add_spec. reflexivity. Qed.

Lemma sub_nan_l x : nan - x = nan.
Proof. apply Prim2SF_inj. rewrite sub_spec. reflexivity. Qed.

Lemma ltb_nan_l x : (nan <? x) = false.
Proof. rewrite FloatAxioms.ltb_spec. reflexivity. Qed.

Lemma ltb_nan_r x : (x <? nan) = false.
Proof.
  rewrite FloatAxioms.ltb_spec. change (Prim2SF nan) with S754_nan.
  unfold SFltb. rewrite SFcompare_nan_r. reflexivity.
Qed.

Lemma leb_nan_r x : (x <=? nan) = false.
Proof.
  rewrite FloatAxioms.leb_spec. change (Prim2SF nan) with S754_nan.
  unfold SFleb. rewrite SFcompare_nan_r. reflexivity.
Qed.

Lemma sqrt_not_finite (mc : float) :
  (mc <? 0) = true \/ Ffinite mc = false -> Ffinite (sqrt mc) = false.
Proof.
  intros [H|H].
  - rewrite (sqrt_negative mc H). reflexivity.
  - destruct (not_finite_cases mc H) as [->|[->| ->]]; reflexivity.
Qed.

(** X3: the complete integrals do not return for a negative [mc], a NaN or
    an infinity: [Sqrt(mc)] is then a NaN or an infinity, and the loop of
    [BulirschCel] does not leave. *)
Theorem FukushimaEllipticBDJ_complete_outside
    (X : Externals) (fuel : nat) (nc mc : float) :
  (mc <? 0) = true \/ Ffinite mc = false ->
  FukushimaEllipticBDJ_complete X fuel nc mc = None.
Proof.
  intros H. unfold FukushimaEllipticBDJ_complete.
  destruct (FukushimaEllipticBD X mc) as [bc dc].
  pose proof (sqrt_not_finite mc H) as F.
  unfold BulirschCel.
  rewrite (not_finite_not_zero _ F), (BulirschCel_proceed_stuck fuel _ nc 0.0 1.0 F).
  reflexivity.
Qed.

Lemma FukushimaEllipticBDJ_complete_outside_witness :
  FukushimaEllipticBDJ_complete sample_externals 1000 0.5 (-0.25) = None.
Proof.
  apply (FukushimaEllipticBDJ_complete_outside sample_externals 1000 0.5 (-0.25)).
  left. reflexivity.
Defined.

(** X4: with a NaN for [mc], the incomplete integrals do not return from
    [φs] on, whatever [φ] and [n] are: the tests of the selection rule all
    fail, and the last branch calls the complete integrals. *)
Theorem FukushimaEllipticBDJ_nan_mc
    (X : Externals) (fuel : nat) (φ n : float) :
  (φ <? φs) = false ->
  FukushimaEllipticBDJ X fuel φ n nan = None.
Proof.
  intros H. unfold FukushimaEllipticBDJ. rewrite H. cbv zeta.
  rewrite add_nan_l, mul_nan_r, ltb_nan_r.
  rewrite mul_nan_l, ltb_nan_l.
  rewrite (FukushimaEllipticBDJ_complete_outside X fuel (1.0 - n) nan (or_intror eq_refl)).
  destruct (FukushimaEllipticBcDcJc X _ n nan) as [[[b d] j]|]; reflexivity.
Qed.

Lemma FukushimaEllipticBDJ_nan_mc_witness :
  FukushimaEllipticBDJ sample_externals 1000 1.5 0.5 nan = None.
Proof.
  apply (FukushimaEllipticBDJ_nan_mc sample_externals 1000 1.5 0.5). reflexivity.
Defined.

(** The product of a zero and a finite number is a zero. *)
Lemma mul_zero_finite x y :
  (x =? 0) = true -> Ffinite y = true ->
  (x * y =? 0) = true /\ (y * x =? 0) = true.
Proof.
  intros Hx Hy. rewrite !FloatAxioms.eqb_spec, !mul_spec, Prim2SF_zero in *.
  unfold Ffinite in Hy.
  destruct (Prim2SF x) as [sx|sx| |sx mx ex]; try destruct sx;
    try (cbv in Hx; discriminate Hx);
    destruct (Prim2SF y) as [sy|sy| |sy my ey]; try discriminate Hy;
    destruct sy; split; reflexivity.
Qed.

Lemma zero_finite x : (x =? 0) = true -> Ffinite x = true.
Proof.
  intros H. apply eqb_ord in H. destruct H as (N & _ & H).
  apply Ffinite_ord. split; [exact N|]. rewrite H. vm_compute. split; reflexivity.
Qed.

(** X5: [FukushimaT(t, h)] is [t] itself when [t] or [h] is a zero and the
    other is finite: [z] is then a zero, below the first threshold. *)
Theorem FukushimaT_zero (X : Externals) (t h : float) :
  Ffinite t = true -> Ffinite h = true ->
  (t =? 0) = true \/ (h =? 0) = true ->
  FukushimaT X t h = t.
Proof.
  intros Ft Fh H. unfold FukushimaT.
  assert (Hz : abs (- h * t * t) = 0).
  { apply abs_zero.
    assert (Fh' : Ffinite (- h) = true) by (rewrite opp_Ffinite; exact Fh).
    assert (H1 : (- h * t =? 0) = true).
    { destruct H as [H|H].
      - exact (proj2 (mul_zero_finite t (- h) H Fh')).
      - apply (mul_zero_finite (- h) t); [|exact Ft].
        rewrite eqb_0_opp. exact H. }
    exact (proj1 (mul_zero_finite _ t H1 Ft)). }
  rewrite Hz. reflexivity.
Qed.

Lemma FukushimaT_zero_witness :
  FukushimaT sample_externals 0.75 0 = 0.75.
Proof.
  apply (FukushimaT_zero sample_externals 0.75 0);
    [reflexivity|reflexivity|right; reflexivity].
Defined.

(** X6: a NaN for [s₀] goes through [FukushimaEllipticBsDsJs] with no
    transformation and comes out as three NaN, whatever [n] and [mc] are;
    so does a NaN for [c₀] through [FukushimaEllipticBcDcJc]. *)
Theorem FukushimaEllipticBsDsJs_nan (X : Externals) (n mc : float) :
  FukushimaEllipticBsDsJs X nan n mc = Some (nan, nan, nan)
  /\ FukushimaEllipticBcDcJc X nan n mc = Some (nan, nan, nan).
Proof.
  assert (Hs : FukushimaEllipticBsDsJs X nan n mc = Some (nan, nan, nan)).
  { unfold FukushimaEllipticBsDsJs. cbv zeta.
    change (nan * nan) with nan.
    unfold max_transformations. cbn [half_argument_transformation_of_s].
    rewrite leb_nan_r. cbv beta iota zeta. cbn [length nth].
    destruct (FukushimaEllipticBsDsMaclaurinSeries nan (1.0 - mc)) as [b d].
    cbn [double_argument_transformation].
    rewrite !mul_nan_l. reflexivity. }
  split; [exact Hs|].
  unfold FukushimaEllipticBcDcJc. cbv zeta.
  change (nan * nan) with nan. change (1.0 - nan) with nan.
  change (sqrt nan) with nan.
  unfold max_transformations. cbn [half_argument_transformation_of_c].
  change (nan <=? xS) with false. cbv beta iota zeta. cbn [length nth].
  rewrite Hs. reflexivity.
Qed.

(** X7: the two ends of the cascade of [FukushimaEllipticBD].  Every
    [mc] from 1 on, the positive infinity included, is answered as [mc = 1]
    is, by [π / 4] twice; every [mc] below [1.11e-16] by [elb = 1] and the
    logarithm. *)
Theorem FukushimaEllipticBD_ends (X : Externals) (mc : float) :
  ((1 <=? mc) = true -> FukushimaEllipticBD X mc = (π / 4, π / 4))
  /\ ((mc <? 1.11e-16) = true ->
      FukushimaEllipticBD X mc
      = (1.0, 0.3862943611198906188344642429164 - 0.5 * ext_log X mc)).
Proof.
  split; intros H; unfold FukushimaEllipticBD; cbv zeta.
  - assert (H1 : (1.0 - mc <? 1.11e-16) = true).
    { destruct (Ffinite mc) eqn:F.
      - assert (Hmc : In mc (mk_itv 1 max_double))
          by (apply In_of_leb; [exact H|apply finite_le_max; exact F]).
        interval_of (mc :: nil) (mk_itv 1 max_double :: nil) (1.0 - mc).
        eapply In_ltb_hi; [exact (proj1 Hitv)|reflexivity].
      - pose proof H as H'. apply leb_ord in H'. destruct H' as (_ & N & _).
        destruct (not_finite_infinity mc N F) as [-> | ->];
          [reflexivity|discriminate H]. }
    rewrite H1. reflexivity.
  - assert (H1 : (1.0 - mc <? 1.11e-16) = false).
    { destruct (Ffinite mc) eqn:F.
      - assert (Hmc : In mc (mk_itv (- max_double) 1.11e-16)).
        { apply In_of_leb; [apply finite_ge_min; exact F|].
          apply ltb_leb. exact H. }
        interval_of (mc :: nil) (mk_itv (- max_double) 1.11e-16 :: nil) (1.0 - mc).
        eapply In_not_ltb_lo; [exact (proj1 Hitv)|reflexivity].
      - pose proof H as H'. apply ltb_ord in H'. destruct H' as (N & _).
        destruct (not_finite_infinity mc N F) as [-> | ->];
          [discriminate H|reflexivity]. }
    rewrite H1, H. reflexivity.
Qed.

Lemma FukushimaEllipticBD_ends_witness :
  FukushimaEllipticBD sample_externals 1.5 = (π / 4, π / 4)
  /\ FukushimaEllipticBD sample_externals 1.0e-20
     = (1.0, 0.3862943611198906188344642429164 - 0.5 * ext_log sample_externals 1.0e-20).
Proof.
  split.
  - exact (proj1 (FukushimaEllipticBD_ends sample_externals 1.5) eq_refl).
  - exact (proj2 (FukushimaEllipticBD_ends sample_externals 1.0e-20) eq_refl).
Defined.

(** The sine entry at [s₀ = 0]. *)
Lemma BsDsJs_zero (X : Externals) (n mc : float) :
  In n (mk_itv 0 1) -> In mc (mk_itv 0 1) ->
  FukushimaEllipticBsDsJs X 0 n mc = Some (0, 0, 0).
Proof.
  intros Hn Hmc. unfold FukushimaEllipticBsDsJs.
  pose proof (one_minus_unit mc Hmc) as Hm.
  set (m := 1.0 - mc) in *. clearbody m.
  replace (0 * 0) with 0 by reflexivity.
  unfold max_transformations. cbn [half_argument_transformation_of_s].
  replace (yB <=? 0) with false by reflexivity.
  cbv beta iota zeta.
  rewrite (BsDsMaclaurinSeries_at_0 m Hm).
  rewrite (JsMaclaurinSeries_at_0 n m Hn Hm).
  reflexivity.
Qed.

(** X8: for [n] and [mc] in [0, 1], [FukushimaEllipticBcDcJc(1, n, mc)]
    returns exactly [(0, 0, 0)]: with [c₀ = 1] the loop makes no trip, [s[0]]
    is 0 and the sine entry is called at 0. *)
Theorem FukushimaEllipticBcDcJc_at_1 (X : Externals) (n mc : float) :
  In n (mk_itv 0 1) -> In mc (mk_itv 0 1) ->
  FukushimaEllipticBcDcJc X 1 n mc = Some (0, 0, 0).
Proof.
  intros Hn Hmc. unfold FukushimaEllipticBcDcJc. cbv zeta.
  change (1 * 1) with 1. change (1.0 - 1) with 0. change (sqrt 0) with 0.
  unfold max_transformations. cbn [half_argument_transformation_of_c].
  change (1 <=? xS) with false. cbv beta iota zeta. cbn [length nth].
  rewrite (BsDsJs_zero X n mc Hn Hmc). reflexivity.
Qed.

Lemma FukushimaEllipticBcDcJc_at_1_witness :
  FukushimaEllipticBcDcJc sample_externals 1 0.25 0.5 = Some (0, 0, 0).
Proof.
  apply (FukushimaEllipticBcDcJc_at_1 sample_externals 0.25 0.5); reflexivity.
Defined.


(** * The arrays of the half argument transformations *)

Lemma nth_app_last (l : list float) (v : float) : nth (length l) (l ++ [v]) nan = v.
Proof. rewrite app_nth2 by lia. rewrite Nat.sub_diag. reflexivity. Qed.

Lemma s_arrays (budget : nat) (m : float) :
  forall (yi : float) (y s cd : list float),
    length y = S (length cd) -> length s = S (length cd) ->
    nth (length cd) y nan = yi ->
    match half_argument_transformation_of_s budget m yi y s cd with
    | Some (yi', y', s', cd') =>
        (length cd' <= length cd + budget)%nat
        /\ length y' = S (length cd') /\ length s' = S (length cd')
        /\ nth (length cd') y' nan = yi' /\ (yB <=? yi') = false
    | None => True
    end.
Proof.
  induction budget as [|budget IH]; intros yi y s cd Hy Hs Hn;
    cbn [half_argument_transformation_of_s]; destruct (yB <=? yi) eqn:T.
  - exact I.
  - repeat split; try assumption. lia.
  - cbv zeta.
    match goal with
    | |- match half_argument_transformation_of_s _ _ ?yi' ?y' ?s' ?cd' with _ => _ end =>
        specialize (IH yi' y' s' cd')
    end.
    rewrite !length_app in IH. cbn [length] in IH.
    rewrite Hy, Hs in IH.
    specialize (IH ltac:(lia) ltac:(lia)).
    replace (length cd + 1)%nat with (length y) in IH by lia.
    rewrite nth_app_last in IH. specialize (IH eq_refl).
    destruct (half_argument_transformation_of_s _ _ _ _ _ _) as [[[[yi' y'] s'] cd']|];
      [|exact I].
    destruct IH as (A & B & C & D & E). repeat split; try assumption. lia.
  - repeat split; try assumption. lia.
Qed.

Lemma c_arrays (budget : nat) (mc m : float) :
  forall (ci xi : float) (y s cd : list float),
    length y = S (length cd) -> length s = S (length cd) ->
    match half_argument_transformation_of_c budget mc m ci xi y s cd with
    | Some (y', s', cd') =>
        (length cd' <= length cd + budget)%nat
        /\ length y' = S (length cd') /\ length s' = S (length cd')
    | None => True
    end.
Proof.
  induction budget as [|budget IH]; intros ci xi y s cd Hy Hs;
    cbn [half_argument_transformation_of_c]; destruct (xi <=? xS) eqn:T.
  - exact I.
  - repeat split; try assumption. lia.
  - cbv zeta.
    match goal with
    | |- match half_argument_transformation_of_c _ _ _ ?ci' ?xi' ?y' ?s' ?cd' with _ => _ end =>
        specialize (IH ci' xi' y' s' cd')
    end.
    rewrite !length_app in IH. cbn [length] in IH.
    rewrite Hy, Hs in IH.
    specialize (IH ltac:(lia) ltac:(lia)).
    destruct (half_argument_transformation_of_c _ _ _ _ _ _ _ _) as [[[y' s'] cd']|];
      [|exact I].
    destruct IH as (A & B & C). repeat split; try assumption. lia.
  - repeat split; try assumption. lia.
Qed.

(** X9: when the loop of a half argument transformation leaves, after [i]
    trips, the arrays [y] and [s] hold [i + 1] numbers and [cd] holds [i],
    with [i] at most [max_transformations]: the arrays of
    [max_transformations + 1] cells are large enough, and each cell that the
    double argument transformation reads ([y[k]], [s[k - 1]], [cd[k - 1]]
    for [k] from [i] down to 1) has been written.  From the transformation
    of [s], the last [yᵢ] is [y[i]] and is below [yB], or a NaN. *)
Theorem half_argument_transformation_arrays (mc m s0 c0 : float) :
  match half_argument_transformation_of_s
          max_transformations m (s0 * s0) [s0 * s0] [s0] [] with
  | Some (yi, y, s, cd) =>
      (length cd <= max_transformations)%nat
      /\ length y = S (length cd) /\ length s = S (length cd)
      /\ nth (length cd) y nan = yi /\ (yB <=? yi) = false
  | None => True
  end
  /\
  match half_argument_transformation_of_c
          max_transformations mc m c0 (c0 * c0)
          [1.0 - c0 * c0] [sqrt (1.0 - c0 * c0)] [] with
  | Some (y, s, cd) =>
      (length cd <= max_transformations)%nat
      /\ length y = S (length cd) /\ length s = S (length cd)
  | None => True
  end.
Proof.
  split.
  - exact (s_arrays max_transformations m (s0 * s0) [s0 * s0] [s0] []
             eq_refl eq_refl eq_refl).
  - exact (c_arrays max_transformations mc m c0 (c0 * c0)
             [1.0 - c0 * c0] [sqrt (1.0 - c0 * c0)] [] eq_refl eq_refl).
Qed.


(** * The Jacobi elliptic functions *)

(** ** The loop [do n=0,20] of [scd2] *)

Lemma ltb_leb_trans (x y z : float) :
  (x <? y) = true -> (y <=? z) = true -> (x <? z) = true.
Proof.
  intros H1 H2. apply ltb_ord in H1. apply leb_ord in H2. apply ltb_ord.
  destruct H1 as (A & B & C), H2 as (D & E & F). repeat split; auto. lia.
Qed.

Lemma Scd2_halve_within (k : nat) :
  forall (I : itv) (l : float), halve_check k I l = true ->
  forall (trips n : nat) (uT u0 : float),
    (l <=? uT) = true -> In u0 I -> (k < trips)%nat ->
    (fst (Scd2_halve trips n uT u0) <= n + k)%nat
    /\ (snd (Scd2_halve trips n uT u0) <? uT) = true.
Proof.
  induction k as [|k IH]; intros I l Hc trips n uT u0 Hl Hu Ht;
    (destruct trips as [|trips]; [lia|]); cbn [Scd2_halve halve_check] in *.
  - assert (T : (u0 <? uT) = true).
    { eapply ltb_leb_trans; [|exact Hl]. eapply In_ltb_hi; [exact Hu|exact Hc]. }
    rewrite T. cbn [fst snd]. split; [lia|exact T].
  - destruct (u0 <? uT) eqn:T; cbn [fst snd]; [split; [lia|exact T]|].
    destruct (ieval [I] (EMul (EVar 0) (ECst 0.5))) as [J|] eqn:EJ; [|discriminate].
    assert (HJ : In (u0 * 0.5) J).
    { refine (proj1 (ieval_sound' [u0] [I] (EMul (EVar 0) (ECst 0.5)) J (u0 * 0.5) _ eq_refl EJ)).
      constructor; [exact Hu|constructor]. }
    destruct (IH J l Hc trips (S n) uT (u0 * 0.5) Hl HJ ltac:(lia)) as [A B].
    split; [lia|exact B].
Qed.

(** X10: for [mc] in [0, 1] and [u] from 0 to 3000, the loop [do n=0,20]
    of [scd2] leaves through [goto 1], with [u0] below [uT] and [n] at most
    20: the message [Too large input argument] is not written.  For [u]
    below 0.785, the bound of the first branch of [Gscd], it leaves with
    [n] at most 8. *)
Theorem Scd2_halve_leaves (u mc : float) :
  In mc (mk_itv 0 1) ->
  let uT := 5.217e-3 - (1.0 - mc) * 2.143e-3 in
  (In u (mk_itv 0 3000) ->
   (fst (Scd2_halve 21 0 uT u) <= 20)%nat
   /\ (snd (Scd2_halve 21 0 uT u) <? uT) = true)
  /\ (In u (mk_itv 0 0.785) ->
      (fst (Scd2_halve 21 0 uT u) <= 8)%nat
      /\ (snd (Scd2_halve 21 0 uT u) <? uT) = true).
Proof.
  intros Hmc uT.
  assert (Hl : (3.07e-3 <=? uT) = true).
  { subst uT.
    interval_of (mc :: nil) (mk_itv 0 1 :: nil) (5.217e-3 - (1.0 - mc) * 2.143e-3).
    eapply In_leb_lo; [exact (proj1 Hitv)|reflexivity]. }
  split; intros Hu.
  - apply (Scd2_halve_within 20 (mk_itv 0 3000) 3.07e-3); [reflexivity|exact Hl|exact Hu|lia].
  - apply (Scd2_halve_within 8 (mk_itv 0 0.785) 3.07e-3); [reflexivity|exact Hl|exact Hu|lia].
Qed.

Lemma Scd2_halve_leaves_witness :
  let uT := 5.217e-3 - (1.0 - 0.5) * 2.143e-3 in
  ((fst (Scd2_halve 21 0 uT 0.5) <= 20)%nat
   /\ (snd (Scd2_halve 21 0 uT 0.5) <? uT) = true)
  /\ ((fst (Scd2_halve 21 0 uT 0.5) <= 8)%nat
      /\ (snd (Scd2_halve 21 0 uT 0.5) <? uT) = true).
Proof.
  destruct (Scd2_halve_leaves 0.5 0.5 eq_refl) as [H1 H2].
  split; [apply H1|apply H2]; reflexivity.
Defined.

(** ** [Gscd]: the conversion to [int] *)

Lemma B2R_2_31 : B2R 2147483648 = 2147483648%R.
Proof.
  rewrite (B2R_eval 2147483648 4503599627370496 (-21)) by reflexivity.
  change (-21)%Z with (Z.opp 21). rewrite (bpow_opp 21), bpow_IZR by lia.
  change (2 ^ 21)%Z with 2097152%Z. lra.
Qed.

Lemma B2R_m2_31_1 : B2R (-2147483649) = (-2147483649)%R.
Proof.
  unfold B2R.
  replace (Prim2SF (-2147483649)) with (S754_finite true 4503599629467648 (-21))
    by reflexivity.
  cbn [SF2R cond_Zopp]. unfold F2R.
  change (-21)%Z with (Z.opp 21). rewrite (bpow_opp 21), bpow_IZR by lia.
  change (2 ^ 21)%Z with 2097152%Z. change (- Z.pos 4503599629467648)%Z with (-4503599629467648)%Z.
  lra.
Qed.

(** The integer part of [m * 2^e], as the shifts compute it. *)
Lemma shift_floor (m : positive) (e : Z) :
  let q := if (0 <=? e)%Z then Z.shiftl (Zpos m) e else Z.shiftr (Zpos m) (- e) in
  (0 <= q)%Z /\ (IZR q <= F2R (Zpos m) e < IZR q + 1)%R.
Proof.
  cbv zeta. unfold F2R. destruct (Z.leb_spec 0 e) as [He|He].
  - rewrite Z.shiftl_mul_pow2 by lia. rewrite bpow_IZR by lia.
    rewrite mult_IZR. split; [|lra].
    apply Z.mul_nonneg_nonneg; [lia|]. apply Z.pow_nonneg. lia.
  - rewrite Z.shiftr_div_pow2 by lia.
    assert (Hp : (0 < 2 ^ (- e))%Z) by (apply Z.pow_pos_nonneg; lia).
    pose proof (Z.div_mod (Zpos m) (2 ^ (- e)) ltac:(lia)) as Hd.
    pose proof (Z.mod_pos_bound (Zpos m) (2 ^ (- e)) Hp) as Hr.
    set (q := (Zpos m / 2 ^ (- e))%Z) in *.
    set (r := (Zpos m mod 2 ^ (- e))%Z) in *.
    assert (Hq : (0 <= q)%Z) by (apply Z.div_pos; lia).
    split; [exact Hq|].
    replace (bpow e) with (/ IZR (2 ^ (- e)))%R.
    2:{ rewrite <- bpow_IZR by lia. rewrite <- bpow_opp. f_equal. lia. }
    assert (HP : (0 < IZR (2 ^ (- e)))%R) by (apply IZR_lt; exact Hp).
    rewrite Hd, plus_IZR, mult_IZR.
    assert (H0 : (0 <= IZR r)%R) by (apply IZR_le; lia).
    assert (H1 : (IZR r < IZR (2 ^ (- e)))%R) by (apply IZR_lt; lia).
    set (P := IZR (2 ^ (- e))) in *. set (Q := IZR q). set (Rr := IZR r) in *.
    replace ((P * Q + Rr) * / P)%R with (Q + Rr * / P)%R by (field; lra).
    assert (0 <= Rr * / P < 1)%R; [|lra].
    split.
    + apply Rmult_le_pos; [exact H0|]. left. apply Rinv_0_lt_compat. exact HP.
    + apply (Rmult_lt_reg_r P); [exact HP|].
      replace (Rr * / P * P)%R with Rr by (field; lra). lra.
Qed.

Lemma ltb_B2R (x y : float) :
  Ffinite x = true -> Ffinite y = true -> ((x <? y) = true <-> (B2R x < B2R y)%R).
Proof.
  intros Fx Fy. split; intros H.
  - apply ltb_ord in H. destruct H as (_ & _ & H). apply ord_lt_B2R; assumption.
  - apply ltb_ord. repeat split; try (apply Ffinite_not_nan; assumption).
    apply B2R_lt_ord; assumption.
Qed.

(** [static_cast<int>(x)] is undefined exactly when [x] is not strictly
    between [-2^31 - 1] and [2^31]; a NaN is not. *)
Lemma static_cast_int_None (x : float) :
  static_cast_int x = None
  <-> ((-2147483649 <? x) && (x <? 2147483648)) = false.
Proof.
  destruct (Ffinite x) eqn:F.
  - rewrite andb_false_iff.
    assert (H1 : (-2147483649 <? x) = false <-> ~ (-2147483649 < B2R x)%R).
    { rewrite <- B2R_m2_31_1, <- (ltb_B2R (-2147483649) x eq_refl F).
      destruct (-2147483649 <? x); split; intros; try congruence; tauto. }
    assert (H2 : (x <? 2147483648) = false <-> ~ (B2R x < 2147483648)%R).
    { rewrite <- B2R_2_31, <- (ltb_B2R x 2147483648 F eq_refl).
      destruct (x <? 2147483648); split; intros; try congruence; tauto. }
    rewrite H1, H2. clear H1 H2.
    unfold static_cast_int, B2R, Ffinite in *.
    destruct (Prim2SF x) as [s|s| |s m e]; try discriminate F.
    + cbn [SF2R]. split; [discriminate|]. intros [H|H]; exfalso; apply H; lra.
    + cbn [SF2R]. destruct (shift_floor m e) as [Hq Hf]. cbv zeta in Hq, Hf.
      set (q := if (0 <=? e)%Z then Z.shiftl (Zpos m) e else Z.shiftr (Zpos m) (- e)) in *.
      clearbody q.
      assert (Hm : (0 < F2R (Zpos m) e)%R).
      { unfold F2R. apply Rmult_lt_0_compat; [apply IZR_lt; lia|apply bpow_gt_0]. }
      destruct s; cbn [cond_Zopp].
      * change (Z.neg m) with (- Zpos m)%Z. rewrite F2R_opp.
        destruct (Z.leb_spec (-2147483648) (- q)) as [Hl|Hl];
          destruct (Z.leb_spec (- q) 2147483647) as [Hu|Hu]; cbn [andb]; try lia.
        -- split; [discriminate|]. intros [H|H]; exfalso; apply H; [|lra].
           assert (IZR q <= 2147483648)%R by (apply IZR_le; lia). lra.
        -- split; [intros _; left|reflexivity].
           assert (2147483649 <= IZR q)%R by (apply IZR_le; lia). lra.
      * destruct (Z.leb_spec (-2147483648) q) as [Hl|Hl];
          destruct (Z.leb_spec q 2147483647) as [Hu|Hu]; cbn [andb]; try lia.
        -- split; [discriminate|]. intros [H|H]; exfalso; apply H; [lra|].
           assert (IZR q + 1 <= 2147483648)%R.
           { replace (IZR q + 1)%R with (IZR (q + 1)) by (rewrite plus_IZR; reflexivity).
             apply IZR_le. lia. }
           lra.
        -- split; [intros _; right|reflexivity].
           assert (2147483648 <= IZR q)%R by (apply IZR_le; lia). lra.
  - destruct (not_finite_cases x F) as [->|[->| ->]]; split; reflexivity.
Qed.

Lemma Gscd_None (X : Externals) (st : elk_saved) (u mc : float) :
  Gscd X st u mc = None
  <-> (abs u <? 0.785) = false
      /\ static_cast_int (abs u / (fst (elk X st mc) * 4.0)) = None.
Proof.
  unfold Gscd. cbv zeta.
  destruct (abs u <? 0.785).
  - destruct (Scd2 (abs u) mc) as [[s c] d].
    split; [discriminate|]. intros [H _]. discriminate H.
  - destruct (elk X st mc) as [k st1]. cbn [fst].
    unfold Gscd_octants. cbv zeta.
    destruct (static_cast_int (abs u / (k * 4.0))) as [periods|].
    + split; [|intros [_ H]; discriminate H].
      repeat match goal with
             | |- context [if ?c then _ else _] => destruct c
             | |- context [Scd2 ?a ?b] => destruct (Scd2 a b) as [[? ?] ?]
             end; discriminate.
    + split; [intros _; split; reflexivity|reflexivity].
Qed.

(** X11: [Gscd] is undefined, through the conversion
    [static_cast<int>(ux / k4)], exactly when [abs u] is not below 0.785 and
    the quotient of [abs u] by four times [elk(mc)] is not strictly between
    [-2^31 - 1] and [2^31], a NaN not being between them; everywhere else
    it returns. *)
Theorem Gscd_undefined (X : Externals) (st : elk_saved) (u mc : float) :
  Gscd X st u mc = None
  <-> (abs u <? 0.785) = false
      /\ (let q := abs u / (fst (elk X st mc) * 4.0) in
          ((-2147483649 <? q) && (q <? 2147483648)) = false).
Proof.
  cbv zeta. rewrite <- static_cast_int_None. apply Gscd_None.
Qed.

(** X12: at [u = 0], of either sign, and for [mc] in [0, 1], [Gscd]
    returns exactly [(0, 1, 1)] and leaves the saved variables of [elk]
    as they are. *)
Theorem Gscd_at_0 (X : Externals) (st : elk_saved) (u mc : float) :
  (u =? 0) = true -> In mc (mk_itv 0 1) ->
  Gscd X st u mc = Some (0, 1, 1, st).
Proof.
  intros E0 Hmc. unfold Gscd. cbv zeta.
  rewrite (abs_zero u E0).
  replace (0 <? 0.785) with true by reflexivity.
  rewrite (Scd2_at_0 mc Hmc), (ltb_0_zero u E0). reflexivity.
Qed.

Lemma Gscd_at_0_witness :
  Gscd sample_externals elk_saved_sample (-0) 0.5 = Some (0, 1, 1, elk_saved_sample).
Proof.
  apply (Gscd_at_0 sample_externals elk_saved_sample (-0) 0.5); reflexivity.
Defined.


(** * Enclosures of cascades *)

Lemma leb_trans (x y z : float) :
  (x <=? y) = true -> (y <=? z) = true -> (x <=? z) = true.
Proof.
  intros H1 H2. apply leb_ord in H1. apply leb_ord in H2. apply leb_ord.
  destruct H1 as (A & B & C), H2 as (D & E & F). repeat split; auto. lia.
Qed.

Lemma leb_ltb_trans (x y z : float) :
  (x <=? y) = true -> (y <? z) = true -> (x <? z) = true.
Proof.
  intros H1 H2. apply leb_ord in H1. apply ltb_ord in H2. apply ltb_ord.
  destruct H1 as (A & B & C), H2 as (D & E & F). repeat split; auto. lia.
Qed.

Lemma ltb_not_leb (x y : float) : (y <? x) = true -> (x <=? y) = false.
Proof.
  intros H. apply ltb_ord in H. destruct H as (A & B & C).
  destruct (x <=? y) eqn:E; [|reflexivity].
  apply leb_ord in E. destruct E as (_ & _ & E). lia.
Qed.

Lemma leb_not_ltb (x y : float) : (y <=? x) = true -> (x <? y) = false.
Proof.
  intros H. apply leb_ord in H. destruct H as (A & B & C).
  destruct (x <? y) eqn:E; [|reflexivity].
  apply ltb_ord in E. destruct E as (_ & _ & E). lia.
Qed.

Lemma separated_leb (x y : float) (A B : itv) :
  In x A -> In y B -> (hi A <=? lo B) = true -> (x <=? y) = true.
Proof.
  intros Hx Hy H. destruct (In_bounds _ _ Hx) as [_ U], (In_bounds _ _ Hy) as [L _].
  exact (leb_trans _ _ _ (leb_trans _ _ _ U H) L).
Qed.

Lemma separated_ltb (x y : float) (A B : itv) :
  In x A -> In y B -> (hi A <? lo B) = true -> (x <? y) = true.
Proof.
  intros Hx Hy H. destruct (In_bounds _ _ Hx) as [_ U], (In_bounds _ _ Hy) as [L _].
  exact (ltb_leb_trans _ _ _ (leb_ltb_trans _ _ _ U H) L).
Qed.

Theorem cieval_sound (env : list float) (ienv : list itv) (c : cascade) (T : itv) :
  Forall2 In env ienv -> cieval ienv c T = true -> In (ceval env c) T.
Proof.
  intros He. induction c as [e|a b t IHt f IHf|a b t IHt f IHf]; cbn [cieval ceval].
  - destruct (ieval ienv e) as [I|] eqn:E; [|discriminate].
    intros H. apply andb_true_iff in H. destruct H as [H1 H2].
    destruct (ieval_sound env ienv e I He E) as [Hin _].
    exact (In_weaken _ _ _ Hin H1 H2).
  - destruct (ieval ienv a) as [A|] eqn:Ea; [|discriminate].
    destruct (ieval ienv b) as [B|] eqn:Eb; [|discriminate].
    destruct (ieval_sound env ienv a A He Ea) as [Ha _].
    destruct (ieval_sound env ienv b B He Eb) as [Hb _].
    destruct (hi A <=? lo B) eqn:T1.
    { rewrite (separated_leb _ _ _ _ Ha Hb T1). exact IHt. }
    destruct (hi B <? lo A) eqn:T2.
    { rewrite (ltb_not_leb _ _ (separated_ltb _ _ _ _ Hb Ha T2)). exact IHf. }
    intros H. apply andb_true_iff in H. destruct H as [H1 H2].
    destruct (eval env a <=? eval env b); auto.
  - destruct (ieval ienv a) as [A|] eqn:Ea; [|discriminate].
    destruct (ieval ienv b) as [B|] eqn:Eb; [|discriminate].
    destruct (ieval_sound env ienv a A He Ea) as [Ha _].
    destruct (ieval_sound env ienv b B He Eb) as [Hb _].
    destruct (hi A <? lo B) eqn:T1.
    { rewrite (separated_ltb _ _ _ _ Ha Hb T1). exact IHt. }
    destruct (hi B <=? lo A) eqn:T2.
    { rewrite (leb_not_ltb _ _ (separated_leb _ _ _ _ Hb Ha T2)). exact IHf. }
    intros H. apply andb_true_iff in H. destruct H as [H1 H2].
    destruct (eval env a <? eval env b); auto.
Qed.

Theorem bisect_sound (d : nat) (c : cascade) (T : itv) :
  forall (J : itv) (x : float),
    bisect d c T J = true -> In x J -> In (ceval [x] c) T.
Proof.
  induction d as [|d IH]; intros J x H Hx; cbn [bisect] in H;
    apply orb_true_iff in H; destruct H as [H|H];
    try (apply (cieval_sound [x] [J] c T); [repeat constructor; exact Hx|exact H]);
    [discriminate H|].
  cbv zeta in H.
  set (mid := (lo J + hi J) * 0.5) in *.
  apply andb_true_iff in H. destruct H as [H H2].
  apply andb_true_iff in H. destruct H as [H H1].
  apply andb_true_iff in H. destruct H as [L U].
  destruct (In_bounds _ _ Hx) as [Lx Ux].
  destruct (x <=? mid) eqn:E.
  - apply (IH (mk_itv (lo J) mid)); [exact H1|]. apply In_of_leb; assumption.
  - apply (IH (mk_itv mid (hi J))); [exact H2|]. apply In_of_leb; [|exact Ux].
    apply ltb_leb. apply not_leb_ltb; [| |exact E].
    + apply leb_ord in Lx. tauto.
    + apply leb_ord in L. tauto.
Qed.

Lemma ceval_cbind (env : list float) (k : expr -> cascade) (g : float -> float) :
  (forall e, ceval env (k e) = g (eval env e)) ->
  forall c, ceval env (cbind c k) = g (ceval env c).
Proof.
  intros Hk. induction c as [e|a b t IHt f IHf|a b t IHt f IHf]; cbn [cbind ceval].
  - apply Hk.
  - destruct (eval env a <=? eval env b); assumption.
  - destruct (eval env a <? eval env b); assumption.
Qed.


(** * The complete integrals on the polynomials *)

Lemma ceval_csum_diff (env : list float) (cb cd ck : cascade) :
  ceval env (csum_diff cb cd ck) = ceval env cb + ceval env cd - ceval env ck.
Proof.
  unfold csum_diff.
  rewrite (ceval_cbind env _ (fun b => b + ceval env cd - ceval env ck)); [reflexivity|].
  intros b.
  rewrite (ceval_cbind env _ (fun d => eval env b + d - ceval env ck)); [reflexivity|].
  intros d.
  rewrite (ceval_cbind env _ (fun k => eval env b + eval env d - k)); [reflexivity|].
  intros k. reflexivity.
Qed.

Lemma EllipticK_enclosure (X : Externals) (mc : float) :
  In mc (mk_itv 0.1 1) -> In (EllipticK X mc) (mk_itv 1.57 2.579).
Proof.
  intros Hmc. unfold EllipticK. cbv zeta. unfold TINY.
  destruct (abs (1.0 - mc) <? 1.0e-16); [reflexivity|].
  rewrite (In_not_ltb_lo mc _ 1.0e-99 Hmc eq_refl).
  rewrite (In_not_ltb_lo mc _ 1.11e-16 Hmc eq_refl).
  rewrite (In_not_ltb_lo mc _ 0.1 Hmc eq_refl).
  match goal with
  | |- In ?t ?T =>
      let c := reify_cascade (mc :: nil) t in
      change (In (ceval [mc] c) T);
      apply (bisect_sound 16 c T (mk_itv 0.1 1) mc)
  end.
  - vm_compute; reflexivity.
  - exact Hmc.
Qed.

(** X13: for [mc] from 0.1 to 1, where it evaluates polynomials in [m],
    [EllipticK(mc)] lies between 1.57 and 2.579. *)
Theorem EllipticK_range (X : Externals) (mc : float) :
  In mc (mk_itv 0.1 1) -> In (EllipticK X mc) (mk_itv 1.57 2.579).
Proof. exact (EllipticK_enclosure X mc). Qed.

Lemma EllipticK_range_witness :
  In (EllipticK sample_externals 0.5) (mk_itv 1.57 2.579).
Proof.
  apply (EllipticK_range sample_externals 0.5). reflexivity.
Defined.

(** On [0.1, 1], the first test of [FukushimaEllipticBD] succeeds at
    [mc = 1] only. *)
Lemma BD_first_test (mc : float) :
  In mc (mk_itv 0.1 1) ->
  ((1.0 - mc <? 1.11e-16) = true -> mc = 1.0)
  /\ ((1.0 - mc <? 1.11e-16) = false -> (abs (1.0 - mc) <? 1.0e-16) = false).
Proof.
  intros Hmc.
  interval_of (mc :: nil) (mk_itv 0.1 1 :: nil) (1.0 - mc).
  destruct Hitv as [Hm _]. set (m := 1.0 - mc) in *.
  destruct (In_bounds _ _ Hm) as [L U]. cbn [lo hi] in L, U.
  split; intros H.
  - symmetry. apply cache_test_eq. fold m.
    apply ltb_ord in H. destruct H as (N1 & N2 & H).
    apply leb_ord in L. destruct L as (_ & _ & L).
    apply ltb_ord. split; [rewrite abs_Fnan; exact N1|]. split; [reflexivity|].
    rewrite abs_Ford.
    replace (Ford (1.11e-16 * 1.0)) with (Ford 1.11e-16) by (vm_compute; reflexivity).
    replace (Ford 0) with 0%Z in L by (vm_compute; reflexivity).
    lia.
  - assert (Hm' : In m (mk_itv 1.11e-16 1)).
    { apply In_of_leb; [|eapply leb_trans; [exact U|reflexivity]].
      apply leb_ord in L. destruct L as (_ & N & _).
      destruct (1.11e-16 <=? m) eqn:E; [reflexivity|].
      apply not_leb_ltb in E; [congruence|reflexivity|exact N]. }
    eapply In_not_abs_ltb; [exact Hm'|reflexivity].
Qed.

(** X14: for [mc] from 0.1 to 1, the sum of the two integrals that
    [FukushimaEllipticBD] returns is the integral that [EllipticK] returns,
    within [1e-3]: the three families of polynomials agree with the
    identity B + D = K. *)
Theorem FukushimaEllipticBD_sum (X : Externals) (mc : float) :
  In mc (mk_itv 0.1 1) ->
  In (fst (FukushimaEllipticBD X mc) + snd (FukushimaEllipticBD X mc)
      - EllipticK X mc)
     (mk_itv (-1.0e-3) 1.0e-3).
Proof.
  intros Hmc. destruct (BD_first_test mc Hmc) as [H1 H0].
  unfold FukushimaEllipticBD, EllipticK. cbv zeta. unfold TINY.
  destruct (1.0 - mc <? 1.11e-16).
  { rewrite (H1 eq_refl). vm_compute. reflexivity. }
  rewrite (H0 eq_refl).
  rewrite (In_not_ltb_lo mc _ 1.0e-99 Hmc eq_refl).
  rewrite (In_not_ltb_lo mc _ 1.11e-16 Hmc eq_refl).
  rewrite (In_not_ltb_lo mc _ 0.1 Hmc eq_refl).
  match goal with
  | |- In (fst ?bd + snd ?bd - ?k) ?T =>
      let cb := reify_cascade_fst (mc :: nil) bd in
      let cd := reify_cascade_snd (mc :: nil) bd in
      let ck := reify_cascade (mc :: nil) k in
      assert (Eb : fst bd = ceval [mc] cb)
        by (cbn [ceval eval nth];
            repeat match goal with
                   | |- context [if ?c then _ else _] => destruct c
                   end; reflexivity);
      assert (Ed : snd bd = ceval [mc] cd)
        by (cbn [ceval eval nth];
            repeat match goal with
                   | |- context [if ?c then _ else _] => destruct c
                   end; reflexivity);
      change k with (ceval [mc] ck);
      rewrite Eb, Ed, <- ceval_csum_diff;
      apply (bisect_sound 14 (csum_diff cb cd ck) T (mk_itv 0.1 1) mc)
  end.
  - vm_compute; reflexivity.
  - exact Hmc.
Qed.

Lemma FukushimaEllipticBD_sum_witness :
  In (fst (FukushimaEllipticBD sample_externals 0.5)
      + snd (FukushimaEllipticBD sample_externals 0.5)
      - EllipticK sample_externals 0.5)
     (mk_itv (-1.0e-3) 1.0e-3).
Proof.
  apply (FukushimaEllipticBD_sum sample_externals 0.5). reflexivity.
Defined.

(** X15: for [mc] from 0.1 to 1, the two integrals that
    [FukushimaEllipticBD] returns lie between 0.785 and 0.942 for the
    first, between 0.785 and 1.638 for the second. *)
Theorem FukushimaEllipticBD_range (X : Externals) (mc : float) :
  In mc (mk_itv 0.1 1) ->
  In (fst (FukushimaEllipticBD X mc)) (mk_itv 0.785 0.942)
  /\ In (snd (FukushimaEllipticBD X mc)) (mk_itv 0.785 1.638).
Proof.
  intros Hmc.
  unfold FukushimaEllipticBD. cbv zeta.
  destruct (1.0 - mc <? 1.11e-16).
  { split; reflexivity. }
  rewrite (In_not_ltb_lo mc _ 1.11e-16 Hmc eq_refl).
  rewrite (In_not_ltb_lo mc _ 0.1 Hmc eq_refl).
  match goal with
  | |- In (fst ?bd) ?Tb /\ In (snd ?bd) ?Td =>
      let cb := reify_cascade_fst (mc :: nil) bd in
      let cd := reify_cascade_snd (mc :: nil) bd in
      assert (Eb : fst bd = ceval [mc] cb)
        by (cbn [ceval eval nth];
            repeat match goal with
                   | |- context [if ?c then _ else _] => destruct c
                   end; reflexivity);
      assert (Ed : snd bd = ceval [mc] cd)
        by (cbn [ceval eval nth];
            repeat match goal with
                   | |- context [if ?c then _ else _] => destruct c
                   end; reflexivity);
      rewrite Eb, Ed; split;
      [ apply (bisect_sound 16 cb Tb (mk_itv 0.1 1) mc)
      | apply (bisect_sound 16 cd Td (mk_itv 0.1 1) mc) ]
  end; try exact Hmc; vm_compute; reflexivity.
Qed.

Lemma FukushimaEllipticBD_range_witness :
  In (fst (FukushimaEllipticBD sample_externals 0.5)) (mk_itv 0.785 0.942)
  /\ In (snd (FukushimaEllipticBD sample_externals 0.5)) (mk_itv 0.785 1.638).
Proof.
  apply (FukushimaEllipticBD_range sample_externals 0.5). reflexivity.
Defined.


(** * Where [Gscd] is defined *)

(** X16: for [mc] from 0.1 to 1 and [u] up to [1e10] in absolute value,
    [Gscd(u, mc)] returns, whatever calls of [elk] were made before: [elk(mc)]
    is between 1.57 and 2.579, and the quotient that is converted to [int] is
    below [2^31].  The value of [atan(1.0)*2.0], which [elk] returns at
    [mc = 1], is taken to be [π / 2]. *)
Theorem Gscd_defined
    (X : Externals) (st : elk_saved) (mcs : list float) (u mc : float) :
  elk_first st = true ->
  ext_atan X 1.0 * 2.0 = π / 2 ->
  In mc (mk_itv 0.1 1) -> In (abs u) (mk_itv 0 1.0e10) ->
  exists r, Gscd X (elk_calls X st mcs) u mc = Some r.
Proof.
  intros H Hpi Hmc Hu.
  destruct (Gscd X (elk_calls X st mcs) u mc) as [r|] eqn:E; [exists r; reflexivity|].
  exfalso. apply Gscd_None in E. destruct E as [_ E].
  apply static_cast_int_None in E.
  pose proof (elk_calls_settled X st mcs (or_introl H)) as H1.
  rewrite (proj2 (elk_settles X _ mc H1)) in E.
  rewrite (elk_value_EllipticK X mc (or_introl Hpi)) in E.
  2:{ left. eapply In_not_ltb_lo; [exact Hmc|reflexivity]. }
  pose proof (EllipticK_enclosure X mc Hmc) as Hk.
  set (k := EllipticK X mc) in *. clearbody k.
  set (ux := abs u) in *. clearbody ux.
  interval_of (ux :: k :: nil) (mk_itv 0 1.0e10 :: mk_itv 1.57 2.579 :: nil)
              (ux / (k * 4.0)).
  destruct Hitv as [Hq _].
  rewrite (In_ltb_lo _ _ (-2147483649) Hq eq_refl) in E.
  rewrite (In_ltb_hi _ _ 2147483648 Hq eq_refl) in E.
  discriminate E.
Qed.

Lemma Gscd_defined_witness :
  exists r, Gscd (externals_with_atan (π / 4))
              (elk_calls (externals_with_atan (π / 4))
                         (elk_saved_at_start 0 0 0 0 0) [0.25; 0.5])
              (-12345.5) 0.5 = Some r.
Proof.
  apply (Gscd_defined (externals_with_atan (π / 4))
           (elk_saved_at_start 0 0 0 0 0) [0.25; 0.5] (-12345.5) 0.5); reflexivity.
Defined.


(** * The three functions below 0.785 *)

Lemma Scd2_halve_enclosure (k : nat) :
  forall (I : itv) (l : float), halve_check k I l = true ->
  forall (trips n : nat) (uT u0 : float),
    (l <=? uT) = true -> In u0 I -> (k < trips)%nat ->
    exists (j : nat) (J : itv),
      (j <= k)%nat /\ fst (Scd2_halve trips n uT u0) = (n + j)%nat
      /\ halved j I = Some J /\ In (snd (Scd2_halve trips n uT u0)) J.
Proof.
  induction k as [|k IH]; intros I l Hc trips n uT u0 Hl Hu Ht;
    (destruct trips as [|trips]; [lia|]); cbn [Scd2_halve halve_check] in *.
  - assert (T : (u0 <? uT) = true).
    { eapply ltb_leb_trans; [|exact Hl]. eapply In_ltb_hi; [exact Hu|exact Hc]. }
    rewrite T. cbn [fst snd]. exists O, I. repeat split; [lia|lia|exact Hu].
  - destruct (u0 <? uT) eqn:T; cbn [fst snd].
    { exists O, I. repeat split; [lia|lia|exact Hu]. }
    destruct (ieval [I] (EMul (EVar 0) (ECst 0.5))) as [J|] eqn:EJ; [|discriminate].
    assert (HJ : In (u0 * 0.5) J).
    { refine (proj1 (ieval_sound' [u0] [I] (EMul (EVar 0) (ECst 0.5)) J (u0 * 0.5) _ eq_refl EJ)).
      constructor; [exact Hu|constructor]. }
    destruct (IH J l Hc trips (S n) uT (u0 * 0.5) Hl HJ ltac:(lia))
      as (j & J' & A & B & C & D).
    exists (S j), J'. split; [lia|]. split; [lia|]. split; [|exact D].
    cbn [halved]. rewrite EJ. exact C.
Qed.

Lemma duplicate_enclosure_sound (n : nat) :
  forall (Im Ia Ib Q : itv) (m a b : float),
    duplicate_enclosure n Im Ia Ib = Some Q ->
    In m Im -> In a Ia -> In b Ib ->
    exists q, In q Q
      /\ Scd2_duplicate n m a b
         = (sqrt (q * (2.0 - q)), 1.0 - q, sqrt (1.0 - m * (q * (2.0 - q)))).
Proof.
  induction n as [|n IH]; intros Im Ia Ib Q m a b E Hm Ha Hb;
    cbn [duplicate_enclosure] in E; cbn [Scd2_duplicate].
  - exists (b / a). split; [|reflexivity].
    refine (proj1 (ieval_sound' [a; b] [Ia; Ib] (EDiv (EVar 1) (EVar 0)) Q (b / a) _ eq_refl E)).
    repeat constructor; assumption.
  - destruct (ieval [Im; Ia; Ib] Scd2_b_expr) as [Ib'|] eqn:Eb; [|discriminate].
    destruct (ieval [Im; Ia; Ib] Scd2_a_expr) as [Ia'|] eqn:Ea; [|discriminate].
    assert (Henv : Forall2 In [m; a; b] [Im; Ia; Ib])
      by (repeat constructor; assumption).
    cbv zeta. apply (IH Im Ia' Ib' Q); [exact E|exact Hm| |].
    + exact (proj1 (ieval_sound' _ _ Scd2_a_expr _ _ Henv eq_refl Ea)).
    + exact (proj1 (ieval_sound' _ _ Scd2_b_expr _ _ Henv eq_refl Eb)).
Qed.

(** For [u] in [0, 0.785] and [mc] in [0, 1], [scd2] makes at most eight
    duplications, all in the loop of the branch [u < uA], and the [b/a] it
    ends with is in [0, 0.319]. *)
Lemma Scd2_enclosure (u mc : float) :
  In u (mk_itv 0 0.785) -> In mc (mk_itv 0 1) ->
  exists q, In q (mk_itv 0 0.319)
    /\ Scd2 u mc
       = (sqrt (q * (2.0 - q)), 1.0 - q,
          sqrt (1.0 - (1.0 - mc) * (q * (2.0 - q)))).
Proof.
  intros Hu Hmc. unfold Scd2. cbv zeta.
  assert (Hm : In (1.0 - mc) (mk_itv 0 1)) by now apply one_minus_unit.
  set (m := 1.0 - mc) in *.
  assert (Hl : (3.07e-3 <=? 5.217e-3 - m * 2.143e-3) = true).
  { interval_of (m :: nil) (mk_itv 0 1 :: nil) (5.217e-3 - m * 2.143e-3).
    eapply In_leb_lo; [exact (proj1 Hitv)|reflexivity]. }
  destruct (Scd2_halve_enclosure 8 (mk_itv 0 0.785) 3.07e-3 eq_refl 21 0 _ u Hl Hu
              ltac:(lia)) as (j & J & Hj & Hn & HJ & Hu0).
  destruct (Scd2_halve 21 0 (5.217e-3 - m * 2.143e-3) u) as [n u0].
  cbn [fst snd] in Hn, Hu0. cbn [Nat.add] in Hn. subst n.
  assert (A : (u <? 1.76269 + mc * 1.16357) = true).
  { interval_of (mc :: nil) (mk_itv 0 1 :: nil) (1.76269 + mc * 1.16357).
    eapply ltb_leb_trans; [|exact (In_leb_lo _ _ 1.7 (proj1 Hitv) eq_refl)].
    eapply In_ltb_hi; [exact Hu|reflexivity]. }
  rewrite A.
  assert (C : Scd2_check 8 (mk_itv 0 1) (mk_itv 0 0.785) (mk_itv 0 0.319) = true)
    by (vm_compute; reflexivity).
  unfold Scd2_check in C. rewrite forallb_forall in C.
  specialize (C j ltac:(apply in_seq; lia)). cbv beta in C. rewrite HJ in C.
  destruct (ieval [mk_itv 0 1; J] Scd2_series_expr) as [Ib|] eqn:Eb; [|discriminate].
  destruct (duplicate_enclosure j (mk_itv 0 1) (mk_itv 1.0 1.0) Ib) as [Q|] eqn:EQ;
    [|discriminate].
  apply andb_true_iff in C. destruct C as [C1 C2].
  destruct (duplicate_enclosure_sound j (mk_itv 0 1) (mk_itv 1.0 1.0) Ib Q m 1.0
              (u0 * u0 * (0.5 - u0 * u0 * (scd2_constants.B10 + m * scd2_constants.B11
                 - u0 * u0 * (scd2_constants.B20
                              + m * (scd2_constants.B21 + m * scd2_constants.B22)))))
              EQ Hm eq_refl) as (q & Hq & Eq).
  { refine (proj1 (ieval_sound' [m; u0] [mk_itv 0 1; J] Scd2_series_expr Ib _ _ eq_refl Eb)).
    repeat constructor; assumption. }
  exists q. split; [|exact Eq].
  eapply In_weaken; [exact Hq|exact C1|exact C2].
Qed.

Lemma abs_below (u c : float) : (abs u <? c) = true -> In (abs u) (mk_itv 0 c).
Proof.
  intros H. apply ltb_ord in H. destruct H as (N & Nc & H).
  apply In_intro; cbn [lo hi]; [reflexivity|exact N|exact Nc| |lia].
  rewrite Ford_zero, abs_Ford. lia.
Qed.

Lemma Scd2_square_sum (q : float) :
  In q (mk_itv 0 0.319) ->
  In (sqrt (q * (2.0 - q)) * sqrt (q * (2.0 - q)) + (1.0 - q) * (1.0 - q))
     (mk_itv 0.99999 1.00001).
Proof.
  intros Hq.
  match goal with
  | |- In ?t ?T =>
      let c := reify_cascade (q :: nil) t in
      change (In (ceval [q] c) T);
      apply (bisect_sound 19 c T (mk_itv 0 0.319) q)
  end.
  - vm_compute; reflexivity.
  - exact Hq.
Qed.

(** X17: for [|u|] below 0.785 and [mc] in [0, 1], [Gscd] returns without
    calling [elk] (the saved variables are as it found them), what it
    returns for [u] and for [-u] differs by the sign of [s] only, and the
    three values are numbers: [|s|] is at most 0.8, [c] and [d] are in
    [0.68, 1] and [0.6, 1], and [s*s + c*c] is 1 within a hundred-thousandth. *)
Theorem Gscd_below_0_785 (X : Externals) (st : elk_saved) (u mc : float) :
  (abs u <? 0.785) = true -> In mc (mk_itv 0 1) ->
  exists s c d,
    Gscd X st u mc = Some (if u <? 0.0 then - s else s, c, d, st)
    /\ Gscd X st (- u) mc = Some (if - u <? 0.0 then - s else s, c, d, st)
    /\ In s (mk_itv 0 0.8) /\ In c (mk_itv 0.68 1) /\ In d (mk_itv 0.6 1)
    /\ In (s * s + c * c) (mk_itv 0.99999 1.00001).
Proof.
  intros Hu Hmc.
  destruct (Scd2_enclosure (abs u) mc (abs_below u 0.785 Hu) Hmc) as (q & Hq & E).
  assert (Hm : In (1.0 - mc) (mk_itv 0 1)) by now apply one_minus_unit.
  exists (sqrt (q * (2.0 - q))), (1.0 - q),
         (sqrt (1.0 - (1.0 - mc) * (q * (2.0 - q)))).
  split; [|split].
  - unfold Gscd. cbv zeta. rewrite Hu, E. reflexivity.
  - unfold Gscd. cbv zeta. rewrite abs_opp, Hu, E. reflexivity.
  - set (m := 1.0 - mc) in *.
    repeat split.
    + interval_of (q :: nil) (mk_itv 0 0.319 :: nil) (sqrt (q * (2.0 - q))).
      eapply In_weaken; [exact (proj1 Hitv)| |]; reflexivity.
    + interval_of (q :: nil) (mk_itv 0 0.319 :: nil) (1.0 - q).
      eapply In_weaken; [exact (proj1 Hitv)| |]; reflexivity.
    + interval_of (m :: q :: nil) (mk_itv 0 1 :: mk_itv 0 0.319 :: nil)
                  (sqrt (1.0 - m * (q * (2.0 - q)))).
      eapply In_weaken; [exact (proj1 Hitv)| |]; reflexivity.
    + exact (Scd2_square_sum q Hq).
Qed.

Lemma Gscd_below_0_785_witness :
  exists s c d,
    Gscd sample_externals elk_saved_sample (- 0.5) 0.5
    = Some (if - 0.5 <? 0.0 then - s else s, c, d, elk_saved_sample)
    /\ Gscd sample_externals elk_saved_sample (- - 0.5) 0.5
       = Some (if - - 0.5 <? 0.0 then - s else s, c, d, elk_saved_sample)
    /\ In s (mk_itv 0 0.8) /\ In c (mk_itv 0.68 1) /\ In d (mk_itv 0.6 1)
    /\ In (s * s + c * c) (mk_itv 0.99999 1.00001).
Proof.
  apply (Gscd_below_0_785 sample_externals elk_saved_sample (- 0.5) 0.5); reflexivity.
Defined.


(** * The tables of the Maclaurin series *)

Ltac table_entry :=
  split;
  [ reflexivity
  | first
      [ split; [intros _ E; discriminate E|intros _; vm_compute; reflexivity]
      | split; [intros H; vm_compute in H; discriminate H|intros H; elim H; reflexivity] ] ].

(** X18: each coefficient [Fkj] of [FukushimaEllipticBsDsMaclaurinSeries]
    is the quotient of two integer literals, and the quotient is the
    coefficient of [m^j y^k] in the expansion of
    [1 / sqrt((1 - y) (1 - m y))] divided by [2 k + 1], for every entry of the
    table but one: [F82] is [2722 / 557056], where the expansion gives
    [2772 / 557056]. *)
Theorem BsDsMaclaurin_coefficients :
  Forall (fun '(k, j, P, Q, f) =>
            f = integer_literal P / integer_literal Q
            /\ (F_expansion k j P Q <-> (k, j) <> (8, 2)%nat))
         F_table
  /\ F_expansion 8 2 2772 557056.
Proof.
  split; [|vm_compute; reflexivity].
  unfold F_table, F_entry. repeat (apply Forall_cons; [table_entry|]). apply Forall_nil.
Qed.

(** X19: each coefficient [Jkca] of [FukushimaEllipticJsMaclaurinSeries] is
    the quotient of two integer literals, and the quotient is the coefficient
    of [m^c n^a y^(k - 1)] in the expansion of
    [1 / ((1 - n y) sqrt((1 - y) (1 - m y)))] divided by [2 k + 1], for every
    entry of the table but one: [J824] is [284 / 34816], where the expansion
    gives [384 / 34816]. *)
Theorem JsMaclaurin_coefficients :
  Forall (fun '(k, c, a, P, Q, f) =>
            f = integer_literal P / integer_literal Q
            /\ (J_expansion k c a P Q <-> (k, c, a) <> (8, 2, 4)%nat))
         J_table
  /\ J_expansion 8 2 4 384 34816.
Proof.
  split; [|vm_compute; reflexivity].
  unfold J_table, J_entry. repeat (apply Forall_cons; [table_entry|]). apply Forall_nil.
Qed.

Close Scope float_scope.

(** * Approximate quantities: the error of a literal *)

Section Parse.

Import Ascii String.
#[local] Open Scope string_scope.

Lemma last_digit_position_Some (hex : bool) (s : string) (p : nat) :
last_digit_position hex s = Some p ->
(p < mantissa_length hex s)%nat
/\ (exists c, get p s = Some c /\ is_digit hex c = true)
/\ (forall j c, (p < j < mantissa_length hex s)%nat ->
                get j s = Some c -> is_digit hex c = false).
Proof.
revert p. induction s as [|c s IH]; intros p; cbn [last_digit_position mantissa_length];
  [discriminate|].
destruct (is_digit hex c) eqn:D.
- destruct (last_digit_position hex s) as [q|] eqn:L.
  + intros H. injection H as <-. destruct (IH q eq_refl) as (A & B & C).
    split; [lia|]. split; [exact B|].
    intros [|j] c' Hj; [lia|]. cbn [get]. apply C. lia.
  + intros H. injection H as <-. split; [lia|]. split; [exists c; split; [reflexivity|exact D]|].
    intros [|j] c' Hj; [lia|]. cbn [get]. intros G.
    clear IH. revert j Hj G L. generalize s. clear.
    induction s as [|a s IH]; intros j Hj G L; [destruct j; discriminate G|].
    cbn [last_digit_position mantissa_length] in *.
    destruct (is_digit hex a) eqn:Da.
    { destruct (last_digit_position hex s); discriminate L. }
    destruct (is_exponent hex a); [lia|].
    destruct j as [|j]; cbn [get] in G.
    * injection G as <-. exact Da.
    * apply (IH j); [lia|exact G|].
      destruct (last_digit_position hex s); [discriminate L|reflexivity].
- destruct (is_exponent hex c); [discriminate|].
  destruct (last_digit_position hex s) as [q|] eqn:L; [|discriminate].
  intros H. injection H as <-. destruct (IH q eq_refl) as (A & B & C).
  split; [lia|]. split; [exact B|].
  intros [|j] c' Hj; [lia|]. cbn [get]. apply C. lia.
Qed.

Lemma last_digit_position_None (hex : bool) (s : string) :
last_digit_position hex s = None
<-> (forall k c, (k < mantissa_length hex s)%nat ->
                 get k s = Some c -> is_digit hex c = false).
Proof.
induction s as [|a s IH]; cbn [last_digit_position mantissa_length].
- split; [intros _ k c Hk; lia|reflexivity].
- destruct (is_digit hex a) eqn:Da.
  + split.
    * destruct (last_digit_position hex s); discriminate.
    * intros H. specialize (H O a ltac:(lia) eq_refl). congruence.
  + destruct (is_exponent hex a).
    * split; [intros _ k c Hk; lia|reflexivity].
    * destruct (last_digit_position hex s) as [q|]; cbn [option_map].
      -- split; [discriminate|]. intros H.
         assert (E : Some q = @None nat); [|discriminate E].
         apply IH. intros k c Hk G. apply (H (S k) c); [lia|exact G].
      -- split; [|reflexivity]. intros _ [|k] c Hk; cbn [get].
         ++ intros G. injection G as <-. exact Da.
         ++ apply (proj1 IH eq_refl). lia.
Qed.

(** What the loop makes of the string, and the index it records. *)
Lemma Parse_loop_spec (hex : bool) (s : string) :
forall (i : nat) (last : option nat),
  match Parse_loop hex i s last with
  | None => last = None /\ last_digit_position hex s = None
  | Some (r, l) =>
      length r = length s
      /\ l = match last_digit_position hex s with
             | Some p => Some (i + p)%nat
             | None => last
             end
      /\ forall k,
           get k r
           = match get k s with
             | None => None
             | Some c =>
                 Some (if (k <? mantissa_length hex s)%nat && is_digit hex c
                       then "0"%char else c)
             end
  end.
Proof.
induction s as [|c s IH]; intros i last.
- cbn. repeat split.
- cbn [Parse_loop last_digit_position mantissa_length].
  destruct (char_between "1" "9" c) eqn:D1.
  { assert (D : is_digit hex c = true) by (unfold is_digit; rewrite D1; reflexivity).
    rewrite D.
    specialize (IH (S i) (Some i)).
    destruct (Parse_loop hex (S i) s (Some i)) as [[r l]|]; [|destruct IH; discriminate].
    destruct IH as (A & B & C). cbn [length]. split; [congruence|]. split.
    - rewrite B. destruct (last_digit_position hex s); f_equal; lia.
    - intros [|k]; cbn [get].
      + rewrite D. reflexivity.
      + rewrite C. reflexivity. }
  destruct (hex && (char_between "a" "f" c || char_between "A" "F" c)) eqn:D2.
  { assert (D : is_digit hex c = true) by (unfold is_digit; rewrite D1, D2; reflexivity).
    rewrite D.
    specialize (IH (S i) (Some i)).
    destruct (Parse_loop hex (S i) s (Some i)) as [[r l]|]; [|destruct IH; discriminate].
    destruct IH as (A & B & C). cbn [length]. split; [congruence|]. split.
    - rewrite B. destruct (last_digit_position hex s); f_equal; lia.
    - intros [|k]; cbn [get].
      + rewrite D. reflexivity.
      + rewrite C. reflexivity. }
  assert (D : is_digit hex c = false) by (unfold is_digit; rewrite D1, D2; reflexivity).
  rewrite D.
  fold (is_exponent hex c).
  destruct (is_exponent hex c) eqn:E.
  { destruct last as [q|]; [|split; reflexivity].
    split; [reflexivity|]. split; [reflexivity|].
    intros k. destruct (get k (String c s)); reflexivity. }
  specialize (IH (S i) last).
  destruct (Parse_loop hex (S i) s last) as [[r l]|].
  + destruct IH as (A & B & C). cbn [length]. split; [congruence|]. split.
    * rewrite B. destruct (last_digit_position hex s); cbn [option_map];
        [f_equal; lia|reflexivity].
    * intros [|k]; cbn [get].
      -- rewrite D, andb_false_r. reflexivity.
      -- rewrite C. reflexivity.
  + destruct IH as [A B]. split; [exact A|]. rewrite B. reflexivity.
Qed.

Lemma get_string_set (p : nat) (c : ascii) (s : string) :
(p < length s)%nat ->
length (string_set p c s) = length s
/\ forall k, get k (string_set p c s) = if (k =? p)%nat then Some c else get k s.
Proof.
revert p. induction s as [|a s IH]; intros p Hp; cbn [length] in Hp; [lia|].
destruct p as [|p]; cbn [string_set length].
- split; [reflexivity|]. intros [|k]; reflexivity.
- destruct (IH p ltac:(lia)) as [A B]. split; [congruence|].
  intros [|k]; cbn [get]; [reflexivity|]. rewrite B. reflexivity.
Qed.

Lemma mantissa_length_le (hex : bool) (s : string) :
(mantissa_length hex s <= length s)%nat.
Proof.
induction s as [|a s IH]; cbn [mantissa_length length]; [lia|].
destruct (is_digit hex a); [lia|]. destruct (is_exponent hex a); lia.
Qed.

(** X20: [Parse] fails, on a [CHECK] or on the read of an empty
  [std::optional], exactly when the mantissa of the literal holds no digit
  other than [0], or when [ulp] exceeds 9 and the literal is not
  hexadecimal (or ['A' + ulp] overflows). *)
Theorem Parse_fails (strtod : string -> float) (representation : string) (ulp : Z) :
let hex := is_hexadecimal representation in
Parse strtod representation ulp = None
<-> (forall k c, (k < mantissa_length hex representation)%nat ->
                 get k representation = Some c -> is_digit hex c = false)
    \/ ((9 < ulp)%Z /\ (hex = false \/ (2147483647 < 65 + ulp)%Z)).
Proof.
intros hex. rewrite <- last_digit_position_None.
unfold Parse, Parse_error_representation. cbv zeta. fold hex.
pose proof (Parse_loop_spec hex representation O None) as H.
destruct (Parse_loop hex 0 representation None) as [[r l]|].
- destruct H as (_ & B & _).
  destruct (Z.leb_spec ulp 9) as [Hu|Hu].
  + destruct (last_digit_position hex representation) as [p|]; subst l.
    * split; [discriminate|]. intros [H|[H _]]; [discriminate H|lia].
    * split; [intros _; left; reflexivity|reflexivity].
  + destruct hex.
    * destruct (Z.ltb_spec 2147483647 (65 + ulp)) as [Ho|Ho].
      -- split; [intros _; right; split; [lia|right; exact Ho]|reflexivity].
      -- destruct (last_digit_position true representation) as [p|]; subst l.
         ++ split; [discriminate|]. intros [H|[_ [H|H]]]; [discriminate H|discriminate H|lia].
         ++ split; [intros _; left; reflexivity|reflexivity].
    * split; [intros _; right; split; [lia|left; reflexivity]|reflexivity].
- destruct H as [_ H]. split; [intros _; left; exact H|reflexivity].
Qed.

(** X21: when [Parse] returns, the string it reads the error from has the
  length of the literal and is the literal with each digit of the mantissa
  other than [0] replaced: the last of them by the character of [ulp],
  the others by [0].  The character [0] does not count for a digit: the
  ulps go to the last digit that is not [0], whatever zeroes follow it. *)
Theorem Parse_error_representation_spec
  (representation : string) (ulp : Z) (error_representation : string) :
let hex := is_hexadecimal representation in
Parse_error_representation representation ulp = Some error_representation ->
exists p,
  ((p < mantissa_length hex representation)%nat
   /\ (exists c, get p representation = Some c /\ is_digit hex c = true)
   /\ (forall j c, (p < j < mantissa_length hex representation)%nat ->
                   get j representation = Some c -> is_digit hex c = false))
  /\ length error_representation = length representation
  /\ forall k,
       get k error_representation
       = match get k representation with
         | None => None
         | Some c =>
             Some (if (k =? p)%nat then ulp_char ulp
                   else if (k <? mantissa_length hex representation)%nat
                           && is_digit hex c
                        then "0"%char else c)
         end.
Proof.
intros hex. unfold Parse_error_representation. cbv zeta. fold hex.
pose proof (Parse_loop_spec hex representation O None) as H.
destruct (Parse_loop hex 0 representation None) as [[r l]|]; [|discriminate].
destruct H as (A & B & C).
assert (K : forall ch, l <> None ->
            match l with
            | Some k => Some (string_set k ch r)
            | None => None
            end = Some error_representation ->
            ulp_char ulp = ch ->
            exists p,
              ((p < mantissa_length hex representation)%nat
               /\ (exists c, get p representation = Some c /\ is_digit hex c = true)
               /\ (forall j c, (p < j < mantissa_length hex representation)%nat ->
                     get j representation = Some c -> is_digit hex c = false))
              /\ length error_representation = length representation
              /\ forall k,
                   get k error_representation
                   = match get k representation with
                     | None => None
                     | Some c =>
                         Some (if (k =? p)%nat then ulp_char ulp
                               else if (k <? mantissa_length hex representation)%nat
                                       && is_digit hex c
                                    then "0"%char else c)
                     end).
{ intros ch _ E Hch.
  destruct (last_digit_position hex representation) as [p|] eqn:L; subst l; [|discriminate E].
  injection E as <-. cbn [Nat.add].
  destruct (last_digit_position_Some hex representation p L) as (P1 & P2 & P3).
  pose proof (mantissa_length_le hex representation) as Hle.
  destruct (get_string_set p ch r ltac:(lia)) as [S1 S2].
  exists p. split; [repeat split; assumption|]. split; [congruence|].
  intros k. rewrite S2, C.
  destruct (Nat.eqb_spec k p) as [->|Hk].
  - destruct P2 as (c & Hc & _). rewrite Hc, Hch. reflexivity.
  - reflexivity. }
destruct (Z.leb_spec ulp 9) as [Hu|Hu].
- destruct l as [k|]; [|discriminate].
  intros E. apply (K _ ltac:(discriminate) E).
  unfold ulp_char. destruct (Z.leb_spec ulp 9); [reflexivity|lia].
- destruct hex; [|discriminate].
  destruct (2147483647 <? 65 + ulp)%Z; [discriminate|].
  destruct l as [k|]; [|discriminate].
  intros E. apply (K _ ltac:(discriminate) E).
  unfold ulp_char. destruct (Z.leb_spec ulp 9); [lia|reflexivity].
Qed.

Lemma Parse_error_representation_spec_witness :
exists p,
  ((p < mantissa_length false "1.50e3")%nat
   /\ (exists c, get p "1.50e3" = Some c /\ is_digit false c = true)
   /\ (forall j c, (p < j < mantissa_length false "1.50e3")%nat ->
                   get j "1.50e3" = Some c -> is_digit false c = false))
  /\ length "0.20e3" = length "1.50e3"
  /\ forall k,
       get k "0.20e3"
       = match get k "1.50e3" with
         | None => None
         | Some c =>
             Some (if (k =? p)%nat then ulp_char 2
                   else if (k <? mantissa_length false "1.50e3")%nat
                           && is_digit false c
                        then "0"%char else c)
         end.
Proof.
apply (Parse_error_representation_spec "1.50e3" 2 "0.20e3"). reflexivity.
Defined.

End Parse.
